(** * ABI fragments: tokenizer, parameter types, fragments and value walker

    A shallow embedding of the human-readable ABI module (the lexer [lex],
    the cursor [TokenString], [ParamType], the six [Fragment] variants, their
    formatters and the value walkers), followed by the properties that hold
    of it.

    Conventions of the embedding.
    - A JavaScript string is a [string]; its characters are read as UTF-16
      code units below 256, so the class [\s] is the Latin-1 part of it.
    - A thrown exception is [Throw e]; every [throw] of the source has its
      own constructor of [error] (template messages keep their data instead
      of the rendered text).
    - A loop of the source that has no syntactic bound runs on fuel, and
      [Diverge] is the outcome of running out of it; it is not an exception
      and is not caught by a [try]. *)

From Stdlib Require Import String Ascii ZArith List Lia Bool DecimalString DecimalPos.
From stdpp Require Import base list strings.
Import ListNotations.
Set Warnings "-register-all".
#[global] Arguments String.append !s1 s2 / : simpl nomatch.
Open Scope string_scope.
Open Scope Z_scope.
Open Scope nat_scope.

(** ** JavaScript values

    Values of type [any]: the interchange objects handed to the [from]
    factories, the values given to the walkers, and what [JSON.parse]
    returns.  An object is an object literal or what [JSON.parse] makes:
    the association list of its own properties in insertion order, with
    [Object.prototype] as its prototype.  What such an object inherits is
    a value too: a built-in function, known by its name, or
    [Object.prototype] itself.  A value holds plain data: no instance of
    [ParamType] or of a fragment class is inside it. *)

Inductive jsval : Type :=
| JUndefined
| JNull
| JBool (b : bool)
| JNum (n : Z)
| JBigInt (n : Z)
| JStr (s : string)
| JArr (items : list jsval)
| JObj (props : list (string * jsval))
| JFunction (name : string)
| JObjectPrototype.

(** [!!v]. *)
Definition truthy (v : jsval) : bool :=
  match v with
  | JUndefined | JNull => false
  | JBool b => b
  | JNum n | JBigInt n => negb (n =? 0)%Z
  | JStr s => negb (s =? "")%string
  | JArr _ | JObj _ | JFunction _ | JObjectPrototype => true
  end.

(** [v == null]. *)
Definition nullish (v : jsval) : bool :=
  match v with JUndefined | JNull => true | _ => false end.

Fixpoint assoc {A} (k : string) (l : list (string * A)) : option A :=
  match l with
  | [] => None
  | (k', v) :: l' => if (k =? k')%string then Some v else assoc k l'
  end.

(** ** Tokens *)

Inductive TokenType :=
| T_NONE          (* the initial [""] *)
| OPEN_PAREN | CLOSE_PAREN | OPEN_BRACKET | CLOSE_BRACKET | COMMA | AT
| BRACKET | KEYWORD | TYPE | ID | NUMBER.

Definition TokenType_eqb (a b : TokenType) : bool :=
  match a, b with
  | T_NONE, T_NONE | OPEN_PAREN, OPEN_PAREN | CLOSE_PAREN, CLOSE_PAREN
  | OPEN_BRACKET, OPEN_BRACKET | CLOSE_BRACKET, CLOSE_BRACKET
  | COMMA, COMMA | AT, AT | BRACKET, BRACKET | KEYWORD, KEYWORD
  | TYPE, TYPE | ID, ID | NUMBER, NUMBER => true
  | _, _ => false
  end.

Record Token := mkToken {
  tk_type : TokenType;
  tk_offset : nat;
  tk_text : string;
  tk_depth : Z;
  tk_match : Z;
  tk_linkBack : Z;
  tk_linkNext : Z;
  tk_value : Z
}.

Definition set_match (m : Z) (t : Token) : Token :=
  mkToken (tk_type t) (tk_offset t) (tk_text t) (tk_depth t) m
          (tk_linkBack t) (tk_linkNext t) (tk_value t).
Definition set_linkBack (m : Z) (t : Token) : Token :=
  mkToken (tk_type t) (tk_offset t) (tk_text t) (tk_depth t) (tk_match t)
          m (tk_linkNext t) (tk_value t).
Definition set_linkNext (m : Z) (t : Token) : Token :=
  mkToken (tk_type t) (tk_offset t) (tk_text t) (tk_depth t) (tk_match t)
          (tk_linkBack t) m (tk_value t).
Definition set_value (v : Z) (t : Token) : Token :=
  mkToken (tk_type t) (tk_offset t) (tk_text t) (tk_depth t) (tk_match t)
          (tk_linkBack t) (tk_linkNext t) v.
Definition set_text (s : string) (t : Token) : Token :=
  mkToken (tk_type t) (tk_offset t) s (tk_depth t) (tk_match t)
          (tk_linkBack t) (tk_linkNext t) (tk_value t).

(** ** Parameter types (the data; the factories come later) *)

Inductive ParamType : Type :=
  mkParamType (name : string) (type : string) (baseType : string)
              (indexed : jsval)
              (components : option (list ParamType))
              (arrayLength : option Z)
              (arrayChildren : option ParamType).

Definition pt_name (p : ParamType) : string :=
  match p with mkParamType n _ _ _ _ _ _ => n end.
Definition pt_type (p : ParamType) : string :=
  match p with mkParamType _ t _ _ _ _ _ => t end.
Definition pt_baseType (p : ParamType) : string :=
  match p with mkParamType _ _ b _ _ _ _ => b end.
Definition pt_indexed (p : ParamType) : jsval :=
  match p with mkParamType _ _ _ i _ _ _ => i end.
Definition pt_components (p : ParamType) : option (list ParamType) :=
  match p with mkParamType _ _ _ _ c _ _ => c end.
Definition pt_arrayLength (p : ParamType) : option Z :=
  match p with mkParamType _ _ _ _ _ l _ => l end.
Definition pt_arrayChildren (p : ParamType) : option ParamType :=
  match p with mkParamType _ _ _ _ _ _ c => c end.

(** ** Errors and outcomes *)

Inductive argvalue :=
| AStr (s : string)
| AJs (v : jsval)
| AParams (ps : list ParamType)
| ATokens (ts : list Token).

Inductive error :=
| Error (message : string)
    (* [new Error(message)] with a constant message *)
| InvalidToken (token : option ascii) (at_ : nat) (message : string)
    (* lex: [invalid token ${ token } at ${ offset }: ${ message }];
       [None] is [$EOI] *)
| UnexpectedToken (c : option ascii) (position : nat)
    (* lex: [unexpected token ${ JSON.stringify(cur[0]) } at position ${ offset }];
       [None] is [undefined] *)
| ExpectedKeyword (text : string)
| ExpectedType (type : TokenType) (got : Token)
| ExpectedGot (type keyword : string)
| DuplicateKeywords (keyword : string)
| ConflictingTypes (included : list string)
| UnexpectedTokens (tokens : list Token)
| MissingValue (name : string)
| InvalidArgument (message name : string) (value : argvalue)
    (* [assertArgument(false, message, name, value)] *)
| UnsupportedOperation (message operation : string)
    (* [assert(false, message, "UNSUPPORTED_OPERATION", { operation })] *)
| TypeError (message : string)
    (* raised by the language: a property of [undefined], a non-function
       called, a BigInt given to [JSON.stringify] *)
| SyntaxError (message : string).
    (* raised by [JSON.parse] *)

Inductive result (A : Type) : Type :=
| Ok (a : A)
| Throw (e : error)
| Diverge.
Arguments Ok {A} a.
Arguments Throw {A} e.
Arguments Diverge {A}.

Definition bind {A B} (m : result A) (k : A -> result B) : result B :=
  match m with
  | Ok a => k a
  | Throw e => Throw e
  | Diverge => Diverge
  end.

Declare Scope result_scope.
Delimit Scope result_scope with result.
Notation "'let*' x ':=' m 'in' k" := (bind m (fun x => k))
  (at level 10, x name, m at level 100, k at level 200) : result_scope.
Notation "'let*' ' p ':=' m 'in' k" := (bind m (fun x => let 'p := x in k))
  (at level 10, p pattern, m at level 100, k at level 200) : result_scope.
Open Scope result_scope.

(** Modelled from the spec: [assertArgument(check, message, name, value)]
    is imported from the utilities and is not among the sources; when
    [check] does not hold it fails with an invalid-argument error that
    carries the message, the name of the argument and its value.  The
    same holds of [assert(check, message, "UNSUPPORTED_OPERATION", info)],
    whose error is [UnsupportedOperation].  [assertPrivate], which guards
    the constructors, and [defineProperties], which stores the fields,
    have no counterpart here: the constructors are called by the factories
    only, and the fields are those of the records. *)
Definition assertArgument (check : bool) (message name : string) (value : argvalue)
  : result unit :=
  if check then Ok tt else Throw (InvalidArgument message name value).

(** [xs.map(f)] for an [f] that may throw: left to right, the first
    exception ends the traversal. *)
Fixpoint mapR {A B} (f : A -> result B) (l : list A) : result (list B) :=
  match l with
  | [] => Ok []
  | a :: l' => let* b := f a in let* bs := mapR f l' in Ok (b :: bs)
  end.

(** [xs.map((x, i) => f(i, x))], with [i] counted from [start]. *)
Fixpoint mapiR {A B} (f : nat -> A -> result B) (start : nat) (l : list A)
  : result (list B) :=
  match l with
  | [] => Ok []
  | a :: l' => let* b := f start a in let* bs := mapiR f (S start) l' in Ok (b :: bs)
  end.

(** ** Sets of strings

    [setify(items)] builds a [Set]; a [Set] keeps insertion order, so it is
    a list without repetition. *)

Definition has (set : list string) (k : string) : bool :=
  existsb (String.eqb k) set.

Definition add (set : list string) (k : string) : list string :=
  if has set k then set else set ++ [k].

Definition setify (items : list string) : list string :=
  fold_left add items [].

Definition KwVisib : list string :=
  setify ["constant"; "external"; "internal"; "payable"; "private"; "public"; "pure"; "view"].
Definition KwTypes : list string :=
  setify ["constructor"; "error"; "event"; "fallback"; "function"; "receive"; "struct"].
Definition KwModifiers : list string :=
  setify ["calldata"; "memory"; "storage"; "payable"; "indexed"].
Definition KwOther : list string := ["tuple"; "returns"].
Definition Keywords : list string :=
  setify (["constructor"; "error"; "event"; "fallback"; "function"; "receive"; "struct"]
          ++ ["calldata"; "memory"; "storage"; "payable"; "indexed"]
          ++ KwOther
          ++ ["constant"; "external"; "internal"; "payable"; "private"; "public"; "pure"; "view"]).

(** ** Characters and the four parser regexes *)

Definition code (c : ascii) : nat := nat_of_ascii c.

Definition between (lo hi : nat) (c : ascii) : bool :=
  (lo <=? code c) && (code c <=? hi).

(** [\s], on code units below 256: tab, line feed, vertical tab, form feed,
    carriage return, space and the no-break space. *)
Definition is_space (c : ascii) : bool :=
  between 9 13 c || (code c =? 32) || (code c =? 160).

Definition is_digit (c : ascii) : bool := between 48 57 c.

Definition is_alpha (c : ascii) : bool := between 65 90 c || between 97 122 c.

(** [[a-zA-Z$_]] *)
Definition is_id_start (c : ascii) : bool :=
  is_alpha c || (code c =? 36) || (code c =? 95).

(** [[a-zA-Z0-9$_]] *)
Definition is_id_char (c : ascii) : bool := is_id_start c || is_digit c.

(** The longest prefix whose characters satisfy [p], and what follows it. *)
Fixpoint span (p : ascii -> bool) (s : string) : string * string :=
  match s with
  | EmptyString => (EmptyString, EmptyString)
  | String c s' =>
      if p c then let '(a, b) := span p s' in (String c a, b)
      else (EmptyString, s)
  end.

(** [text.substring(offset)] *)
Fixpoint substring_from (offset : nat) (text : string) : string :=
  match offset, text with
  | O, _ => text
  | S n, EmptyString => EmptyString
  | S n, String _ text' => substring_from n text'
  end.

(** [s.startsWith(p)], giving what follows [p]. *)
Fixpoint strip_prefix (p s : string) : option string :=
  match p, s with
  | EmptyString, _ => Some s
  | String a p', String b s' => if Ascii.eqb a b then strip_prefix p' s' else None
  | String _ _, EmptyString => None
  end.

(** [regexWhitespace = ^(\s* )]: always matches; the result is group 1. *)
Definition regexWhitespace (cur : string) : string := fst (span is_space cur).

(** [regexNumber = ^([0-9]+)]: group 1. *)
Definition regexNumber (cur : string) : option string :=
  match span is_digit cur with
  | (EmptyString, _) => None
  | (ds, _) => Some ds
  end.

(** [regexIdentifier = ^([a-zA-Z$_][a-zA-Z0-9$_]* )]: group 1.  The regex is
    anchored at the start only. *)
Definition regexIdentifier (cur : string) : option string :=
  match cur with
  | EmptyString => None
  | String c rest =>
      if is_id_start c then Some (String c (fst (span is_id_char rest))) else None
  end.

(** The groups of a match of
    [regexType = ^(address|bool|bytes([0-9]* )|string|u?int([0-9]* ))]:
    group 1, group 2 (the digits after [bytes]) and group 3 (the digits
    after [int]); a group of an alternative that did not take part is
    [undefined], here [None].  The regex is anchored at the start only. *)
Record TypeMatch := mkTypeMatch {
  tm_1 : string;
  tm_2 : option string;
  tm_3 : option string
}.

Definition regexType (s : string) : option TypeMatch :=
  match strip_prefix "address" s with
  | Some _ => Some (mkTypeMatch "address" None None)
  | None =>
  match strip_prefix "bool" s with
  | Some _ => Some (mkTypeMatch "bool" None None)
  | None =>
  match strip_prefix "bytes" s with
  | Some r => let ds := fst (span is_digit r) in
              Some (mkTypeMatch ("bytes" +:+ ds) (Some ds) None)
  | None =>
  match strip_prefix "string" s with
  | Some _ => Some (mkTypeMatch "string" None None)
  | None =>
  match strip_prefix "uint" s with
  | Some r => let ds := fst (span is_digit r) in
              Some (mkTypeMatch ("uint" +:+ ds) None (Some ds))
  | None =>
  match strip_prefix "int" s with
  | Some r => let ds := fst (span is_digit r) in
              Some (mkTypeMatch ("int" +:+ ds) None (Some ds))
  | None => None
  end end end end end end.

(** [SimpleTokens[c]] *)
Definition SimpleTokens (c : ascii) : option TokenType :=
  if Ascii.eqb c "("%char then Some OPEN_PAREN
  else if Ascii.eqb c ")"%char then Some CLOSE_PAREN
  else if Ascii.eqb c "["%char then Some OPEN_BRACKET
  else if Ascii.eqb c "]"%char then Some CLOSE_BRACKET
  else if Ascii.eqb c ","%char then Some COMMA
  else if Ascii.eqb c "@"%char then Some AT
  else None.

(** ** The tokenizer *)

(** The value of a string of decimal digits. *)
Fixpoint digits_value (acc : Z) (s : string) : Z :=
  match s with
  | EmptyString => acc
  | String c s' => digits_value (10 * acc + Z.of_nat (code c - 48))%Z s'
  end.

(** Modelled from the spec: [getNumber] is imported from the utilities and
    is not among the sources; on the text of a NUMBER token it gives the
    value of the literal, which is attached to the array suffix.  The
    library refuses a value that is not a safe integer. *)
Definition getNumber (value : string) : result Z :=
  let n := digits_value 0 value in
  if (n <=? 9007199254740991)%Z then Ok n
  else Throw (InvalidArgument "invalid numeric string" "value" (AStr value)).

(** The state of the loop of [lex].  The two stacks have their top at the
    head of the list. *)
Record LexState := mkLex {
  lx_tokens : list Token;
  lx_brackets : list nat;
  lx_commas : list nat;
  lx_offset : nat
}.

(** [tokens[i].field = ...] on a token pushed earlier; there is nothing to
    assign to when [tokens[i]] is [undefined]. *)
Definition update (i : nat) (f : Token -> Token) (tokens : list Token)
  : result (list Token) :=
  match tokens !! i with
  | Some t => Ok (<[i := f t]> tokens)
  | None => Throw (TypeError "Cannot set properties of undefined")
  end.

(** [text[offset]] *)
Definition char_at (offset : nat) (text : string) : option ascii :=
  match substring_from offset text with
  | EmptyString => None
  | String c _ => Some c
  end.

(** The type given to the text of an identifier match: a keyword, else a
    type name if [regexType] matches it, else an identifier. *)
Definition classify (text : string) : TokenType :=
  if has Keywords text then KEYWORD
  else match regexType text with
       | Some _ => TYPE
       | None => ID
       end.

(** One turn of the loop, after the leading whitespace has been stripped:
    [cur] is [text.substring(offset)].  The token object is pushed first
    and filled in afterwards in the source; here it is built and then
    appended, and [last] is its index [tokens.length - 1]. *)
Definition lex_token (cur : string) (offset : nat) (st : LexState)
  : result LexState :=
  let tokens := lx_tokens st in
  let brackets := lx_brackets st in
  let commas := lx_commas st in
  let depth := Z.of_nat (length brackets) in
  let last := length tokens in
  let token ty text := mkToken ty offset text depth (-1) (-1) (-1) (-1) in
  match cur with
  | EmptyString =>
      (* cur[0] is undefined: no simple token, no identifier, no number *)
      Throw (UnexpectedToken None offset)
  | String c after =>
      match SimpleTokens c with
      | Some ty =>
          let text := String c EmptyString in
          let offset' := offset + 1 in
          match ty with
          | OPEN_PAREN =>
              Ok (mkLex (tokens ++ [token OPEN_PAREN text])
                        (last :: brackets) (last :: commas) offset')
          | CLOSE_PAREN =>
              match brackets with
              | [] =>
                  (* throwError reads text[offset] after the increment *)
                  Throw (InvalidToken (char_at 0 after) offset' "no matching open bracket")
              | m :: brackets' =>
                  match commas with
                  | [] => Throw (TypeError "Cannot set properties of undefined")
                  | lb :: commas' =>
                      let tok := mkToken CLOSE_PAREN offset text (depth - 1)
                                         (Z.of_nat m) (Z.of_nat lb) (-1) (-1) in
                      let* tokens1 := update m (set_match (Z.of_nat last)) (tokens ++ [tok]) in
                      let* tokens2 := update lb (set_linkNext (Z.of_nat last)) tokens1 in
                      Ok (mkLex tokens2 brackets' commas' offset')
                  end
              end
          | COMMA =>
              match commas with
              | [] => Throw (TypeError "Cannot set properties of undefined")
              | lb :: commas' =>
                  let tok := mkToken COMMA offset text depth (-1) (Z.of_nat lb) (-1) (-1) in
                  let* tokens1 := update lb (set_linkNext (Z.of_nat last)) (tokens ++ [tok]) in
                  Ok (mkLex tokens1 brackets (last :: commas') offset')
              end
          | OPEN_BRACKET =>
              Ok (mkLex (tokens ++ [token BRACKET text]) brackets commas offset')
          | CLOSE_BRACKET =>
              (* the token just pushed is popped again; [tokens] is the
                 array without it *)
              let suffix := text in
              let* '(tokens1, suffix1) :=
                match tokens !! (length tokens - 1) with
                | Some t =>
                    if TokenType_eqb (tk_type t) NUMBER then
                      let value := tk_text t in
                      let popped := removelast tokens in
                      let* n := getNumber value in
                      let* tokens' := update (length popped - 1) (set_value n) popped in
                      Ok (tokens', value +:+ suffix)
                    else Ok (tokens, suffix)
                | None => Ok (tokens, suffix)
                end in
              match tokens1 !! (length tokens1 - 1) with
              | Some t =>
                  if TokenType_eqb (tk_type t) BRACKET then
                    let* tokens2 := update (length tokens1 - 1)
                                           (set_text (tk_text t +:+ suffix1)) tokens1 in
                    Ok (mkLex tokens2 brackets commas offset')
                  else Throw (Error "missing opening bracket")
              | None => Throw (Error "missing opening bracket")
              end
          | _ =>
              (* AT *)
              Ok (mkLex (tokens ++ [token ty text]) brackets commas offset')
          end
      | None =>
          match regexIdentifier cur with
          | Some text =>
              let offset' := offset + String.length text in
              Ok (mkLex (tokens ++ [mkToken (classify text) offset text depth (-1) (-1) (-1) (-1)])
                        brackets commas offset')
          | None =>
              match regexNumber cur with
              | Some text =>
                  Ok (mkLex (tokens ++ [mkToken NUMBER offset text depth (-1) (-1) (-1) (-1)])
                            brackets commas (offset + String.length text))
              | None => Throw (UnexpectedToken (Some c) offset)
              end
          end
      end
  end.

(** One turn of [while (offset < text.length)]: strip the leading
    whitespace, then read one token. *)
Definition lex_step (text : string) (st : LexState) : result LexState :=
  let cur := substring_from (lx_offset st) text in
  let offset := lx_offset st + String.length (regexWhitespace cur) in
  let cur := substring_from offset text in
  lex_token cur offset st.

Fixpoint lex_loop (fuel : nat) (text : string) (st : LexState)
  : result (list Token) :=
  if lx_offset st <? String.length text then
    match fuel with
    | O => Diverge
    | S fuel' => let* st' := lex_step text st in lex_loop fuel' text st'
    end
  else Ok (lx_tokens st).

(** ** TokenString: a token array and a cursor *)

Record TokenString := mkTokenString {
  ts_offset : Z;
  ts_tokens : list Token
}.

(** Every turn of the loop of [lex] consumes a character or throws, so the
    length of the text is fuel enough (see [lex_loop_terminates]). *)
Definition lex (text : string) : result TokenString :=
  let* tokens := lex_loop (String.length text) text (mkLex [] [] [] 0) in
  Ok (mkTokenString 0 tokens).

(** [tokens[i]] for a number [i]: [undefined] outside the array. *)
Definition token_at (i : Z) (tokens : list Token) : option Token :=
  if (i <? 0)%Z then None else tokens !! Z.to_nat i.

(** [Array.prototype.slice(from, to)]: a negative index counts from the
    end, and both ends are clamped to the array. *)
Definition slice {A} (from to : Z) (l : list A) : list A :=
  let len := Z.of_nat (length l) in
  let k := if (from <? 0)%Z then Z.max (len + from) 0 else Z.min from len in
  let final := if (to <? 0)%Z then Z.max (len + to) 0 else Z.min to len in
  take (Z.to_nat (final - k)) (drop (Z.to_nat k) l).

Definition TokenString_new (tokens : list Token) : TokenString :=
  mkTokenString 0 tokens.

Definition ts_length (ts : TokenString) : Z :=
  (Z.of_nat (length (ts_tokens ts)) - ts_offset ts)%Z.

Definition set_offset (offset : Z) (ts : TokenString) : TokenString :=
  mkTokenString offset (ts_tokens ts).

(** [#subTokenString(from, to)]: the slice, with the three links counted
    from [from]. *)
Definition subTokenString (from to : Z) (ts : TokenString) : TokenString :=
  TokenString_new
    (map (fun t => set_linkNext (tk_linkNext t - from)
                     (set_linkBack (tk_linkBack t - from)
                        (set_match (tk_match t - from) t)))
         (slice from to (ts_tokens ts))).

(** [peek()].  Behind a negative cursor [tokens[offset]] is [undefined], and
    every caller reads a property of the result at once. *)
Definition peek (ts : TokenString) : result Token :=
  if (Z.of_nat (length (ts_tokens ts)) <=? ts_offset ts)%Z
  then Throw (Error "out-of-bounds")
  else match token_at (ts_offset ts) (ts_tokens ts) with
       | Some t => Ok t
       | None => Throw (TypeError "Cannot read properties of undefined")
       end.

(** [pop()] *)
Definition pop (ts : TokenString) : result (Token * TokenString) :=
  let* result := peek ts in
  Ok (result, set_offset (ts_offset ts + 1) ts).

(** [peekType(type)]: [null] is [None]. *)
Definition peekType (type : TokenType) (ts : TokenString) : result (option string) :=
  if (ts_length ts =? 0)%Z then Ok None
  else
    let* top := peek ts in
    Ok (if TokenType_eqb (tk_type top) type then Some (tk_text top) else None).

(** [peekKeyword(allowed)] *)
Definition peekKeyword (allowed : list string) (ts : TokenString)
  : result (option string) :=
  let* top := peekType KEYWORD ts in
  Ok (match top with
      | Some k => if has allowed k then Some k else None
      | None => None
      end).

(** The truth value of a [null | string]. *)
Definition truthy_str (o : option string) : bool :=
  match o with
  | Some s => negb (s =? "")%string
  | None => false
  end.

(** [popKeyword(allowed)] *)
Definition popKeyword (allowed : list string) (ts : TokenString)
  : result (string * TokenString) :=
  let* top := peek ts in
  if negb (TokenType_eqb (tk_type top) KEYWORD) || negb (has allowed (tk_text top))
  then Throw (ExpectedKeyword (tk_text top))
  else let* '(t, ts') := pop ts in Ok (tk_text t, ts').

(** [popType(type)] *)
Definition popType (type : TokenType) (ts : TokenString)
  : result (string * TokenString) :=
  let* top := peek ts in
  if negb (TokenType_eqb (tk_type top) type)
  then Throw (ExpectedType type top)
  else let* '(t, ts') := pop ts in Ok (tk_text t, ts').

(** [popParen()] *)
Definition popParen (ts : TokenString) : result (TokenString * TokenString) :=
  let* top := peek ts in
  if negb (TokenType_eqb (tk_type top) OPEN_PAREN) then Throw (Error "bad start")
  else
    let result := subTokenString (ts_offset ts + 1) (tk_match top + 1) ts in
    Ok (result, set_offset (tk_match top + 1) ts).

(** The loop of [popParams]: [while (this.#offset < top.match - 1)]. *)
Fixpoint popParams_loop (fuel : nat) (top_match : Z) (ts : TokenString)
         (result_ : list TokenString) : result (list TokenString * TokenString) :=
  if (ts_offset ts <? top_match - 1)%Z then
    match fuel with
    | O => Diverge
    | S fuel' =>
        let* t := peek ts in
        let link := tk_linkNext t in
        popParams_loop fuel' top_match (set_offset link ts)
          (result_ ++ [subTokenString (ts_offset ts + 1) link ts])
    end
  else Ok (result_, ts).

(** [popParams()].  In a token array made by [lex] every link points
    forward, so the loop takes at most one turn per token. *)
Definition popParams (ts : TokenString) : result (list TokenString * TokenString) :=
  let* top := peek ts in
  if negb (TokenType_eqb (tk_type top) OPEN_PAREN) then Throw (Error "bad start")
  else
    let* '(result_, ts1) :=
      popParams_loop (S (length (ts_tokens ts))) (tk_match top) ts [] in
    Ok (result_, set_offset (tk_match top + 1) ts1).

(** [toString()] lists the tokens from the cursor on; the error that
    carries it keeps the tokens themselves. *)
Definition remaining (ts : TokenString) : list Token :=
  drop (Z.to_nat (ts_offset ts)) (ts_tokens ts).

(** ** Reading a signature from left to right *)

(** [for (const key in allowed.keys())] enumerates the enumerable
    string-keyed properties of the object [allowed.keys()].  That object is
    a Set iterator: its only properties, [next] and the well-known symbols,
    live on its prototype and are not enumerable, so there is no key to
    enumerate, whatever the set holds. *)
Definition for_in_keys_of_iterator (allowed : list string) : list string := [].

(** [allowSingle(set, allowed)] *)
Definition allowSingle (set allowed : list string) : result unit :=
  let included := filter (fun key => has set key = true)
                         (for_in_keys_of_iterator allowed) in
  if 1 <? length included then Throw (ConflictingTypes included) else Ok tt.

(** [consumeName(type, tokens)] *)
Definition consumeName (type : string) (tokens : TokenString)
  : result (string * TokenString) :=
  let* k := peekKeyword KwTypes tokens in
  let* tokens1 :=
    if truthy_str k then
      let* '(t, tokens') := pop tokens in
      let keyword := tk_text t in
      if negb (keyword =? type)%string then Throw (ExpectedGot type keyword)
      else Ok tokens'
    else Ok tokens in
  popType ID tokens1.

(** The loop of [consumeKeywords]; every turn pops a token. *)
Fixpoint consumeKeywords_loop (fuel : nat) (tokens : TokenString)
         (allowed : list string) (keywords : list string)
  : result (list string * TokenString) :=
  match fuel with
  | O => Diverge
  | S fuel' =>
      let* keyword := peekType KEYWORD tokens in
      match keyword with
      | None => Ok (keywords, tokens)
      | Some kw =>
          if negb (has allowed kw) then Ok (keywords, tokens)
          else
            let* '(_, tokens') := pop tokens in
            if has keywords kw then Throw (DuplicateKeywords kw)
            else consumeKeywords_loop fuel' tokens' allowed (add keywords kw)
      end
  end.

(** [consumeKeywords(tokens, allowed)]; every caller passes [allowed]. *)
Definition consumeKeywords (tokens : TokenString) (allowed : list string)
  : result (list string * TokenString) :=
  consumeKeywords_loop (S (length (ts_tokens tokens))) tokens allowed [].

(** [consumeMutability(tokens)] *)
Definition consumeMutability (tokens : TokenString)
  : result (string * TokenString) :=
  let* '(modifiers, tokens') := consumeKeywords tokens KwVisib in
  let* _ := allowSingle modifiers (setify ["constant"; "payable"; "nonpayable"]) in
  let* _ := allowSingle modifiers (setify ["pure"; "view"; "payable"; "nonpayable"]) in
  if has modifiers "view" then Ok ("view", tokens')
  else if has modifiers "pure" then Ok ("pure", tokens')
  else if has modifiers "payable" then Ok ("payable", tokens')
  else if has modifiers "nonpayable" then Ok ("nonpayable", tokens')
  else if has modifiers "constant" then Ok ("view", tokens')
  else Ok ("nonpayable", tokens').

(** Modelled from the spec: [getBigInt] is imported from the utilities and
    is not among the sources; on the text of a NUMBER token it gives the
    integer written there. *)
Definition getBigInt (value : string) : Z := digits_value 0 value.

(** [consumeGas(tokens)]: a BigInt, or [null]. *)
Definition consumeGas (tokens : TokenString) : result (jsval * TokenString) :=
  let* a := peekType AT tokens in
  if truthy_str a then
    let* '(_, tokens1) := pop tokens in
    let* n := peekType NUMBER tokens1 in
    if truthy_str n then
      let* '(t, tokens2) := pop tokens1 in
      Ok (JBigInt (getBigInt (tk_text t)), tokens2)
    else Throw (Error "invalid gas")
  else Ok (JNull, tokens).

(** [consumeEoi(tokens)] *)
Definition consumeEoi (tokens : TokenString) : result unit :=
  if negb (ts_length tokens =? 0)%Z then Throw (UnexpectedTokens (remaining tokens))
  else Ok tt.

(** [parseInt] of a string of digits: the number written, which is what
    the source computes up to 2^53; beyond it the source rounds to a
    double, and the properties below do not go there. *)
Definition parseInt (digits : string) : Z := digits_value 0 digits.

(** [verifyBasicType(type)] *)
Definition verifyBasicType (type : string) : result string :=
  match regexType type with
  | None => Throw (InvalidArgument "invalid type" "type" (AStr type))
  | Some m =>
      if (type =? "uint")%string then Ok "uint256"
      else if (type =? "int")%string then Ok "int256"
      else if truthy_str (tm_2 m) then
        let length := parseInt (default "" (tm_2 m)) in
        let* _ := assertArgument (negb (length =? 0)%Z && (length <=? 32)%Z)
                    "invalid bytes length" "type" (AStr type) in
        Ok type
      else if truthy_str (tm_3 m) then
        let size := parseInt (default "" (tm_3 m)) in
        let* _ := assertArgument (negb (size =? 0)%Z && (size <=? 256)%Z
                                  && (size mod 8 =? 0)%Z)
                    "invalid numeric width" "type" (AStr type) in
        Ok type
      else Ok type
  end.

(** ** JSON.stringify and JSON.parse

    The two built-ins, on the values above.  Numbers are integers (a
    fraction or an exponent is refused by this [JSON_parse]), and of the
    escapes only those of a quote, a backslash and the control characters
    are written and read. *)

Definition quote : string := String "034"%char EmptyString.
Definition backslash : string := String "092"%char EmptyString.

Definition Z_to_string (n : Z) : string :=
  DecimalString.NilZero.string_of_int (Z.to_int n).

Definition hex_digit (n : nat) : ascii :=
  ascii_of_nat (if n <? 10 then 48 + n else 87 + n).

Fixpoint escape (s : string) : string :=
  match s with
  | EmptyString => EmptyString
  | String c s' =>
      (if code c =? 34 then backslash +:+ quote
       else if code c =? 92 then backslash +:+ backslash
       else if code c =? 10 then backslash +:+ "n"
       else if code c =? 13 then backslash +:+ "r"
       else if code c =? 9 then backslash +:+ "t"
       else if code c =? 8 then backslash +:+ "b"
       else if code c =? 12 then backslash +:+ "f"
       else if code c <? 32 then
         backslash +:+ "u00" +:+ String (hex_digit (code c / 16))
                                   (String (hex_digit (code c mod 16)) EmptyString)
       else String c EmptyString) +:+ escape s'
  end.

Definition quoted (s : string) : string := quote +:+ escape s +:+ quote.

(** The text of a value, or [None] where [JSON.stringify] gives
    [undefined].  A property whose value is [undefined] or a function is
    left out; inside an array they are written [null]; a BigInt is a
    TypeError.  No property of [Object.prototype] is enumerable. *)
Fixpoint stringify (v : jsval) : result (option string) :=
  match v with
  | JUndefined => Ok None
  | JNull => Ok (Some "null")
  | JBool b => Ok (Some (if b then "true" else "false"))
  | JNum n => Ok (Some (Z_to_string n))
  | JBigInt _ => Throw (TypeError "Do not know how to serialize a BigInt")
  | JStr s => Ok (Some (quoted s))
  | JArr items =>
      let* parts := mapR (fun x => let* o := stringify x in Ok (default "null" o)) items in
      Ok (Some ("[" +:+ String.concat "," parts +:+ "]"))
  | JObj props =>
      let* parts :=
        (fix go (ps : list (string * jsval)) : result (list string) :=
           match ps with
           | [] => Ok []
           | (k, x) :: ps' =>
               let* o := stringify x in
               let* rest := go ps' in
               Ok (match o with
                   | Some t => (quoted k +:+ ":" +:+ t) :: rest
                   | None => rest
                   end)
           end) props in
      Ok (Some ("{" +:+ String.concat "," parts +:+ "}"))
  | JFunction _ => Ok None
  | JObjectPrototype => Ok (Some "{}")
  end.

(** [JSON.stringify(v)] where a string is expected of it. *)
Definition JSON_stringify (v : jsval) : result string :=
  let* o := stringify v in
  match o with
  | Some s => Ok s
  | None => Throw (TypeError "JSON.stringify gave undefined")
  end.

Definition is_json_space (c : ascii) : bool :=
  (code c =? 32) || (code c =? 9) || (code c =? 10) || (code c =? 13).

Definition skip_ws (s : string) : string := snd (span is_json_space s).

(** [obj[k] = v]: an existing key keeps its place. *)
Fixpoint obj_set (k : string) (v : jsval) (props : list (string * jsval))
  : list (string * jsval) :=
  match props with
  | [] => [(k, v)]
  | (k', v') :: ps => if (k =? k')%string then (k, v) :: ps
                      else (k', v') :: obj_set k v ps
  end.

Definition unhex (c : ascii) : option nat :=
  if is_digit c then Some (code c - 48)
  else if between 97 102 c then Some (code c - 87)
  else if between 65 70 c then Some (code c - 55)
  else None.

(** The character an escape of one letter stands for. *)
Definition simple_escape (e : ascii) : option nat :=
  if code e =? 34 then Some 34
  else if code e =? 92 then Some 92
  else if code e =? 47 then Some 47
  else if code e =? 110 then Some 10
  else if code e =? 114 then Some 13
  else if code e =? 116 then Some 9
  else if code e =? 98 then Some 8
  else if code e =? 102 then Some 12
  else None.

(** The body of a string literal, after its opening quote. *)
Fixpoint parse_string_body (s : string) : result (string * string) :=
  match s with
  | EmptyString => Throw (SyntaxError "Unterminated string in JSON")
  | String c s' =>
      if code c =? 34 then Ok (EmptyString, s')
      else if code c <? 32 then Throw (SyntaxError "Bad control character in string literal")
      else if code c =? 92 then
        match s' with
        | String e s'' =>
            match simple_escape e with
            | Some x =>
                let* '(body, after) := parse_string_body s'' in
                Ok (String (ascii_of_nat x) body, after)
            | None =>
                if code e =? 117 then
                  match s'' with
                  | String a (String b (String h (String l s3))) =>
                      match unhex a, unhex b, unhex h, unhex l with
                      | Some 0, Some 0, Some x, Some y =>
                          let* '(body, after) := parse_string_body s3 in
                          Ok (String (ascii_of_nat (16 * x + y)) body, after)
                      | _, _, _, _ => Throw (SyntaxError "Bad Unicode escape")
                      end
                  | _ => Throw (SyntaxError "Bad Unicode escape")
                  end
                else Throw (SyntaxError "Bad escaped character")
            end
        | EmptyString => Throw (SyntaxError "Unterminated string in JSON")
        end
      else
        let* '(body, after) := parse_string_body s' in
        Ok (String c body, after)
  end.

Definition parse_number (s : string) : result (jsval * string) :=
  let '(neg, s1) := match s with
                    | String c s' => if code c =? 45 then (true, s') else (false, s)
                    | EmptyString => (false, s)
                    end in
  match span is_digit s1 with
  | (EmptyString, _) => Throw (SyntaxError "Unexpected token")
  | (ds, after) =>
      let leading_zero := match ds with
                          | String z (String _ _) => code z =? 48
                          | _ => false
                          end in
      let continues := match after with
                       | String c _ => (code c =? 46) || (code c =? 101) || (code c =? 69)
                       | EmptyString => false
                       end in
      if leading_zero || continues then Throw (SyntaxError "Unexpected number")
      else Ok (JNum (if neg then - digits_value 0 ds else digits_value 0 ds)%Z, after)
  end.

Fixpoint parse_value (fuel : nat) (s : string) : result (jsval * string) :=
  match fuel with
  | O => Diverge
  | S fuel' =>
      let s := skip_ws s in
      match s with
      | EmptyString => Throw (SyntaxError "Unexpected end of JSON input")
      | String c after =>
          if code c =? 34 then
            let* '(body, rest) := parse_string_body after in Ok (JStr body, rest)
          else if code c =? 91 then
            match skip_ws after with
            | String d rest => if code d =? 93 then Ok (JArr [], rest)
                               else parse_items fuel' after []
            | EmptyString => Throw (SyntaxError "Unexpected end of JSON input")
            end
          else if code c =? 123 then
            match skip_ws after with
            | String d rest => if code d =? 125 then Ok (JObj [], rest)
                               else parse_props fuel' after []
            | EmptyString => Throw (SyntaxError "Unexpected end of JSON input")
            end
          else match strip_prefix "true" s, strip_prefix "false" s, strip_prefix "null" s with
               | Some rest, _, _ => Ok (JBool true, rest)
               | _, Some rest, _ => Ok (JBool false, rest)
               | _, _, Some rest => Ok (JNull, rest)
               | None, None, None => parse_number s
               end
      end
  end
with parse_items (fuel : nat) (s : string) (acc : list jsval) : result (jsval * string) :=
  match fuel with
  | O => Diverge
  | S fuel' =>
      let* '(v, rest) := parse_value fuel' s in
      match skip_ws rest with
      | String c rest' =>
          if code c =? 44 then parse_items fuel' rest' (acc ++ [v])
          else if code c =? 93 then Ok (JArr (acc ++ [v]), rest')
          else Throw (SyntaxError "Unexpected token")
      | EmptyString => Throw (SyntaxError "Unexpected end of JSON input")
      end
  end
with parse_props (fuel : nat) (s : string) (acc : list (string * jsval))
  : result (jsval * string) :=
  match fuel with
  | O => Diverge
  | S fuel' =>
      match skip_ws s with
      | String q after =>
          if code q =? 34 then
            let* '(k, rest) := parse_string_body after in
            match skip_ws rest with
            | String c rest1 =>
                if code c =? 58 then
                  let* '(v, rest2) := parse_value fuel' rest1 in
                  match skip_ws rest2 with
                  | String d rest3 =>
                      if code d =? 44 then parse_props fuel' rest3 (obj_set k v acc)
                      else if code d =? 125 then Ok (JObj (obj_set k v acc), rest3)
                      else Throw (SyntaxError "Unexpected token")
                  | EmptyString => Throw (SyntaxError "Unexpected end of JSON input")
                  end
                else Throw (SyntaxError "Unexpected token")
            | EmptyString => Throw (SyntaxError "Unexpected end of JSON input")
            end
          else Throw (SyntaxError "Unexpected token")
      | EmptyString => Throw (SyntaxError "Unexpected end of JSON input")
      end
  end.

(** [JSON.parse(text)].  Every call of the parser consumes a character, so
    twice the length of the text is fuel enough. *)
Definition JSON_parse (text : string) : result jsval :=
  let* '(v, rest) := parse_value (2 * String.length text + 2) text in
  match skip_ws rest with
  | EmptyString => Ok v
  | String _ _ => Throw (SyntaxError "Unexpected non-whitespace character after JSON")
  end.

(** ** ParamType *)

Inductive FormatType := sighash | minimal | full | json.

Definition FormatType_eqb (a b : FormatType) : bool :=
  match a, b with
  | sighash, sighash | minimal, minimal | full, full | json, json => true
  | _, _ => false
  end.

(** [new ParamType(_guard, name, type, baseType, indexed, components,
    arrayLength, arrayChildren)]; the guard is always the module's own. *)
Definition ParamType_new (name type baseType : string) (indexed : jsval)
           (components : option (list ParamType))
           (arrayLength : option Z) (arrayChildren : option ParamType)
  : result ParamType :=
  let* _ :=
    if (baseType =? "array")%string then
      if negb (bool_decide (is_Some arrayLength)) || negb (bool_decide (is_Some arrayChildren))
      then Throw (Error "") else Ok tt
    else if bool_decide (is_Some arrayLength) || bool_decide (is_Some arrayChildren)
      then Throw (Error "") else Ok tt in
  let* _ :=
    if (baseType =? "tuple")%string then
      if negb (bool_decide (is_Some components)) then Throw (Error "") else Ok tt
    else if bool_decide (is_Some components) then Throw (Error "") else Ok tt in
  Ok (mkParamType name type baseType indexed components arrayLength arrayChildren).

Definition isArray (p : ParamType) : bool := (pt_baseType p =? "array")%string.
Definition isTuple (p : ParamType) : bool := (pt_baseType p =? "tuple")%string.
Definition isIndexable (p : ParamType) : bool := negb (nullish (pt_indexed p)).

(** [JSON.parse] is the last step of every use the formatters make of a
    nested [format(json)]. *)
Definition parsed (r : result string) : result jsval :=
  let* s := r in JSON_parse s.

(** [format(format)]; an absent [format] is [sighash]. *)
Fixpoint ParamType_format (format : FormatType) (p : ParamType) {struct p}
  : result string :=
  match p with
  | mkParamType name type baseType indexed components arrayLength arrayChildren =>
      if FormatType_eqb format json then
        let result_ :=
          [("type", JStr (if (baseType =? "tuple")%string then "tuple" else type));
           ("name", if negb (name =? "")%string then JStr name else JUndefined)] in
        let result1 :=
          match indexed with
          | JBool _ => (result_ ++ [("indexed", indexed)])%list
          | _ => result_
          end in
        let* result2 :=
          if (baseType =? "tuple")%string then
            match components with
            | Some comps =>
                let* cs := mapR (fun c => parsed (ParamType_format format c)) comps in
                Ok (result1 ++ [("components", JArr cs)])%list
            | None => Throw (TypeError "Cannot read properties of null")
            end
          else Ok result1 in
        JSON_stringify (JObj result2)
      else
        let* result_ :=
          if (baseType =? "array")%string then
            match arrayChildren, arrayLength with
            | Some child, Some len =>
                let* inner := ParamType_format format child in
                Ok (inner +:+ "[" +:+ (if (len <? 0)%Z then "" else Z_to_string len) +:+ "]")
            | _, _ => Throw (TypeError "Cannot read properties of null")
            end
          else if (baseType =? "tuple")%string then
            match components with
            | Some comps =>
                let* parts := mapR (ParamType_format format) comps in
                Ok ((if negb (FormatType_eqb format sighash) then type else "")
                    +:+ "(" +:+ String.concat (if FormatType_eqb format full then ", " else ",") parts
                    +:+ ")")
            | None => Throw (TypeError "Cannot read properties of null")
            end
          else Ok type in
        Ok (if negb (FormatType_eqb format sighash) then
              let r1 := match indexed with
                        | JBool true => result_ +:+ " indexed"
                        | _ => result_
                        end in
              if FormatType_eqb format full && negb (name =? "")%string
              then r1 +:+ " " +:+ name else r1
            else result_)
  end.

(** [obj.key] for the keys the module reads by name ([type], [name],
    [inputs], [outputs], [components], [indexed], [anonymous], [payable],
    [gas], [stateMutability]): reading a property of [undefined] or [null]
    is a TypeError; an absent property is [undefined].  None of these keys
    is a member of [Object.prototype], so an object has them as own
    properties or not at all; of them a function has its [name]. *)
Definition get (obj : jsval) (key : string) : result jsval :=
  match obj with
  | JUndefined | JNull => Throw (TypeError "Cannot read properties of undefined")
  | JObj props => Ok (default JUndefined (assoc key props))
  | JFunction name => Ok (if (key =? "name")%string then JStr name else JUndefined)
  | _ => Ok JUndefined
  end.

(** The receiver of a string method must be a string. *)
Definition as_string (v : jsval) : result string :=
  match v with
  | JStr s => Ok s
  | JUndefined | JNull => Throw (TypeError "Cannot read properties of undefined")
  | _ => Throw (TypeError "not a function")
  end.

(** The receiver of [.map] must be an array. *)
Definition as_array (v : jsval) : result (list jsval) :=
  match v with
  | JArr items => Ok items
  | JUndefined | JNull => Throw (TypeError "Cannot read properties of undefined")
  | _ => Throw (TypeError "not a function")
  end.

Fixpoint string_rev (s : string) : string :=
  match s with
  | EmptyString => EmptyString
  | String c s' => string_rev s' +:+ String c EmptyString
  end.

(** The class [.] of a regex leaves out the line terminators. *)
Definition is_line_terminator (c : ascii) : bool := (code c =? 10) || (code c =? 13).

Fixpoint string_forallb (p : ascii -> bool) (s : string) : bool :=
  match s with
  | EmptyString => true
  | String c s' => p c && string_forallb p s'
  end.

(** [regexArrayType = ^(.* )\[([0-9]* )\]$]: groups 1 and 2.  The text must
    end in [\[digits\]]; read from the end, the digits are all that lies
    between the last two brackets. *)
Definition regexArrayType (type : string) : option (string * string) :=
  match string_rev type with
  | String c r =>
      if code c =? 93 then
        let '(ds, r1) := span is_digit r in
        match r1 with
        | String b r2 =>
            if (code b =? 91) && string_forallb (fun x => negb (is_line_terminator x)) r2
            then Some (string_rev r2, string_rev ds)
            else None
        | EmptyString => None
        end
      else None
  | EmptyString => None
  end.

(** [s.substring(0, n)] *)
Fixpoint substring_to (n : nat) (s : string) : string :=
  match n, s with
  | S n', String c s' => String c (substring_to n' s')
  | _, _ => EmptyString
  end.

(** [parseInt] of an optional minus sign and digits. *)
Definition parseInt_signed (s : string) : Z :=
  match s with
  | String c s' => if code c =? 45 then (- parseInt s')%Z else parseInt s
  | EmptyString => parseInt s
  end.

(** What [ParamType.from] is given. *)
Inductive ParamSource :=
| PInstance (p : ParamType)
| PTokens (tokens : TokenString)
| PValue (v : jsval).

(** The loop [while (obj.length && obj.peekType("BRACKET"))] of the text
    path; every turn pops a token. *)
Fixpoint array_loop (fuel : nat) (obj : TokenString) (type baseType : string)
         (comps : option (list ParamType)) (arrayLength : option Z)
         (arrayChildren : option ParamType)
  : result (string * string * option (list ParamType) * option Z
            * option ParamType * TokenString) :=
  let done := Ok (type, baseType, comps, arrayLength, arrayChildren, obj) in
  if (ts_length obj =? 0)%Z then done
  else
    let* b := peekType BRACKET obj in
    if truthy_str b then
      match fuel with
      | O => Diverge
      | S fuel' =>
          let* '(bracket, obj') := pop obj in
          let* child := ParamType_new "" type baseType JNull comps arrayLength arrayChildren in
          array_loop fuel' obj' (type +:+ tk_text bracket) "array" None
                     (Some (tk_value bracket)) (Some child)
      end
    else done.

(** The text path of [ParamType.from], on a token string.  [from] is
    [ParamType.from] itself, for the parameters of a tuple. *)
Definition from_tokens (from : ParamSource -> bool -> result ParamType)
           (obj : TokenString) (allowIndexed : bool) : result ParamType :=
  let* '(kws, obj1) := consumeKeywords obj (setify ["tuple"]) in
  let* open := if has kws "tuple" then Ok true
               else let* o := peekType OPEN_PAREN obj1 in Ok (truthy_str o) in
  let* '(type, baseType, comps, obj2) :=
    if (open : bool) then
      let* '(groups, obj2) := popParams obj1 in
      let* comps := mapR (fun t => from (PTokens t) false) groups in
      let* parts := mapR (ParamType_format sighash) comps in
      Ok ("tuple(" +:+ String.concat "," parts +:+ ")", "tuple", Some comps, obj2)
    else
      let* '(t, obj2) := popType TYPE obj1 in
      let* type := verifyBasicType t in
      Ok (type, type, None, obj2) in
  let* '(type, baseType, comps, arrayLength, arrayChildren, obj3) :=
    array_loop (length (ts_tokens obj2)) obj2 type baseType comps None None in
  let* '(keywords, obj4) := consumeKeywords obj3 KwModifiers in
  let* indexed :=
    if has keywords "indexed" then
      if negb allowIndexed then Throw (Error "") else Ok (JBool true)
    else Ok JNull in
  let* i := peekType ID obj4 in
  let* '(name, obj5) :=
    if truthy_str i then let* '(t, obj5) := pop obj4 in Ok (tk_text t, obj5)
    else Ok ("", obj4) in
  if negb (ts_length obj5 =? 0)%Z then Throw (Error "leftover tokens")
  else ParamType_new name type baseType indexed comps arrayLength arrayChildren.

(** The object path of [ParamType.from], on a value that is no text.
    [from] is [ParamType.from] itself, for the element type of an array
    and the components of a tuple.  The components are values, that is,
    plain data: a component that is a [ParamType] instance already, which
    [ParamType.from] returns as it is, is outside the values. *)
Definition from_object (from : ParamSource -> bool -> result ParamType)
           (obj : jsval) (allowIndexed : bool) : result ParamType :=
  let* name := get obj "name" in
  let* _ := assertArgument
              (negb (truthy name)
               || match name with
                  | JStr n => bool_decide (is_Some (regexIdentifier n))
                  | _ => false
                  end)
              "invalid name" "obj.name" (AJs name) in
  let name_or_empty := match name with JStr n => n | _ => "" end in
  let* indexed0 := get obj "indexed" in
  let* indexed :=
    if negb (nullish indexed0) then
      let* _ := assertArgument allowIndexed "parameter cannot be indexed"
                  "obj.indexed" (AJs indexed0) in
      Ok (JBool (truthy indexed0))
    else Ok indexed0 in
  let* type_ := get obj "type" in
  let* type := as_string type_ in
  match regexArrayType type with
  | Some (g1, g2) =>
      let arrayLength := parseInt_signed (if (g2 =? "")%string then "-1" else g2) in
      let* components := get obj "components" in
      let* arrayChildren :=
        from (PValue (JObj [("type", JStr g1); ("components", components)])) false in
      ParamType_new name_or_empty type "array" indexed None
                    (Some arrayLength) (Some arrayChildren)
  | None =>
      if (type =? "tuple")%string
         || (substring_to 5 type =? "tuple(")%string
         || (substring_to 1 type =? "(")%string
      then
        let* components := get obj "components" in
        let* comps :=
          if negb (nullish components) then
            let* items := as_array components in
            let* cs := mapR (fun c => from (PValue c) false) items in
            Ok (Some cs)
          else Ok None in
        ParamType_new name_or_empty type "tuple" indexed comps None None
      else
        let* type' := verifyBasicType type in
        ParamType_new name_or_empty type' type' indexed None None None
  end.

(** [ParamType.from(obj, allowIndexed)].  [allowIndexed] is used for its
    truth value only.  The recursion goes into the groups of a token
    string, into the components of an object and into the element type of
    an array type; [fuel] bounds its depth. *)
Fixpoint ParamType_from_fuel (fuel : nat) (obj : ParamSource) (allowIndexed : bool)
  : result ParamType :=
  match fuel with
  | O => Diverge
  | S fuel' =>
      match obj with
      | PInstance p => Ok p
      | PValue (JStr s) =>
          let* tokens := lex s in
          ParamType_from_fuel fuel' (PTokens tokens) allowIndexed
      | PTokens obj => from_tokens (ParamType_from_fuel fuel') obj allowIndexed
      | PValue obj => from_object (ParamType_from_fuel fuel') obj allowIndexed
      end
  end.

Fixpoint jsval_size (v : jsval) : nat :=
  match v with
  | JStr s => S (String.length s)
  | JArr items => S (list_sum (map jsval_size items))
  | JObj props => S (list_sum (map (fun kv => jsval_size (snd kv)) props))
  | _ => 1
  end.

(** The depth of the recursion is at most the number of tokens of a text
    and the size of an object. *)
Definition ParamSource_fuel (obj : ParamSource) : nat :=
  match obj with
  | PInstance _ => 1
  | PTokens tokens => S (length (ts_tokens tokens))
  | PValue v => S (jsval_size v)
  end.

Definition ParamType_from (obj : ParamSource) (allowIndexed : bool) : result ParamType :=
  ParamType_from_fuel (ParamSource_fuel obj) obj allowIndexed.

(** ** Fragments *)

(** The six classes.  [constant] and [payable] of a function are computed
    from [stateMutability] by its constructor; they are the functions
    [is_constant] and [is_payable] below.  A field the object path copies from
    the interchange object unchecked is a [jsval]. *)
Inductive Fragment :=
| ErrorFragment (name : string) (inputs : list ParamType)
| EventFragment (name : string) (inputs : list ParamType) (anonymous : bool)
| ConstructorFragment (inputs : list ParamType) (payable : bool) (gas : jsval)
| FallbackFragment (inputs : list ParamType) (payable : bool)
| FunctionFragment (name : string) (stateMutability : jsval)
                   (inputs outputs : list ParamType) (gas : jsval)
| StructFragment (name : string) (inputs : list ParamType).

(** The field [type] set by each constructor. *)
Definition fragment_type (f : Fragment) : string :=
  match f with
  | ErrorFragment _ _ => "error"
  | EventFragment _ _ _ => "event"
  | ConstructorFragment _ _ _ => "constructor"
  | FallbackFragment _ _ => "fallback"
  | FunctionFragment _ _ _ _ _ => "function"
  | StructFragment _ _ => "struct"
  end.

Definition fragment_inputs (f : Fragment) : list ParamType :=
  match f with
  | ErrorFragment _ i | EventFragment _ i _ | ConstructorFragment i _ _
  | FallbackFragment i _ | FunctionFragment _ _ i _ _ | StructFragment _ i => i
  end.

Definition js_eq_str (v : jsval) (s : string) : bool :=
  match v with JStr x => (x =? s)%string | _ => false end.

Definition is_constant (stateMutability : jsval) : bool :=
  js_eq_str stateMutability "view" || js_eq_str stateMutability "pure".

Definition is_payable (stateMutability : jsval) : bool :=
  js_eq_str stateMutability "payable".

(** The check of the constructor of [NamedFragment]. *)
Definition NamedFragment_name (name : jsval) : result string :=
  match name with
  | JStr n =>
      let* _ := assertArgument (bool_decide (is_Some (regexIdentifier n)))
                  "invalid identifier" "name" (AJs name) in
      Ok n
  | _ => Throw (InvalidArgument "invalid identifier" "name" (AJs name))
  end.

(** [consumeParams(tokens, allowIndexed)] *)
Definition consumeParams (tokens : TokenString) (allowIndexed : bool)
  : result (list ParamType * TokenString) :=
  let* '(groups, tokens') := popParams tokens in
  let* params := mapR (fun t => ParamType_from (PTokens t) allowIndexed) groups in
  Ok (params, tokens').

(** [obj.inputs ? obj.inputs.map(f) : [ ]], where [f] is given the element
    and its index.  [map(ParamType.from)] hands the index to [ParamType.from]
    as its second argument, [allowIndexed]: this is [from_with_index].  The
    elements are values, that is, plain data: an input that is a
    [ParamType] instance already, which [ParamType.from] returns as it is,
    is outside the values. *)
Definition params_of (v : jsval) (f : nat -> jsval -> result ParamType)
  : result (list ParamType) :=
  if truthy v then let* items := as_array v in mapiR f 0 items
  else Ok [].

Definition from_with_index (index : nat) (c : jsval) : result ParamType :=
  ParamType_from (PValue c) (negb (index =? 0)).

Definition from_indexed (index : nat) (c : jsval) : result ParamType :=
  ParamType_from (PValue c) true.

(** [joinParams(format, params)] *)
Definition joinParams (format : FormatType) (params : list ParamType) : result string :=
  let* parts := mapR (ParamType_format format) params in
  Ok ("(" +:+ String.concat (if FormatType_eqb format full then ", " else ",") parts +:+ ")").

(** What the [from] of a fragment class is given: a token string or a
    value (a text is the value [JStr]).  A fragment instance, which the
    [from] of its class returns as it is, is not among the sources. *)
Inductive FragmentSource :=
| FTokens (tokens : TokenString)
| FValue (v : jsval).

(** Each [from] sends a text through [lex] to its own token path. *)
Definition with_tokens {A} (from_tokens : TokenString -> result A)
           (from_object : jsval -> result A) (obj : FragmentSource) : result A :=
  match obj with
  | FValue (JStr s) => let* tokens := lex s in from_tokens tokens
  | FTokens tokens => from_tokens tokens
  | FValue v => from_object v
  end.

Definition ErrorFragment_from : FragmentSource -> result Fragment :=
  with_tokens
    (fun obj =>
       let* '(name, obj1) := consumeName "error" obj in
       let* '(inputs, obj2) := consumeParams obj1 false in
       let* _ := consumeEoi obj2 in
       let* name' := NamedFragment_name (JStr name) in
       Ok (ErrorFragment name' inputs))
    (fun obj =>
       let* name := get obj "name" in
       let* i := get obj "inputs" in
       let* inputs := params_of i from_with_index in
       let* name' := NamedFragment_name name in
       Ok (ErrorFragment name' inputs)).

Definition EventFragment_from : FragmentSource -> result Fragment :=
  with_tokens
    (fun obj =>
       let* '(name, obj1) := consumeName "event" obj in
       let* '(inputs, obj2) := consumeParams obj1 true in
       let* '(kws, obj3) := consumeKeywords obj2 (setify ["anonymous"]) in
       let anonymous := has kws "anonymous" in
       let* _ := consumeEoi obj3 in
       let* name' := NamedFragment_name (JStr name) in
       Ok (EventFragment name' inputs anonymous))
    (fun obj =>
       let* name := get obj "name" in
       let* i := get obj "inputs" in
       let* inputs := params_of i from_indexed in
       let* a := get obj "anonymous" in
       let* name' := NamedFragment_name name in
       Ok (EventFragment name' inputs (truthy a))).

Definition ConstructorFragment_from : FragmentSource -> result Fragment :=
  with_tokens
    (fun obj =>
       let* '(_, obj1) := consumeKeywords obj (setify ["constructor"]) in
       let* '(inputs, obj2) := consumeParams obj1 false in
       let* '(kws, obj3) := consumeKeywords obj2 (setify ["payable"]) in
       let payable := has kws "payable" in
       let* '(gas, obj4) := consumeGas obj3 in
       let* _ := consumeEoi obj4 in
       Ok (ConstructorFragment inputs payable gas))
    (fun obj =>
       let* i := get obj "inputs" in
       let* inputs := params_of i from_with_index in
       let* p := get obj "payable" in
       let* g := get obj "gas" in
       Ok (ConstructorFragment inputs (truthy p) (if negb (nullish g) then g else JNull))).

(** [ParamType.from("bytes")] *)
Definition bytes_param : result ParamType := ParamType_from (PValue (JStr "bytes")) false.

Definition is_single_bytes (params : list ParamType) : bool :=
  match params with
  | [p] => (pt_type p =? "bytes")%string
  | _ => false
  end.

(** [params.map((i) => i.format("minimal")).join(", ")] *)
Definition minimal_list (params : list ParamType) : result string :=
  let* parts := mapR (ParamType_format minimal) params in
  Ok (String.concat ", " parts).

Definition FallbackFragment_from : FragmentSource -> result Fragment :=
  with_tokens
    (fun obj =>
       let errorObj := remaining obj in
       let* topIsValid := peekKeyword (setify ["fallback"; "receive"]) obj in
       if negb (truthy_str topIsValid)
       then Throw (InvalidArgument "type must be fallback or receive" "obj"
                                   (ATokens errorObj))
       else
       let* '(type, obj1) := popKeyword (setify ["fallback"; "receive"]) obj in
       if (type =? "receive")%string then
         let* '(inputs, obj2) := consumeParams obj1 false in
         let* _ := assertArgument (length inputs =? 0) "receive cannot have arguments"
                     "obj.inputs" (AParams inputs) in
         let* '(_, obj3) := consumeKeywords obj2 (setify ["payable"]) in
         let* _ := consumeEoi obj3 in
         Ok (FallbackFragment [] true)
       else
         let* '(inputs0, obj2) := consumeParams obj1 false in
         let* inputs :=
           if negb (length inputs0 =? 0) then
             let* shown := minimal_list inputs0 in
             let* _ := assertArgument (is_single_bytes inputs0) "invalid fallback inputs"
                         "obj.inputs" (AStr shown) in
             Ok inputs0
           else let* b := bytes_param in Ok [b] in
         let* '(mutability, obj3) := consumeMutability obj2 in
         let* _ := assertArgument ((mutability =? "nonpayable")%string
                                   || (mutability =? "payable")%string)
                     "fallback cannot be constants" "obj.stateMutability" (AStr mutability) in
         let* '(kws, obj4) := consumeKeywords obj3 (setify ["returns"]) in
         let* obj5 :=
           if has kws "returns" then
             let* '(outputs, obj5) := consumeParams obj4 false in
             let* shown := minimal_list outputs in
             let* _ := assertArgument (is_single_bytes outputs) "invalid fallback outputs"
                         "obj.outputs" (AStr shown) in
             Ok obj5
           else Ok obj4 in
         let* _ := consumeEoi obj5 in
         Ok (FallbackFragment inputs (mutability =? "payable")%string))
    (fun obj =>
       let* type := get obj "type" in
       if js_eq_str type "receive" then Ok (FallbackFragment [] true)
       else if js_eq_str type "fallback" then
         let* b := bytes_param in
         let* m := get obj "stateMutability" in
         Ok (FallbackFragment [b] (js_eq_str m "payable"))
       else Throw (InvalidArgument "invalid fallback description" "obj" (AJs obj))).

Definition FunctionFragment_from : FragmentSource -> result Fragment :=
  with_tokens
    (fun obj =>
       let* '(name, obj1) := consumeName "function" obj in
       let* '(inputs, obj2) := consumeParams obj1 false in
       let* '(mutability, obj3) := consumeMutability obj2 in
       let* '(kws, obj4) := consumeKeywords obj3 (setify ["returns"]) in
       let* '(outputs, obj5) :=
         if has kws "returns" then consumeParams obj4 false else Ok ([], obj4) in
       let* '(gas, obj6) := consumeGas obj5 in
       let* _ := consumeEoi obj6 in
       let* name' := NamedFragment_name (JStr name) in
       Ok (FunctionFragment name' (JStr mutability) inputs outputs gas))
    (fun obj =>
       let* name := get obj "name" in
       let* m := get obj "stateMutability" in
       let* i := get obj "inputs" in
       let* inputs := params_of i from_with_index in
       let* o := get obj "outputs" in
       let* outputs := params_of o from_with_index in
       let* g := get obj "gas" in
       let* name' := NamedFragment_name name in
       Ok (FunctionFragment name' m inputs outputs (if negb (nullish g) then g else JNull))).

Definition StructFragment_from : FragmentSource -> result Fragment :=
  with_tokens
    (fun obj =>
       let* '(name, obj1) := consumeName "struct" obj in
       let* '(inputs, obj2) := consumeParams obj1 false in
       let* _ := consumeEoi obj2 in
       let* name' := NamedFragment_name (JStr name) in
       Ok (StructFragment name' inputs))
    (fun obj =>
       let* name := get obj "name" in
       let* i := get obj "inputs" in
       let* inputs := params_of i from_with_index in
       let* name' := NamedFragment_name name in
       Ok (StructFragment name' inputs)).

(** The [switch] of [Fragment.from] on the kind. *)
Definition dispatch (kind : string) : option (FragmentSource -> result Fragment) :=
  if (kind =? "constructor")%string then Some ConstructorFragment_from
  else if (kind =? "error")%string then Some ErrorFragment_from
  else if (kind =? "event")%string then Some EventFragment_from
  else if (kind =? "fallback")%string || (kind =? "receive")%string
       then Some FallbackFragment_from
  else if (kind =? "function")%string then Some FunctionFragment_from
  else if (kind =? "struct")%string then Some StructFragment_from
  else None.

(** [try { body } catch (e) { }] for a [body] whose value is not used: an
    exception is swallowed, and so is the value. *)
Definition try_and_discard {A} (body : result A) : result unit :=
  match body with
  | Diverge => Diverge
  | Ok _ | Throw _ => Ok tt
  end.

(** [Fragment.from(obj)].  A text whose JSON value is a text again is the
    one recursion; [fuel] bounds it. *)
Fixpoint Fragment_from_fuel (fuel : nat) (obj : FragmentSource) : result Fragment :=
  match fuel with
  | O => Diverge
  | S fuel' =>
      match obj with
      | FValue (JStr s) =>
          (* Try parsing JSON... *)
          let* _ := try_and_discard
                      (let* v := JSON_parse s in Fragment_from_fuel fuel' (FValue v)) in
          (* ...otherwise, use the human-readable lexer *)
          let* tokens := lex s in
          Fragment_from_fuel fuel' (FTokens tokens)
      | FTokens tokens =>
          let* type := peekKeyword KwTypes tokens in
          match type with
          | Some kind =>
              match dispatch kind with
              | Some from => from obj
              | None => Throw (InvalidArgument "unsupported frgament object" "obj"
                                 (ATokens (remaining tokens)))
              end
          | None => Throw (InvalidArgument "unsupported frgament object" "obj"
                             (ATokens (remaining tokens)))
          end
      | FValue v =>
          match v with
          | JNull | JArr _ | JObj _ | JObjectPrototype =>
              (* typeof(obj) === "object" *)
              let* type := get v "type" in
              match type with
              | JStr kind =>
                  match dispatch kind with
                  | Some from => from obj
                  | None => Throw (UnsupportedOperation "unsupported type" "Fragment.from")
                  end
              | _ => Throw (UnsupportedOperation "unsupported type" "Fragment.from")
              end
          | _ => Throw (InvalidArgument "unsupported frgament object" "obj" (AJs v))
          end
      end
  end.

(** A text of [n] characters holds fewer than [n] nested JSON texts. *)
Definition Fragment_from (obj : FragmentSource) : result Fragment :=
  let fuel := match obj with
              | FValue (JStr s) => String.length s + 2
              | _ => 1
              end in
  Fragment_from_fuel fuel obj.

(** [String(v)], as [v.toString()] and a template give it; inside the text
    of an array [undefined] and [null] are empty. *)
Fixpoint js_toString (v : jsval) : string :=
  match v with
  | JUndefined => "undefined"
  | JNull => "null"
  | JBool b => if b then "true" else "false"
  | JNum n | JBigInt n => Z_to_string n
  | JStr s => s
  | JArr items =>
      String.concat "," (map (fun x => if nullish x then "" else js_toString x) items)
  | JObj _ | JObjectPrototype => "[object Object]"
  | JFunction name => "function " +:+ name +:+ "() { [native code] }"
  end.

(** [inputs.map((i) => JSON.parse(i.format("json")))] *)
Definition json_params (params : list ParamType) : result jsval :=
  let* items := mapR (fun i => parsed (ParamType_format json i)) params in
  Ok (JArr items).

(** [format(format)] of each class; an absent [format] is [sighash]. *)
Definition Fragment_format (f : Fragment) (format : FormatType) : result string :=
  match f with
  | ErrorFragment name inputs =>
      if FormatType_eqb format json then
        let* i := json_params inputs in
        JSON_stringify (JObj [("type", JStr "error"); ("name", JStr name); ("inputs", i)])
      else
        let* params := joinParams format inputs in
        let result_ := ((if negb (FormatType_eqb format sighash) then ["error"] else [])
                        ++ [name +:+ params])%list in
        Ok (String.concat " " result_)
  | EventFragment name inputs anonymous =>
      if FormatType_eqb format json then
        let* i := json_params inputs in
        JSON_stringify (JObj [("type", JStr "event"); ("anonymous", JBool anonymous);
                              ("name", JStr name); ("inputs", i)])
      else
        let* params := joinParams format inputs in
        let result_ := ((if negb (FormatType_eqb format sighash) then ["event"] else [])
                        ++ [name +:+ params]
                        ++ (if negb (FormatType_eqb format sighash) && anonymous
                            then ["anonymous"] else []))%list in
        Ok (String.concat " " result_)
  | ConstructorFragment inputs payable gas =>
      if FormatType_eqb format sighash
      then Throw (UnsupportedOperation "cannot format a constructor for sighash" "format(sighash)")
      else if FormatType_eqb format json then
        let* i := json_params inputs in
        JSON_stringify
          (JObj [("type", JStr "constructor");
                 ("stateMutability", JStr (if payable then "payable" else "undefined"));
                 ("payable", JBool payable);
                 ("gas", if negb (nullish gas) then gas else JUndefined);
                 ("inputs", i)])
      else
        let* params := joinParams format inputs in
        let result_ := (["constructor" +:+ params]
                        ++ [if payable then "payable" else "nonpayable"]
                        ++ (if negb (nullish gas) then ["@" +:+ js_toString gas] else []))%list in
        Ok (String.concat " " result_)
  | FallbackFragment inputs payable =>
      let type := if length inputs =? 0 then "receive" else "fallback" in
      if FormatType_eqb format json then
        let stateMutability := if payable then "payable" else "nonpayable" in
        JSON_stringify (JObj [("type", JStr type); ("stateMutability", JStr stateMutability)])
      else Ok (type +:+ "()" +:+ (if payable then " payable" else ""))
  | FunctionFragment name stateMutability inputs outputs gas =>
      if FormatType_eqb format json then
        let* i := json_params inputs in
        let* o := json_params outputs in
        JSON_stringify
          (JObj [("type", JStr "function");
                 ("name", JStr name);
                 ("constant", JBool (is_constant stateMutability));
                 ("stateMutability", if negb (js_eq_str stateMutability "nonpayable")
                                     then stateMutability else JUndefined);
                 ("payable", JBool (is_payable stateMutability));
                 ("gas", if negb (nullish gas) then gas else JUndefined);
                 ("inputs", i);
                 ("outputs", o)])
      else
        let* params := joinParams format inputs in
        let* tail :=
          if negb (FormatType_eqb format sighash) then
            let* returns :=
              if negb (length outputs =? 0) then
                let* outs := joinParams format outputs in Ok ["returns"; outs]
              else Ok [] in
            Ok ((if negb (js_eq_str stateMutability "nonpayable")
                 then [if nullish stateMutability then "" else js_toString stateMutability]
                 else [])
                ++ returns
                ++ (if negb (nullish gas) then ["@" +:+ js_toString gas] else []))%list
          else Ok [] in
        let result_ :=
          ((if negb (FormatType_eqb format sighash) then ["function"] else [])
           ++ [name +:+ params] ++ tail)%list in
        Ok (String.concat " " result_)
  | StructFragment name inputs => Throw (Error "@TODO")
  end.

(** ** The value walkers *)

(** [value.map((v, i) => f(components[i], v))] for a [value] as long as
    [components]. *)
Fixpoint zipR {A B C} (f : A -> B -> result C) (l : list A) (l' : list B)
  : result (list C) :=
  match l, l' with
  | a :: r, b :: r' => let* c := f a b in let* cs := zipR f r r' in Ok (c :: cs)
  | _, _ => Ok []
  end.

(** [walk(value, process)] *)
Fixpoint walk (process : string -> jsval -> result jsval) (p : ParamType)
         (value : jsval) {struct p} : result jsval :=
  match p with
  | mkParamType name type baseType indexed components arrayLength arrayChildren =>
      if (baseType =? "array")%string then
        match value with
        | JArr items =>
            if negb (bool_decide (arrayLength = Some (-1)%Z))
               && negb (bool_decide (arrayLength = Some (Z.of_nat (length items))))
            then Throw (Error "array is wrong length")
            else
              match arrayChildren with
              | Some child =>
                  let* items' := mapR (walk process child) items in Ok (JArr items')
              | None =>
                  match items with
                  | [] => Ok (JArr [])
                  | _ :: _ => Throw (TypeError "Cannot read properties of null")
                  end
              end
        | _ => Throw (Error "invlaid array value")
        end
      else if (baseType =? "tuple")%string then
        match value with
        | JArr items =>
            match components with
            | Some comps =>
                if negb (length items =? length comps)
                then Throw (Error "array is wrong length")
                else
                  let* items' := zipR (walk process) comps items in
                  Ok (JArr items')
            | None => Throw (TypeError "Cannot read properties of null")
            end
        | _ => Throw (Error "invlaid tuple value")
        end
      else process type value
  end.

(** What the callback of [walkAsync] returns: a value that has no [then],
    or a promise, given by what it settles to ([Ok]: fulfilled, [Throw]:
    rejected, [Diverge]: never settled). *)
Inductive leaf_result :=
| Plain (v : jsval)
| Deferred (outcome : result jsval).

(** The value under construction while [#walkAsync] runs: [setValue] has
    been called with a final value, or the slot still holds the original
    value and waits for a promise pushed on [promises], or it holds a
    result array whose slots the children fill. *)
Inductive wtree :=
| WValue (v : jsval)
| WPending (original : jsval) (outcome : result jsval)
| WArr (items : list wtree).

(** The own properties of [Object.prototype]: the constructor [Object],
    ten methods and the accessor [__proto__], which gives the prototype of
    [Object.prototype], [null]. *)
Definition Object_prototype : list (string * jsval) :=
  [("constructor", JFunction "Object");
   ("__defineGetter__", JFunction "__defineGetter__");
   ("__defineSetter__", JFunction "__defineSetter__");
   ("hasOwnProperty", JFunction "hasOwnProperty");
   ("__lookupGetter__", JFunction "__lookupGetter__");
   ("__lookupSetter__", JFunction "__lookupSetter__");
   ("isPrototypeOf", JFunction "isPrototypeOf");
   ("propertyIsEnumerable", JFunction "propertyIsEnumerable");
   ("toString", JFunction "toString");
   ("valueOf", JFunction "valueOf");
   ("__proto__", JNull);
   ("toLocaleString", JFunction "toLocaleString")].

(** [name in value] and [value[name]] together, for a [value] that is an
    object and no array: [None] when [name in value] is false, and
    otherwise the value read.  An own property comes first; what an object
    literal does not have itself it inherits from [Object.prototype],
    where [__proto__] gives the prototype of the receiver. *)
Definition property (value : jsval) (name : string) : option jsval :=
  match value with
  | JObj props =>
      match assoc name props with
      | Some v => Some v
      | None => if (name =? "__proto__")%string then Some JObjectPrototype
                else assoc name Object_prototype
      end
  | JObjectPrototype => assoc name Object_prototype
  | _ => None
  end.

(** The array a tuple is walked with when the value is an object:
    [components.map((param) => value[param.name])], with its two checks. *)
Definition object_to_array (components : list ParamType) (value : jsval)
  : result (list jsval) :=
  mapR (fun param =>
          if (pt_name param =? "")%string
          then Throw (Error "cannot use object value with unnamed components")
          else match property value (pt_name param) with
               | None => Throw (MissingValue (pt_name param))
               | Some v => Ok v
               end) components.

(** [#walkAsync(promises, value, process, setValue)].  A synchronous
    exception ends the descent. *)
Fixpoint walkAsync_descent (process : string -> jsval -> result leaf_result)
         (p : ParamType) (value : jsval) {struct p} : result wtree :=
  match p with
  | mkParamType name type baseType indexed components arrayLength arrayChildren =>
      if (baseType =? "array")%string then
        match value with
        | JArr items =>
            if negb (bool_decide (arrayLength = Some (-1)%Z))
               && negb (bool_decide (arrayLength = Some (Z.of_nat (length items))))
            then Throw (Error "array is wrong length")
            else
              match arrayChildren with
              | Some child =>
                  let* items' := mapR (walkAsync_descent process child) items in
                  Ok (WArr items')
              | None =>
                  match items with
                  | [] => Ok (WArr [])
                  | _ :: _ => Throw (TypeError "Cannot read properties of null")
                  end
              end
        | _ => Throw (Error "invlaid array value")
        end
      else if (baseType =? "tuple")%string then
        let* result_ :=
          match value with
          | JArr items => Ok items
          | JObj _ | JObjectPrototype =>
              (* typeof(value) === "object", and no array *)
              match components with
              | Some comps => object_to_array comps value
              | None => Throw (TypeError "Cannot read properties of null")
              end
          | _ => Throw (Error "invlaid tuple value")
          end in
        match components with
        | None => Throw (TypeError "Cannot read properties of null")
        | Some comps =>
            if negb (length result_ =? length comps)
            then Throw (Error "array is wrong length")
            else
              let* items' := zipR (walkAsync_descent process) comps result_ in
              Ok (WArr items')
        end
      else
        let* result_ := process type value in
        match result_ with
        | Deferred outcome => Ok (WPending value outcome)
        | Plain v =>
            if nullish v then Throw (TypeError "Cannot read properties of undefined")
            else Ok (WValue v)
        end
  end.

(** The promises pushed during the descent, in the order of the descent. *)
Fixpoint promises (t : wtree) : list (result jsval) :=
  match t with
  | WValue _ => []
  | WPending _ outcome => [outcome]
  | WArr items => flat_map promises items
  end.

(** The value once every promise is fulfilled: each pending slot has been
    set to what its promise gave. *)
Fixpoint fulfilled (t : wtree) : jsval :=
  match t with
  | WValue v => v
  | WPending original (Ok v) => v
  | WPending original _ => original
  | WArr items => JArr (map fulfilled items)
  end.

Definition is_rejected (r : result jsval) : bool :=
  match r with Throw _ => true | _ => false end.

Definition is_unsettled (r : result jsval) : bool :=
  match r with Diverge => true | _ => false end.

(** [await Promise.all(promises)]: rejected as soon as one promise is, and
    otherwise fulfilled when all are.  Of several rejections the model
    reports the first in the order of the descent. *)
Definition await_all (ps : list (result jsval)) : result unit :=
  match List.find is_rejected ps with
  | Some (Throw e) => Throw e
  | _ => if existsb is_unsettled ps then Diverge else Ok tt
  end.

(** [walkAsync(value, process)]: the outcome of the promise it returns. *)
Definition walkAsync (process : string -> jsval -> result leaf_result)
           (p : ParamType) (value : jsval) : result jsval :=
  let* t := walkAsync_descent process p value in
  let* _ := await_all (promises t) in
  Ok (fulfilled t).

(** ** Predicates of the statements *)

(** [stops p r]: [r] is empty or starts with a character outside [p], so
    that a run of [p]-characters cannot go on into [r]. *)
Definition stops (p : ascii -> bool) (r : string) : Prop :=
  match r with
  | EmptyString => True
  | String c _ => p c = false
  end.

(** [forward tokens]: a link to the next comma or parenthesis is unset (or
    points before the array, in a slice) or points to a later token. *)
Definition forward (tokens : list Token) : Prop :=
  forall i t, tokens !! i = Some t ->
              (tk_linkNext t < 0)%Z \/ (Z.of_nat i < tk_linkNext t)%Z.

(** The state of the loop of [lex]: the links point forward, and the
    tokens the stack of commas names are there and are no numbers (so that
    merging an array suffix leaves them in place). *)
Definition lex_inv (st : LexState) : Prop :=
  forward (lx_tokens st)
  /\ Forall (fun j => exists t, lx_tokens st !! j = Some t /\ tk_type t <> NUMBER)
            (lx_commas st).

(** An assignment to a field other than [linkNext] and [type]. *)
Definition keeps_link (f : Token -> Token) : Prop :=
  forall t, tk_linkNext (f t) = tk_linkNext t /\ tk_type (f t) = tk_type t.

(** [steady r ts]: the step [r] of a parser ends, and leaves a cursor over
    the tokens of [ts]. *)
Definition steady {A} (r : result (A * TokenString)) (ts : TokenString) : Prop :=
  r <> Diverge /\ forall a ts', r = Ok (a, ts') -> ts_tokens ts' = ts_tokens ts.

(** [group_of ts g]: the links of the group [g] point forward, and it has
    fewer tokens than [ts], from which it is cut. *)
Definition group_of (ts g : TokenString) : Prop :=
  forward (ts_tokens g) /\ length (ts_tokens g) < length (ts_tokens ts).

(** [ends_on from]: the factory [from] ends on every value, and on every
    token string whose links point forward. *)
Definition ends_on {A} (from : FragmentSource -> result A) : Prop :=
  (forall v, from (FValue v) <> Diverge)
  /\ (forall ts, forward (ts_tokens ts) -> from (FTokens ts) <> Diverge).

(** [string_ends_within r k]: the parse [r] of a text of length [k] ends, and what
    it leaves is shorter than the text by the characters it read and one
    more. *)
Definition string_ends_within (r : result (string * string)) (k : nat) : Prop :=
  r <> Diverge
  /\ forall body rest, r = Ok (body, rest) ->
                       String.length body + String.length rest + 1 <= k.

(** [value_ends_within r k]: what the parse [r] of a text of length [k]
    leaves is shorter than the text; a text is the value of a string
    literal only, and is shorter than the literal by the two quotes. *)
Definition value_ends_within (r : result (jsval * string)) (k : nat) : Prop :=
  forall v rest, r = Ok (v, rest) ->
                 String.length rest < k
                 /\ forall t, v = JStr t -> String.length t + 2 <= k.

(** [word w]: the whole of [w] is one match of [regexIdentifier]. *)
Definition word (w : string) : Prop := regexIdentifier w = Some w.

(** [id_words tokens]: the text of every ID token is an identifier. *)
Definition id_words (tokens : list Token) : Prop :=
  Forall (fun t => tk_type t = ID -> word (tk_text t)) tokens.

(** [well_named p]: the name of [p], of its components and of its element
    type, all the way down, is empty or an identifier. *)
Inductive well_named : ParamType -> Prop :=
| well_named_intro name type baseType indexed comps len child :
    (name = "" \/ word name) ->
    (forall cs, comps = Some cs -> Forall well_named cs) ->
    (forall c, child = Some c -> well_named c) ->
    well_named (mkParamType name type baseType indexed comps len child).

(** [elementary T]: the whole of [T] is one match of [regexType], that is,
    [T] is a word of the grammar of the elementary type names. *)
Definition elementary (T : string) : Prop :=
  exists m, regexType T = Some m /\ tm_1 m = T.

(** A token outside any parenthesis, as [lex] makes it. *)
Definition plain (ty : TokenType) (offset : nat) (text : string) : Token :=
  mkToken ty offset text 0 (-1) (-1) (-1) (-1).

(** The value a mapping holds for a component. *)
Definition entry (value : jsval) (c : ParamType) : jsval :=
  default JUndefined (property value (pt_name c)).

(** The callback that leaves every value as it is, and its asynchronous
    form, which answers with a promise. *)
Definition keep (type : string) (value : jsval) : result jsval := Ok value.
Definition keep_later (type : string) (value : jsval) : result leaf_result :=
  Ok (Deferred (Ok value)).

(** ** Sample inputs *)

(** A quoted JSON name or string without escapes. *)
Definition q (s : string) : string := quote +:+ s +:+ quote.

(** The interchange text of the error [Foo(uint8 a)]. *)
Definition Foo_json : string :=
  "{" +:+ q "type" +:+ ":" +:+ q "error" +:+ "," +:+ q "name" +:+ ":" +:+ q "Foo" +:+ ","
  +:+ q "inputs" +:+ ":[{" +:+ q "type" +:+ ":" +:+ q "uint8" +:+ ","
  +:+ q "name" +:+ ":" +:+ q "a" +:+ "}]}".

Definition Foo_object : jsval :=
  JObj [("type", JStr "error"); ("name", JStr "Foo");
        ("inputs", JArr [JObj [("type", JStr "uint8"); ("name", JStr "a")]])].

Definition uint8_a : ParamType := mkParamType "a" "uint8" "uint8" JNull None None None.

(** The tuple type [tuple(uint256 a, address b)]. *)
Definition pair_ab : ParamType :=
  mkParamType "" "tuple(uint256,address)" "tuple" JNull
    (Some [mkParamType "a" "uint256" "uint256" JNull None None None;
           mkParamType "b" "address" "address" JNull None None None])
    None None.

(** [well_shaped p]: at [p] and everywhere below it, the element type and
    the length are there exactly for the base type [array], and the
    components exactly for the base type [tuple]. *)
Inductive well_shaped : ParamType -> Prop :=
| well_shaped_intro name type baseType indexed comps len child :
    (is_Some len <-> baseType = "array") ->
    (is_Some child <-> baseType = "array") ->
    (is_Some comps <-> baseType = "tuple") ->
    (forall cs, comps = Some cs -> Forall well_shaped cs) ->
    (forall c, child = Some c -> well_shaped c) ->
    well_shaped (mkParamType name type baseType indexed comps len child).

(** [unindexed p]: neither [p] nor anything below it is indexed. *)
Inductive unindexed : ParamType -> Prop :=
| unindexed_intro name type baseType indexed comps len child :
    nullish indexed = true ->
    (forall cs, comps = Some cs -> Forall unindexed cs) ->
    (forall c, child = Some c -> unindexed c) ->
    unindexed (mkParamType name type baseType indexed comps len child).

(** [p] without its names and its [indexed] marks, at every depth. *)
Fixpoint without_names (p : ParamType) : ParamType :=
  match p with
  | mkParamType name type baseType indexed components arrayLength arrayChildren =>
      mkParamType "" type baseType JNull
                  (match components with
                   | Some cs => Some (map without_names cs)
                   | None => None
                   end)
                  arrayLength
                  (match arrayChildren with
                   | Some c => Some (without_names c)
                   | None => None
                   end)
  end.

(** A source that is no [ParamType] already. *)
Definition is_instance (obj : ParamSource) : bool :=
  match obj with PInstance _ => true | _ => false end.

(** What the two paths have in common: below the parameter nothing is
    indexed, and the parameter itself is only if [allowIndexed]. *)
Definition indexed_at_the_top_only (allowIndexed : bool) (p : ParamType) : Prop :=
  (forall cs, pt_components p = Some cs -> Forall unindexed cs)
  /\ (forall c, pt_arrayChildren p = Some c -> unindexed c)
  /\ (allowIndexed = false -> nullish (pt_indexed p) = true).

(** [resolves process async]: wherever the callback [process] returns a
    value, the callback [async] returns it too, at once (a value that is
    neither [null] nor [undefined]) or as a promise that is fulfilled with
    it. *)
Definition resolves (process : string -> jsval -> result jsval)
           (async : string -> jsval -> result leaf_result) : Prop :=
  forall type value y,
    process type value = Ok y ->
    (async type value = Ok (Plain y) /\ nullish y = false)
    \/ async type value = Ok (Deferred (Ok y)).
(** [agrees t r], the outcome of a descent that agrees with a walk: no promise fails or
    stays open, and the fulfilled value is that of the walk. *)
Definition agrees (t : wtree) (r : jsval) : Prop :=
  fulfilled t = r /\ Forall (fun o => exists y, o = Ok y) (promises t).

(** The characters of [s] that satisfy [p], in order. *)
Fixpoint string_filter (p : ascii -> bool) (s : string) : string :=
  match s with
  | EmptyString => EmptyString
  | String c s' => if p c then String c (string_filter p s') else string_filter p s'
  end.

(** A text without its whitespace. *)
Definition without_blanks (s : string) : string :=
  string_filter (fun c => negb (is_space c)) s.

(** The texts of the tokens, one after the other. *)
Definition texts (tokens : list Token) : string :=
  fold_right (fun t acc => tk_text t +:+ acc) "" tokens.

(** The kind a source announces: the keyword its tokens start with, or the
    property [type] of an object. *)
Definition announced (obj : FragmentSource) : result (option string) :=
  match obj with
  | FTokens tokens => peekKeyword KwTypes tokens
  | FValue (JStr s) => let* tokens := lex s in peekKeyword KwTypes tokens
  | FValue v =>
      let* type := get v "type" in
      Ok (match type with JStr kind => Some kind | _ => None end)
  end.

(** [ErrorFragment.selector] and [FunctionFragment.selector]: the first ten
    characters of [id(this.format("sighash"))]; the other classes have no
    such property.  [id], the hash of a text as a hexadecimal string, is
    imported and is a parameter here. *)
Definition selector (id : string -> string) (f : Fragment) : result (option string) :=
  match f with
  | ErrorFragment _ _ | FunctionFragment _ _ _ _ _ =>
      let* s := Fragment_format f sighash in Ok (Some (substring_to 10 (id s)))
  | _ => Ok None
  end.

(** [EventFragment.topicHash]: [id(this.format("sighash"))]. *)
Definition topicHash (id : string -> string) (f : Fragment) : result (option string) :=
  match f with
  | EventFragment _ _ _ => let* s := Fragment_format f sighash in Ok (Some (id s))
  | _ => Ok None
  end.

(** The inputs a fallback fragment can have: none, or the one of type
    [bytes]. *)
Definition fallback_inputs (inputs : list ParamType) (payable : bool) : Prop :=
  (inputs = [] /\ payable = true) \/ (exists p, inputs = [p] /\ pt_type p = "bytes").

(** ** ENS names

    The second module: splitting a name into labels, [namehash] and the DNS
    encoding.  The normalisation of a name ([ens_normalize], of another
    package), the hash [keccak256] and the utilities [toUtf8Bytes],
    [toUtf8String], [concat] and [hexlify] are imported; they are the
    parameters of this part.  A [Uint8Array] is a list of bytes, and a
    [BytesLike] is a [Uint8Array] or the hexadecimal text of one. *)

Inductive BytesLike :=
| Hex (text : string)
| Bytes (data : list Byte.byte).

(** A [Uint8Array] as the value an error carries. *)
Definition bytes_value (data : list Byte.byte) : argvalue :=
  AJs (JArr (map (fun b => JNum (Z.of_N (Byte.to_N b))) data)).

(** [checkComponent(comp)] *)
Definition checkComponent (comp : list Byte.byte) : result (list Byte.byte) :=
  let* _ := assertArgument (negb (length comp =? 0)) "invalid ENS name; empty component"
              "comp" (bytes_value comp) in
  Ok comp.

(** The loop [for (let i = 0; i < bytes.length; i++)] of [ensNameSplit]:
    [rest] is what of [bytes] lies from [i] on. *)
Fixpoint ensNameSplit_loop (bytes rest : list Byte.byte) (i last : nat)
         (comps : list (list Byte.byte)) : result (nat * list (list Byte.byte)) :=
  match rest with
  | [] => Ok (last, comps)
  | d :: rest' =>
      if Byte.eqb d Byte.x2e then
        (* A separator (i.e. "."); copy this component *)
        let* comp := checkComponent (slice (Z.of_nat last) (Z.of_nat i) bytes) in
        ensNameSplit_loop bytes rest' (S i) (S i) (comps ++ [comp])%list
      else ensNameSplit_loop bytes rest' (S i) last comps
  end.

Section ENS.

Variable ens_normalize : string -> result string.
Variable toUtf8Bytes : string -> result (list Byte.byte).
Variable toUtf8String : list Byte.byte -> result string.
Variable keccak256 : BytesLike -> string.
Variable concat : list BytesLike -> string.
Variable hexlify : BytesLike -> string.

(** [ensNameSplit(name)] *)
Definition ensNameSplit (name : string) : result (list (list Byte.byte)) :=
  let* normal := ens_normalize name in
  let* bytes := toUtf8Bytes normal in
  if String.length name =? 0 then Ok []
  else
    let* '(last, comps) := ensNameSplit_loop bytes bytes 0 0 [] in
    (* There was a stray separator at the end of the name *)
    let* _ := assertArgument (last <? length bytes) "invalid ENS name; empty component"
                "name" (AStr name) in
    let* comp := checkComponent (slice (Z.of_nat last) (Z.of_nat (length bytes)) bytes) in
    Ok (comps ++ [comp])%list.

(** [ensNormalize(name)] *)
Definition ensNormalize (name : string) : result string :=
  let* comps := ensNameSplit name in
  let* parts := mapR toUtf8String comps in
  Ok (String.concat "." parts).

(** [isValidName(name)]: the [try] catches every exception. *)
Definition isValidName (name : string) : result bool :=
  match ensNameSplit name with
  | Ok comps => Ok (negb (length comps =? 0))
  | Throw _ => Ok false
  | Diverge => Diverge
  end.

(** [Zeros]: 32 bytes of 0. *)
Definition Zeros : list Byte.byte := repeat Byte.x00 32.

(** One turn of the loop of [namehash], on the component [comps.pop()]
    gave. *)
Definition namehash_step (result_ : BytesLike) (comp : list Byte.byte) : BytesLike :=
  Hex (keccak256 (Hex (concat [result_; Hex (keccak256 (Bytes comp))]))).

(** The loop [while (comps.length)] of [namehash]: [comps.pop()] takes the
    components from the last to the first. *)
Definition namehash_node (comps : list (list Byte.byte)) : BytesLike :=
  fold_left namehash_step (rev comps) (Bytes Zeros).

(** [namehash(name)], for a [name] that is a string. *)
Definition namehash (name : string) : result string :=
  let* comps := ensNameSplit name in
  Ok (hexlify (namehash_node comps)).

(** The length byte and the component: [bytes[0] = bytes.length - 1], a
    number below 64. *)
Definition dns_label (comp : list Byte.byte) : result BytesLike :=
  (* DNS does not allow components over 63 bytes in length *)
  if 63 <? length comp
  then Throw (Error "invalid DNS encoded entry; length exceeds 63 bytes")
  else Ok (Bytes (default Byte.x00 (Byte.of_N (N.of_nat (length comp))) :: comp)).

(** [dnsEncode(name)] *)
Definition dnsEncode (name : string) : result string :=
  let* comps := ensNameSplit name in
  let* labels := mapR dns_label comps in
  Ok (hexlify (Hex (concat labels)) +:+ "00").

End ENS.

(** A text of ASCII characters as bytes, and the identity as a
    normalisation: sample parameters. *)
Definition ascii_bytes (s : string) : result (list Byte.byte) :=
  Ok (map byte_of_ascii (list_ascii_of_string s)).
Definition already_normal (s : string) : result string := Ok s.

(** The labels joined by dots. *)
Fixpoint join_dots (comps : list (list Byte.byte)) : list Byte.byte :=
  match comps with
  | [] => []
  | [c] => c
  | c :: rest => (c ++ Byte.x2e :: join_dots rest)%list
  end.

(** The bytes before the first dot, and the runs between the dots after
    it. *)
Fixpoint split_dots (bytes : list Byte.byte) : list Byte.byte * list (list Byte.byte) :=
  match bytes with
  | [] => ([], [])
  | d :: rest =>
      let '(c, cs) := split_dots rest in
      if Byte.eqb d Byte.x2e then ([], c :: cs) else (d :: c, cs)
  end.

(** A label: not empty, and without a dot. *)
Definition label (comp : list Byte.byte) : Prop := comp <> [] /\ ~ In Byte.x2e comp.

(** ** Base58

    The third module.  The conversions between byte arrays, numbers and
    hexadecimal texts ([getBytes], [toBigInt], [toHex]) are imported; they
    are the parameters of [encodeBase58] and [decodeBase58], whose loops
    work on a BigInt. *)

Definition Alphabet : string :=
  "123456789ABCDEFGHJKLMNPQRSTUVWXYZabcdefghijkmnopqrstuvwxyz".

(** [Lookup[Alphabet[i]] = BigInt(i)] for every [i], in order: a later
    assignment to the same letter would replace an earlier one. *)
Fixpoint Lookup_from (i : N) (letters : string) (lookup : list (ascii * N))
  : list (ascii * N) :=
  match letters with
  | EmptyString => lookup
  | String c rest =>
      Lookup_from (i + 1) rest
                  ((c, i) :: filter (fun e => negb (Ascii.eqb (fst e) c)) lookup)
  end.

Definition Lookup : list (ascii * N) := Lookup_from 0 Alphabet [].

Fixpoint Lookup_get (c : ascii) (lookup : list (ascii * N)) : option N :=
  match lookup with
  | [] => None
  | (c', i) :: rest => if Ascii.eqb c c' then Some i else Lookup_get c rest
  end.

(** [getAlpha(letter)] on a letter of one character. *)
Definition getAlpha (letter : ascii) : result N :=
  match Lookup_get letter Lookup with
  | Some i => Ok i
  | None => Throw (InvalidArgument "invalid base58 value" "letter"
                                   (AStr (String letter EmptyString)))
  end.

(** [Alphabet[i] + result]; outside the alphabet [Alphabet[i]] is
    [undefined]. *)
Definition prepend_letter (i : N) (result_ : string) : string :=
  match String.get (N.to_nat i) Alphabet with
  | Some c => String c result_
  | None => "undefined" +:+ result_
  end.

(** The loop [while (value)] of [encodeBase58]. *)
Fixpoint encodeBase58_loop (fuel : nat) (value : N) (result_ : string) : result string :=
  if (value =? 0)%N then Ok result_
  else match fuel with
       | O => Diverge
       | S fuel' =>
           encodeBase58_loop fuel' (value / 58)%N (prepend_letter (value mod 58)%N result_)
       end.

(** The loop [for (let i = 0; i < value.length; i++)] of [decodeBase58]. *)
Fixpoint decodeBase58_loop (value : string) (result_ : N) : result N :=
  match value with
  | EmptyString => Ok result_
  | String c rest =>
      let* d := getAlpha c in
      decodeBase58_loop rest (result_ * 58 + d)%N
  end.

Section Base58.

Variable getBytes : BytesLike -> result (list Byte.byte).
Variable toBigInt : list Byte.byte -> N.
Variable toHex : N -> string.

(** [encodeBase58(_value)].  Every turn of the loop divides the value by
    58, so its size in bits is fuel enough. *)
Definition encodeBase58 (_value : BytesLike) : result string :=
  let* bytes := getBytes _value in
  let value := toBigInt bytes in
  encodeBase58_loop (N.to_nat (N.size value)) value "".

(** [decodeBase58(value)] *)
Definition decodeBase58 (value : string) : result (list Byte.byte) :=
  let* result_ := decodeBase58_loop value 0%N in
  getBytes (Hex (toHex result_)).

End Base58.

(** A text of letters of the alphabet. *)
Definition base58_text (s : string) : Prop :=
  string_forallb (fun c => bool_decide (is_Some (Lookup_get c Lookup))) s = true.

(** A text without the leading letters [1], the digit 0. *)
Fixpoint without_leading_ones (s : string) : string :=
  match s with
  | String c rest => if Ascii.eqb c "1" then without_leading_ones rest else s
  | EmptyString => EmptyString
  end.

(** The letters of a number, the most significant first, as far as [fuel]
    goes. *)
Fixpoint base58_digits (fuel : nat) (value : N) : string :=
  match fuel with
  | O => EmptyString
  | S fuel' =>
      if (value =? 0)%N then EmptyString
      else base58_digits fuel' (value / 58)%N +:+ prepend_letter (value mod 58)%N ""
  end.

(** ** Array types in writing *)

(** The suffix [format] writes after the element type of an array of
    length [len]; the length of a dynamic array is -1. *)
Definition suffix_text (len : Z) : string :=
  "[" +:+ (if (len <? 0)%Z then "" else Z_to_string len) +:+ "]".

(** The array of [len] elements of type [child], as [ParamType.from] builds
    it: without a name, and with [nul] for [indexed] ([null] on the text
    path, [undefined] on the object path). *)
Definition array_of (nul : jsval) (child : ParamType) (len : Z) : ParamType :=
  mkParamType "" (pt_type child +:+ suffix_text len) "array" nul None (Some len) (Some child).

(** The elementary type [T] under the array suffixes [lens], the innermost
    first. *)
Definition arrays_of (nul : jsval) (T : string) (lens : list Z) : ParamType :=
  fold_left (array_of nul) lens (mkParamType "" T T nul None None None).

(** [p] with the name and the [indexed] of a parameter. *)
Definition entitled (name : string) (indexed : jsval) (p : ParamType) : ParamType :=
  mkParamType name (pt_type p) (pt_baseType p) indexed (pt_components p)
              (pt_arrayLength p) (pt_arrayChildren p).

(** A length [getNumber] and [parseInt] give exactly, or that of a dynamic
    array. *)
Definition array_length (len : Z) : Prop := (-1 <= len <= 9007199254740991)%Z.

(** The suffixes of nested arrays, the innermost first. *)
Definition suffixes (lens : list Z) : string :=
  fold_right (fun len acc => suffix_text len +:+ acc) "" lens.

(** [reaches text n st st']: [n] turns of the loop of [lex] lead from [st]
    to [st']. *)
Definition reaches (text : string) (n : nat) (st st' : LexState) : Prop :=
  forall fuel, lex_loop (n + fuel) text st = lex_loop fuel text st'.

(** Words, each after a blank. *)
Definition spaced (words : list string) : string :=
  fold_right (fun w acc => " " +:+ w +:+ acc) "" words.

(** The token of the word [w]. *)
Definition word_token (t : Token) (w : string) : Prop :=
  tk_type t = classify w /\ tk_text t = w.

(** A token string whose cursor stands after the tokens [read], before
    the tokens [ahead]. *)
Definition TokenString_at (read ahead : list Token) : TokenString :=
  mkTokenString (Z.of_nat (length read)) (read ++ ahead).

(** The fields of a [ParamType] but its name and [indexed], as the loop
    over the array suffixes carries them. *)
Definition shape_of (p : ParamType)
  : string * string * option (list ParamType) * option Z * option ParamType :=
  (pt_type p, pt_baseType p, pt_components p, pt_arrayLength p, pt_arrayChildren p).

(** The words [format] writes after the type of a parameter. *)
Definition written_words (indexed : jsval) (name : string) : list string :=
  (match indexed with JBool true => ["indexed"] | _ => [] end)
  ++ (if (name =? "")%string then [] else [name]).

(** What is left of [indexed] in writing: [format] writes the keyword for
    [true] only, and the text path reads [true] for the keyword and [null]
    without it. *)
Definition read_back_indexed (indexed : jsval) : jsval :=
  match indexed with JBool true => JBool true | _ => JNull end.

(** The token of the array suffix of length [len]. *)
Definition suffix_token (t : Token) (len : Z) : Prop :=
  tk_type t = BRACKET /\ tk_text t = suffix_text len /\ tk_value t = len.

(** ** The words of a token array *)

(** [sound t]: a token of one of the three types the tokenizer gives to a
    word carries a word, and its type is the one [classify] gives to it. *)
Definition sound (t : Token) : Prop :=
  match tk_type t with
  | KEYWORD | TYPE | ID => word (tk_text t) /\ classify (tk_text t) = tk_type t
  | _ => True
  end.

(** [anonymous] of an event; no other fragment has the property. *)
Definition is_anonymous (f : Fragment) : bool :=
  match f with
  | EventFragment _ _ anonymous => anonymous
  | _ => false
  end.

(** * Properties *)

Ltac ascii_cases c :=
  destruct c as [[|] [|] [|] [|] [|] [|] [|] [|]]; vm_compute; congruence.

(** ** Strings *)

Section StringFacts.

Lemma length_append (a b : string) :
  String.length (a +:+ b) = String.length a + String.length b.
Proof. induction a as [|c a IH]; simpl; [reflexivity | now rewrite IH]. Qed.

Lemma app_empty_r (a : string) : a +:+ "" = a.
Proof. induction a as [|c a IH]; simpl; [reflexivity | now rewrite IH]. Qed.

Lemma app_assoc_s (a b c : string) : (a +:+ b) +:+ c = a +:+ (b +:+ c).
Proof. induction a as [|x a IH]; simpl; [reflexivity | now rewrite IH]. Qed.

Lemma span_eq (p : ascii -> bool) (s : string) :
  fst (span p s) +:+ snd (span p s) = s.
Proof.
  induction s as [|c s IH]; simpl; [reflexivity|].
  destruct (p c); [|reflexivity].
  destruct (span p s) as [a b]; simpl in *. now rewrite IH.
Qed.

Lemma span_all (p : ascii -> bool) (s r : string) :
  string_forallb p s = true -> stops p r -> span p (s +:+ r) = (s, r).
Proof.
  induction s as [|c s IH]; simpl; intros Hs Hr.
  - destruct r as [|d r]; simpl in *; [reflexivity | now rewrite Hr].
  - apply andb_true_iff in Hs as [Hc Hs]. rewrite Hc, (IH Hs Hr). reflexivity.
Qed.

Lemma span_fst_all (p : ascii -> bool) (s : string) :
  string_forallb p (fst (span p s)) = true.
Proof.
  induction s as [|c s IH]; simpl; [reflexivity|].
  destruct (p c) eqn:Hc; [|reflexivity].
  destruct (span p s) as [a b]; simpl in *. now rewrite Hc, IH.
Qed.

Lemma span_snd_stops (p : ascii -> bool) (s : string) : stops p (snd (span p s)).
Proof.
  induction s as [|c s IH]; simpl; [exact I|].
  destruct (p c) eqn:Hc; [|exact Hc].
  destruct (span p s) as [a b]; simpl in *. exact IH.
Qed.

(** A run that ends inside [s] is not changed by what is appended to [s]. *)
Lemma span_app_inside (p : ascii -> bool) (s r : string) :
  snd (span p s) <> "" ->
  span p (s +:+ r) = (fst (span p s), snd (span p s) +:+ r).
Proof.
  induction s as [|c s IH]; simpl; intros H; [congruence|].
  destruct (p c); [|reflexivity].
  destruct (span p s) as [a b]; simpl in *. now rewrite (IH H).
Qed.

(** A run is not changed by appending a text it cannot go on into. *)
Lemma span_fst_app (p : ascii -> bool) (s r : string) :
  stops p r -> fst (span p (s +:+ r)) = fst (span p s).
Proof.
  intros Hr. rewrite <- (span_eq p s) at 1. rewrite app_assoc_s.
  destruct (snd (span p s)) as [|d b] eqn:Hb.
  - simpl. now rewrite (span_all p _ r (span_fst_all p s) Hr).
  - rewrite (span_all p (fst (span p s)) (String d b +:+ r) (span_fst_all p s)).
    + reflexivity.
    + pose proof (span_snd_stops p s) as H. rewrite Hb in H. exact H.
Qed.

Lemma substring_from_length (n : nat) (s : string) :
  String.length (substring_from n s) = String.length s - n.
Proof.
  revert s; induction n as [|n IH]; intros s; simpl; [lia|].
  destruct s; simpl; [reflexivity | apply IH].
Qed.

Lemma substring_from_app (n : nat) (s r : string) :
  n <= String.length s -> substring_from n (s +:+ r) = substring_from n s +:+ r.
Proof.
  revert s; induction n as [|n IH]; intros s H; simpl; [reflexivity|].
  destruct s; simpl in *; [lia | apply IH; lia].
Qed.

Lemma substring_from_all (s r : string) :
  substring_from (String.length s) (s +:+ r) = r.
Proof. induction s as [|c s IH]; simpl; [now destruct r | exact IH]. Qed.

Lemma substring_from_whole (s : string) : substring_from (String.length s) s = "".
Proof. induction s as [|c s IH]; simpl; [reflexivity | exact IH]. Qed.

Lemma substring_from_plus (n m : nat) (s : string) :
  substring_from (n + m) s = substring_from m (substring_from n s).
Proof.
  revert s; induction n as [|n IH]; intros s; simpl; [reflexivity|].
  destruct s; simpl; [now destruct m | apply IH].
Qed.

Lemma length_zero (s : string) : String.length s = 0 -> s = "".
Proof. destruct s; simpl; [reflexivity | discriminate]. Qed.

End StringFacts.

(** ** The tokenizer *)

Section LexFacts.

Lemma space_not_id_char (c : ascii) : is_space c = true -> is_id_char c = false.
Proof. ascii_cases c. Qed.

Lemma space_not_digit (c : ascii) : is_space c = true -> is_digit c = false.
Proof. ascii_cases c. Qed.

Lemma span_length_le (p : ascii -> bool) (s : string) :
  String.length (fst (span p s)) <= String.length s.
Proof.
  rewrite <- (span_eq p s) at 2. rewrite length_append. lia.
Qed.

Lemma regexNumber_fst (s : string) :
  regexNumber s = match fst (span is_digit s) with
                  | EmptyString => None
                  | ds => Some ds
                  end.
Proof. unfold regexNumber. now destruct (span is_digit s) as [[|d ds] b]. Qed.

Lemma regexNumber_app (s r : string) :
  stops is_digit r -> regexNumber (s +:+ r) = regexNumber s.
Proof. intros H. now rewrite !regexNumber_fst, span_fst_app. Qed.

Lemma regexIdentifier_app (c : ascii) (s r : string) :
  stops is_id_char r ->
  regexIdentifier (String c (s +:+ r)) = regexIdentifier (String c s).
Proof. intros H. simpl. now rewrite span_fst_app. Qed.

Lemma regexIdentifier_length (s text : string) :
  regexIdentifier s = Some text ->
  1 <= String.length text <= String.length s.
Proof.
  destruct s as [|c s]; simpl; [discriminate|].
  destruct (is_id_start c); [|discriminate].
  intros [= <-]. simpl. pose proof (span_length_le is_id_char s). lia.
Qed.

Lemma regexNumber_length (s text : string) :
  regexNumber s = Some text ->
  1 <= String.length text <= String.length s.
Proof.
  rewrite regexNumber_fst. pose proof (span_length_le is_digit s) as H.
  destruct (fst (span is_digit s)) as [|d ds]; [discriminate|].
  intros [= <-]. simpl in *. lia.
Qed.

(** What [lex_token] does when the first character is no simple token. *)
Lemma lex_token_word (c : ascii) (after : string) (offset : nat) (st : LexState) :
  SimpleTokens c = None ->
  lex_token (String c after) offset st =
  let depth := Z.of_nat (length (lx_brackets st)) in
  match regexIdentifier (String c after) with
  | Some text =>
      Ok (mkLex (lx_tokens st ++ [mkToken (classify text) offset text depth (-1) (-1) (-1) (-1)])
                (lx_brackets st) (lx_commas st) (offset + String.length text))
  | None =>
      match regexNumber (String c after) with
      | Some text =>
          Ok (mkLex (lx_tokens st ++ [mkToken NUMBER offset text depth (-1) (-1) (-1) (-1)])
                    (lx_brackets st) (lx_commas st) (offset + String.length text))
      | None => Throw (UnexpectedToken (Some c) offset)
      end
  end.
Proof. intros H. unfold lex_token. rewrite H. reflexivity. Qed.

(** A simple token is read from the first character alone, but for the
    character named in the error of an unmatched parenthesis. *)
Lemma lex_token_simple (c : ascii) (after after' : string) (offset : nat)
      (st st' : LexState) (ty : TokenType) :
  SimpleTokens c = Some ty ->
  lex_token (String c after) offset st = Ok st' ->
  lex_token (String c after') offset st = Ok st'.
Proof.
  intros H. unfold lex_token. rewrite H.
  destruct ty; try (intros E; exact E).
  destruct (lx_brackets st); [discriminate | intros E; exact E].
Qed.

(** Reading a token does not look beyond the end of the token, where the
    text goes on with a character that belongs to neither a name nor a
    number. *)
Lemma lex_token_app (cur r : string) (offset : nat) (st st' : LexState) :
  stops is_id_char r -> stops is_digit r ->
  lex_token cur offset st = Ok st' ->
  lex_token (cur +:+ r) offset st = Ok st'.
Proof.
  intros Hid Hd. destruct cur as [|c after]; [discriminate|].
  change (String c after +:+ r) with (String c (after +:+ r)).
  destruct (SimpleTokens c) as [ty|] eqn:Hc.
  - apply (lex_token_simple c _ _ _ _ _ ty Hc).
  - rewrite !(lex_token_word _ _ _ _ Hc).
    rewrite (regexIdentifier_app c after r Hid).
    change (String c (after +:+ r)) with (String c after +:+ r).
    rewrite (regexNumber_app (String c after) r Hd). trivial.
Qed.

(** A token that is read ends after where it starts and inside the text. *)
Lemma lex_token_offset (cur : string) (offset : nat) (st st' : LexState) :
  lex_token cur offset st = Ok st' ->
  offset < lx_offset st' <= offset + String.length cur.
Proof.
  destruct cur as [|c after]; [discriminate|].
  destruct (SimpleTokens c) as [ty|] eqn:Hc.
  - unfold lex_token. rewrite Hc. simpl String.length.
    unfold bind, update, getNumber.
    repeat match goal with
           | |- Ok _ = Ok _ -> _ => intros [= <-]; simpl; lia
           | |- Throw _ = Ok _ -> _ => discriminate
           | |- Diverge = Ok _ -> _ => discriminate
           | |- context [match ?x with _ => _ end] => destruct x eqn:?; simpl
           | |- context [if ?x then _ else _] => destruct x eqn:?; simpl
           end.
  - rewrite (lex_token_word _ _ _ _ Hc). cbv zeta.
    destruct (regexIdentifier (String c after)) as [text|] eqn:Hi.
    + apply regexIdentifier_length in Hi. intros [= <-]. simpl in *. lia.
    + destruct (regexNumber (String c after)) as [text|] eqn:Hn; [|discriminate].
      apply regexNumber_length in Hn. intros [= <-]. simpl in *. lia.
Qed.

Lemma substring_from_split (o : nat) (text a b : string) :
  substring_from o text = a +:+ b ->
  substring_from (o + String.length a) text = b.
Proof.
  intros H. rewrite substring_from_plus, H. apply substring_from_all.
Qed.

Lemma lex_step_offset (text : string) (st st' : LexState) :
  lx_offset st <= String.length text ->
  lex_step text st = Ok st' ->
  lx_offset st < lx_offset st' <= String.length text.
Proof.
  intros Ho. unfold lex_step, regexWhitespace.
  set (cur := substring_from (lx_offset st) text).
  pose proof (span_eq is_space cur) as Hcur.
  pose proof (substring_from_length (lx_offset st) text) as Hlen. fold cur in Hlen.
  rewrite <- Hcur, length_append in Hlen.
  rewrite (substring_from_split _ _ _ _ (eq_sym Hcur)).
  intros H. apply lex_token_offset in H. lia.
Qed.

(** A turn of the loop that succeeds on [text] does the same on [text]
    followed by whitespace. *)
Lemma lex_step_app (text r : string) (st st' : LexState) :
  lx_offset st <= String.length text ->
  stops is_id_char r -> stops is_digit r ->
  lex_step text st = Ok st' ->
  lex_step (text +:+ r) st = Ok st'.
Proof.
  intros Ho Hid Hd. unfold lex_step, regexWhitespace.
  rewrite (substring_from_app _ _ r Ho).
  set (cur := substring_from (lx_offset st) text).
  pose proof (span_eq is_space cur) as Hcur.
  rewrite (substring_from_split _ _ _ _ (eq_sym Hcur)).
  intros H.
  assert (Hne : snd (span is_space cur) <> "").
  { intros E. rewrite E in H. discriminate H. }
  rewrite (span_app_inside is_space cur r Hne). simpl fst.
  assert (Hsub : substring_from (lx_offset st) (text +:+ r)
                 = fst (span is_space cur) +:+ (snd (span is_space cur) +:+ r)).
  { rewrite (substring_from_app _ _ r Ho). fold cur.
    rewrite <- Hcur at 1. apply app_assoc_s. }
  rewrite (substring_from_split _ _ _ _ Hsub).
  apply lex_token_app; assumption.
Qed.

Lemma bind_not_diverge {A B} (m : result A) (k : A -> result B) :
  m <> Diverge -> (forall a, m = Ok a -> k a <> Diverge) -> bind m k <> Diverge.
Proof. destruct m; simpl; intros H K; [now apply K | discriminate | congruence]. Qed.

Lemma update_not_diverge (i : nat) (f : Token -> Token) (tokens : list Token) :
  update i f tokens <> Diverge.
Proof. unfold update. destruct (tokens !! i); discriminate. Qed.

Lemma getNumber_not_diverge (value : string) : getNumber value <> Diverge.
Proof. unfold getNumber. destruct (_ <=? _)%Z; discriminate. Qed.

Ltac no_diverge :=
  repeat first
    [ discriminate
    | apply update_not_diverge
    | apply getNumber_not_diverge
    | apply bind_not_diverge; [| intros ? _]
    | match goal with
      | |- context [match ?x with _ => _ end] => destruct x
      | |- context [if ?x then _ else _] => destruct x
      end ].

Lemma lex_token_not_diverge (cur : string) (offset : nat) (st : LexState) :
  lex_token cur offset st <> Diverge.
Proof.
  destruct cur as [|c after]; [discriminate|].
  destruct (SimpleTokens c) as [ty|] eqn:Hc.
  - unfold lex_token. rewrite Hc. destruct ty; no_diverge.
  - rewrite (lex_token_word _ _ _ _ Hc). cbv zeta.
    destruct (regexIdentifier _); [discriminate|].
    destruct (regexNumber _); discriminate.
Qed.

(** Fuel: every turn moves the cursor forward, so the loop ends. *)
Lemma lex_loop_terminates (fuel : nat) (text : string) (st : LexState) :
  lx_offset st <= String.length text ->
  String.length text - lx_offset st <= fuel ->
  lex_loop fuel text st <> Diverge.
Proof.
  revert st; induction fuel as [|fuel IH]; intros st Ho Hf; simpl.
  - destruct (lx_offset st <? String.length text) eqn:E; [|discriminate].
    apply Nat.ltb_lt in E. lia.
  - destruct (lx_offset st <? String.length text) eqn:E; [|discriminate].
    destruct (lex_step text st) as [st'| |] eqn:Hs; simpl; try discriminate.
    + apply (lex_step_offset _ _ _ Ho) in Hs. apply IH; lia.
    + destruct (lex_token_not_diverge _ _ _ Hs).
Qed.

Theorem lex_total (text : string) : lex text <> Diverge.
Proof.
  unfold lex.
  pose proof (lex_loop_terminates (String.length text) text (mkLex [] [] [] 0)) as H.
  destruct (lex_loop _ _ _); simpl; try discriminate.
  intros _. apply H; simpl; first [lia | reflexivity].
Qed.

(** Whitespace at the end of the text: the loop takes one more turn, which
    finds nothing to read. *)
Lemma lex_step_at_end (s ws : string) (st : LexState) :
  lx_offset st = String.length s ->
  string_forallb is_space ws = true ->
  lex_step (s +:+ ws) st = Throw (UnexpectedToken None (String.length (s +:+ ws))).
Proof.
  intros Ho Hws. unfold lex_step, regexWhitespace.
  rewrite Ho, substring_from_all.
  pose proof (span_all is_space ws "" Hws I) as Hsp. rewrite app_empty_r in Hsp.
  rewrite Hsp. simpl fst.
  rewrite substring_from_plus, substring_from_all, substring_from_whole.
  now rewrite length_append.
Qed.

Lemma lex_loop_app (s ws : string) :
  ws <> "" -> string_forallb is_space ws = true ->
  forall fuel fuel' st tokens,
    lx_offset st <= String.length s ->
    lex_loop fuel s st = Ok tokens ->
    fuel < fuel' ->
    lex_loop fuel' (s +:+ ws) st
    = Throw (UnexpectedToken None (String.length (s +:+ ws))).
Proof.
  intros Hne Hws.
  assert (Hid : stops is_id_char ws /\ stops is_digit ws).
  { destruct ws as [|w ws']; [congruence|]. simpl in Hws.
    apply andb_true_iff in Hws as [Hw _]. simpl.
    split; [now apply space_not_id_char | now apply space_not_digit]. }
  destruct Hid as [Hid Hd].
  assert (Hlen : String.length s < String.length (s +:+ ws)).
  { rewrite length_append. destruct ws; [congruence | simpl; lia]. }
  induction fuel as [|fuel IH]; intros fuel' st tokens Ho Hrun Hf;
    (destruct fuel' as [|fuel']; [lia|]); simpl in Hrun |- *.
  - destruct (lx_offset st <? String.length s) eqn:E; [discriminate|].
    apply Nat.ltb_ge in E.
    replace (lx_offset st <? String.length (s +:+ ws)) with true
      by (symmetry; apply Nat.ltb_lt; lia).
    rewrite (lex_step_at_end s ws st); [reflexivity | lia | assumption].
  - destruct (lx_offset st <? String.length s) eqn:E.
    + apply Nat.ltb_lt in E.
      replace (lx_offset st <? String.length (s +:+ ws)) with true
        by (symmetry; apply Nat.ltb_lt; lia).
      destruct (lex_step s st) as [st'| |] eqn:Hs; simpl in Hrun; try discriminate.
      rewrite (lex_step_app s ws st st' Ho Hid Hd Hs). simpl.
      apply (lex_step_offset _ _ _ Ho) in Hs.
      apply (IH fuel' st' tokens); [lia | assumption | lia].
    + apply Nat.ltb_ge in E.
      replace (lx_offset st <? String.length (s +:+ ws)) with true
        by (symmetry; apply Nat.ltb_lt; lia).
      rewrite (lex_step_at_end s ws st); [reflexivity | lia | assumption].
Qed.

End LexFacts.

(** ** Words separated by blanks *)

Section Words.

Lemma id_start_not_simple (c : ascii) : is_id_start c = true -> SimpleTokens c = None.
Proof. ascii_cases c. Qed.

Lemma id_start_not_space (c : ascii) : is_id_start c = true -> is_space c = false.
Proof. ascii_cases c. Qed.

Lemma word_inv (w : string) :
  word w ->
  exists c w', w = String c w' /\ is_id_start c = true
               /\ fst (span is_id_char w') = w'.
Proof.
  unfold word. destruct w as [|c w']; simpl; [discriminate|].
  destruct (is_id_start c) eqn:Hc; [|discriminate].
  intros [= H]. now exists c, w'.
Qed.

Lemma word_nonempty (w : string) : word w -> 1 <= String.length w.
Proof. intros H. destruct (word_inv w H) as (c & w' & -> & _). simpl. lia. Qed.

Lemma word_not_empty (w : string) : word w -> (w =? "")%string = false.
Proof. intros H. destruct (word_inv w H) as (c & w' & -> & _). reflexivity. Qed.

(** One turn of the loop on a word that stands after blanks. *)
Lemma lex_step_word (text pre sp w rest : string) (st : LexState) :
  text = pre +:+ sp +:+ w +:+ rest ->
  lx_offset st = String.length pre ->
  string_forallb is_space sp = true ->
  word w -> stops is_id_char rest ->
  lex_step text st
  = Ok (mkLex (lx_tokens st ++
                 [mkToken (classify w) (String.length pre + String.length sp) w
                          (Z.of_nat (length (lx_brackets st))) (-1) (-1) (-1) (-1)])
              (lx_brackets st) (lx_commas st)
              (String.length pre + String.length sp + String.length w)).
Proof.
  intros -> Ho Hsp Hw Hrest.
  destruct (word_inv w Hw) as (c & w' & -> & Hc & Hw').
  unfold lex_step, regexWhitespace. rewrite Ho, substring_from_all.
  assert (Hspan : span is_space (sp +:+ String c w' +:+ rest) = (sp, String c w' +:+ rest)).
  { apply span_all; [assumption|]. simpl. now apply id_start_not_space. }
  rewrite Hspan. simpl fst.
  rewrite substring_from_plus, substring_from_all, substring_from_all.
  change (String c w' +:+ rest) with (String c (w' +:+ rest)).
  rewrite (lex_token_word _ _ _ _ (id_start_not_simple c Hc)).
  rewrite (regexIdentifier_app c w' rest Hrest). cbv zeta.
  unfold word in Hw. rewrite Hw. reflexivity.
Qed.

Lemma lex_loop_step (fuel : nat) (text : string) (st st' : LexState) :
  lx_offset st < String.length text ->
  lex_step text st = Ok st' ->
  lex_loop (S fuel) text st = lex_loop fuel text st'.
Proof.
  intros Ho Hs. simpl. apply Nat.ltb_lt in Ho. now rewrite Ho, Hs.
Qed.

Lemma lex_loop_end (fuel : nat) (text : string) (st : LexState) :
  lx_offset st = String.length text ->
  lex_loop fuel text st = Ok (lx_tokens st).
Proof.
  intros Ho. destruct fuel; simpl; now rewrite Ho, Nat.ltb_irrefl.
Qed.

Lemma lex_loop_mono (text : string) (fuel fuel' : nat) (st : LexState)
      (tokens : list Token) :
  lex_loop fuel text st = Ok tokens -> fuel <= fuel' ->
  lex_loop fuel' text st = Ok tokens.
Proof.
  revert fuel' st; induction fuel as [|fuel IH]; intros fuel' st; simpl.
  - destruct (lx_offset st <? String.length text) eqn:E; [discriminate|].
    intros H _. destruct fuel'; simpl; now rewrite E.
  - destruct (lx_offset st <? String.length text) eqn:E.
    + destruct (lex_step text st) as [st'| |] eqn:Hs; simpl; try discriminate.
      intros H Hf. destruct fuel' as [|fuel']; [lia|]. simpl.
      rewrite E, Hs. simpl. apply IH; [assumption | lia].
    + intros H _. destruct fuel'; simpl; now rewrite E.
Qed.

(** The tokens of two words with a blank between them. *)
Lemma lex_two_words (a b : string) :
  word a -> word b ->
  lex (a +:+ " " +:+ b)
  = Ok (mkTokenString 0 [plain (classify a) 0 a;
                         plain (classify b) (String.length a + 1) b]).
Proof.
  intros Ha Hb. unfold lex.
  pose proof (word_nonempty a Ha) as La. pose proof (word_nonempty b Hb) as Lb.
  set (text := a +:+ " " +:+ b).
  assert (Hlen : String.length text = String.length a + 1 + String.length b).
  { unfold text. rewrite !length_append. simpl. lia. }
  enough (Hrun : lex_loop 2 text (mkLex [] [] [] 0)
                 = Ok [plain (classify a) 0 a;
                       plain (classify b) (String.length a + 1) b]).
  { rewrite (lex_loop_mono _ 2 _ _ _ Hrun); [reflexivity | lia]. }
  erewrite lex_loop_step;
    [ | simpl; lia
      | apply (lex_step_word text "" "" a (" " +:+ b));
        [reflexivity | reflexivity | reflexivity | assumption | reflexivity] ].
  erewrite lex_loop_step;
    [ | simpl; lia
      | apply (lex_step_word text a " " b "");
        [ unfold text; now rewrite app_empty_r
        | reflexivity | reflexivity | assumption | exact I] ].
  rewrite lex_loop_end; [reflexivity | simpl; lia].
Qed.

(** The tokens of three words with blanks between them. *)
Lemma lex_three_words (a k b : string) :
  word a -> word k -> word b ->
  lex (a +:+ " " +:+ k +:+ " " +:+ b)
  = Ok (mkTokenString 0 [plain (classify a) 0 a;
                         plain (classify k) (String.length a + 1) k;
                         plain (classify b) (String.length a + 1 + String.length k + 1) b]).
Proof.
  intros Ha Hk Hb. unfold lex.
  pose proof (word_nonempty a Ha) as La. pose proof (word_nonempty k Hk) as Lk.
  pose proof (word_nonempty b Hb) as Lb.
  set (text := a +:+ " " +:+ k +:+ " " +:+ b).
  assert (Hlen : String.length text
                 = String.length a + 1 + String.length k + 1 + String.length b).
  { unfold text. rewrite !length_append. simpl. lia. }
  enough (Hrun : lex_loop 3 text (mkLex [] [] [] 0)
                 = Ok [plain (classify a) 0 a;
                       plain (classify k) (String.length a + 1) k;
                       plain (classify b) (String.length a + 1 + String.length k + 1) b]).
  { rewrite (lex_loop_mono _ 3 _ _ _ Hrun); [reflexivity | lia]. }
  erewrite lex_loop_step;
    [ | simpl; lia
      | apply (lex_step_word text "" "" a (" " +:+ k +:+ " " +:+ b));
        [reflexivity | reflexivity | reflexivity | assumption | reflexivity] ].
  erewrite lex_loop_step;
    [ | simpl; lia
      | apply (lex_step_word text a " " k (" " +:+ b));
        [reflexivity | reflexivity | reflexivity | assumption | reflexivity] ].
  erewrite lex_loop_step;
    [ | simpl; lia
      | apply (lex_step_word text (a +:+ " " +:+ k) " " b "");
        [ unfold text; now rewrite app_empty_r, !app_assoc_s
        | simpl; rewrite !length_append; simpl; lia
        | reflexivity | assumption | exact I] ].
  rewrite lex_loop_end; [ | simpl; rewrite Hlen, !length_append; simpl; lia].
  simpl. rewrite !length_append. simpl. unfold plain.
  replace (String.length a + S (String.length k) + 1)
    with (String.length a + 1 + String.length k + 1) by lia.
  reflexivity.
Qed.

End Words.

(** ** Elementary types and the text path of [ParamType.from] *)

Section TextPath.

Lemma strip_prefix_Some (p s r : string) :
  strip_prefix p s = Some r -> s = p +:+ r.
Proof.
  revert s; induction p as [|a p IH]; intros s; simpl.
  - now intros [= ->].
  - destruct s as [|b s]; [discriminate|].
    destruct (Ascii.eqb a b) eqn:E; [|discriminate].
    apply Ascii.eqb_eq in E as <-. intros H. now rewrite (IH _ H).
Qed.

(** A string [regexType] matches starts with one of the six type names. *)
Lemma regexType_prefix (s : string) (m : TypeMatch) :
  regexType s = Some m ->
  exists r, s = "address" +:+ r \/ s = "bool" +:+ r \/ s = "bytes" +:+ r
            \/ s = "string" +:+ r \/ s = "uint" +:+ r \/ s = "int" +:+ r.
Proof.
  unfold regexType.
  destruct (strip_prefix "address" s) as [r|] eqn:E1;
    [ apply strip_prefix_Some in E1; eauto 10 |].
  destruct (strip_prefix "bool" s) as [r|] eqn:E2;
    [ apply strip_prefix_Some in E2; eauto 10 |].
  destruct (strip_prefix "bytes" s) as [r|] eqn:E3;
    [ apply strip_prefix_Some in E3; eauto 10 |].
  destruct (strip_prefix "string" s) as [r|] eqn:E4;
    [ apply strip_prefix_Some in E4; eauto 10 |].
  destruct (strip_prefix "uint" s) as [r|] eqn:E5;
    [ apply strip_prefix_Some in E5; eauto 10 |].
  destruct (strip_prefix "int" s) as [r|] eqn:E6;
    [ apply strip_prefix_Some in E6; eauto 10 | discriminate].
Qed.

(** What [verifyBasicType] returns is its argument, or the canonical name
    of [uint] and [int]. *)
Lemma verifyBasicType_result (type type' : string) :
  verifyBasicType type = Ok type' ->
  (exists m, regexType type = Some m)
  /\ (type' = type \/ (type = "uint" /\ type' = "uint256")
      \/ (type = "int" /\ type' = "int256")).
Proof.
  unfold verifyBasicType.
  destruct (regexType type) as [m|]; [|discriminate].
  intros H. split; [eauto|].
  destruct (type =? "uint")%string eqn:E1.
  { apply String.eqb_eq in E1. injection H as <-. auto. }
  destruct (type =? "int")%string eqn:E2.
  { apply String.eqb_eq in E2. injection H as <-. auto. }
  left. unfold assertArgument in H.
  repeat match type of H with
         | context [if ?b then _ else _] => destruct b; simpl in H
         end; congruence.
Qed.

(** The base type of an elementary parameter is neither [array] nor
    [tuple], so its constructor accepts it without children. *)
Lemma verifyBasicType_not_compound (type type' : string) :
  verifyBasicType type = Ok type' ->
  (type' =? "array")%string = false /\ (type' =? "tuple")%string = false.
Proof.
  intros H. destruct (verifyBasicType_result _ _ H) as [[m Hm] Hres].
  destruct Hres as [-> | [[_ ->] | [_ ->]]]; [| split; reflexivity ..].
  destruct (regexType_prefix _ _ Hm) as [r Hr].
  destruct Hr as [-> | [-> | [-> | [-> | [-> | ->]]]]]; split; reflexivity.
Qed.

Lemma ParamType_new_elementary (name type : string) (indexed : jsval) :
  (type =? "array")%string = false -> (type =? "tuple")%string = false ->
  ParamType_new name type type indexed None None None
  = Ok (mkParamType name type type indexed None None None).
Proof. intros H1 H2. unfold ParamType_new. now rewrite H1, H2. Qed.

Local Opaque verifyBasicType ParamType_new.

(** The text path on a type followed by a name. *)
Lemma from_type_name (fuel : nat) (allowIndexed : bool)
      (T T' x : string) (o1 o2 : nat) :
  verifyBasicType T = Ok T' -> (x =? "")%string = false ->
  ParamType_from_fuel (S fuel)
    (PTokens (mkTokenString 0 [plain TYPE o1 T; plain ID o2 x])) allowIndexed
  = Ok (mkParamType x T' T' JNull None None None).
Proof.
  intros HT Hx. destruct (verifyBasicType_not_compound _ _ HT) as [Ha Ht].
  simpl. unfold from_tokens. simpl. rewrite HT. simpl. rewrite Hx. simpl.
  now apply ParamType_new_elementary.
Qed.

(** The text path on a type, one of the four modifiers and a name. *)
Lemma from_type_modifier_name (fuel : nat) (allowIndexed : bool)
      (T T' x kw : string) (o1 o2 o3 : nat) :
  verifyBasicType T = Ok T' -> (x =? "")%string = false ->
  In kw ["calldata"; "memory"; "storage"; "payable"] ->
  ParamType_from_fuel (S fuel)
    (PTokens (mkTokenString 0 [plain TYPE o1 T; plain KEYWORD o2 kw; plain ID o3 x]))
    allowIndexed
  = Ok (mkParamType x T' T' JNull None None None).
Proof.
  intros HT Hx Hkw. destruct (verifyBasicType_not_compound _ _ HT) as [Ha Ht].
  simpl in Hkw.
  destruct Hkw as [<- | [<- | [<- | [<- | []]]]];
    simpl; unfold from_tokens; simpl; rewrite HT; simpl; rewrite Hx; simpl;
    now apply ParamType_new_elementary.
Qed.

Local Transparent verifyBasicType ParamType_new.

End TextPath.

(** ** The words of the grammar of type names *)

Section Elementary.

(** The set [Keywords], as [setify] builds it. *)
Lemma Keywords_eq :
  Keywords = ["constructor"; "error"; "event"; "fallback"; "function"; "receive";
              "struct"; "calldata"; "memory"; "storage"; "payable"; "indexed";
              "tuple"; "returns"; "constant"; "external"; "internal"; "private";
              "public"; "pure"; "view"].
Proof. vm_compute. reflexivity. Qed.

Lemma forallb_app (p : ascii -> bool) (a b : string) :
  string_forallb p (a +:+ b) = string_forallb p a && string_forallb p b.
Proof.
  induction a as [|c a IH]; simpl; [reflexivity|].
  now rewrite IH, andb_assoc.
Qed.

Lemma forallb_impl (p q : ascii -> bool) (s : string) :
  (forall c, p c = true -> q c = true) ->
  string_forallb p s = true -> string_forallb q s = true.
Proof.
  intros Hpq. induction s as [|c s IH]; simpl; [reflexivity|].
  intros H. apply andb_true_iff in H as [Hc Hs].
  now rewrite (Hpq _ Hc), IH.
Qed.

Lemma digit_is_id_char (c : ascii) : is_digit c = true -> is_id_char c = true.
Proof. unfold is_id_char. intros ->. apply orb_true_r. Qed.

Lemma digit_not_e (c : ascii) : is_digit c = true -> Ascii.eqb c "e" = false.
Proof. ascii_cases c. Qed.

Lemma digits_not_ernal (ds : string) :
  string_forallb is_digit ds = true -> (ds =? "ernal")%string = false.
Proof.
  destruct ds as [|d ds]; [reflexivity|]. simpl.
  intros H. apply andb_true_iff in H as [Hd _].
  now rewrite (digit_not_e d Hd).
Qed.

(** A word made of characters of names is a [word]. *)
Lemma word_of_id_chars (c : ascii) (s : string) :
  is_id_start c = true -> string_forallb is_id_char s = true ->
  word (String c s).
Proof.
  intros Hc Hs. unfold word. simpl. rewrite Hc.
  pose proof (span_all is_id_char s "" Hs I) as H.
  rewrite app_empty_r in H. now rewrite H.
Qed.

Lemma span_digits (ds : string) :
  string_forallb is_digit ds = true -> fst (span is_digit ds) = ds.
Proof.
  intros H. pose proof (span_all is_digit ds "" H I) as E.
  rewrite app_empty_r in E. now rewrite E.
Qed.

(** A type name followed by digits is a word, and [lex] makes it a TYPE. *)
Lemma sized_type_word (ds : string) :
  string_forallb is_digit ds = true ->
  (word ("bytes" +:+ ds) /\ classify ("bytes" +:+ ds) = TYPE)
  /\ (word ("uint" +:+ ds) /\ classify ("uint" +:+ ds) = TYPE)
  /\ (word ("int" +:+ ds) /\ classify ("int" +:+ ds) = TYPE).
Proof.
  intros H.
  pose proof (forallb_impl _ _ _ digit_is_id_char H) as Hid.
  split; [split | split; split].
  - apply word_of_id_chars; [reflexivity|]. simpl. exact Hid.
  - unfold classify. rewrite Keywords_eq. reflexivity.
  - apply word_of_id_chars; [reflexivity|]. simpl. exact Hid.
  - unfold classify. rewrite Keywords_eq. reflexivity.
  - apply word_of_id_chars; [reflexivity|]. simpl. exact Hid.
  - unfold classify. rewrite Keywords_eq. simpl.
    rewrite (digits_not_ernal ds H). reflexivity.
Qed.

(** Every word of the grammar of type names is a word of names, and
    [lex] makes it a TYPE token. *)
Lemma elementary_word (T : string) :
  elementary T -> word T /\ classify T = TYPE.
Proof.
  intros (m & Hm & HT). revert Hm. unfold regexType.
  destruct (strip_prefix "address" T) as [r|] eqn:E1.
  { intros [= <-]. simpl in HT. subst T. split; vm_compute; reflexivity. }
  destruct (strip_prefix "bool" T) as [r|] eqn:E2.
  { intros [= <-]. simpl in HT. subst T. split; vm_compute; reflexivity. }
  destruct (strip_prefix "bytes" T) as [r|] eqn:E3.
  { intros [= <-]. simpl in HT. subst T.
    apply (sized_type_word _ (span_fst_all is_digit r)). }
  destruct (strip_prefix "string" T) as [r|] eqn:E4.
  { intros [= <-]. simpl in HT. subst T. split; vm_compute; reflexivity. }
  destruct (strip_prefix "uint" T) as [r|] eqn:E5.
  { intros [= <-]. simpl in HT. subst T.
    apply (sized_type_word _ (span_fst_all is_digit r)). }
  destruct (strip_prefix "int" T) as [r|] eqn:E6; [|discriminate].
  intros [= <-]. simpl in HT. subst T.
  apply (sized_type_word _ (span_fst_all is_digit r)).
Qed.

End Elementary.

(** ** [JSON.parse] ends *)

Section JsonFacts.

Lemma span_snd_length (p : ascii -> bool) (s : string) :
  String.length (snd (span p s)) <= String.length s.
Proof. rewrite <- (span_eq p s) at 2. rewrite length_append. lia. Qed.

Lemma skip_ws_length (s : string) : String.length (skip_ws s) <= String.length s.
Proof. apply span_snd_length. Qed.

Lemma skip_ws_cons (s rest : string) (c : ascii) :
  skip_ws s = String c rest -> String.length rest < String.length s.
Proof. intros H. pose proof (skip_ws_length s) as L. rewrite H in L. simpl in L. lia. Qed.

Lemma string_ends_throw (e : error) (k : nat) : string_ends_within (Throw e) k.
Proof. split; [discriminate | intros; discriminate]. Qed.

Lemma string_ends_cons (r : result (string * string)) (k k' : nat) (x : ascii) :
  string_ends_within r k -> k + 1 <= k' ->
  string_ends_within (let* '(body, after) := r in Ok (String x body, after)) k'.
Proof.
  intros [Hd Hc] Hk. destruct r as [[b a]| |]; simpl;
    [ | apply string_ends_throw | congruence].
  split; [discriminate|]. intros body rest [= <- <-]. simpl.
  specialize (Hc b a eq_refl). lia.
Qed.

(** A string literal ends, and uses up a character of the text for each
    character of the string and one for the closing quote. *)
Lemma parse_string_body_spec (n : nat) (s : string) :
  String.length s <= n ->
  string_ends_within (parse_string_body s) (String.length s).
Proof.
  revert s; induction n as [|n IH]; intros s Hn.
  - destruct s; simpl in *; [apply string_ends_throw | lia].
  - destruct s as [|c s]; [apply string_ends_throw|].
    simpl in Hn. simpl parse_string_body.
    destruct (code c =? 34).
    { split; [discriminate | intros ? ? [= <- <-]; simpl; lia]. }
    destruct (code c <? 32); [apply string_ends_throw|].
    destruct (code c =? 92).
    + destruct s as [|e s]; [apply string_ends_throw|]. simpl in Hn.
      destruct (simple_escape e).
      { apply (string_ends_cons _ (String.length s)); [apply IH; lia | simpl; lia]. }
      destruct (code e =? 117); [|apply string_ends_throw].
      destruct s as [|a [|b [|h [|l s3]]]]; try apply string_ends_throw.
      simpl in Hn.
      destruct (unhex a) as [[|?]|]; try apply string_ends_throw.
      destruct (unhex b) as [[|?]|]; try apply string_ends_throw.
      destruct (unhex h) as [x|]; try apply string_ends_throw.
      destruct (unhex l) as [y|]; try apply string_ends_throw.
      apply (string_ends_cons _ (String.length s3)); [apply IH; lia | simpl; lia].
    + apply (string_ends_cons _ (String.length s)); [apply IH; lia | simpl; lia].
Qed.

Lemma parse_number_spec (s : string) :
  parse_number s <> Diverge
  /\ forall v rest, parse_number s = Ok (v, rest) ->
                    String.length rest < String.length s /\ exists n, v = JNum n.
Proof.
  unfold parse_number.
  set (s1 := match s with
             | String c s' => if code c =? 45 then s' else s
             | EmptyString => s
             end).
  set (neg := match s with
              | String c s' => if code c =? 45 then true else false
              | EmptyString => false
              end).
  assert (E : match s with
              | String c s' => if code c =? 45 then (true, s') else (false, s)
              | EmptyString => (false, s)
              end = (neg, s1)).
  { unfold neg, s1. destruct s as [|c s']; [reflexivity|]. now destruct (code c =? 45). }
  rewrite E.
  assert (L1 : String.length s1 <= String.length s).
  { unfold s1. destruct s as [|c s']; [lia|]. destruct (code c =? 45); simpl; lia. }
  pose proof (span_eq is_digit s1) as Hs. 
  destruct (span is_digit s1) as [ds after] eqn:Hspan. simpl in Hs.
  destruct ds as [|d ds]; [split; [discriminate | intros; discriminate]|].
  destruct (_ || _); [split; [discriminate | intros; discriminate]|].
  split; [discriminate|]. intros v rest [= <- <-].
  split; [|eauto]. rewrite <- Hs in L1. rewrite length_append in L1. simpl in L1. lia.
Qed.

(** The three parsers end on fuel twice the length of the text, and use
    up a character of it. *)
Lemma parsers_spec (fuel : nat) :
  (forall s, value_ends_within (parse_value fuel s) (String.length s)
             /\ (2 * String.length s + 2 <= fuel -> parse_value fuel s <> Diverge))
  /\ (forall s acc,
         (forall v rest, parse_items fuel s acc = Ok (v, rest) ->
                         String.length rest < String.length s
                         /\ exists items, v = JArr items)
         /\ (2 * String.length s + 3 <= fuel -> parse_items fuel s acc <> Diverge))
  /\ (forall s acc,
         (forall v rest, parse_props fuel s acc = Ok (v, rest) ->
                         String.length rest < String.length s
                         /\ exists props, v = JObj props)
         /\ (2 * String.length s + 3 <= fuel -> parse_props fuel s acc <> Diverge)).
Proof.
  induction fuel as [|fuel (IHv & IHi & IHp)].
  { repeat split; simpl; intros; try discriminate; lia. }
  split; [|split].
  - (* parse_value *)
    intros s. cbn [parse_value].
    pose proof (skip_ws_length s) as Lws.
    destruct (skip_ws s) as [|c after] eqn:Hws.
    { split; [intros v rest; discriminate | discriminate]. }
    simpl in Lws.
    destruct (code c =? 34).
    { destruct (parse_string_body_spec _ after (Nat.le_refl _)) as [Hd Hc].
      destruct (parse_string_body after) as [[body rest]| |]; simpl;
        [ | split; [intros v r; discriminate | discriminate] | congruence].
      specialize (Hc body rest eq_refl).
      split; [|discriminate]. intros v r [= <- <-].
      split; [lia|]. intros t [= <-]. lia. }
    destruct (code c =? 91).
    { destruct (skip_ws after) as [|d rest] eqn:Hws2.
      { split; [intros v r; discriminate | discriminate]. }
      pose proof (skip_ws_cons _ _ _ Hws2) as L2.
      destruct (code d =? 93).
      { split; [|discriminate]. intros v r [= <- <-]. split; [lia | discriminate]. }
      destruct (IHi after []) as [Hc Hd]. split.
      - intros v r H. destruct (Hc v r H) as [L [items ->]]. split; [lia | discriminate].
      - intros Hf. apply Hd. lia. }
    destruct (code c =? 123).
    { destruct (skip_ws after) as [|d rest] eqn:Hws2.
      { split; [intros v r; discriminate | discriminate]. }
      pose proof (skip_ws_cons _ _ _ Hws2) as L2.
      destruct (code d =? 125).
      { split; [|discriminate]. intros v r [= <- <-]. split; [lia | discriminate]. }
      destruct (IHp after []) as [Hc Hd]. split.
      - intros v r H. destruct (Hc v r H) as [L [props ->]]. split; [lia | discriminate].
      - intros Hf. apply Hd. lia. }
    destruct (strip_prefix "true" (String c after)) as [r1|] eqn:E1.
    { apply strip_prefix_Some in E1. apply (f_equal String.length) in E1.
      rewrite length_append in E1. simpl in E1.
      split; [|discriminate]. intros v r [= <- <-]. split; [lia | discriminate]. }
    destruct (strip_prefix "false" (String c after)) as [r2|] eqn:E2.
    { apply strip_prefix_Some in E2. apply (f_equal String.length) in E2.
      rewrite length_append in E2. simpl in E2.
      split; [|discriminate]. intros v r [= <- <-]. split; [lia | discriminate]. }
    destruct (strip_prefix "null" (String c after)) as [r3|] eqn:E3.
    { apply strip_prefix_Some in E3. apply (f_equal String.length) in E3.
      rewrite length_append in E3. simpl in E3.
      split; [|discriminate]. intros v r [= <- <-]. split; [lia | discriminate]. }
    destruct (parse_number_spec (String c after)) as [Hd Hc].
    split; [|intros _; exact Hd].
    intros v r H. destruct (Hc v r H) as [L [n ->]]. simpl in L.
    split; [lia | discriminate].
  - (* parse_items *)
    intros s acc. cbn [parse_items].
    destruct (IHv s) as [Hc Hd].
    destruct (parse_value fuel s) as [[v rest]| |] eqn:Hv; simpl;
      [ | split; [intros ? ?; discriminate | discriminate]
        | split; [intros ? ?; discriminate | intros Hf; exfalso; apply Hd; [lia | reflexivity]]].
    destruct (Hc v rest eq_refl) as [L _].
    destruct (skip_ws rest) as [|c rest'] eqn:Hws.
    { split; [intros ? ?; discriminate | discriminate]. }
    pose proof (skip_ws_cons _ _ _ Hws) as L2.
    destruct (code c =? 44).
    { destruct (IHi rest' (acc ++ [v])%list) as [Hc' Hd']. split.
      - intros v' r H. destruct (Hc' v' r H) as [L3 Hv']. split; [lia | exact Hv'].
      - intros Hf. apply Hd'. lia. }
    destruct (code c =? 93).
    { split; [|discriminate]. intros v' r [= <- <-]. split; [lia | eauto]. }
    split; [intros ? ?; discriminate | discriminate].
  - (* parse_props *)
    intros s acc. cbn [parse_props].
    destruct (skip_ws s) as [|q0 after] eqn:Hws.
    { split; [intros ? ?; discriminate | discriminate]. }
    pose proof (skip_ws_cons _ _ _ Hws) as L0.
    destruct (code q0 =? 34); [|split; [intros ? ?; discriminate | discriminate]].
    destruct (parse_string_body_spec _ after (Nat.le_refl _)) as [Hsd Hsc].
    destruct (parse_string_body after) as [[k rest]| |]; simpl;
      [ | split; [intros ? ?; discriminate | discriminate] | congruence].
    specialize (Hsc k rest eq_refl).
    destruct (skip_ws rest) as [|c rest1] eqn:Hws1.
    { split; [intros ? ?; discriminate | discriminate]. }
    pose proof (skip_ws_cons _ _ _ Hws1) as L1.
    destruct (code c =? 58); [|split; [intros ? ?; discriminate | discriminate]].
    destruct (IHv rest1) as [Hc Hd].
    destruct (parse_value fuel rest1) as [[v rest2]| |] eqn:Hv; simpl;
      [ | split; [intros ? ?; discriminate | discriminate]
        | split; [intros ? ?; discriminate | intros Hf; exfalso; apply Hd; [lia | reflexivity]]].
    destruct (Hc v rest2 eq_refl) as [L2 _].
    destruct (skip_ws rest2) as [|d rest3] eqn:Hws3.
    { split; [intros ? ?; discriminate | discriminate]. }
    pose proof (skip_ws_cons _ _ _ Hws3) as L3.
    destruct (code d =? 44).
    { destruct (IHp rest3 (obj_set k v acc)) as [Hc' Hd']. split.
      - intros v' r H. destruct (Hc' v' r H) as [L4 Hv']. split; [lia | exact Hv'].
      - intros Hf. apply Hd'. lia. }
    destruct (code d =? 125).
    { split; [|discriminate]. intros v' r [= <- <-]. split; [lia | eauto]. }
    split; [intros ? ?; discriminate | discriminate].
Qed.

(** [JSON.parse] never runs out of fuel. *)
Theorem JSON_parse_total (text : string) : JSON_parse text <> Diverge.
Proof.
  unfold JSON_parse.
  destruct (parsers_spec (2 * String.length text + 2)) as (Hv & _ & _).
  destruct (Hv text) as [_ Hd].
  destruct (parse_value _ text) as [[v rest]| |]; simpl; try discriminate.
  - destruct (skip_ws rest); discriminate.
  - intros _. apply Hd; [lia | reflexivity].
Qed.

(** A text that [JSON.parse] gives is shorter than the one it read. *)
Lemma JSON_parse_text (text t : string) :
  JSON_parse text = Ok (JStr t) -> String.length t + 2 <= String.length text.
Proof.
  unfold JSON_parse.
  destruct (parsers_spec (2 * String.length text + 2)) as (Hv & _ & _).
  destruct (Hv text) as [Hc _].
  destruct (parse_value _ text) as [[v rest]| |]; simpl; try discriminate.
  destruct (Hc v rest eq_refl) as [_ Ht].
  destruct (skip_ws rest); [|discriminate]. intros [= ->]. now apply Ht.
Qed.

End JsonFacts.

(** ** The links of the tokens point forward *)

Section Links.

Lemma update_lookup (i : nat) (f : Token -> Token) (tokens tokens' : list Token) :
  update i f tokens = Ok tokens' ->
  length tokens' = length tokens
  /\ forall j, tokens' !! j = if decide (i = j) then f <$> tokens !! j else tokens !! j.
Proof.
  unfold update. destruct (tokens !! i) as [t|] eqn:E; [|discriminate].
  intros [= <-]. split; [apply length_insert|].
  intros j. destruct (decide (i = j)) as [<-|Hne].
  - rewrite list_lookup_insert_eq; [now rewrite E|]. now apply lookup_lt_Some in E.
  - now rewrite list_lookup_insert_ne.
Qed.

Lemma forward_app (tokens : list Token) (t : Token) :
  forward tokens -> (tk_linkNext t < 0)%Z -> forward (tokens ++ [t])%list.
Proof.
  intros H Ht i x Hi. apply lookup_app_Some in Hi as [Hi | [Hlen Hi]].
  - now apply H.
  - destruct (i - length tokens) as [|k]; [|now destruct k].
    simpl in Hi. injection Hi as <-. now left.
Qed.

Lemma stack_app (tokens : list Token) (t : Token) (commas : list nat) :
  Forall (fun j => exists x, tokens !! j = Some x /\ tk_type x <> NUMBER) commas ->
  Forall (fun j => exists x, (tokens ++ [t])%list !! j = Some x /\ tk_type x <> NUMBER) commas.
Proof.
  intros H. eapply Forall_impl; [exact H|].
  intros j (x & Hx & Hty). exists x. split; [|exact Hty].
  now apply lookup_app_l_Some.
Qed.

Lemma stack_push (tokens : list Token) (t : Token) (commas : list nat) :
  tk_type t <> NUMBER ->
  Forall (fun j => exists x, tokens !! j = Some x /\ tk_type x <> NUMBER) commas ->
  Forall (fun j => exists x, (tokens ++ [t])%list !! j = Some x /\ tk_type x <> NUMBER)
         (length tokens :: commas).
Proof.
  intros Ht H. constructor; [|now apply stack_app].
  exists t. split; [|exact Ht]. now rewrite lookup_app_r, Nat.sub_diag.
Qed.

Lemma forward_update (i : nat) (f : Token -> Token) (tokens tokens' : list Token) :
  keeps_link f -> update i f tokens = Ok tokens' -> forward tokens -> forward tokens'.
Proof.
  intros Hf Hu H j t Hj. destruct (update_lookup _ _ _ _ Hu) as [_ L].
  rewrite L in Hj. destruct (decide (i = j)) as [<-|_]; [|now apply H].
  destruct (tokens !! i) as [x|] eqn:E; [|discriminate]. injection Hj as <-.
  destruct (Hf x) as [-> _]. now apply H.
Qed.

Lemma stack_update (i : nat) (f : Token -> Token) (tokens tokens' : list Token)
      (commas : list nat) :
  (forall t, tk_type (f t) = tk_type t) -> update i f tokens = Ok tokens' ->
  Forall (fun j => exists x, tokens !! j = Some x /\ tk_type x <> NUMBER) commas ->
  Forall (fun j => exists x, tokens' !! j = Some x /\ tk_type x <> NUMBER) commas.
Proof.
  intros Hf Hu H. destruct (update_lookup _ _ _ _ Hu) as [_ L].
  eapply Forall_impl; [exact H|]. intros j (x & Hx & Hty). rewrite L.
  destruct (decide (i = j)) as [_|_]; [|eauto].
  rewrite Hx. exists (f x). split; [reflexivity | now rewrite Hf].
Qed.

Lemma forward_link (i last : nat) (tokens tokens' : list Token) :
  i < last -> update i (set_linkNext (Z.of_nat last)) tokens = Ok tokens' ->
  forward tokens -> forward tokens'.
Proof.
  intros Hi Hu H j t Hj. destruct (update_lookup _ _ _ _ Hu) as [_ L].
  rewrite L in Hj. destruct (decide (i = j)) as [<-|_]; [|now apply H].
  destruct (tokens !! i) as [x|] eqn:E; [|discriminate]. injection Hj as <-.
  right. simpl. lia.
Qed.

Lemma forward_removelast (tokens : list Token) :
  forward tokens -> forward (removelast tokens).
Proof.
  intros H i t Hi. apply (H i t).
  destruct (list.last tokens) as [x|] eqn:E.
  - apply last_Some in E as [l' ->]. rewrite removelast_last in Hi.
    now apply lookup_app_l_Some.
  - apply last_None in E as ->. exact Hi.
Qed.

Lemma stack_removelast (tokens : list Token) (commas : list nat) (t : Token) :
  tokens !! (length tokens - 1) = Some t -> tk_type t = NUMBER ->
  Forall (fun j => exists x, tokens !! j = Some x /\ tk_type x <> NUMBER) commas ->
  Forall (fun j => exists x, removelast tokens !! j = Some x /\ tk_type x <> NUMBER) commas.
Proof.
  intros Hlast Hty H. eapply Forall_impl; [exact H|]. intros j (x & Hx & Hn).
  exists x. split; [|exact Hn].
  destruct (list.last tokens) as [y|] eqn:E.
  - apply last_Some in E as [l' ->]. rewrite removelast_last.
    rewrite length_app in Hlast. simpl in Hlast.
    replace (length l' + 1 - 1) with (length l') in Hlast by lia.
    rewrite lookup_app_r, Nat.sub_diag in Hlast by lia. injection Hlast as ->.
    apply lookup_app_Some in Hx as [Hx | [Hlen Hx]]; [exact Hx|].
    destruct (j - length l') as [|k]; [|now destruct k].
    simpl in Hx. injection Hx as ->. congruence.
  - apply last_None in E as ->. discriminate.
Qed.

End Links.

Section LexLinks.

Lemma keeps_set_match (m : Z) : keeps_link (set_match m).
Proof. intros t. split; reflexivity. Qed.

Lemma keeps_set_value (v : Z) : keeps_link (set_value v).
Proof. intros t. split; reflexivity. Qed.

Lemma keeps_set_text (s : string) : keeps_link (set_text s).
Proof. intros t. split; reflexivity. Qed.

Lemma length_removelast_le {A} (l : list A) : length (removelast l) <= length l.
Proof.
  destruct (list.last l) as [x|] eqn:E.
  - apply last_Some in E as [l' ->]. rewrite removelast_last, length_app. simpl. lia.
  - apply last_None in E as ->. simpl. lia.
Qed.

Lemma SimpleTokens_cases (c : ascii) (ty : TokenType) :
  SimpleTokens c = Some ty ->
  ty = OPEN_PAREN \/ ty = CLOSE_PAREN \/ ty = COMMA \/ ty = OPEN_BRACKET
  \/ ty = CLOSE_BRACKET \/ ty = AT.
Proof.
  unfold SimpleTokens.
  repeat match goal with
         | |- context [if ?b then _ else _] => destruct b
         end; intros [= <-]; auto 10.
Qed.

(** Reading a token keeps the invariant of the loop, and adds at most one
    token. *)
Lemma lex_token_inv (cur : string) (offset : nat) (st st' : LexState) :
  lex_inv st -> lex_token cur offset st = Ok st' ->
  lex_inv st' /\ length (lx_tokens st') <= S (length (lx_tokens st)).
Proof.
  intros [Hf Hs]. destruct cur as [|c after]; [discriminate|].
  destruct (SimpleTokens c) as [ty|] eqn:Hc.
  - unfold lex_token. rewrite Hc.
    destruct (SimpleTokens_cases c ty Hc) as [-> | [-> | [-> | [-> | [-> | ->]]]]].
    + (* OPEN_PAREN *)
      intros [= <-]. simpl. split; [split|].
      * now apply forward_app.
      * now apply stack_push.
      * rewrite length_app. simpl. lia.
    + (* CLOSE_PAREN *)
      destruct (lx_brackets st) as [|m brackets']; [discriminate|].
      destruct (lx_commas st) as [|lb commas'] eqn:Hcm; [discriminate|].
      match goal with
      | |- context [update m ?f ?l] => destruct (update m f l) as [tokens1| |] eqn:U1
      end; simpl; try discriminate.
      destruct (update lb _ tokens1) as [tokens2| |] eqn:U2; simpl; try discriminate.
      intros [= <-]. simpl.
      apply Forall_cons in Hs as [(x & Hx & _) Hs'].
      apply lookup_lt_Some in Hx.
      destruct (update_lookup _ _ _ _ U1) as [L1 _].
      destruct (update_lookup _ _ _ _ U2) as [L2 _].
      split; [split|].
      * eapply forward_link; [exact Hx | exact U2 |].
        eapply forward_update; [apply keeps_set_match | exact U1 |].
        now apply forward_app.
      * eapply stack_update; [ | exact U2 | ]; [intros ?; reflexivity | ].
        eapply stack_update; [ | exact U1 | ]; [intros ?; reflexivity | ].
        now apply stack_app.
      * rewrite L2, L1, length_app. simpl. lia.
    + (* COMMA *)
      destruct (lx_commas st) as [|lb commas'] eqn:Hcm; [discriminate|].
      match goal with
      | |- context [update lb ?f ?l] => destruct (update lb f l) as [tokens1| |] eqn:U1
      end; simpl; try discriminate.
      intros [= <-]. simpl.
      apply Forall_cons in Hs as [(x & Hx & _) Hs'].
      apply lookup_lt_Some in Hx.
      destruct (update_lookup _ _ _ _ U1) as [L1 _].
      split; [split|].
      * eapply forward_link; [exact Hx | exact U1 |]. now apply forward_app.
      * eapply stack_update; [ | exact U1 | ]; [intros ?; reflexivity | ].
        now apply stack_push.
      * rewrite L1, length_app. simpl. lia.
    + (* OPEN_BRACKET *)
      intros [= <-]. simpl. split; [split|].
      * now apply forward_app.
      * now apply stack_app.
      * rewrite length_app. simpl. lia.
    + (* CLOSE_BRACKET *)
      set (tokens := lx_tokens st) in *.
      assert (H1 : forall r,
                 match tokens !! (length tokens - 1) with
                 | Some t =>
                     if TokenType_eqb (tk_type t) NUMBER then
                       let value := tk_text t in
                       let popped := removelast tokens in
                       let* n := getNumber value in
                       let* tokens' := update (length popped - 1) (set_value n) popped in
                       Ok (tokens', value +:+ String c "")
                     else Ok (tokens, String c "")
                 | None => Ok (tokens, String c "")
                 end = Ok r ->
                 forward (fst r)
                 /\ Forall (fun j => exists x, fst r !! j = Some x /\ tk_type x <> NUMBER)
                           (lx_commas st)
                 /\ length (fst r) <= length tokens).
      { intros r. destruct (tokens !! (length tokens - 1)) as [t|] eqn:Hl;
          [|intros [= <-]; simpl; auto].
        destruct (TokenType_eqb (tk_type t) NUMBER) eqn:Hn; [|intros [= <-]; simpl; auto].
        cbv zeta.
        destruct (getNumber (tk_text t)) as [n| |]; simpl; try discriminate.
        destruct (update _ _ (removelast tokens)) as [tokens'| |] eqn:U; simpl;
          try discriminate.
        intros [= <-]. simpl.
        destruct (update_lookup _ _ _ _ U) as [L _].
        assert (Ht : tk_type t = NUMBER) by (now destruct (tk_type t)).
        split; [|split].
        - eapply forward_update; [apply keeps_set_value | exact U |].
          now apply forward_removelast.
        - eapply stack_update; [ | exact U | ]; [intros ?; reflexivity | ].
          now apply (stack_removelast tokens _ t).
        - rewrite L. apply length_removelast_le. }
      match goal with
      | |- context [bind ?m _] => destruct m as [[tokens1 suffix1]| |] eqn:E1
      end; simpl; try discriminate.
      destruct (H1 _ eq_refl) as (F1 & S1 & Len1). simpl in F1, S1, Len1.
      destruct (tokens1 !! (length tokens1 - 1)) as [t|]; [|discriminate].
      destruct (TokenType_eqb (tk_type t) BRACKET); [|discriminate].
      destruct (update _ _ tokens1) as [tokens2| |] eqn:U2; simpl; try discriminate.
      intros [= <-]. simpl.
      destruct (update_lookup _ _ _ _ U2) as [L2 _].
      split; [split|].
      * eapply forward_update; [apply keeps_set_text | exact U2 | exact F1].
      * eapply stack_update; [ | exact U2 | exact S1]. intros ?; reflexivity.
      * lia.
    + (* AT *)
      intros [= <-]. simpl. split; [split|].
      * now apply forward_app.
      * now apply stack_app.
      * rewrite length_app. simpl. lia.
  - rewrite (lex_token_word _ _ _ _ Hc). cbv zeta.
    destruct (regexIdentifier (String c after)) as [text|].
    + intros [= <-]. simpl. split; [split|].
      * now apply forward_app.
      * now apply stack_app.
      * rewrite length_app. simpl. lia.
    + destruct (regexNumber (String c after)) as [text|]; [|discriminate].
      intros [= <-]. simpl. split; [split|].
      * now apply forward_app.
      * now apply stack_app.
      * rewrite length_app. simpl. lia.
Qed.

Lemma lex_loop_inv (text : string) (fuel : nat) (st : LexState) (tokens : list Token) :
  lx_offset st <= String.length text ->
  lex_inv st -> length (lx_tokens st) <= lx_offset st ->
  lex_loop fuel text st = Ok tokens ->
  forward tokens /\ length tokens <= String.length text.
Proof.
  revert st; induction fuel as [|fuel IH]; intros st Ho Hinv Hlen; simpl.
  - destruct (lx_offset st <? String.length text); [discriminate|].
    intros [= <-]. split; [apply Hinv | lia].
  - destruct (lx_offset st <? String.length text); [|intros [= <-]; split; [apply Hinv | lia]].
    destruct (lex_step text st) as [st'| |] eqn:Hs; simpl; try discriminate.
    pose proof (lex_step_offset _ _ _ Ho Hs) as Hoff.
    unfold lex_step in Hs. apply (lex_token_inv _ _ _ _ Hinv) in Hs as [Hinv' Hlen'].
    apply IH; [lia | exact Hinv' | lia].
Qed.

(** The tokens [lex] makes: their links point forward, and there are no
    more of them than characters. *)
Lemma lex_tokens (text : string) (ts : TokenString) :
  lex text = Ok ts ->
  ts_offset ts = 0%Z /\ forward (ts_tokens ts)
  /\ length (ts_tokens ts) <= String.length text.
Proof.
  unfold lex.
  destruct (lex_loop _ text _) as [tokens| |] eqn:H; simpl; try discriminate.
  intros [= <-]. simpl. split; [reflexivity|].
  apply (lex_loop_inv text _ _ _) in H; [exact H | simpl; lia | | simpl; lia].
  split; [intros i t Hi; destruct i; discriminate | constructor].
Qed.

End LexLinks.

(** ** The cursor *)

(** The loop of [allowSingle] has no turn, so no conflict is ever found. *)
Lemma allowSingle_never_fails (set allowed : list string) :
  allowSingle set allowed = Ok tt.
Proof. reflexivity. Qed.

Section Cursor.

Lemma steady_ok {A} (a : A) (ts ts' : TokenString) :
  ts_tokens ts' = ts_tokens ts -> steady (Ok (a, ts')) ts.
Proof. intros H. split; [discriminate|]. now intros ? ? [= <- <-]. Qed.

Lemma steady_throw {A} (e : error) (ts : TokenString) : steady (@Throw (A * TokenString) e) ts.
Proof. split; [discriminate | intros; discriminate]. Qed.

(** [steady] goes through a step that moves the cursor... *)
Lemma steady_bind {A B} (m : result (A * TokenString)) (k : A * TokenString -> result (B * TokenString))
      (ts : TokenString) :
  steady m ts ->
  (forall a ts1, m = Ok (a, ts1) -> ts_tokens ts1 = ts_tokens ts -> steady (k (a, ts1)) ts) ->
  steady (bind m k) ts.
Proof.
  intros [Hd Hm] Hk. destruct m as [[a ts1]| |]; simpl;
    [ | apply steady_throw | congruence].
  apply Hk; [reflexivity | now apply (Hm a)].
Qed.

(** ...and through a step that only looks. *)
Lemma steady_bind_pure {A B} (m : result A) (k : A -> result (B * TokenString))
      (ts : TokenString) :
  m <> Diverge -> (forall a, m = Ok a -> steady (k a) ts) -> steady (bind m k) ts.
Proof.
  intros Hd Hk. destruct m as [a| |]; simpl; [ | apply steady_throw | congruence].
  now apply Hk.
Qed.

Lemma steady_same {A} (r : result (A * TokenString)) (ts ts0 : TokenString) :
  ts_tokens ts = ts_tokens ts0 -> steady r ts -> steady r ts0.
Proof. intros E [Hd Hr]. split; [exact Hd|]. intros a ts' H. rewrite <- E. eauto. Qed.

Lemma peek_ok (ts : TokenString) (t : Token) :
  peek ts = Ok t ->
  (0 <= ts_offset ts < Z.of_nat (length (ts_tokens ts)))%Z
  /\ ts_tokens ts !! Z.to_nat (ts_offset ts) = Some t.
Proof.
  unfold peek, token_at.
  destruct (Z.leb_spec (Z.of_nat (length (ts_tokens ts))) (ts_offset ts)); [discriminate|].
  destruct (Z.ltb_spec (ts_offset ts) 0); [discriminate|].
  destruct (ts_tokens ts !! Z.to_nat (ts_offset ts)) as [x|]; [|discriminate].
  intros [= <-]. split; [lia | reflexivity].
Qed.

Lemma peek_not_diverge (ts : TokenString) : peek ts <> Diverge.
Proof.
  unfold peek. destruct (_ <=? _)%Z; [discriminate|].
  destruct (token_at _ _); discriminate.
Qed.

Lemma pop_steady (ts : TokenString) : steady (pop ts) ts.
Proof.
  unfold pop. destruct (peek ts) as [t| |] eqn:E; simpl;
    [apply steady_ok; reflexivity | apply steady_throw | now apply peek_not_diverge in E].
Qed.

Lemma pop_ok (ts ts' : TokenString) (t : Token) :
  pop ts = Ok (t, ts') ->
  peek ts = Ok t /\ ts' = set_offset (ts_offset ts + 1) ts.
Proof.
  unfold pop. destruct (peek ts) as [x| |]; simpl; try discriminate.
  now intros [= <- <-].
Qed.

Lemma peekType_not_diverge (ty : TokenType) (ts : TokenString) : peekType ty ts <> Diverge.
Proof.
  unfold peekType. destruct (_ =? _)%Z; [discriminate|].
  destruct (peek ts) eqn:E; simpl; try discriminate. now apply peek_not_diverge in E.
Qed.

(** A token of the wanted type is where the cursor is. *)
Lemma peekType_some (ty : TokenType) (ts : TokenString) (s : string) :
  peekType ty ts = Ok (Some s) -> exists t, peek ts = Ok t.
Proof.
  unfold peekType. destruct (_ =? _)%Z; [discriminate|].
  destruct (peek ts) as [t| |]; simpl; try discriminate. eauto.
Qed.

Lemma peekKeyword_not_diverge (allowed : list string) (ts : TokenString) :
  peekKeyword allowed ts <> Diverge.
Proof.
  unfold peekKeyword. destruct (peekType KEYWORD ts) eqn:E; simpl; try discriminate.
  now apply peekType_not_diverge in E.
Qed.

Lemma popType_steady (ty : TokenType) (ts : TokenString) : steady (popType ty ts) ts.
Proof.
  unfold popType. apply steady_bind_pure; [apply peek_not_diverge|].
  intros top _. destruct (negb _); [apply steady_throw|].
  apply steady_bind; [apply pop_steady|]. intros a ts1 _ E. now apply steady_ok.
Qed.

Lemma popKeyword_steady (allowed : list string) (ts : TokenString) :
  steady (popKeyword allowed ts) ts.
Proof.
  unfold popKeyword. apply steady_bind_pure; [apply peek_not_diverge|].
  intros top _. destruct (_ || _); [apply steady_throw|].
  apply steady_bind; [apply pop_steady|]. intros a ts1 _ E. now apply steady_ok.
Qed.

(** The loop of [consumeKeywords] ends: every turn moves the cursor by one
    token. *)
Lemma consumeKeywords_loop_steady (fuel : nat) (ts ts0 : TokenString)
      (allowed keywords : list string) :
  ts_tokens ts = ts_tokens ts0 ->
  1 <= fuel ->
  ((0 <= ts_offset ts)%Z -> (Z.of_nat (length (ts_tokens ts)) - ts_offset ts < Z.of_nat fuel)%Z) ->
  steady (consumeKeywords_loop fuel ts allowed keywords) ts0.
Proof.
  revert ts keywords; induction fuel as [|fuel IH]; intros ts keywords E Hf Hm; [lia|].
  simpl. apply steady_bind_pure; [apply peekType_not_diverge|].
  intros [kw|] Hk; [|now apply steady_ok].
  destruct (negb (has allowed kw)); [now apply steady_ok|].
  destruct (peekType_some _ _ _ Hk) as [t Ht].
  destruct (peek_ok _ _ Ht) as [Hoff _].
  unfold pop. rewrite Ht. simpl.
  destruct (has keywords kw); [apply steady_throw|].
  apply IH; simpl; [exact E | lia | lia].
Qed.

Lemma consumeKeywords_steady (ts : TokenString) (allowed : list string) :
  steady (consumeKeywords ts allowed) ts.
Proof.
  unfold consumeKeywords. apply consumeKeywords_loop_steady; [reflexivity | lia | lia].
Qed.

Lemma consumeName_steady (type : string) (ts : TokenString) :
  steady (consumeName type ts) ts.
Proof.
  unfold consumeName. apply steady_bind_pure; [apply peekKeyword_not_diverge|].
  intros k _.
  assert (H : steady (if truthy_str k
                      then let* '(t, tokens') := pop ts in
                           if negb (tk_text t =? type)%string
                           then Throw (ExpectedGot type (tk_text t))
                           else Ok (tt, tokens')
                      else Ok (tt, ts)) ts).
  { destruct (truthy_str k); [|now apply steady_ok].
    apply steady_bind; [apply pop_steady|]. intros t ts1 _ E.
    destruct (negb _); [apply steady_throw | now apply steady_ok]. }
  destruct (truthy_str k).
  - destruct H as [Hd Hs]. destruct (pop ts) as [[t ts1]| |]; simpl in *;
      [ | apply steady_throw | congruence].
    destruct (negb _); simpl; [apply steady_throw|].
    apply (steady_same _ ts1); [now apply (Hs tt) | apply popType_steady].
  - apply popType_steady.
Qed.

Lemma consumeMutability_steady (ts : TokenString) : steady (consumeMutability ts) ts.
Proof.
  unfold consumeMutability. apply steady_bind; [apply consumeKeywords_steady|].
  intros modifiers ts1 _ E. rewrite !allowSingle_never_fails. simpl.
  repeat match goal with
         | |- context [if ?b then _ else _] => destruct b
         end; now apply steady_ok.
Qed.

Lemma consumeGas_steady (ts : TokenString) : steady (consumeGas ts) ts.
Proof.
  unfold consumeGas. apply steady_bind_pure; [apply peekType_not_diverge|].
  intros a _. destruct (truthy_str a); [|now apply steady_ok].
  apply steady_bind; [apply pop_steady|]. intros t ts1 _ E.
  apply steady_bind_pure; [apply peekType_not_diverge|].
  intros n _. destruct (truthy_str n); [|apply steady_throw].
  apply steady_bind.
  - apply (steady_same _ ts1); [exact E | apply pop_steady].
  - intros t2 ts2 _ E2. now apply steady_ok.
Qed.

Lemma consumeEoi_not_diverge (ts : TokenString) : consumeEoi ts <> Diverge.
Proof. unfold consumeEoi. destruct (negb _); discriminate. Qed.

End Cursor.

(** ** Groups of tokens *)

Section Groups.

Lemma lookup_map {A B} (f : A -> B) (l : list A) (i : nat) :
  map f l !! i = option_map f (l !! i).
Proof.
  revert i; induction l as [|a l IH]; intros [|i]; simpl; try reflexivity. apply IH.
Qed.

Lemma slice_lookup {A} (from to : Z) (l : list A) (j : nat) (x : A) :
  (0 <= from)%Z -> slice from to l !! j = Some x ->
  l !! (Z.to_nat from + j) = Some x.
Proof.
  intros Hf. unfold slice.
  destruct (Z.ltb_spec from 0) as [Hneg|_]; [lia|].
  intros H. apply lookup_take_Some in H as [H _]. rewrite lookup_drop in H.
  destruct (Z.le_gt_cases from (Z.of_nat (length l))) as [Hle | Hgt].
  - now rewrite Z.min_l in H by lia.
  - rewrite Z.min_r in H by lia. rewrite Nat2Z.id in H.
    apply lookup_lt_Some in H. lia.
Qed.

Lemma slice_length {A} (from to : Z) (l : list A) :
  (1 <= from)%Z -> l <> [] -> length (slice from to l) < length l.
Proof.
  intros Hf Hne. unfold slice.
  destruct (Z.ltb_spec from 0) as [Hneg|_]; [lia|].
  rewrite length_take, length_drop.
  assert (0 < length l) by (destruct l; [congruence | simpl; lia]).
  eapply Nat.le_lt_trans; [apply Nat.le_min_r|].
  destruct (Z.le_gt_cases from (Z.of_nat (length l))) as [Hle | Hgt].
  - rewrite Z.min_l by lia. lia.
  - rewrite Z.min_r by lia. lia.
Qed.

(** A slice that starts at or after the first token keeps the links
    forward. *)
Lemma subTokenString_forward (from to : Z) (ts : TokenString) :
  (0 <= from)%Z -> forward (ts_tokens ts) ->
  forward (ts_tokens (subTokenString from to ts)).
Proof.
  intros Hf H i t. unfold subTokenString. simpl. rewrite lookup_map.
  destruct (slice from to (ts_tokens ts) !! i) as [x|] eqn:E; [|discriminate].
  intros [= <-]. simpl.
  apply (slice_lookup _ _ _ _ _ Hf) in E. apply H in E. lia.
Qed.

Lemma subTokenString_length (from to : Z) (ts : TokenString) :
  (1 <= from)%Z -> ts_tokens ts <> [] ->
  length (ts_tokens (subTokenString from to ts)) < length (ts_tokens ts).
Proof.
  intros Hf Hne. unfold subTokenString. simpl. rewrite length_map.
  now apply slice_length.
Qed.

(** The loop of [popParams] ends on tokens whose links point forward, and
    every group is shorter than the tokens it is cut from. *)
Lemma popParams_loop_spec (fuel : nat) (top_match : Z) (ts ts0 : TokenString)
      (acc : list TokenString) :
  ts_tokens ts = ts_tokens ts0 -> forward (ts_tokens ts0) ->
  1 <= fuel ->
  ((0 <= ts_offset ts)%Z ->
   (Z.of_nat (length (ts_tokens ts)) - ts_offset ts < Z.of_nat fuel)%Z) ->
  Forall (group_of ts0) acc ->
  popParams_loop fuel top_match ts acc <> Diverge
  /\ forall groups ts', popParams_loop fuel top_match ts acc = Ok (groups, ts') ->
                        ts_tokens ts' = ts_tokens ts0 /\ Forall (group_of ts0) groups.
Proof.
  revert ts acc; induction fuel as [|fuel IH]; intros ts acc E Hfw Hf Hm Hacc; [lia|].
  simpl. destruct (_ <? _)%Z.
  2:{ split; [discriminate|]. now intros ? ? [= <- <-]. }
  destruct (peek ts) as [t| |] eqn:Hp; simpl;
    [ | split; [discriminate | intros; discriminate] | now apply peek_not_diverge in Hp].
  destruct (peek_ok _ _ Hp) as [Hoff Ht].
  rewrite E in Ht. pose proof (Hfw _ _ Ht) as Hlink.
  apply IH; simpl.
  - exact E.
  - exact Hfw.
  - lia.
  - intros Hl. rewrite Z2Nat.id in Hlink by lia. lia.
  - apply Forall_app. split; [exact Hacc|]. constructor; [|constructor].
    split.
    + apply subTokenString_forward; [lia | now rewrite E].
    + rewrite <- E. apply subTokenString_length; [lia|].
      intros Hnil. rewrite Hnil in Hoff. simpl in Hoff. lia.
Qed.

Lemma popParams_spec (ts : TokenString) :
  forward (ts_tokens ts) ->
  popParams ts <> Diverge
  /\ forall groups ts', popParams ts = Ok (groups, ts') ->
                        ts_tokens ts' = ts_tokens ts /\ Forall (group_of ts) groups.
Proof.
  intros Hfw. unfold popParams.
  destruct (peek ts) as [top| |] eqn:Hp; cbn [bind];
    [ | split; [discriminate | intros; discriminate] | now apply peek_not_diverge in Hp].
  destruct (negb _); [split; [discriminate | intros; discriminate]|].
  destruct (peek_ok _ _ Hp) as [Hoff _].
  destruct (popParams_loop_spec (S (length (ts_tokens ts))) (tk_match top) ts ts [])
    as [Hd Hs]; [reflexivity | exact Hfw | lia | lia | constructor |].
  destruct (popParams_loop _ _ ts []) as [[groups ts1]| |]; cbn [bind];
    [ | split; [discriminate | intros; discriminate] | congruence].
  split; [discriminate|]. intros g ts' [= <- <-].
  destruct (Hs groups ts1 eq_refl) as [E Hg]. split; [exact E | exact Hg].
Qed.

End Groups.

(** ** The formatter and the constructor end *)

Section FormatEnds.

Lemma ParamType_induction (P : ParamType -> Prop) :
  (forall name type baseType indexed components arrayLength arrayChildren,
      match components with Some cs => Forall P cs | None => True end ->
      match arrayChildren with Some c => P c | None => True end ->
      P (mkParamType name type baseType indexed components arrayLength arrayChildren)) ->
  forall p, P p.
Proof.
  intros H. fix IH 1.
  intros [name type baseType indexed components arrayLength arrayChildren].
  apply H.
  - destruct components as [cs|]; [|exact I].
    induction cs as [|c cs IHcs]; constructor; [apply IH | exact IHcs].
  - destruct arrayChildren as [c|]; [apply IH | exact I].
Qed.

Lemma mapR_not_diverge {A B} (f : A -> result B) (l : list A) :
  Forall (fun a => f a <> Diverge) l -> mapR f l <> Diverge.
Proof.
  induction 1 as [|a l Ha _ IH]; simpl; [discriminate|].
  apply bind_not_diverge; [exact Ha|]. intros b _.
  apply bind_not_diverge; [exact IH|]. intros bs _. discriminate.
Qed.

Lemma mapiR_not_diverge {A B} (f : nat -> A -> result B) (l : list A) (start : nat) :
  Forall (fun a => forall i, f i a <> Diverge) l -> mapiR f start l <> Diverge.
Proof.
  intros H. revert start. induction H as [|a l Ha _ IH]; intros start; simpl; [discriminate|].
  apply bind_not_diverge; [apply Ha|]. intros b _.
  apply bind_not_diverge; [apply IH|]. intros bs _. discriminate.
Qed.

(** The three text formats end. *)
Lemma ParamType_format_not_diverge (format : FormatType) (p : ParamType) :
  format <> json -> ParamType_format format p <> Diverge.
Proof.
  intros Hf. induction p as [name type baseType indexed components arrayLength arrayChildren
                               Hcs Hc] using ParamType_induction.
  cbn [ParamType_format].
  replace (FormatType_eqb format json) with false by (now destruct format).
  apply bind_not_diverge; [|intros; discriminate].
  destruct (baseType =? "array")%string.
  - destruct arrayChildren as [child|]; [|discriminate].
    destruct arrayLength as [len|]; [|discriminate].
    apply bind_not_diverge; [exact Hc | intros; discriminate].
  - destruct (baseType =? "tuple")%string; [|discriminate].
    destruct components as [comps|]; [|discriminate].
    apply bind_not_diverge; [now apply mapR_not_diverge | intros; discriminate].
Qed.

Lemma ParamType_new_not_diverge (name type baseType : string) (indexed : jsval)
      (components : option (list ParamType)) (arrayLength : option Z)
      (arrayChildren : option ParamType) :
  ParamType_new name type baseType indexed components arrayLength arrayChildren <> Diverge.
Proof.
  unfold ParamType_new.
  repeat (apply bind_not_diverge; [|intros ? _]);
    repeat match goal with
           | |- context [if ?b then _ else _] => destruct b
           end; discriminate.
Qed.

Lemma verifyBasicType_not_diverge (type : string) : verifyBasicType type <> Diverge.
Proof.
  unfold verifyBasicType, assertArgument.
  destruct (regexType type); [|discriminate].
  repeat match goal with
         | |- context [if ?b then _ else _] => destruct b; simpl
         end; discriminate.
Qed.

End FormatEnds.

(** ** [ParamType.from] ends *)

Section FromEnds.

(** The loop over the array suffixes ends: every turn pops a token. *)
Lemma array_loop_steady (fuel : nat) (obj ts0 : TokenString) (type baseType : string)
      (comps : option (list ParamType)) (arrayLength : option Z)
      (arrayChildren : option ParamType) :
  ts_tokens obj = ts_tokens ts0 ->
  ((0 <= ts_offset obj)%Z ->
   (Z.of_nat (length (ts_tokens obj)) - ts_offset obj <= Z.of_nat fuel)%Z) ->
  steady (array_loop fuel obj type baseType comps arrayLength arrayChildren) ts0.
Proof.
  revert obj type baseType comps arrayLength arrayChildren.
  induction fuel as [|fuel IH]; intros obj type baseType comps arrayLength arrayChildren E Hm.
  - simpl. destruct (_ =? _)%Z; [now apply steady_ok|].
    apply steady_bind_pure; [apply peekType_not_diverge|]. intros b Hb.
    destruct b as [s|]; [|now apply steady_ok].
    destruct (peekType_some _ _ _ Hb) as [t Ht]. destruct (peek_ok _ _ Ht) as [Hoff _]. lia.
  - simpl. destruct (_ =? _)%Z; [now apply steady_ok|].
    apply steady_bind_pure; [apply peekType_not_diverge|]. intros b Hb.
    destruct (truthy_str b) eqn:Hb'; [|now apply steady_ok].
    destruct b as [s|]; [|discriminate].
    destruct (peekType_some _ _ _ Hb) as [t Ht]. destruct (peek_ok _ _ Ht) as [Hoff _].
    unfold pop. rewrite Ht. cbn [bind].
    destruct (ParamType_new "" type baseType JNull comps arrayLength arrayChildren)
      as [child| |] eqn:Hnew; cbn [bind];
      [ | apply steady_throw | now apply ParamType_new_not_diverge in Hnew].
    apply IH; simpl; [exact E | lia].
Qed.

(** The text path ends when the groups it is handed to do. *)
Lemma from_tokens_not_diverge (from : ParamSource -> bool -> result ParamType)
      (obj : TokenString) (allowIndexed : bool) :
  forward (ts_tokens obj) ->
  (forall g, group_of obj g -> from (PTokens g) false <> Diverge) ->
  from_tokens from obj allowIndexed <> Diverge.
Proof.
  intros Hfw Hfrom. unfold from_tokens.
  destruct (consumeKeywords_steady obj (setify ["tuple"])) as [Hd1 Hs1].
  apply bind_not_diverge; [exact Hd1|]. intros [kws obj1] E1.
  pose proof (Hs1 _ _ E1) as T1.
  apply bind_not_diverge.
  { destruct (has kws "tuple"); [discriminate|].
    apply bind_not_diverge; [apply peekType_not_diverge | intros; discriminate]. }
  intros open _.
  assert (Hbranch :
            steady (if open
                    then
                     let* '(groups, obj2) := popParams obj1 in
                     let* comps := mapR (fun t => from (PTokens t) false) groups in
                     let* parts := mapR (ParamType_format sighash) comps in
                     Ok ("tuple(" +:+ String.concat "," parts +:+ ")", "tuple", Some comps, obj2)
                    else
                     let* '(t, obj2) := popType TYPE obj1 in
                     let* type := verifyBasicType t in
                     Ok (type, type, None, obj2)) obj).
  { destruct open.
    - assert (Hfw1 : forward (ts_tokens obj1)) by (now rewrite T1).
      destruct (popParams_spec obj1 Hfw1) as [Hd Hs].
      destruct (popParams obj1) as [[groups obj2]| |]; cbn [bind];
        [ | apply steady_throw | congruence].
      destruct (Hs groups obj2 eq_refl) as [T2 Hg].
      split.
      + apply bind_not_diverge.
        * apply mapR_not_diverge. eapply Forall_impl; [exact Hg|].
          intros g [G1 G2]. apply Hfrom. split; [exact G1 | now rewrite <- T1].
        * intros comps _. apply bind_not_diverge; [|intros; discriminate].
          apply mapR_not_diverge, Forall_forall. intros c _.
          now apply ParamType_format_not_diverge.
      + intros a ts' H.
        destruct (mapR _ groups) as [comps| |]; cbn [bind] in H; try discriminate.
        destruct (mapR _ comps) as [parts| |]; cbn [bind] in H; try discriminate.
        injection H as _ <-. now rewrite T2.
    - apply (steady_same _ obj1); [exact T1|].
      apply steady_bind; [apply popType_steady|]. intros t obj2 _ T2.
      destruct (verifyBasicType t) as [type| |] eqn:Hv; cbn [bind];
        [now apply steady_ok | apply steady_throw | now apply verifyBasicType_not_diverge in Hv]. }
  destruct Hbranch as [Hd2 Hs2].
  apply bind_not_diverge; [exact Hd2|]. intros [[[type baseType] comps] obj2] E2.
  pose proof (Hs2 _ _ E2) as T2.
  destruct (array_loop_steady (length (ts_tokens obj2)) obj2 obj type baseType comps None None)
    as [Hd3 Hs3]; [exact T2 | lia |].
  apply bind_not_diverge; [exact Hd3|].
  intros [[[[[type' baseType'] comps'] arrayLength] arrayChildren] obj3] E3.
  pose proof (Hs3 _ _ E3) as T3.
  destruct (consumeKeywords_steady obj3 KwModifiers) as [Hd4 Hs4].
  apply bind_not_diverge; [exact Hd4|]. intros [keywords obj4] E4.
  apply bind_not_diverge.
  { destruct (has keywords "indexed"); [destruct (negb allowIndexed)|]; discriminate. }
  intros indexed _.
  apply bind_not_diverge; [apply peekType_not_diverge|]. intros i _.
  apply bind_not_diverge.
  { destruct (truthy_str i); [|discriminate].
    apply bind_not_diverge; [apply pop_steady|]. intros [t obj5] _. discriminate. }
  intros [name obj5] _.
  destruct (negb _); [discriminate | apply ParamType_new_not_diverge].
Qed.

Lemma string_rev_length (s : string) : String.length (string_rev s) = String.length s.
Proof.
  induction s as [|c s IH]; simpl; [reflexivity|].
  rewrite length_append, IH. simpl. lia.
Qed.

(** The element type of an array type is shorter than the array type. *)
Lemma regexArrayType_length (type g1 g2 : string) :
  regexArrayType type = Some (g1, g2) -> String.length g1 + 2 <= String.length type.
Proof.
  unfold regexArrayType. rewrite <- (string_rev_length type).
  destruct (string_rev type) as [|c r]; [discriminate|].
  destruct (code c =? 93); [|discriminate].
  pose proof (span_eq is_digit r) as Hr.
  destruct (span is_digit r) as [ds r1]. simpl in Hr.
  destruct r1 as [|b r2]; [discriminate|].
  destruct (_ && _); [|discriminate].
  intros [= <- <-]. rewrite string_rev_length. simpl.
  rewrite <- Hr, length_append. simpl. lia.
Qed.

Lemma assoc_size (k : string) (props : list (string * jsval)) (v : jsval) :
  assoc k props = Some v ->
  jsval_size v <= list_sum (map (fun kv => jsval_size (snd kv)) props).
Proof.
  induction props as [|[k' v'] props IH]; simpl; [discriminate|].
  destruct (k =? k')%string.
  - intros [= <-]. lia.
  - intros H. specialize (IH H). lia.
Qed.

Lemma assoc_two_sizes (k1 k2 : string) (props : list (string * jsval)) (v1 v2 : jsval) :
  k1 <> k2 -> assoc k1 props = Some v1 -> assoc k2 props = Some v2 ->
  jsval_size v1 + jsval_size v2 <= list_sum (map (fun kv => jsval_size (snd kv)) props).
Proof.
  intros Hne. induction props as [|[k' v'] props IH]; simpl; [discriminate|].
  destruct (String.eqb_spec k1 k'), (String.eqb_spec k2 k'); try congruence.
  - intros [= <-] H2. apply assoc_size in H2. lia.
  - intros H1 [= <-]. apply assoc_size in H1. lia.
  - intros H1 H2. specialize (IH H1 H2). lia.
Qed.

Lemma jsval_size_pos (v : jsval) : 1 <= jsval_size v.
Proof. destruct v; simpl; lia. Qed.

Lemma item_size (items : list jsval) (c : jsval) :
  In c items -> jsval_size c <= list_sum (map jsval_size items).
Proof.
  induction items as [|x items IH]; simpl; [tauto|].
  intros [-> | H]; [lia | specialize (IH H); lia].
Qed.

Lemma get_not_diverge (obj : jsval) (key : string) : get obj key <> Diverge.
Proof. destruct obj; discriminate. Qed.

(** The object path ends when the smaller values it is handed to do. *)
Lemma from_object_not_diverge (from : ParamSource -> bool -> result ParamType)
      (obj : jsval) (allowIndexed : bool) :
  (forall v, jsval_size v < jsval_size obj -> from (PValue v) false <> Diverge) ->
  from_object from obj allowIndexed <> Diverge.
Proof.
  intros Hfrom. unfold from_object.
  apply bind_not_diverge; [apply get_not_diverge|]. intros name _.
  apply bind_not_diverge; [unfold assertArgument; destruct (_ || _); discriminate|].
  intros _ _. cbv zeta.
  apply bind_not_diverge; [apply get_not_diverge|]. intros indexed0 _.
  apply bind_not_diverge.
  { destruct (negb _); [|discriminate].
    apply bind_not_diverge; [unfold assertArgument; destruct allowIndexed; discriminate|].
    intros; discriminate. }
  intros indexed _.
  apply bind_not_diverge; [apply get_not_diverge|]. intros type_ Htype.
  apply bind_not_diverge; [destruct type_; discriminate|]. intros type Hstr.
  assert (Ht : type_ = JStr type) by (destruct type_; try discriminate; now injection Hstr as ->).
  subst type_.
  destruct (regexArrayType type) as [[g1 g2]|] eqn:Harr.
  - apply regexArrayType_length in Harr.
    apply bind_not_diverge; [apply get_not_diverge|]. intros components Hcomp.
    apply bind_not_diverge; [|intros; apply ParamType_new_not_diverge].
    apply Hfrom.
    destruct obj as [| | | | | |items|props| |]; try discriminate Htype.
    simpl in Htype, Hcomp. simpl.
    destruct (assoc "type" props) as [t|] eqn:At; [|discriminate].
    injection Htype as ->.
    destruct (assoc "components" props) as [c|] eqn:Ac.
    + injection Hcomp as ->.
      pose proof (assoc_two_sizes "type" "components" props _ _ ltac:(discriminate) At Ac) as L.
      simpl in L. lia.
    + injection Hcomp as <-. apply assoc_size in At. simpl in At |- *. lia.
  - destruct (_ || _).
    + apply bind_not_diverge; [apply get_not_diverge|]. intros components Hcomp.
      apply bind_not_diverge; [|intros; apply ParamType_new_not_diverge].
      destruct (negb _); [|discriminate].
      apply bind_not_diverge; [destruct components; discriminate|]. intros items Hitems.
      apply bind_not_diverge; [|intros; discriminate].
      apply mapR_not_diverge, Forall_forall. intros c Hc. apply Hfrom.
      destruct components; try discriminate Hitems. injection Hitems as ->.
      destruct obj as [| | | | | |xs|props| |]; try discriminate Hcomp.
      simpl in Hcomp. simpl.
      destruct (assoc "components" props) as [x|] eqn:Ac; [|discriminate].
      injection Hcomp as ->. apply assoc_size in Ac. simpl in Ac.
      apply list_elem_of_In, item_size in Hc. lia.
    + apply bind_not_diverge; [apply verifyBasicType_not_diverge|].
      intros; apply ParamType_new_not_diverge.
Qed.

Lemma ParamType_from_fuel_tokens (fuel : nat) (obj : TokenString) (allowIndexed : bool) :
  forward (ts_tokens obj) -> length (ts_tokens obj) < fuel ->
  ParamType_from_fuel fuel (PTokens obj) allowIndexed <> Diverge.
Proof.
  revert obj allowIndexed; induction fuel as [|fuel IH]; intros obj a Hfw Hf; [lia|].
  cbn [ParamType_from_fuel]. apply from_tokens_not_diverge; [exact Hfw|].
  intros g [G1 G2]. apply IH; [exact G1 | lia].
Qed.

Lemma ParamType_from_fuel_value (fuel : nat) (v : jsval) (allowIndexed : bool) :
  jsval_size v < fuel ->
  ParamType_from_fuel fuel (PValue v) allowIndexed <> Diverge.
Proof.
  revert v allowIndexed; induction fuel as [|fuel IH]; intros v a Hf; [lia|].
  assert (Hobj : from_object (ParamType_from_fuel fuel) v a <> Diverge).
  { apply from_object_not_diverge. intros v' Hv'. apply IH. lia. }
  destruct v; try exact Hobj.
  cbn [ParamType_from_fuel].
  destruct (lex s) as [tokens| |] eqn:Hlex; cbn [bind];
    [ | discriminate | now apply lex_total in Hlex].
  destruct (lex_tokens _ _ Hlex) as (_ & Hfw & Hlen).
  apply ParamType_from_fuel_tokens; [exact Hfw | simpl in Hf; lia].
Qed.

(** [ParamType.from] ends on every value, and on the tokens of every
    text. *)
Theorem ParamType_from_total (v : jsval) (allowIndexed : bool) :
  ParamType_from (PValue v) allowIndexed <> Diverge.
Proof. apply ParamType_from_fuel_value. simpl. lia. Qed.

Lemma ParamType_from_tokens_total (obj : TokenString) (allowIndexed : bool) :
  forward (ts_tokens obj) -> ParamType_from (PTokens obj) allowIndexed <> Diverge.
Proof. intros H. apply ParamType_from_fuel_tokens; [exact H | simpl; lia]. Qed.

End FromEnds.

(** ** [Fragment.from] ends *)

Section FragmentEnds.

(** After a step that keeps the tokens, the rest is run on the same
    tokens. *)
Lemma steady_then {A B} (m : result (A * TokenString)) (k : A * TokenString -> result B)
      (ts : TokenString) :
  steady m ts ->
  (forall a ts1, ts_tokens ts1 = ts_tokens ts -> k (a, ts1) <> Diverge) ->
  bind m k <> Diverge.
Proof.
  intros [Hd Hs] Hk. apply bind_not_diverge; [exact Hd|].
  intros [a ts1] E. apply Hk. now apply (Hs a).
Qed.

Lemma consumeParams_steady (ts : TokenString) (allowIndexed : bool) :
  forward (ts_tokens ts) -> steady (consumeParams ts allowIndexed) ts.
Proof.
  intros Hfw. unfold consumeParams.
  destruct (popParams_spec ts Hfw) as [Hd Hs].
  destruct (popParams ts) as [[groups ts1]| |]; cbn [bind];
    [ | apply steady_throw | congruence].
  destruct (Hs groups ts1 eq_refl) as [T Hg].
  assert (Hm : mapR (fun t => ParamType_from (PTokens t) allowIndexed) groups <> Diverge).
  { apply mapR_not_diverge. eapply Forall_impl; [exact Hg|].
    intros g [G _]. now apply ParamType_from_tokens_total. }
  destruct (mapR _ groups) as [params| |]; cbn [bind];
    [now apply steady_ok | apply steady_throw | congruence].
Qed.

Lemma params_of_not_diverge (v : jsval) (f : nat -> jsval -> result ParamType) :
  (forall i c, f i c <> Diverge) -> params_of v f <> Diverge.
Proof.
  intros Hf. unfold params_of. destruct (truthy v); [|discriminate].
  apply bind_not_diverge; [destruct v; discriminate|]. intros items _.
  apply mapiR_not_diverge, Forall_forall. intros c _ i. apply Hf.
Qed.

Lemma from_with_index_not_diverge (i : nat) (c : jsval) : from_with_index i c <> Diverge.
Proof. apply ParamType_from_total. Qed.

Lemma from_indexed_not_diverge (i : nat) (c : jsval) : from_indexed i c <> Diverge.
Proof. apply ParamType_from_total. Qed.

Lemma NamedFragment_name_not_diverge (name : jsval) : NamedFragment_name name <> Diverge.
Proof.
  destruct name; try discriminate. simpl. unfold assertArgument.
  destruct (bool_decide _); discriminate.
Qed.

Lemma minimal_list_not_diverge (params : list ParamType) : minimal_list params <> Diverge.
Proof.
  unfold minimal_list. apply bind_not_diverge; [|intros; discriminate].
  apply mapR_not_diverge, Forall_forall. intros p _.
  now apply ParamType_format_not_diverge.
Qed.

Lemma bytes_param_value :
  bytes_param = Ok (mkParamType "" "bytes" "bytes" JNull None None None).
Proof. vm_compute. reflexivity. Qed.

(** [ends_on from]: the factory [from] ends on every value, and on every
    token string whose links point forward. *)
Lemma with_tokens_ends {A} (from_tokens : TokenString -> result A)
      (from_object : jsval -> result A) :
  (forall ts, forward (ts_tokens ts) -> from_tokens ts <> Diverge) ->
  (forall v, from_object v <> Diverge) ->
  ends_on (with_tokens from_tokens from_object).
Proof.
  intros Ht Ho. split.
  - intros v. destruct v; try apply Ho. simpl.
    destruct (lex s) as [tokens| |] eqn:Hlex; cbn [bind];
      [ | discriminate | now apply lex_total in Hlex].
    apply Ht. now destruct (lex_tokens _ _ Hlex) as (_ & H & _).
  - intros ts Hfw. simpl. now apply Ht.
Qed.

Ltac ends_step :=
  first
    [ discriminate
    | apply ParamType_from_total
    | apply NamedFragment_name_not_diverge
    | apply consumeEoi_not_diverge
    | apply get_not_diverge
    | apply minimal_list_not_diverge
    | apply peekKeyword_not_diverge
    | apply params_of_not_diverge;
      [first [apply from_with_index_not_diverge | apply from_indexed_not_diverge]]
    | apply bind_not_diverge; [|intros ? _]
    | match goal with
      | |- assertArgument ?b _ _ _ <> Diverge => unfold assertArgument; destruct b
      | |- (if ?b then _ else _) <> Diverge => destruct b
      end ].

Ltac tokens_step lemma :=
  eapply steady_then;
  [ eapply steady_same; [ | apply lemma]; try eassumption; try reflexivity
  | let a := fresh "a" in let ts := fresh "ts" in let T := fresh "T" in
    intros a ts T; try (rewrite <- T in * |-) ].

Lemma forward_same (ts ts' : TokenString) :
  ts_tokens ts' = ts_tokens ts -> forward (ts_tokens ts) -> forward (ts_tokens ts').
Proof. now intros ->. Qed.

Lemma ErrorFragment_from_ends : ends_on ErrorFragment_from.
Proof.
  apply with_tokens_ends.
  - intros obj Hfw.
    eapply steady_then; [apply consumeName_steady|]. intros name obj1 T1.
    eapply steady_then;
      [eapply steady_same; [exact T1 | apply consumeParams_steady; now rewrite T1]|].
    intros inputs obj2 T2. repeat ends_step.
  - intros obj. repeat ends_step.
Qed.

Lemma StructFragment_from_ends : ends_on StructFragment_from.
Proof.
  apply with_tokens_ends.
  - intros obj Hfw.
    eapply steady_then; [apply consumeName_steady|]. intros name obj1 T1.
    eapply steady_then;
      [eapply steady_same; [exact T1 | apply consumeParams_steady; now rewrite T1]|].
    intros inputs obj2 T2. repeat ends_step.
  - intros obj. repeat ends_step.
Qed.

Lemma EventFragment_from_ends : ends_on EventFragment_from.
Proof.
  apply with_tokens_ends.
  - intros obj Hfw.
    eapply steady_then; [apply consumeName_steady|]. intros name obj1 T1.
    eapply steady_then;
      [eapply steady_same; [exact T1 | apply consumeParams_steady; now rewrite T1]|].
    intros inputs obj2 T2.
    eapply steady_then; [apply consumeKeywords_steady|]. intros kws obj3 T3.
    repeat ends_step.
  - intros obj. repeat ends_step.
Qed.

Lemma ConstructorFragment_from_ends : ends_on ConstructorFragment_from.
Proof.
  apply with_tokens_ends.
  - intros obj Hfw.
    eapply steady_then; [apply consumeKeywords_steady|]. intros k0 obj1 T1.
    eapply steady_then;
      [eapply steady_same; [exact T1 | apply consumeParams_steady; now rewrite T1]|].
    intros inputs obj2 T2.
    eapply steady_then; [apply consumeKeywords_steady|]. intros kws obj3 T3.
    eapply steady_then; [apply consumeGas_steady|]. intros gas obj4 T4.
    repeat ends_step.
  - intros obj. repeat ends_step.
Qed.

Lemma FunctionFragment_from_ends : ends_on FunctionFragment_from.
Proof.
  apply with_tokens_ends.
  - intros obj Hfw.
    eapply steady_then; [apply consumeName_steady|]. intros name obj1 T1.
    eapply steady_then;
      [eapply steady_same; [exact T1 | apply consumeParams_steady; now rewrite T1]|].
    intros inputs obj2 T2.
    eapply steady_then; [apply consumeMutability_steady|]. intros mutability obj3 T3.
    eapply steady_then; [apply consumeKeywords_steady|]. intros kws obj4 T4.
    assert (Hfw4 : forward (ts_tokens obj4)) by (now rewrite T4, T3, T2).
    eapply steady_then with (ts := obj4).
    { destruct (has kws "returns"); [now apply consumeParams_steady | now apply steady_ok]. }
    intros outputs obj5 T5.
    eapply steady_then; [apply consumeGas_steady|]. intros gas obj6 T6.
    repeat ends_step.
  - intros obj. repeat ends_step.
Qed.

Lemma FallbackFragment_from_ends : ends_on FallbackFragment_from.
Proof.
  apply with_tokens_ends.
  - intros obj Hfw. cbv zeta.
    apply bind_not_diverge; [apply peekKeyword_not_diverge|]. intros topIsValid _.
    destruct (negb _); [discriminate|].
    eapply steady_then; [apply popKeyword_steady|]. intros type obj1 T1.
    assert (Hfw1 : forward (ts_tokens obj1)) by (now rewrite T1).
    destruct (type =? "receive")%string.
    + eapply steady_then; [now apply consumeParams_steady|]. intros inputs obj2 T2.
      apply bind_not_diverge; [repeat ends_step|]. intros _ _.
      eapply steady_then; [apply consumeKeywords_steady|]. intros kws obj3 T3.
      repeat ends_step.
    + eapply steady_then; [now apply consumeParams_steady|]. intros inputs0 obj2 T2.
      apply bind_not_diverge.
      { destruct (negb _); [|rewrite bytes_param_value; discriminate].
        repeat ends_step. }
      intros inputs _.
      eapply steady_then; [apply consumeMutability_steady|]. intros mutability obj3 T3.
      apply bind_not_diverge; [repeat ends_step|]. intros _ _.
      eapply steady_then; [apply consumeKeywords_steady|]. intros kws obj4 T4.
      assert (Hfw4 : forward (ts_tokens obj4)) by (now rewrite T4, T3, T2).
      apply bind_not_diverge; [|intros; repeat ends_step].
      destruct (has kws "returns"); [|discriminate].
      eapply steady_then; [now apply consumeParams_steady|]. intros outputs obj5 T5.
      repeat ends_step.
  - intros obj. apply bind_not_diverge; [apply get_not_diverge|]. intros type _.
    destruct (js_eq_str type "receive"); [discriminate|].
    destruct (js_eq_str type "fallback"); [|discriminate].
    rewrite bytes_param_value. repeat ends_step.
Qed.

Lemma dispatch_ends (kind : string) (from : FragmentSource -> result Fragment) :
  dispatch kind = Some from -> ends_on from.
Proof.
  unfold dispatch.
  repeat match goal with
         | |- context [if ?b then _ else _] => destruct b
         end; intros [= <-];
    auto using ErrorFragment_from_ends, EventFragment_from_ends,
      ConstructorFragment_from_ends, FallbackFragment_from_ends,
      FunctionFragment_from_ends, StructFragment_from_ends.
Qed.

Lemma Fragment_from_fuel_tokens (fuel : nat) (tokens : TokenString) :
  forward (ts_tokens tokens) ->
  Fragment_from_fuel (S fuel) (FTokens tokens) <> Diverge.
Proof.
  intros Hfw. cbn [Fragment_from_fuel].
  apply bind_not_diverge; [apply peekKeyword_not_diverge|]. intros [kind|] _; [|discriminate].
  destruct (dispatch kind) as [from|] eqn:Hd; [|discriminate].
  now apply (dispatch_ends _ _ Hd).
Qed.

Lemma Fragment_from_fuel_object (fuel : nat) (v : jsval) :
  (forall s, v <> JStr s) ->
  Fragment_from_fuel (S fuel) (FValue v) <> Diverge.
Proof.
  intros Hv.
  assert (Hobj : (let* type := get v "type" in
                  match type with
                  | JStr kind =>
                      match dispatch kind with
                      | Some from => from (FValue v)
                      | None => Throw (UnsupportedOperation "unsupported type" "Fragment.from")
                      end
                  | _ => Throw (UnsupportedOperation "unsupported type" "Fragment.from")
                  end) <> Diverge).
  { apply bind_not_diverge; [apply get_not_diverge|]. intros type _.
    destruct type; try discriminate.
    destruct (dispatch s) as [from|] eqn:Hd; [|discriminate].
    now apply (dispatch_ends _ _ Hd). }
  destruct v; try discriminate; try exact Hobj. now destruct (Hv s).
Qed.

Lemma Fragment_from_fuel_text (fuel : nat) (s : string) :
  String.length s + 2 <= fuel ->
  Fragment_from_fuel fuel (FValue (JStr s)) <> Diverge.
Proof.
  revert s; induction fuel as [|fuel IH]; intros s Hf; [lia|].
  cbn [Fragment_from_fuel].
  destruct fuel as [|fuel']; [lia|].
  apply bind_not_diverge.
  - unfold try_and_discard.
    destruct (JSON_parse s) as [v| |] eqn:Hp; cbn [bind];
      [ | discriminate | now apply JSON_parse_total in Hp].
    assert (Hv : Fragment_from_fuel (S fuel') (FValue v) <> Diverge).
    { destruct v; try (apply Fragment_from_fuel_object; discriminate).
      apply IH. apply JSON_parse_text in Hp. lia. }
    destruct (Fragment_from_fuel (S fuel') (FValue v)); [discriminate .. | congruence].
  - intros _ _.
    destruct (lex s) as [tokens| |] eqn:Hlex; cbn [bind];
      [ | discriminate | now apply lex_total in Hlex].
    apply Fragment_from_fuel_tokens. now destruct (lex_tokens _ _ Hlex) as (_ & H & _).
Qed.

(** [Fragment.from] ends on every value: the model never runs out of
    fuel. *)
Theorem Fragment_from_total (v : jsval) : Fragment_from (FValue v) <> Diverge.
Proof.
  unfold Fragment_from. destruct v;
    try (apply Fragment_from_fuel_object; discriminate).
  apply Fragment_from_fuel_text. lia.
Qed.

End FragmentEnds.

(** ** The names of the text path *)

Section Names.

Lemma TokenType_eqb_true (a b : TokenType) : TokenType_eqb a b = true -> a = b.
Proof. destruct a, b; simpl; congruence. Qed.

Lemma span_fst_idem (p : ascii -> bool) (s : string) :
  fst (span p (fst (span p s))) = fst (span p s).
Proof.
  pose proof (span_all p (fst (span p s)) "" (span_fst_all p s) I) as E.
  rewrite app_empty_r in E. now rewrite E.
Qed.

(** What [regexIdentifier] matches is an identifier, whatever follows it. *)
Lemma regexIdentifier_word (cur text : string) :
  regexIdentifier cur = Some text -> word text.
Proof.
  destruct cur as [|c rest]; simpl; [discriminate|].
  destruct (is_id_start c) eqn:Hc; [|discriminate].
  intros [= <-]. unfold word. simpl. rewrite Hc. now rewrite span_fst_idem.
Qed.

Lemma id_words_push (tokens : list Token) (t : Token) :
  id_words tokens -> (tk_type t = ID -> word (tk_text t)) -> id_words (tokens ++ [t]).
Proof. intros H Ht. apply Forall_app. split; [exact H | now constructor]. Qed.

Lemma id_words_update (i : nat) (f : Token -> Token) (tokens tokens' : list Token) :
  update i f tokens = Ok tokens' -> id_words tokens ->
  (forall t, tokens !! i = Some t -> tk_type (f t) = ID -> word (tk_text (f t))) ->
  id_words tokens'.
Proof.
  unfold update. destruct (tokens !! i) as [t|] eqn:E; [|discriminate].
  intros [= <-] H Hf. apply Forall_insert; [exact H | now apply Hf].
Qed.

Lemma id_words_kept (i : nat) (f : Token -> Token) (tokens tokens' : list Token) :
  update i f tokens = Ok tokens' -> id_words tokens ->
  (forall t, tk_type (f t) = tk_type t /\ tk_text (f t) = tk_text t) ->
  id_words tokens'.
Proof.
  intros U H Hf. apply (id_words_update _ _ _ _ U H).
  intros t Ht. destruct (Hf t) as [-> ->].
  exact (proj1 (Forall_lookup _ _) H _ _ Ht).
Qed.

Lemma id_words_removelast (tokens : list Token) :
  id_words tokens -> id_words (removelast tokens).
Proof.
  induction 1 as [|t l Ht Hl IH]; simpl; [constructor|].
  destruct l; [constructor | constructor; [exact Ht | exact IH]].
Qed.


Ltac kept := intros ?; split; reflexivity.

(** Reading a token keeps the identifiers whole. *)
Lemma lex_token_id_words (cur : string) (offset : nat) (st st' : LexState) :
  id_words (lx_tokens st) -> lex_token cur offset st = Ok st' ->
  id_words (lx_tokens st').
Proof.
  intros H. destruct cur as [|c after]; [discriminate|].
  unfold lex_token.
  destruct (SimpleTokens c) as [ty|] eqn:Hc.
  - destruct (SimpleTokens_cases c ty Hc) as [-> | [-> | [-> | [-> | [-> | ->]]]]].
    + intros [= <-]. simpl. apply id_words_push; [exact H | discriminate].
    + destruct (lx_brackets st) as [|m bs]; [discriminate|].
      destruct (lx_commas st) as [|lb cs]; [discriminate|].
      destruct (update m _ _) as [tokens1| |] eqn:U1; cbn [bind]; try discriminate.
      destruct (update lb _ tokens1) as [tokens2| |] eqn:U2; cbn [bind]; try discriminate.
      intros [= <-]. simpl.
      eapply id_words_kept; [exact U2 | | kept].
      eapply id_words_kept; [exact U1 | | kept].
      apply id_words_push; [exact H | discriminate].
    + destruct (lx_commas st) as [|lb cs]; [discriminate|].
      destruct (update lb _ _) as [tokens1| |] eqn:U1; cbn [bind]; try discriminate.
      intros [= <-]. simpl.
      eapply id_words_kept; [exact U1 | | kept].
      apply id_words_push; [exact H | discriminate].
    + intros [= <-]. simpl. apply id_words_push; [exact H | discriminate].
    + match goal with
      | |- bind ?m _ = _ -> _ => destruct m as [[tokens1 suffix1]| |] eqn:E1
      end; cbn [bind]; try discriminate.
      assert (H1 : id_words tokens1).
      { destruct (lx_tokens st !! _) as [t|]; [|now injection E1 as <- _].
        destruct (TokenType_eqb (tk_type t) NUMBER); [|now injection E1 as <- _].
        destruct (getNumber (tk_text t)) as [n| |]; cbn [bind] in E1; try discriminate.
        destruct (update _ _ _) as [tokens'| |] eqn:U; cbn [bind] in E1; try discriminate.
        injection E1 as <- _.
        eapply id_words_kept; [exact U | now apply id_words_removelast | kept]. }
      destruct (tokens1 !! _) as [t|] eqn:Ht; [|discriminate].
      destruct (TokenType_eqb (tk_type t) BRACKET) eqn:Hb; [|discriminate].
      destruct (update _ _ tokens1) as [tokens2| |] eqn:U; cbn [bind]; try discriminate.
      intros [= <-]. simpl.
      eapply id_words_update; [exact U | exact H1 |].
      intros t' Ht'. rewrite Ht in Ht'. injection Ht' as <-.
      apply TokenType_eqb_true in Hb. simpl. rewrite Hb. discriminate.
    + intros [= <-]. simpl. apply id_words_push; [exact H | discriminate].
  - destruct (regexIdentifier (String c after)) as [text|] eqn:Hid.
    + intros [= <-]. simpl. apply id_words_push; [exact H|].
      intros _. simpl. exact (regexIdentifier_word _ _ Hid).
    + destruct (regexNumber (String c after)) as [text|]; [|discriminate].
      intros [= <-]. simpl. apply id_words_push; [exact H | discriminate].
Qed.

Lemma lex_loop_id_words (text : string) (fuel : nat) (st : LexState) (tokens : list Token) :
  id_words (lx_tokens st) -> lex_loop fuel text st = Ok tokens -> id_words tokens.
Proof.
  revert st; induction fuel as [|fuel IH]; intros st H; simpl.
  - destruct (_ <? _); [discriminate|]. now intros [= <-].
  - destruct (_ <? _); [|now intros [= <-]].
    destruct (lex_step text st) as [st'| |] eqn:Hs; simpl; try discriminate.
    apply IH. exact (lex_token_id_words _ _ _ _ H Hs).
Qed.

(** Every ID token of [lex] carries an identifier. *)
Lemma lex_id_words (text : string) (ts : TokenString) :
  lex text = Ok ts -> id_words (ts_tokens ts).
Proof.
  unfold lex.
  destruct (lex_loop _ text _) as [tokens| |] eqn:H; simpl; try discriminate.
  intros [= <-]. simpl. eapply lex_loop_id_words; [|exact H]. constructor.
Qed.


Lemma subTokenString_id_words (from to : Z) (ts : TokenString) :
  id_words (ts_tokens ts) -> id_words (ts_tokens (subTokenString from to ts)).
Proof.
  intros H. unfold subTokenString, id_words. simpl.
  apply Forall_map. unfold slice. apply Forall_take, Forall_drop.
  eapply Forall_impl; [exact H|]. intros t Ht. exact Ht.
Qed.

Lemma popParams_loop_id_words (fuel : nat) (top_match : Z) (ts ts0 : TokenString)
      (acc groups : list TokenString) (ts' : TokenString) :
  ts_tokens ts = ts_tokens ts0 -> id_words (ts_tokens ts0) ->
  Forall (fun g => id_words (ts_tokens g)) acc ->
  popParams_loop fuel top_match ts acc = Ok (groups, ts') ->
  ts_tokens ts' = ts_tokens ts0 /\ Forall (fun g => id_words (ts_tokens g)) groups.
Proof.
  revert ts acc; induction fuel as [|fuel IH]; intros ts acc E H Hacc; simpl.
  - destruct (_ <? _)%Z; [discriminate|]. now intros [= <- <-].
  - destruct (_ <? _)%Z; [|now intros [= <- <-]].
    destruct (peek ts) as [t| |]; cbn [bind]; try discriminate.
    apply IH; [exact E | exact H |].
    apply Forall_app. split; [exact Hacc|]. constructor; [|constructor].
    apply subTokenString_id_words. now rewrite E.
Qed.

Lemma popParams_id_words (ts : TokenString) (groups : list TokenString) (ts' : TokenString) :
  id_words (ts_tokens ts) -> popParams ts = Ok (groups, ts') ->
  ts_tokens ts' = ts_tokens ts /\ Forall (fun g => id_words (ts_tokens g)) groups.
Proof.
  intros H. unfold popParams.
  destruct (peek ts) as [top| |]; cbn [bind]; try discriminate.
  destruct (negb _); [discriminate|].
  destruct (popParams_loop _ _ ts []) as [[gs ts1]| |] eqn:L; cbn [bind]; try discriminate.
  intros [= <- <-]. simpl.
  exact (popParams_loop_id_words _ _ _ ts _ _ _ eq_refl H (Forall_nil_2 _) L).
Qed.

Lemma ParamType_new_ok (name type baseType : string) (indexed : jsval)
      (components : option (list ParamType)) (arrayLength : option Z)
      (arrayChildren : option ParamType) (p : ParamType) :
  ParamType_new name type baseType indexed components arrayLength arrayChildren = Ok p ->
  p = mkParamType name type baseType indexed components arrayLength arrayChildren.
Proof.
  unfold ParamType_new.
  repeat match goal with
         | |- context [if ?b then _ else _] => destruct b
         end; cbn [bind]; congruence.
Qed.

Lemma mapR_Forall {A B} (f : A -> result B) (P : A -> Prop) (Q : B -> Prop)
      (l : list A) (bs : list B) :
  (forall a b, P a -> f a = Ok b -> Q b) ->
  Forall P l -> mapR f l = Ok bs -> Forall Q bs.
Proof.
  intros Hf H. revert bs. induction H as [|a l Ha _ IH]; simpl; intros bs.
  - intros [= <-]. constructor.
  - destruct (f a) as [b| |] eqn:E; cbn [bind]; try discriminate.
    destruct (mapR f l) as [bs'| |]; cbn [bind]; try discriminate.
    intros [= <-]. constructor; [exact (Hf _ _ Ha E) | now apply IH].
Qed.

(** The loop over the array suffixes gives the name [""] to every element
    type. *)
Lemma array_loop_well_named (fuel : nat) (obj : TokenString) (type baseType : string)
      (comps : option (list ParamType)) (arrayLength : option Z)
      (arrayChildren : option ParamType)
      type' baseType' comps' arrayLength' arrayChildren' obj' :
  (forall cs, comps = Some cs -> Forall well_named cs) ->
  (forall c, arrayChildren = Some c -> well_named c) ->
  array_loop fuel obj type baseType comps arrayLength arrayChildren
  = Ok (type', baseType', comps', arrayLength', arrayChildren', obj') ->
  (forall cs, comps' = Some cs -> Forall well_named cs)
  /\ (forall c, arrayChildren' = Some c -> well_named c)
  /\ ts_tokens obj' = ts_tokens obj.
Proof.
  revert obj type baseType comps arrayLength arrayChildren.
  induction fuel as [|fuel IH]; intros obj type baseType comps arrayLength arrayChildren Hc Ha;
    simpl.
  - destruct (_ =? _)%Z; [now intros [= <- <- <- <- <- <-]|].
    destruct (peekType BRACKET obj) as [b| |]; cbn [bind]; try discriminate.
    destruct (truthy_str b); [discriminate | now intros [= <- <- <- <- <- <-]].
  - destruct (_ =? _)%Z; [now intros [= <- <- <- <- <- <-]|].
    destruct (peekType BRACKET obj) as [b| |]; cbn [bind]; try discriminate.
    destruct (truthy_str b); [|now intros [= <- <- <- <- <- <-]].
    destruct (pop obj) as [[bracket obj1]| |] eqn:Hp; cbn [bind]; try discriminate.
    destruct (ParamType_new _ _ _ _ _ _ _) as [child| |] eqn:Hn; cbn [bind]; try discriminate.
    apply ParamType_new_ok in Hn. intros Hl.
    apply IH in Hl as (H1 & H2 & H3).
    + split; [exact H1|]. split; [exact H2|].
      rewrite H3. apply pop_ok in Hp as [_ ->]. reflexivity.
    + discriminate.
    + intros c [= <-]. subst child. constructor; [now left | exact Hc | exact Ha].
Qed.


Lemma peekType_ok (ty : TokenType) (ts : TokenString) (s : string) :
  peekType ty ts = Ok (Some s) ->
  exists t, peek ts = Ok t /\ tk_type t = ty /\ tk_text t = s.
Proof.
  unfold peekType. destruct (_ =? _)%Z; [discriminate|].
  destruct (peek ts) as [t| |]; simpl; try discriminate.
  destruct (TokenType_eqb (tk_type t) ty) eqn:E; [|discriminate].
  intros [= <-]. exists t. split; [reflexivity|]. split; [|reflexivity].
  now apply TokenType_eqb_true.
Qed.

(** The text path names a parameter after an ID token, or not at all. *)
Lemma from_tokens_well_named (from : ParamSource -> bool -> result ParamType)
      (obj : TokenString) (allowIndexed : bool) (p : ParamType) :
  id_words (ts_tokens obj) ->
  (forall g a q, id_words (ts_tokens g) -> from (PTokens g) a = Ok q -> well_named q) ->
  from_tokens from obj allowIndexed = Ok p -> well_named p.
Proof.
  intros H Hfrom. unfold from_tokens.
  destruct (consumeKeywords_steady obj (setify ["tuple"])) as [_ Hs1].
  destruct (consumeKeywords obj _) as [[kws obj1]| |]; cbn [bind]; try discriminate.
  pose proof (Hs1 _ _ eq_refl) as T1.
  match goal with
  | |- bind ?m _ = _ -> _ => destruct m as [open| |]
  end; cbn [bind]; try discriminate.
  match goal with
  | |- bind ?m _ = _ -> _ => destruct m as [[[[type baseType] comps] obj2]| |] eqn:Hb
  end; cbn [bind]; try discriminate.
  assert (Hc : (forall cs, comps = Some cs -> Forall well_named cs)
               /\ ts_tokens obj2 = ts_tokens obj).
  { destruct open.
    - destruct (popParams obj1) as [[groups obj2']| |] eqn:Hp; cbn [bind] in Hb;
        try discriminate.
      apply popParams_id_words in Hp as [T2 Hg]; [|now rewrite T1].
      destruct (mapR _ groups) as [cs| |] eqn:Hm; cbn [bind] in Hb; try discriminate.
      destruct (mapR _ cs) as [parts| |]; cbn [bind] in Hb; try discriminate.
      injection Hb as _ _ <- <-.
      split; [|now rewrite T2].
      intros ? [= <-].
      eapply mapR_Forall; [|exact Hg | exact Hm].
      intros g q Hg' Hq. exact (Hfrom _ _ _ Hg' Hq).
    - destruct (popType_steady TYPE obj1) as [_ Hs2].
      destruct (popType TYPE obj1) as [[t obj2']| |]; cbn [bind] in Hb; try discriminate.
      pose proof (Hs2 _ _ eq_refl) as T2.
      destruct (verifyBasicType t) as [ty| |]; cbn [bind] in Hb; try discriminate.
      injection Hb as _ _ <- <-. split; [discriminate | now rewrite T2]. }
  destruct Hc as [Hc T2].
  destruct (array_loop _ obj2 _ _ _ _ _)
    as [[[[[[type' baseType'] comps'] len'] child'] obj3]| |] eqn:Ha;
    cbn [bind]; try discriminate.
  apply array_loop_well_named in Ha as (Hc' & Hch' & T3); [|exact Hc | discriminate].
  destruct (consumeKeywords_steady obj3 KwModifiers) as [_ Hs4].
  destruct (consumeKeywords obj3 _) as [[keywords obj4]| |]; cbn [bind]; try discriminate.
  pose proof (Hs4 _ _ eq_refl) as T4.
  match goal with
  | |- bind ?m _ = _ -> _ => destruct m as [indexed| |]
  end; cbn [bind]; try discriminate.
  destruct (peekType ID obj4) as [i| |] eqn:Hi; cbn [bind]; try discriminate.
  match goal with
  | |- bind ?m _ = _ -> _ => destruct m as [[name obj5]| |] eqn:Hn
  end; cbn [bind]; try discriminate.
  assert (Hname : name = "" \/ word name).
  { destruct (truthy_str i) eqn:Ht; [|injection Hn as <- _; now left].
    destruct i as [s|]; [|discriminate].
    apply peekType_ok in Hi as (t & Hpk & Hty & Htx).
    unfold pop in Hn. rewrite Hpk in Hn. cbn [bind] in Hn. injection Hn as <- _.
    right. apply peek_ok in Hpk as [_ Hl].
    rewrite T4, T3, T2 in Hl.
    exact (proj1 (Forall_lookup _ _) H _ _ Hl Hty). }
  destruct (negb _); [discriminate|].
  intros Hp. apply ParamType_new_ok in Hp as ->.
  constructor; [exact Hname | exact Hc' | exact Hch'].
Qed.

Lemma ParamType_from_fuel_well_named (fuel : nat) (ts : TokenString) (allowIndexed : bool)
      (p : ParamType) :
  id_words (ts_tokens ts) ->
  ParamType_from_fuel fuel (PTokens ts) allowIndexed = Ok p -> well_named p.
Proof.
  revert ts allowIndexed p; induction fuel as [|fuel IH]; intros ts a p H; [discriminate|].
  simpl. apply from_tokens_well_named; [exact H|].
  intros g b q Hg. now apply IH.
Qed.

End Names.

(** ** The text path on sample signatures *)

(** C6.  [ParamType.from("uint8[3][]")] is a dynamic array (base type
    [array], length -1) whose element type is the array of length 3 of
    [uint8]: each array suffix wraps the type read so far. *)
Theorem nested_array_suffixes :
  ParamType_from (PValue (JStr "uint8[3][]")) false
  = Ok (mkParamType "" "uint8[3][]" "array" JNull None (Some (-1)%Z)
          (Some (mkParamType "" "uint8[3]" "array" JNull None (Some 3%Z)
                   (Some (mkParamType "" "uint8" "uint8" JNull None None None))))).
Proof. vm_compute. reflexivity. Qed.

(** One turn of the loop over the array suffixes: the type read so far
    becomes the element type of an array whose length is the value of the
    suffix. *)
Lemma array_loop_wraps (fuel : nat) (tokens : list Token) (bracket : Token)
      (type baseType : string) (comps : option (list ParamType))
      (arrayLength : option Z) (arrayChildren : option ParamType) (child : ParamType) :
  tk_type bracket = BRACKET -> (tk_text bracket =? "")%string = false ->
  ParamType_new "" type baseType JNull comps arrayLength arrayChildren = Ok child ->
  array_loop (S fuel) (mkTokenString 0 (bracket :: tokens)) type baseType comps
             arrayLength arrayChildren
  = array_loop fuel (mkTokenString 1 (bracket :: tokens)) (type +:+ tk_text bracket)
               "array" None (Some (tk_value bracket)) (Some child).
Proof.
  intros Hty Htxt Hnew.
  unfold array_loop at 1. fold array_loop.
  unfold ts_length, peekType, ts_length, peek, pop, peek, token_at. simpl.
  rewrite Hty. simpl. rewrite Htxt. simpl. rewrite Hnew. reflexivity.
Qed.

(** C8.  [ParamType.from("address indexed a", false)] fails at the check of
    [indexed] (the error thrown there has an empty message), and with
    [allowIndexed] true the same text gives the parameter [a] of type
    [address] with [indexed] true. *)
Theorem indexed_is_gated :
  ParamType_from (PValue (JStr "address indexed a")) false = Throw (Error "")
  /\ ParamType_from (PValue (JStr "address indexed a")) true
     = Ok (mkParamType "a" "address" "address" (JBool true) None None None).
Proof. split; vm_compute; reflexivity. Qed.

(** Without the keyword the same text is accepted whatever [allowIndexed]
    is: the failure above is that of the check of [indexed]. *)
Lemma not_indexed_is_not_gated (allowIndexed : bool) :
  ParamType_from (PValue (JStr "address a")) allowIndexed
  = Ok (mkParamType "a" "address" "address" JNull None None None).
Proof. destruct allowIndexed; vm_compute; reflexivity. Qed.

(** The lexer stops at the first character of a JSON object. *)
Lemma lex_brace (r : string) :
  lex ("{" +:+ r) = Throw (UnexpectedToken (Some "{"%char) 0).
Proof. reflexivity. Qed.

(** [Fragment.from] of a text on enough fuel: the JSON attempt, whose
    outcome is dropped, and then the lexer. *)
Lemma Fragment_from_text (s : string) :
  Fragment_from (FValue (JStr s))
  = let* _ := try_and_discard
                (let* v := JSON_parse s in
                 Fragment_from_fuel (String.length s + 1) (FValue v)) in
    let* tokens := lex s in
    Fragment_from_fuel (String.length s + 1) (FTokens tokens).
Proof.
  unfold Fragment_from. replace (String.length s + 2) with (S (String.length s + 1)) by lia.
  reflexivity.
Qed.

(** The JSON attempt of [Fragment.from] ends, and what it gives is dropped:
    the result is that of the lexer path. *)
Theorem Fragment_from_text_is_the_lexer_path (s : string) :
  Fragment_from (FValue (JStr s))
  = let* tokens := lex s in
    Fragment_from_fuel (String.length s + 1) (FTokens tokens).
Proof.
  pose proof (Fragment_from_total (JStr s)) as Htotal.
  rewrite Fragment_from_text in *.
  destruct (try_and_discard _) as [[]| |] eqn:E; cbn [bind] in *.
  - reflexivity.
  - unfold try_and_discard in E.
    destruct (let* v := JSON_parse s in _); discriminate.
  - congruence.
Qed.

(** A text the lexer refuses is refused by [Fragment.from], with the error
    of the lexer. *)
Lemma Fragment_from_lex_error (s : string) (e : error) :
  lex s = Throw e -> Fragment_from (FValue (JStr s)) = Throw e.
Proof. intros H. now rewrite Fragment_from_text_is_the_lexer_path, H. Qed.

(** C9.  A text that ends in whitespace is refused by the tokenizer with
    the unexpected-token error at the end of the text, whenever the text
    before the whitespace is tokenized; so [ParamType.from] and
    [Fragment.from] fail on it with that error. *)
Theorem trailing_whitespace_is_rejected (s ws : string) (tokens : TokenString) :
  ws <> "" -> string_forallb is_space ws = true ->
  lex s = Ok tokens ->
  lex (s +:+ ws) = Throw (UnexpectedToken None (String.length (s +:+ ws)))
  /\ (forall allowIndexed,
         ParamType_from (PValue (JStr (s +:+ ws))) allowIndexed
         = Throw (UnexpectedToken None (String.length (s +:+ ws))))
  /\ Fragment_from (FValue (JStr (s +:+ ws)))
     = Throw (UnexpectedToken None (String.length (s +:+ ws))).
Proof.
  intros Hne Hws Hlex.
  assert (H : lex (s +:+ ws) = Throw (UnexpectedToken None (String.length (s +:+ ws)))).
  { unfold lex in *.
    destruct (lex_loop (String.length s) s (mkLex [] [] [] 0)) as [toks| |] eqn:Hrun;
      try discriminate.
    rewrite (lex_loop_app s ws Hne Hws (String.length s) _ _ toks); trivial.
    - simpl. lia.
    - rewrite length_append. destruct ws; [congruence | simpl; lia]. }
  split; [exact H | split].
  - intros a. unfold ParamType_from. simpl. now rewrite H.
  - now apply Fragment_from_lex_error.
Qed.

Lemma trailing_whitespace_is_rejected_witness :
  ParamType_from (PValue (JStr "uint256")) false
  = Ok (mkParamType "" "uint256" "uint256" JNull None None None)
  /\ lex ("uint256" +:+ " ") = Throw (UnexpectedToken None 8)
  /\ ParamType_from (PValue (JStr ("uint256" +:+ " "))) false
     = Throw (UnexpectedToken None 8)
  /\ Fragment_from (FValue (JStr ("uint256" +:+ " "))) = Throw (UnexpectedToken None 8).
Proof.
  split; [vm_compute; reflexivity|].
  destruct (trailing_whitespace_is_rejected "uint256" " "
              (mkTokenString 0 [plain TYPE 0 "uint256"])) as (H1 & H2 & H3).
  - discriminate.
  - reflexivity.
  - vm_compute. reflexivity.
  - split; [exact H1 | split; [exact (H2 false) | exact H3]].
Defined.




(** ** The mutability keywords *)

(** [consumeMutability] never reports conflicting modifiers. *)
Lemma consumeMutability_reports_no_conflict (tokens : TokenString) (included : list string) :
  consumeMutability tokens <> Throw (ConflictingTypes included).
Proof.
  unfold consumeMutability.
  destruct (consumeKeywords tokens KwVisib) as [[modifiers tokens']| e |] eqn:E;
    simpl; [| | discriminate].
  - repeat match goal with
           | |- context [if ?b then _ else _] => destruct b
           end; discriminate.
  - intros [= ->]. revert E. unfold consumeKeywords.
    generalize (S (length (ts_tokens tokens))) as fuel.
    generalize (@nil string) as keywords. revert tokens.
    intros tokens keywords fuel. revert tokens keywords.
    induction fuel as [|fuel IH]; intros tokens keywords; simpl; [discriminate|].
    unfold peekType, pop, peek.
    repeat match goal with
           | |- Ok _ = Throw _ -> _ => discriminate
           | |- Throw _ = Throw _ -> _ => discriminate
           | |- context [match ?x with _ => _ end] => destruct x eqn:?; simpl
           | |- context [if ?b then _ else _] => destruct b eqn:?; simpl
           end; try apply IH.
Qed.

(** C3.  On the tokens of [view pure], two keywords of the set of which
    only one is allowed, [consumeMutability] does not fail: it returns
    [view]. *)
Theorem view_pure_is_not_a_conflict :
  (let* tokens := lex "view pure" in
   let* '(mutability, rest) := consumeMutability tokens in
   Ok (mutability, ts_length rest))
  = Ok ("view", 0%Z).
Proof. vm_compute. reflexivity. Qed.

(** ** [verifyBasicType] *)

Lemma digits_value_nonneg (s : string) (acc : Z) :
  (0 <= acc)%Z -> (0 <= digits_value acc s)%Z.
Proof.
  revert acc; induction s as [|d s IH]; intros acc H; simpl; [exact H|].
  apply IH. lia.
Qed.

Lemma regexType_bytes (ds : string) :
  string_forallb is_digit ds = true ->
  regexType ("bytes" +:+ ds) = Some (mkTypeMatch ("bytes" +:+ ds) (Some ds) None).
Proof. intros H. unfold regexType. simpl. now rewrite (span_digits ds H). Qed.

Lemma regexType_uint (ds : string) :
  string_forallb is_digit ds = true ->
  regexType ("uint" +:+ ds) = Some (mkTypeMatch ("uint" +:+ ds) None (Some ds)).
Proof. intros H. unfold regexType. simpl. now rewrite (span_digits ds H). Qed.

Lemma regexType_int (ds : string) :
  string_forallb is_digit ds = true ->
  regexType ("int" +:+ ds) = Some (mkTypeMatch ("int" +:+ ds) None (Some ds)).
Proof. intros H. unfold regexType. simpl. now rewrite (span_digits ds H). Qed.

(** [uint] and [int] are given their canonical names. *)
Lemma verifyBasicType_canonical :
  verifyBasicType "uint" = Ok "uint256" /\ verifyBasicType "int" = Ok "int256".
Proof. split; reflexivity. Qed.

(** [bytesN] is accepted exactly when [1 <= N <= 32]. *)
Lemma verifyBasicType_bytes (ds : string) :
  string_forallb is_digit ds = true -> ds <> "" ->
  (verifyBasicType ("bytes" +:+ ds) = Ok ("bytes" +:+ ds)
   <-> (1 <= parseInt ds <= 32)%Z)
  /\ (~ (1 <= parseInt ds <= 32)%Z ->
      verifyBasicType ("bytes" +:+ ds)
      = Throw (InvalidArgument "invalid bytes length" "type" (AStr ("bytes" +:+ ds)))).
Proof.
  intros H Hne. unfold verifyBasicType. rewrite (regexType_bytes ds H).
  pose proof (digits_value_nonneg ds 0 (Z.le_refl 0)) as Hpos.
  fold (parseInt ds) in Hpos.
  destruct ds as [|d ds]; [congruence|].
  cbn [String.append String.eqb Ascii.eqb Bool.eqb tm_2 tm_3 truthy_str negb default].
  unfold assertArgument, id.
  set (n := parseInt (String d ds)) in *.
  destruct (Z.eqb_spec n 0) as [E0|E0]; destruct (Z.leb_spec n 32) as [E1|E1]; simpl;
    (split; [split; [intros; first [discriminate | lia]
                    | intros; first [reflexivity | lia]]
            | intros; first [reflexivity | lia]]).
Qed.

(** [uintN] and [intN] are accepted exactly when [N] is a multiple of 8
    with [0 < N <= 256]. *)
Lemma verifyBasicType_width (u ds : string) :
  u = "uint" \/ u = "int" ->
  string_forallb is_digit ds = true -> ds <> "" ->
  (verifyBasicType (u +:+ ds) = Ok (u +:+ ds)
   <-> (0 < parseInt ds <= 256)%Z /\ (parseInt ds mod 8 = 0)%Z)
  /\ (~ ((0 < parseInt ds <= 256)%Z /\ (parseInt ds mod 8 = 0)%Z) ->
      verifyBasicType (u +:+ ds)
      = Throw (InvalidArgument "invalid numeric width" "type" (AStr (u +:+ ds)))).
Proof.
  intros Hu H Hne.
  pose proof (digits_value_nonneg ds 0 (Z.le_refl 0)) as Hpos.
  fold (parseInt ds) in Hpos.
  unfold verifyBasicType.
  destruct Hu as [-> | ->];
    [rewrite (regexType_uint ds H) | rewrite (regexType_int ds H)];
    (destruct ds as [|d ds]; [congruence|]);
    cbn [String.append String.eqb Ascii.eqb Bool.eqb tm_2 tm_3 truthy_str negb default];
    unfold assertArgument, id;
    set (n := parseInt (String d ds)) in *;
    destruct (Z.eqb_spec n 0) as [E0|E0]; destruct (Z.leb_spec n 256) as [E1|E1];
    destruct (Z.eqb_spec (n mod 8) 0) as [E2|E2]; simpl;
    (split; [split; [intros; first [discriminate | lia]
                    | intros; first [reflexivity | lia]]
            | intros; first [reflexivity | lia]]).
Qed.

(** A string none of the six type names starts is refused, and the error
    names it. *)
Lemma verifyBasicType_invalid (type : string) :
  regexType type = None ->
  verifyBasicType type = Throw (InvalidArgument "invalid type" "type" (AStr type)).
Proof. intros H. unfold verifyBasicType. now rewrite H. Qed.

(** C5.  [verifyBasicType] accepts strings that are no words of the grammar
    of the type names: [regexType] is anchored at the start only, so a type
    name followed by anything passes, and is returned as it is. *)
Theorem verifyBasicType_accepts_a_prefix :
  verifyBasicType "uint8x" = Ok "uint8x"
  /\ verifyBasicType "addressfoo" = Ok "addressfoo"
  /\ verifyBasicType "boolean" = Ok "boolean"
  /\ ~ elementary "uint8x" /\ ~ elementary "addressfoo" /\ ~ elementary "boolean".
Proof.
  repeat split; try (vm_compute; reflexivity);
    intros (m & Hm & Ht); vm_compute in Hm; injection Hm as <-; discriminate Ht.
Qed.

(** ** Names *)

(** X3.  On the text path the invariant holds: every name of a [ParamType] read
    from a text, at any depth, is the empty string or an identifier, since
    a name is the text of an ID token. *)
Theorem text_path_names_are_identifiers (s : string) (allowIndexed : bool) (p : ParamType) :
  ParamType_from (PValue (JStr s)) allowIndexed = Ok p -> well_named p.
Proof.
  unfold ParamType_from. simpl.
  destruct (lex s) as [tokens| |] eqn:Hl; cbn [bind]; try discriminate.
  apply from_tokens_well_named; [exact (lex_id_words _ _ Hl)|].
  intros g b q Hg. now apply ParamType_from_fuel_well_named.
Qed.

(** C7.  The object path accepts a name of which only a prefix is an
    identifier: [regexIdentifier] is anchored at the start only.  The
    parameter built carries the whole name, and so is not [well_named]. *)
Theorem object_path_keeps_any_name :
  ParamType_from (PValue (JObj [("name", JStr "a-b"); ("type", JStr "uint8")])) false
  = Ok (mkParamType "a-b" "uint8" "uint8" JUndefined None None None)
  /\ ParamType_from (PValue (JObj [("name", JStr "to whom?"); ("type", JStr "address")])) false
     = Ok (mkParamType "to whom?" "address" "address" JUndefined None None None)
  /\ ~ word "a-b" /\ ~ word "to whom?"
  /\ ~ well_named (mkParamType "a-b" "uint8" "uint8" JUndefined None None None).
Proof.
  assert (Hw : ~ word "a-b") by (intros H; vm_compute in H; discriminate H).
  split; [vm_compute; reflexivity|]. split; [vm_compute; reflexivity|].
  split; [exact Hw|]. split; [intros H; vm_compute in H; discriminate H|].
  intros H. inversion H as [? ? ? ? ? ? ? [Hn | Hn] _ _]; [discriminate Hn | exact (Hw Hn)].
Qed.

(** ** The interchange text *)

(** [JSON.stringify] of an object starts with a brace. *)
Lemma stringify_object (props : list (string * jsval)) :
  exists body : result (list string),
    stringify (JObj props)
    = let* parts := body in Ok (Some ("{" +:+ String.concat "," parts +:+ "}")).
Proof. eexists. reflexivity. Qed.

Lemma JSON_stringify_object (props : list (string * jsval)) (s : string) :
  JSON_stringify (JObj props) = Ok s -> exists r, s = "{" +:+ r.
Proof.
  unfold JSON_stringify. destruct (stringify_object props) as [body ->].
  destruct body as [parts| |]; simpl; try discriminate.
  intros E. injection E as E. subst s. eauto.
Qed.

(** [format("json")] of a fragment starts with a brace. *)
Lemma Fragment_format_json (f : Fragment) (s : string) :
  Fragment_format f json = Ok s -> exists r, s = "{" +:+ r.
Proof.
  destruct f; simpl;
    repeat match goal with
           | |- context [bind (json_params ?i) _] => destruct (json_params i); simpl
           end;
    try discriminate; apply JSON_stringify_object.
Qed.

(** The interchange text of a fragment is never read back: whatever the
    fragment, [Fragment.from] throws the error of the lexer at the opening
    brace. *)
Theorem interchange_text_is_never_read_back (f : Fragment) (s : string) :
  Fragment_format f json = Ok s ->
  Fragment_from (FValue (JStr s)) = Throw (UnexpectedToken (Some "{"%char) 0).
Proof.
  intros H. destruct (Fragment_format_json f s H) as [r ->].
  apply Fragment_from_lex_error, lex_brace.
Qed.

(** C1.  The round trip through [format("json")] does not give the fragment
    back.  For the error [Foo(uint8 a)] the interchange text is produced,
    and [Fragment.from] of that text throws the error of the lexer at the
    opening brace; for a struct [format] itself throws. *)
Theorem json_round_trip_is_broken :
  Fragment_from (FValue (JStr "error Foo(uint8 a)")) = Ok (ErrorFragment "Foo" [uint8_a])
  /\ Fragment_format (ErrorFragment "Foo" [uint8_a]) json = Ok Foo_json
  /\ Fragment_from (FValue (JStr Foo_json)) = Throw (UnexpectedToken (Some "{"%char) 0)
  /\ Fragment_from (FValue (JStr "struct S(uint8 a)")) = Ok (StructFragment "S" [uint8_a])
  /\ Fragment_format (StructFragment "S" [uint8_a]) json = Throw (Error "@TODO").
Proof. repeat split; vm_compute; reflexivity. Qed.

(** C2.  [Fragment.from] of a text that is the JSON of an error fragment:
    the text parses as JSON, the object gives the fragment, and yet
    [Fragment.from] of the text throws the error of the lexer, because the
    fragment of the JSON attempt is dropped. *)
Theorem json_attempt_is_dropped :
  JSON_parse Foo_json = Ok Foo_object
  /\ Fragment_from (FValue Foo_object)
     = Ok (ErrorFragment "Foo" [mkParamType "a" "uint8" "uint8" JUndefined None None None])
  /\ Fragment_from (FValue (JStr Foo_json)) = Throw (UnexpectedToken (Some "{"%char) 0).
Proof. repeat split; vm_compute; reflexivity. Qed.

(** ** The value walkers on a tuple *)

Section Walkers.

Variable process : string -> jsval -> result jsval.
Variable processA : string -> jsval -> result leaf_result.

Lemma object_to_array_ok (comps : list ParamType) (value : jsval) :
  Forall (fun c => pt_name c <> "" /\ is_Some (property value (pt_name c))) comps ->
  object_to_array comps value = Ok (map (entry value) comps).
Proof.
  unfold object_to_array, entry.
  induction 1 as [|c comps [Hn [v Hv]] _ IH]; cbn [mapR map]; [reflexivity|].
  apply String.eqb_neq in Hn. rewrite Hn, Hv. cbn [bind default]. now rewrite IH.
Qed.

Lemma object_to_array_fails (comps : list ParamType) (value : jsval) :
  Exists (fun c => pt_name c = "" \/ property value (pt_name c) = None) comps ->
  exists e, object_to_array comps value = Throw e.
Proof.
  unfold object_to_array.
  induction 1 as [c comps [Hn | Hv] | c comps _ [e IH]]; cbn [mapR].
  - apply String.eqb_eq in Hn. rewrite Hn. cbn [bind]. eauto.
  - destruct (pt_name c =? "")%string; cbn [bind]; [eauto|]. rewrite Hv. cbn [bind]. eauto.
  - destruct (pt_name c =? "")%string; cbn [bind]; [eauto|].
    destruct (property value (pt_name c)); cbn [bind]; [|eauto].
    rewrite IH. cbn [bind]. eauto.
Qed.

(** [name in value] is false for an object literal exactly when the name
    is neither an own property nor a property of [Object.prototype]. *)
Lemma property_absent (props : list (string * jsval)) (name : string) :
  property (JObj props) name = None
  <-> assoc name props = None /\ assoc name Object_prototype = None.
Proof.
  cbn [property]. destruct (assoc name props) as [v|]; [split; [discriminate | intros [H _]; discriminate H]|].
  destruct (String.eqb_spec name "__proto__") as [->|_].
  - split; [discriminate | intros [_ H]; discriminate H].
  - split; [now split | now intros [_ H]].
Qed.

Lemma walk_tuple_sequence (name type : string) (indexed : jsval)
      (comps : list ParamType) (items : list jsval) :
  walk process (mkParamType name type "tuple" indexed (Some comps) None None) (JArr items)
  = if negb (length items =? length comps) then Throw (Error "array is wrong length")
    else let* items' := zipR (walk process) comps items in Ok (JArr items').
Proof. reflexivity. Qed.

Lemma walk_tuple_mapping (name type : string) (indexed : jsval)
      (comps : list ParamType) (props : list (string * jsval)) :
  walk process (mkParamType name type "tuple" indexed (Some comps) None None) (JObj props)
  = Throw (Error "invlaid tuple value").
Proof. reflexivity. Qed.

Lemma walkAsync_tuple_sequence (name type : string) (indexed : jsval)
      (comps : list ParamType) (items : list jsval) :
  walkAsync_descent processA
    (mkParamType name type "tuple" indexed (Some comps) None None) (JArr items)
  = if negb (length items =? length comps) then Throw (Error "array is wrong length")
    else let* items' := zipR (walkAsync_descent processA) comps items in Ok (WArr items').
Proof. reflexivity. Qed.

Lemma walkAsync_tuple_mapping (name type : string) (indexed : jsval)
      (comps : list ParamType) (props : list (string * jsval)) :
  walkAsync_descent processA
    (mkParamType name type "tuple" indexed (Some comps) None None) (JObj props)
  = let* items := object_to_array comps (JObj props) in
    walkAsync_descent processA
      (mkParamType name type "tuple" indexed (Some comps) None None) (JArr items).
Proof.
  simpl. destruct (object_to_array comps (JObj props)); reflexivity.
Qed.

End Walkers.

(** C4, as the code has it.  [walkAsync] on a tuple takes a sequence as
    long as the components, each item walked with its component, or a
    mapping: when every component has a name that is a property of the
    mapping ([name in value]: its own, or one an object literal inherits
    from [Object.prototype]), the walk is that of the sequence of these
    properties in the order of the components, and it fails when a
    component has no name or a name that is no property of the mapping.
    [walk] takes the sequence only, and throws on a mapping. *)
Theorem tuple_walks
        (process : string -> jsval -> result jsval)
        (processA : string -> jsval -> result leaf_result)
        (name type : string) (indexed : jsval) (comps : list ParamType) :
  let p := mkParamType name type "tuple" indexed (Some comps) None None in
  (forall items,
      walkAsync_descent processA p (JArr items)
      = if negb (length items =? length comps) then Throw (Error "array is wrong length")
        else let* items' := zipR (walkAsync_descent processA) comps items in Ok (WArr items'))
  /\ (forall props,
         Forall (fun c => pt_name c <> ""
                          /\ is_Some (property (JObj props) (pt_name c))) comps ->
         walkAsync processA p (JObj props)
         = walkAsync processA p (JArr (map (entry (JObj props)) comps)))
  /\ (forall props,
         Exists (fun c => pt_name c = ""
                          \/ (assoc (pt_name c) props = None
                              /\ assoc (pt_name c) Object_prototype = None)) comps ->
         exists e, walkAsync processA p (JObj props) = Throw e)
  /\ (forall items,
         walk process p (JArr items)
         = if negb (length items =? length comps) then Throw (Error "array is wrong length")
           else let* items' := zipR (walk process) comps items in Ok (JArr items'))
  /\ (forall props, walk process p (JObj props) = Throw (Error "invlaid tuple value")).
Proof.
  intros p. split; [|split; [|split; [|split]]].
  - intros items. apply walkAsync_tuple_sequence.
  - intros props H. unfold walkAsync, p.
    now rewrite walkAsync_tuple_mapping, (object_to_array_ok _ _ H).
  - intros props H.
    assert (H' : Exists (fun c => pt_name c = ""
                                  \/ property (JObj props) (pt_name c) = None) comps).
    { eapply Exists_impl; [exact H|]. intros c [Hn | Ha]; [now left | right].
      now apply property_absent. }
    destruct (object_to_array_fails _ _ H') as [e He].
    exists e. unfold walkAsync, p. now rewrite walkAsync_tuple_mapping, He.
  - intros items. apply walk_tuple_sequence.
  - intros props. apply walk_tuple_mapping.
Qed.

Lemma tuple_walks_witness :
  walkAsync keep_later pair_ab (JObj [("b", JStr "x"); ("a", JNum 1)])
  = Ok (JArr [JNum 1; JStr "x"])
  /\ (exists e, walkAsync keep_later pair_ab (JObj [("a", JNum 1)]) = Throw e).
Proof.
  destruct (tuple_walks keep keep_later "" "tuple(uint256,address)" JNull
              [mkParamType "a" "uint256" "uint256" JNull None None None;
               mkParamType "b" "address" "address" JNull None None None])
    as (_ & Hmap & Hfail & _).
  split.
  - unfold pair_ab. rewrite Hmap; [vm_compute; reflexivity|].
    repeat constructor; simpl; try discriminate; eauto.
  - apply Hfail. apply Exists_cons_tl, Exists_cons_hd. right. split; reflexivity.
Defined.

(** A name an object literal inherits counts as an entry: for a component
    named [toString] the empty mapping holds the built-in method, and the
    walk goes on with it. *)
Lemma inherited_property_is_an_entry :
  walkAsync keep_later
    (mkParamType "" "tuple(uint256)" "tuple" JNull
       (Some [mkParamType "toString" "uint256" "uint256" JNull None None None]) None None)
    (JObj [])
  = Ok (JArr [JFunction "toString"]).
Proof. vm_compute. reflexivity. Qed.

(** C4, as stated, fails for [walk]: a mapping with an entry for every
    named component is refused by [walk], and accepted by [walkAsync]. *)
Lemma walk_refuses_a_mapping :
  walk keep pair_ab (JObj [("a", JNum 1); ("b", JStr "x")])
  = Throw (Error "invlaid tuple value")
  /\ walkAsync keep_later pair_ab (JObj [("a", JNum 1); ("b", JStr "x")])
     = Ok (JArr [JNum 1; JStr "x"]).
Proof. split; vm_compute; reflexivity. Qed.

(** ** What [ParamType.from] builds *)

Section Built.

(** The constructor lets through the three shapes only. *)
Lemma ParamType_new_shape (name type baseType : string) (indexed : jsval)
      (components : option (list ParamType)) (arrayLength : option Z)
      (arrayChildren : option ParamType) (p : ParamType) :
  ParamType_new name type baseType indexed components arrayLength arrayChildren = Ok p ->
  (is_Some arrayLength <-> baseType = "array")
  /\ (is_Some arrayChildren <-> baseType = "array")
  /\ (is_Some components <-> baseType = "tuple").
Proof.
  unfold ParamType_new.
  destruct (String.eqb_spec baseType "array") as [Ea|Ea];
    destruct (String.eqb_spec baseType "tuple") as [Et|Et];
    destruct arrayLength, arrayChildren, components; cbn; try discriminate; intros _;
    repeat split; intros H; try (inversion H; congruence); try congruence; eauto.
Qed.


Lemma ParamType_new_well_shaped (name type baseType : string) (indexed : jsval)
      (components : option (list ParamType)) (arrayLength : option Z)
      (arrayChildren : option ParamType) (p : ParamType) :
  (forall cs, components = Some cs -> Forall well_shaped cs) ->
  (forall c, arrayChildren = Some c -> well_shaped c) ->
  ParamType_new name type baseType indexed components arrayLength arrayChildren = Ok p ->
  well_shaped p.
Proof.
  intros Hc Ha H. pose proof (ParamType_new_shape _ _ _ _ _ _ _ _ H) as (S1 & S2 & S3).
  apply ParamType_new_ok in H as ->. now constructor.
Qed.

Lemma array_loop_well_shaped (fuel : nat) (obj : TokenString) (type baseType : string)
      (comps : option (list ParamType)) (arrayLength : option Z)
      (arrayChildren : option ParamType)
      type' baseType' comps' arrayLength' arrayChildren' obj' :
  (forall cs, comps = Some cs -> Forall well_shaped cs) ->
  (forall c, arrayChildren = Some c -> well_shaped c) ->
  array_loop fuel obj type baseType comps arrayLength arrayChildren
  = Ok (type', baseType', comps', arrayLength', arrayChildren', obj') ->
  (forall cs, comps' = Some cs -> Forall well_shaped cs)
  /\ (forall c, arrayChildren' = Some c -> well_shaped c).
Proof.
  revert obj type baseType comps arrayLength arrayChildren.
  induction fuel as [|fuel IH]; intros obj type baseType comps arrayLength arrayChildren Hc Ha;
    simpl.
  - destruct (_ =? _)%Z; [now intros [= <- <- <- <- <- <-]|].
    destruct (peekType BRACKET obj) as [b| |]; cbn [bind]; try discriminate.
    destruct (truthy_str b); [discriminate | now intros [= <- <- <- <- <- <-]].
  - destruct (_ =? _)%Z; [now intros [= <- <- <- <- <- <-]|].
    destruct (peekType BRACKET obj) as [b| |]; cbn [bind]; try discriminate.
    destruct (truthy_str b); [|now intros [= <- <- <- <- <- <-]].
    destruct (pop obj) as [[bracket obj1]| |] eqn:Hp; cbn [bind]; try discriminate.
    destruct (ParamType_new _ _ _ _ _ _ _) as [child| |] eqn:Hn; cbn [bind]; try discriminate.
    intros Hl. apply IH in Hl; [exact Hl | discriminate |].
    intros c [= <-]. exact (ParamType_new_well_shaped _ _ _ _ _ _ _ _ Hc Ha Hn).
Qed.

Lemma from_tokens_well_shaped (from : ParamSource -> bool -> result ParamType)
      (obj : TokenString) (allowIndexed : bool) (p : ParamType) :
  (forall g a q, from (PTokens g) a = Ok q -> well_shaped q) ->
  from_tokens from obj allowIndexed = Ok p -> well_shaped p.
Proof.
  intros Hfrom. unfold from_tokens.
  destruct (consumeKeywords obj _) as [[kws obj1]| |]; cbn [bind]; try discriminate.
  match goal with
  | |- bind ?m _ = _ -> _ => destruct m as [open| |]
  end; cbn [bind]; try discriminate.
  match goal with
  | |- bind ?m _ = _ -> _ => destruct m as [[[[type baseType] comps] obj2]| |] eqn:Hb
  end; cbn [bind]; try discriminate.
  assert (Hc : forall cs, comps = Some cs -> Forall well_shaped cs).
  { destruct open.
    - destruct (popParams obj1) as [[groups obj2']| |]; cbn [bind] in Hb; try discriminate.
      destruct (mapR _ groups) as [cs| |] eqn:Hm; cbn [bind] in Hb; try discriminate.
      destruct (mapR _ cs) as [parts| |]; cbn [bind] in Hb; try discriminate.
      injection Hb as _ _ <- _. intros ? [= <-].
      eapply (mapR_Forall _ (fun _ => True)); [| |exact Hm].
      + intros g q _ Hq. exact (Hfrom _ _ _ Hq).
      + apply Forall_forall. intros; exact I.
    - destruct (popType TYPE obj1) as [[t obj2']| |]; cbn [bind] in Hb; try discriminate.
      destruct (verifyBasicType t) as [ty| |]; cbn [bind] in Hb; try discriminate.
      injection Hb as _ _ <- _. discriminate. }
  destruct (array_loop _ obj2 _ _ _ _ _)
    as [[[[[[type' baseType'] comps'] len'] child'] obj3]| |] eqn:Ha;
    cbn [bind]; try discriminate.
  apply array_loop_well_shaped in Ha as (Hc' & Hch'); [|exact Hc | discriminate].
  destruct (consumeKeywords obj3 _) as [[keywords obj4]| |]; cbn [bind]; try discriminate.
  match goal with
  | |- bind ?m _ = _ -> _ => destruct m as [indexed| |]
  end; cbn [bind]; try discriminate.
  destruct (peekType ID obj4) as [i| |]; cbn [bind]; try discriminate.
  match goal with
  | |- bind ?m _ = _ -> _ => destruct m as [[name obj5]| |]
  end; cbn [bind]; try discriminate.
  destruct (negb _); [discriminate|].
  now apply ParamType_new_well_shaped.
Qed.

Lemma from_object_well_shaped (from : ParamSource -> bool -> result ParamType)
      (obj : jsval) (allowIndexed : bool) (p : ParamType) :
  (forall v a q, from (PValue v) a = Ok q -> well_shaped q) ->
  from_object from obj allowIndexed = Ok p -> well_shaped p.
Proof.
  intros Hfrom. unfold from_object.
  destruct (get obj "name") as [name| |]; cbn [bind]; try discriminate.
  destruct (assertArgument _ _ _ _) as [[]| |]; cbn [bind]; try discriminate.
  destruct (get obj "indexed") as [indexed0| |]; cbn [bind]; try discriminate.
  match goal with
  | |- bind ?m _ = _ -> _ => destruct m as [indexed| |]
  end; cbn [bind]; try discriminate.
  destruct (get obj "type") as [type_| |]; cbn [bind]; try discriminate.
  destruct (as_string type_) as [type| |]; cbn [bind]; try discriminate.
  destruct (regexArrayType type) as [[g1 g2]|].
  - destruct (get obj "components") as [components| |]; cbn [bind]; try discriminate.
    destruct (from _ false) as [child| |] eqn:Hch; cbn [bind]; try discriminate.
    apply ParamType_new_well_shaped; [discriminate|].
    intros c [= <-]. exact (Hfrom _ _ _ Hch).
  - destruct (_ || _).
    + destruct (get obj "components") as [components| |]; cbn [bind]; try discriminate.
      match goal with
      | |- bind ?m _ = _ -> _ => destruct m as [comps| |] eqn:Hc
      end; cbn [bind]; try discriminate.
      apply ParamType_new_well_shaped; [|discriminate].
      intros cs ->. destruct (negb _); [|discriminate].
      destruct (as_array components) as [items| |]; cbn [bind] in Hc; try discriminate.
      destruct (mapR _ items) as [cs'| |] eqn:Hm; cbn [bind] in Hc; try discriminate.
      injection Hc as <-.
      eapply (mapR_Forall _ (fun _ => True)); [| |exact Hm].
      * intros v q _ Hq. exact (Hfrom _ _ _ Hq).
      * apply Forall_forall. intros; exact I.
    + destruct (verifyBasicType type) as [type'| |]; cbn [bind]; try discriminate.
      apply ParamType_new_well_shaped; discriminate.
Qed.

Lemma ParamType_from_fuel_well_shaped (fuel : nat) (obj : ParamSource) (allowIndexed : bool)
      (p : ParamType) :
  is_instance obj = false ->
  ParamType_from_fuel fuel obj allowIndexed = Ok p -> well_shaped p.
Proof.
  revert obj allowIndexed p; induction fuel as [|fuel IH]; intros obj a p Hi; [discriminate|].
  destruct obj as [q|ts|v]; [discriminate| |].
  - simpl. apply from_tokens_well_shaped. intros g b q. now apply IH.
  - assert (Hobj : from_object (ParamType_from_fuel fuel) v a = Ok p -> well_shaped p).
    { apply from_object_well_shaped. intros w b q. now apply IH. }
    destruct v; try exact Hobj.
    simpl. destruct (lex s) as [tokens| |]; cbn [bind]; try discriminate.
    now apply IH.
Qed.

End Built.

(** X1.  Whatever [ParamType.from] builds from a text, from tokens or from
    an object passes the checks of the constructor at every depth: the
    element type and the length are there exactly under the base type
    [array], and the components exactly under the base type [tuple]. *)
Theorem ParamType_from_is_well_shaped (obj : ParamSource) (allowIndexed : bool)
        (p : ParamType) :
  is_instance obj = false ->
  ParamType_from obj allowIndexed = Ok p -> well_shaped p.
Proof. intros Hi. unfold ParamType_from. now apply ParamType_from_fuel_well_shaped. Qed.

Lemma ParamType_from_is_well_shaped_witness :
  well_shaped (mkParamType "" "uint8[3][]" "array" JNull None (Some (-1)%Z)
                 (Some (mkParamType "" "uint8[3]" "array" JNull None (Some 3%Z)
                          (Some (mkParamType "" "uint8" "uint8" JNull None None None))))).
Proof.
  apply (ParamType_from_is_well_shaped (PValue (JStr "uint8[3][]")) false).
  - reflexivity.
  - vm_compute. reflexivity.
Defined.

(** ** [indexed] *)

Section Indexed.

Lemma array_loop_unindexed (fuel : nat) (obj : TokenString) (type baseType : string)
      (comps : option (list ParamType)) (arrayLength : option Z)
      (arrayChildren : option ParamType)
      type' baseType' comps' arrayLength' arrayChildren' obj' :
  (forall cs, comps = Some cs -> Forall unindexed cs) ->
  (forall c, arrayChildren = Some c -> unindexed c) ->
  array_loop fuel obj type baseType comps arrayLength arrayChildren
  = Ok (type', baseType', comps', arrayLength', arrayChildren', obj') ->
  (forall cs, comps' = Some cs -> Forall unindexed cs)
  /\ (forall c, arrayChildren' = Some c -> unindexed c).
Proof.
  revert obj type baseType comps arrayLength arrayChildren.
  induction fuel as [|fuel IH]; intros obj type baseType comps arrayLength arrayChildren Hc Ha;
    simpl.
  - destruct (_ =? _)%Z; [now intros [= <- <- <- <- <- <-]|].
    destruct (peekType BRACKET obj) as [b| |]; cbn [bind]; try discriminate.
    destruct (truthy_str b); [discriminate | now intros [= <- <- <- <- <- <-]].
  - destruct (_ =? _)%Z; [now intros [= <- <- <- <- <- <-]|].
    destruct (peekType BRACKET obj) as [b| |]; cbn [bind]; try discriminate.
    destruct (truthy_str b); [|now intros [= <- <- <- <- <- <-]].
    destruct (pop obj) as [[bracket obj1]| |] eqn:Hp; cbn [bind]; try discriminate.
    destruct (ParamType_new _ _ _ _ _ _ _) as [child| |] eqn:Hn; cbn [bind]; try discriminate.
    intros Hl. apply IH in Hl; [exact Hl | discriminate |].
    intros c [= <-]. apply ParamType_new_ok in Hn as ->. now constructor.
Qed.

Lemma top_only_unindexed (p : ParamType) : indexed_at_the_top_only false p -> unindexed p.
Proof. destruct p. intros (H1 & H2 & H3). constructor; auto. Qed.

Lemma from_tokens_indexed (from : ParamSource -> bool -> result ParamType)
      (obj : TokenString) (allowIndexed : bool) (p : ParamType) :
  (forall g q, from (PTokens g) false = Ok q -> unindexed q) ->
  from_tokens from obj allowIndexed = Ok p -> indexed_at_the_top_only allowIndexed p.
Proof.
  intros Hfrom. unfold from_tokens.
  destruct (consumeKeywords obj _) as [[kws obj1]| |]; cbn [bind]; try discriminate.
  match goal with
  | |- bind ?m _ = _ -> _ => destruct m as [open| |]
  end; cbn [bind]; try discriminate.
  match goal with
  | |- bind ?m _ = _ -> _ => destruct m as [[[[type baseType] comps] obj2]| |] eqn:Hb
  end; cbn [bind]; try discriminate.
  assert (Hc : forall cs, comps = Some cs -> Forall unindexed cs).
  { destruct open.
    - destruct (popParams obj1) as [[groups obj2']| |]; cbn [bind] in Hb; try discriminate.
      destruct (mapR _ groups) as [cs| |] eqn:Hm; cbn [bind] in Hb; try discriminate.
      destruct (mapR _ cs) as [parts| |]; cbn [bind] in Hb; try discriminate.
      injection Hb as _ _ <- _. intros ? [= <-].
      eapply (mapR_Forall _ (fun _ => True)); [| |exact Hm].
      + intros g q _ Hq. exact (Hfrom _ _ Hq).
      + apply Forall_forall. intros; exact I.
    - destruct (popType TYPE obj1) as [[t obj2']| |]; cbn [bind] in Hb; try discriminate.
      destruct (verifyBasicType t) as [ty| |]; cbn [bind] in Hb; try discriminate.
      injection Hb as _ _ <- _. discriminate. }
  destruct (array_loop _ obj2 _ _ _ _ _)
    as [[[[[[type' baseType'] comps'] len'] child'] obj3]| |] eqn:Ha;
    cbn [bind]; try discriminate.
  apply array_loop_unindexed in Ha as (Hc' & Hch'); [|exact Hc | discriminate].
  destruct (consumeKeywords obj3 _) as [[keywords obj4]| |]; cbn [bind]; try discriminate.
  match goal with
  | |- bind ?m _ = _ -> _ => destruct m as [indexed| |] eqn:Hi
  end; cbn [bind]; try discriminate.
  destruct (peekType ID obj4) as [i| |]; cbn [bind]; try discriminate.
  match goal with
  | |- bind ?m _ = _ -> _ => destruct m as [[name obj5]| |]
  end; cbn [bind]; try discriminate.
  destruct (negb (_ =? _)%Z); [discriminate|].
  intros Hp. apply ParamType_new_ok in Hp as ->.
  split; [exact Hc'|]. split; [exact Hch'|]. simpl. intros ->.
  match type of Hi with
  | (if ?b then _ else _) = _ => destruct b
  end; simpl in Hi; [discriminate Hi | now injection Hi as <-].
Qed.

Lemma from_object_indexed (from : ParamSource -> bool -> result ParamType)
      (obj : jsval) (allowIndexed : bool) (p : ParamType) :
  (forall v q, from (PValue v) false = Ok q -> unindexed q) ->
  from_object from obj allowIndexed = Ok p -> indexed_at_the_top_only allowIndexed p.
Proof.
  intros Hfrom. unfold from_object.
  destruct (get obj "name") as [name| |]; cbn [bind]; try discriminate.
  destruct (assertArgument _ _ _ _) as [[]| |]; cbn [bind]; try discriminate.
  destruct (get obj "indexed") as [indexed0| |]; cbn [bind]; try discriminate.
  match goal with
  | |- bind ?m _ = _ -> _ => destruct m as [indexed| |] eqn:Hi
  end; cbn [bind]; try discriminate.
  assert (Hix : allowIndexed = false -> nullish indexed = true).
  { intros ->. destruct (nullish indexed0) eqn:Hn; simpl in Hi.
    - now injection Hi as <-.
    - discriminate. }
  destruct (get obj "type") as [type_| |]; cbn [bind]; try discriminate.
  destruct (as_string type_) as [type| |]; cbn [bind]; try discriminate.
  destruct (regexArrayType type) as [[g1 g2]|].
  - destruct (get obj "components") as [components| |]; cbn [bind]; try discriminate.
    destruct (from _ false) as [child| |] eqn:Hch; cbn [bind]; try discriminate.
    intros Hp. apply ParamType_new_ok in Hp as ->.
    split; [discriminate|]. split; [|exact Hix].
    intros c [= <-]. exact (Hfrom _ _ Hch).
  - destruct (_ || _).
    + destruct (get obj "components") as [components| |]; cbn [bind]; try discriminate.
      match goal with
      | |- bind ?m _ = _ -> _ => destruct m as [comps| |] eqn:Hc
      end; cbn [bind]; try discriminate.
      intros Hp. apply ParamType_new_ok in Hp as ->.
      split; [|split; [discriminate | exact Hix]].
      simpl. intros cs ->. destruct (negb (nullish components)); [|discriminate Hc].
      destruct (as_array components) as [items| |]; cbn [bind] in Hc; try discriminate.
      destruct (mapR _ items) as [cs'| |] eqn:Hm; cbn [bind] in Hc; try discriminate.
      injection Hc as <-.
      eapply (mapR_Forall _ (fun _ => True)); [| |exact Hm].
      * intros v q _ Hq. exact (Hfrom _ _ Hq).
      * apply Forall_forall. intros; exact I.
    + destruct (verifyBasicType type) as [type'| |]; cbn [bind]; try discriminate.
      intros Hp. apply ParamType_new_ok in Hp as ->.
      split; [discriminate|]. split; [discriminate | exact Hix].
Qed.

Lemma ParamType_from_fuel_indexed (fuel : nat) (obj : ParamSource) (allowIndexed : bool)
      (p : ParamType) :
  is_instance obj = false ->
  ParamType_from_fuel fuel obj allowIndexed = Ok p ->
  indexed_at_the_top_only allowIndexed p.
Proof.
  revert obj allowIndexed p; induction fuel as [|fuel IH]; intros obj a p Hi; [discriminate|].
  destruct obj as [q|ts|v]; [discriminate| |].
  - simpl. apply from_tokens_indexed. intros g q Hq.
    apply top_only_unindexed. now apply (IH (PTokens g)).
  - assert (Hobj : from_object (ParamType_from_fuel fuel) v a = Ok p ->
                   indexed_at_the_top_only a p).
    { apply from_object_indexed. intros w q Hq.
      apply top_only_unindexed. now apply (IH (PValue w)). }
    destruct v; try exact Hobj.
    simpl. destruct (lex s) as [tokens| |]; cbn [bind]; try discriminate.
    now apply IH.
Qed.

End Indexed.

(** X2.  From a source that holds no [ParamType] instance (a text, a
    token string, or a value, which is plain data), only the parameter
    [ParamType.from] is asked for can be indexed, and only if
    [allowIndexed]: nothing it builds below it (a component of a tuple,
    the element type of an array) ever is, on either path.  An instance
    is returned as it is, whatever its [indexed]; it is the source
    [PInstance], which the statement leaves out. *)
Theorem indexed_only_at_the_top (obj : ParamSource) (allowIndexed : bool) (p : ParamType) :
  is_instance obj = false ->
  ParamType_from obj allowIndexed = Ok p ->
  (forall cs, pt_components p = Some cs -> Forall unindexed cs)
  /\ (forall c, pt_arrayChildren p = Some c -> unindexed c)
  /\ (allowIndexed = false -> nullish (pt_indexed p) = true).
Proof. intros Hi. unfold ParamType_from. now apply ParamType_from_fuel_indexed. Qed.

Lemma indexed_only_at_the_top_witness :
  unindexed (mkParamType "" "tuple(address,uint8)" "tuple" JNull
               (Some [mkParamType "a" "address" "address" JNull None None None;
                      mkParamType "b" "uint8" "uint8" JNull None None None])
               None None).
Proof.
  refine (proj1 (proj2 (indexed_only_at_the_top
                          (PValue (JStr "(address a, uint8 b)[] indexed x")) true
                          (mkParamType "x" "tuple(address,uint8)[]" "array" (JBool true) None
                             (Some (-1)%Z) (Some _)) _ _)) _ _).
  - reflexivity.
  - vm_compute. reflexivity.
  - reflexivity.
Defined.

(** ** The canonical type names *)

(** X4.  What [verifyBasicType] returns it accepts and returns unchanged:
    the canonical name of a type is a fixed point. *)
Theorem verifyBasicType_idempotent (type type' : string) :
  verifyBasicType type = Ok type' -> verifyBasicType type' = Ok type'.
Proof.
  intros H. destruct (verifyBasicType_result _ _ H) as [_ [-> | [[_ ->] | [_ ->]]]].
  - exact H.
  - reflexivity.
  - reflexivity.
Qed.

Lemma verifyBasicType_idempotent_witness : verifyBasicType "uint256" = Ok "uint256".
Proof. apply (verifyBasicType_idempotent "uint"). reflexivity. Defined.

(** ** The signature format *)

Section Sighash.

Lemma mapR_map {A B C} (f : B -> result C) (g : A -> B) (l : list A) :
  mapR f (map g l) = mapR (fun a => f (g a)) l.
Proof. induction l as [|a l IH]; simpl; [reflexivity | now rewrite IH]. Qed.

Lemma mapR_ext_Forall {A B} (f g : A -> result B) (l : list A) :
  Forall (fun a => f a = g a) l -> mapR f l = mapR g l.
Proof. induction 1 as [|a l Ha _ IH]; simpl; [reflexivity | now rewrite Ha, IH]. Qed.

Lemma format_sighash_without_names (p : ParamType) :
  ParamType_format sighash (without_names p) = ParamType_format sighash p.
Proof.
  induction p as [name type baseType indexed components arrayLength arrayChildren Hcs Hc]
                   using ParamType_induction.
  cbn [without_names ParamType_format FormatType_eqb negb].
  destruct (baseType =? "array")%string.
  - destruct arrayChildren as [c|]; [|reflexivity]. now rewrite Hc.
  - destruct (baseType =? "tuple")%string; [|reflexivity].
    destruct components as [cs|]; [|reflexivity].
    rewrite mapR_map. now rewrite (mapR_ext_Forall _ _ _ Hcs).
Qed.

End Sighash.

(** X5.  The signature format reads the types only: two parameters that
    differ in names and in [indexed] marks, at any depth, have the same
    [format("sighash")]. *)
Theorem format_sighash_ignores_names (p q : ParamType) :
  without_names p = without_names q ->
  ParamType_format sighash p = ParamType_format sighash q.
Proof.
  intros H. rewrite <- (format_sighash_without_names p), <- (format_sighash_without_names q).
  now rewrite H.
Qed.

Lemma format_sighash_ignores_names_witness :
  ParamType_format sighash
    (mkParamType "from" "tuple(address,uint8)" "tuple" (JBool true)
       (Some [mkParamType "a" "address" "address" JNull None None None;
              mkParamType "b" "uint8" "uint8" JNull None None None]) None None)
  = ParamType_format sighash
      (mkParamType "" "tuple(address,uint8)" "tuple" JNull
         (Some [mkParamType "x" "address" "address" JNull None None None;
                mkParamType "" "uint8" "uint8" JNull None None None]) None None).
Proof. apply format_sighash_ignores_names. reflexivity. Defined.

Lemma text_path_names_are_identifiers_witness :
  well_named (mkParamType "a" "uint8[]" "array" JNull None (Some (-1)%Z)
                (Some (mkParamType "" "uint8" "uint8" JNull None None None))).
Proof.
  apply (text_path_names_are_identifiers "uint8[] a" false).
  vm_compute. reflexivity.
Defined.

(** ** The laws of the walkers *)

Section WalkLaws.

Lemma mapR_length {A B} (f : A -> result B) (l : list A) (bs : list B) :
  mapR f l = Ok bs -> length bs = length l.
Proof.
  revert bs; induction l as [|a l IH]; simpl; intros bs.
  - now intros [= <-].
  - destruct (f a) as [b| |]; cbn [bind]; try discriminate.
    destruct (mapR f l) as [bs'| |]; cbn [bind]; try discriminate.
    intros [= <-]. simpl. now rewrite (IH bs').
Qed.

Lemma zipR_length {A B C} (f : A -> B -> result C) (l : list A) (l' : list B) (cs : list C) :
  length l = length l' -> zipR f l l' = Ok cs -> length cs = length l'.
Proof.
  revert l' cs; induction l as [|a l IH]; intros [|b l'] cs; simpl; try discriminate.
  - now intros _ [= <-].
  - intros [= Hl].
    destruct (f a b) as [c| |]; cbn [bind]; try discriminate.
    destruct (zipR f l l') as [cs'| |] eqn:E; cbn [bind]; try discriminate.
    intros [= <-]. simpl. now rewrite (IH l' cs').
Qed.

(** A traversal that gives back every element gives back the list. *)
Lemma mapR_same {A} (f : A -> result A) (l bs : list A) :
  (forall a b, f a = Ok b -> b = a) -> mapR f l = Ok bs -> bs = l.
Proof.
  intros Hf. revert bs; induction l as [|a l IH]; simpl; intros bs.
  - now intros [= <-].
  - destruct (f a) as [b| |] eqn:E; cbn [bind]; try discriminate.
    destruct (mapR f l) as [bs'| |]; cbn [bind]; try discriminate.
    intros [= <-]. now rewrite (Hf _ _ E), (IH bs' eq_refl).
Qed.

Lemma zipR_same {A B} (f : A -> B -> result B) (l : list A) (l' bs : list B) :
  length l' = length l ->
  Forall (fun a => forall b c, f a b = Ok c -> c = b) l ->
  zipR f l l' = Ok bs -> bs = l'.
Proof.
  intros Hl H. revert l' bs Hl.
  induction H as [|a l Ha _ IH]; intros [|b l'] bs; simpl; try discriminate.
  - now intros _ [= <-].
  - intros [= Hl].
    destruct (f a b) as [c| |] eqn:E; cbn [bind]; try discriminate.
    destruct (zipR f l l') as [cs'| |] eqn:E2; cbn [bind]; try discriminate.
    intros [= <-]. now rewrite (Ha _ _ E), (IH l' cs' Hl E2).
Qed.

Lemma walk_same (p : ParamType) :
  forall value r, walk (fun _ v => Ok v) p value = Ok r -> r = value.
Proof.
  induction p as [name type baseType indexed components arrayLength arrayChildren Hcs Hc]
                   using ParamType_induction.
  intros value r. cbn [walk].
  destruct (baseType =? "array")%string.
  - destruct value as [| | | | | |items| | |]; try discriminate.
    destruct (_ && _); [discriminate|].
    destruct arrayChildren as [child|].
    + destruct (mapR _ items) as [items'| |] eqn:E; cbn [bind]; try discriminate.
      intros [= <-]. f_equal. exact (mapR_same _ _ _ Hc E).
    + destruct items; [now intros [= <-] | discriminate].
  - destruct (baseType =? "tuple")%string; [|now intros [= <-]].
    destruct value as [| | | | | |items| | |]; try discriminate.
    destruct components as [comps|]; [|discriminate].
    destruct (length items =? length comps) eqn:El; [|discriminate]. cbn [negb].
    apply Nat.eqb_eq in El.
    destruct (zipR _ comps items) as [items'| |] eqn:E; cbn [bind]; try discriminate.
    intros [= <-]. f_equal. exact (zipR_same _ _ _ _ El Hcs E).
Qed.


Lemma mapR_fuse {A B C} (f : A -> result B) (g : B -> result C) (h : A -> result C)
      (l : list A) (bs : list B) :
  (forall a b, f a = Ok b -> g b = h a) -> mapR f l = Ok bs -> mapR g bs = mapR h l.
Proof.
  intros Hf. revert bs; induction l as [|a l IH]; simpl; intros bs.
  - now intros [= <-].
  - destruct (f a) as [b| |] eqn:E; cbn [bind]; try discriminate.
    destruct (mapR f l) as [bs'| |]; cbn [bind]; try discriminate.
    intros [= <-]. simpl. now rewrite (Hf _ _ E), (IH bs' eq_refl).
Qed.

Lemma zipR_fuse {A B} (f g h : A -> B -> result B) (l : list A) (l' bs : list B) :
  Forall (fun a => forall b c, f a b = Ok c -> g a c = h a b) l ->
  zipR f l l' = Ok bs -> zipR g l bs = zipR h l l'.
Proof.
  intros H. revert l' bs.
  induction H as [|a l Ha _ IH]; intros l' bs; simpl.
  - now intros [= <-].
  - destruct l' as [|b l']; [now intros [= <-]|].
    destruct (f a b) as [c| |] eqn:E; cbn [bind]; try discriminate.
    destruct (zipR f l l') as [cs'| |] eqn:E2; cbn [bind]; try discriminate.
    intros [= <-]. simpl. now rewrite (Ha _ _ E), (IH l' cs' E2).
Qed.

Lemma walk_fuse (f g : string -> jsval -> result jsval) (p : ParamType) :
  forall value r,
    walk f p value = Ok r ->
    walk g p r = walk (fun type v => let* y := f type v in g type y) p value.
Proof.
  induction p as [name type baseType indexed components arrayLength arrayChildren Hcs Hc]
                   using ParamType_induction.
  intros value r. cbn [walk].
  destruct (baseType =? "array")%string.
  - destruct value as [| | | | | |items| | |]; try discriminate.
    destruct (_ && _) eqn:El; [discriminate|].
    destruct arrayChildren as [child|].
    + destruct (mapR _ items) as [items'| |] eqn:E; cbn [bind]; try discriminate.
      intros [= <-]. rewrite (mapR_length _ _ _ E), El.
      now rewrite (mapR_fuse _ _ _ _ _ Hc E).
    + destruct items; [|discriminate]. intros [= <-]. simpl in *. now rewrite El.
  - destruct (baseType =? "tuple")%string.
    + destruct value as [| | | | | |items| | |]; try discriminate.
      destruct components as [comps|]; [|discriminate].
      destruct (length items =? length comps) eqn:El; [|discriminate]. cbn [negb].
      destruct (zipR _ comps items) as [items'| |] eqn:E; cbn [bind]; try discriminate.
      intros [= <-].
      apply Nat.eqb_eq in El.
      rewrite (zipR_length _ _ _ _ (eq_sym El) E), El, Nat.eqb_refl. cbn [negb].
      now rewrite (zipR_fuse _ _ _ _ _ _ Hcs E).
    + intros H. now rewrite H.
Qed.

End WalkLaws.

(** X6.  Walking with the callback that returns its value gives back the
    value walked. *)
Theorem walk_with_the_identity (p : ParamType) (value r : jsval) :
  walk (fun _ v => Ok v) p value = Ok r -> r = value.
Proof. apply walk_same. Qed.

Lemma walk_with_the_identity_witness :
  JArr [JArr [JNum 1; JStr "x"]; JArr [JNum 2; JStr "y"]]
  = JArr [JArr [JNum 1; JStr "x"]; JArr [JNum 2; JStr "y"]].
Proof.
  apply (walk_with_the_identity
           (mkParamType "" "tuple(uint8,string)[]" "array" JNull None (Some (-1)%Z)
              (Some (mkParamType "" "tuple(uint8,string)" "tuple" JNull
                       (Some [mkParamType "a" "uint8" "uint8" JNull None None None;
                              mkParamType "b" "string" "string" JNull None None None])
                       None None)))).
  reflexivity.
Defined.

(** X7.  Two walks in a row are one walk with the two callbacks in a row:
    if [walk] with [f] gives [r], then [walk] on [r] with [g] is [walk] on
    the value with [g] after [f], results and exceptions alike. *)
Theorem walk_twice (f g : string -> jsval -> result jsval) (p : ParamType)
        (value r : jsval) :
  walk f p value = Ok r ->
  walk g p r = walk (fun type v => let* y := f type v in g type y) p value.
Proof. apply walk_fuse. Qed.

Lemma walk_twice_witness :
  walk (fun type v => Ok (JArr [JStr type; v]))
       (mkParamType "" "uint8[]" "array" JNull None (Some (-1)%Z)
          (Some (mkParamType "" "uint8" "uint8" JNull None None None)))
       (JArr [JNum 1; JNum 1])
  = walk (fun type v => let* y := Ok (JNum 1) in Ok (JArr [JStr type; y]))
         (mkParamType "" "uint8[]" "array" JNull None (Some (-1)%Z)
            (Some (mkParamType "" "uint8" "uint8" JNull None None None)))
         (JArr [JNum 7; JNum 8]).
Proof.
  apply (walk_twice (fun _ _ => Ok (JNum 1))
                    (fun type v => Ok (JArr [JStr type; v]))).
  reflexivity.
Defined.

Section WalkAsync.

Variable process : string -> jsval -> result jsval.
Variable async : string -> jsval -> result leaf_result.
Hypothesis Hres : resolves process async.

Lemma await_all_fulfilled (ps : list (result jsval)) :
  Forall (fun o => exists y, o = Ok y) ps -> await_all ps = Ok tt.
Proof.
  intros H. unfold await_all.
  assert (Hf : List.find is_rejected ps = None /\ existsb is_unsettled ps = false).
  { induction H as [|o ps [y ->] _ IH]; simpl; [split; reflexivity | exact IH]. }
  destruct Hf as [-> ->]. reflexivity.
Qed.

Lemma mapR_agrees (f : jsval -> result jsval) (d : jsval -> result wtree)
      (items items' : list jsval) :
  (forall v r, f v = Ok r -> exists t, d v = Ok t /\ agrees t r) ->
  mapR f items = Ok items' ->
  exists ts, mapR d items = Ok ts /\ agrees (WArr ts) (JArr items').
Proof.
  intros Hd. revert items'; induction items as [|v items IH]; simpl; intros items'.
  - intros [= <-]. exists []. split; [reflexivity|]. split; [reflexivity | constructor].
  - destruct (f v) as [r| |] eqn:E; cbn [bind]; try discriminate.
    destruct (mapR f items) as [rs| |]; cbn [bind]; try discriminate.
    intros [= <-].
    destruct (Hd _ _ E) as (t & Ht & Hf & Hp).
    destruct (IH rs eq_refl) as (ts & Hts & Hfs & Hps).
    exists (t :: ts). rewrite Ht, Hts. cbn [bind]. split; [reflexivity|].
    split.
    + simpl in *. injection Hfs as Hfs. now rewrite Hf, Hfs.
    + simpl. apply Forall_app. split; [exact Hp | exact Hps].
Qed.

Lemma zipR_agrees (f : ParamType -> jsval -> result jsval)
      (d : ParamType -> jsval -> result wtree)
      (comps : list ParamType) (items items' : list jsval) :
  Forall (fun c => forall v r, f c v = Ok r -> exists t, d c v = Ok t /\ agrees t r) comps ->
  zipR f comps items = Ok items' ->
  exists ts, zipR d comps items = Ok ts /\ agrees (WArr ts) (JArr items').
Proof.
  intros H. revert items items'.
  induction H as [|c comps Hc _ IH]; intros items items'; simpl.
  - intros [= <-]. exists []. split; [reflexivity|]. split; [reflexivity | constructor].
  - destruct items as [|v items].
    { intros [= <-]. exists []. split; [reflexivity|]. split; [reflexivity | constructor]. }
    destruct (f c v) as [r| |] eqn:E; cbn [bind]; try discriminate.
    destruct (zipR f comps items) as [rs| |] eqn:E2; cbn [bind]; try discriminate.
    intros [= <-].
    destruct (Hc _ _ E) as (t & Ht & Hf & Hp).
    destruct (IH items rs E2) as (ts & Hts & Hfs & Hps).
    exists (t :: ts). rewrite Ht, Hts. cbn [bind]. split; [reflexivity|].
    split.
    + simpl in *. injection Hfs as Hfs. now rewrite Hf, Hfs.
    + simpl. apply Forall_app. split; [exact Hp | exact Hps].
Qed.

Lemma walkAsync_descent_agrees (p : ParamType) :
  forall value r,
    walk process p value = Ok r ->
    exists t, walkAsync_descent async p value = Ok t /\ agrees t r.
Proof.
  induction p as [name type baseType indexed components arrayLength arrayChildren Hcs Hc]
                   using ParamType_induction.
  intros value r. cbn [walk walkAsync_descent].
  destruct (baseType =? "array")%string.
  - destruct value as [| | | | | |items| | |]; try discriminate.
    destruct (_ && _) eqn:El; [discriminate|].
    destruct arrayChildren as [child|].
    + destruct (mapR _ items) as [items'| |] eqn:E; cbn [bind]; try discriminate.
      intros [= <-].
      destruct (mapR_agrees _ _ _ _ Hc E) as (ts & Hts & Ha).
      exists (WArr ts). now rewrite Hts.
    + destruct items; [|discriminate]. intros [= <-].
      exists (WArr []). split; [reflexivity|]. split; [reflexivity | constructor].
  - destruct (baseType =? "tuple")%string.
    + destruct value as [| | | | | |items| | |]; try discriminate.
      destruct components as [comps|]; [|discriminate].
      cbn [bind].
      destruct (length items =? length comps) eqn:El; [|discriminate]. cbn [negb].
      destruct (zipR _ comps items) as [items'| |] eqn:E; cbn [bind]; try discriminate.
      intros [= <-].
      destruct (zipR_agrees _ _ _ _ _ Hcs E) as (ts & Hts & Ha).
      exists (WArr ts). now rewrite Hts.
    + intros H. destruct (Hres _ _ _ H) as [[-> Hn] | ->]; cbn [bind].
      * rewrite Hn. exists (WValue r). split; [reflexivity|].
        split; [reflexivity | constructor].
      * exists (WPending value (Ok r)). split; [reflexivity|].
        split; [reflexivity|]. constructor; [now exists r | constructor].
Qed.

End WalkAsync.



(** ** What [consumeKeywords] consumes *)

Section Keywords.

Lemma has_In (set : list string) (k : string) : has set k = true <-> In k set.
Proof.
  unfold has. rewrite existsb_exists. split.
  - intros (x & Hx & E). apply String.eqb_eq in E. now subst.
  - intros H. exists k. split; [exact H | apply String.eqb_refl].
Qed.

Lemma remaining_step (ts : TokenString) (t : Token) :
  peek ts = Ok t ->
  remaining ts = t :: remaining (set_offset (ts_offset ts + 1) ts).
Proof.
  intros H. destruct (peek_ok _ _ H) as [Ho Ht]. unfold remaining. simpl.
  replace (Z.to_nat (ts_offset ts + 1)) with (S (Z.to_nat (ts_offset ts))) by lia.
  now apply drop_S.
Qed.

Lemma consumeKeywords_loop_spec (fuel : nat) (ts : TokenString)
      (allowed acc kws : list string) (ts' : TokenString) :
  NoDup acc -> Forall (fun k => has allowed k = true) acc ->
  consumeKeywords_loop fuel ts allowed acc = Ok (kws, ts') ->
  exists n,
    n <= length (remaining ts)
    /\ NoDup kws /\ Forall (fun k => has allowed k = true) kws
    /\ ts_tokens ts' = ts_tokens ts
    /\ ts_offset ts' = (ts_offset ts + Z.of_nat n)%Z
    /\ kws = (acc ++ map tk_text (take n (remaining ts)))%list
    /\ Forall (fun t => tk_type t = KEYWORD) (take n (remaining ts))
    /\ peekKeyword allowed ts' = Ok None.
Proof.
  revert ts acc; induction fuel as [|fuel IH]; intros ts acc Hnd Hal; [discriminate|].
  simpl.
  destruct (peekType KEYWORD ts) as [[kw|]| |] eqn:Hk; cbn [bind]; try discriminate.
  2:{ intros [= <- <-]. exists 0. rewrite take_0, app_nil_r, Z.add_0_r.
      unfold peekKeyword. rewrite Hk. repeat split; auto. lia. }
  destruct (has allowed kw) eqn:Ha; cbn [negb].
  2:{ intros [= <- <-]. exists 0. rewrite take_0, app_nil_r, Z.add_0_r.
      unfold peekKeyword. rewrite Hk. cbn [bind]. rewrite Ha. repeat split; auto. lia. }
  destruct (peekType_ok _ _ _ Hk) as (t & Hp & Hty & Htx).
  unfold pop. rewrite Hp. cbn [bind].
  destruct (has acc kw) eqn:Hh; [discriminate|].
  assert (Hnot : ~ In kw acc).
  { intros Hin. apply has_In in Hin. congruence. }
  unfold add. rewrite Hh.
  intros H. apply IH in H.
  - destruct H as (n & H0 & H1 & H2 & H3 & H4 & H5 & H6 & H7).
    exists (S n). rewrite (remaining_step _ _ Hp). cbn [take map].
    split; [simpl; lia|].
    split; [exact H1|]. split; [exact H2|]. split; [exact H3|].
    split; [simpl in H4; lia|].
    split; [rewrite H5, <- app_assoc, Htx; reflexivity|].
    split; [constructor; [exact Hty | exact H6] | exact H7].
  - apply NoDup_app. split; [exact Hnd|]. split.
    + intros x Hx Hx'. apply list_elem_of_In in Hx, Hx'. simpl in Hx'.
      destruct Hx' as [<- | []]. now apply Hnot.
    + apply NoDup_singleton.
  - apply Forall_app. split; [exact Hal | now constructor].
Qed.

End Keywords.

(** X9.  [consumeKeywords] consumes the longest run of keyword tokens that are
    in [allowed]: the set it returns lists their texts in order, without
    repetition, the cursor stands after them, and the token there is no
    keyword of [allowed]. *)
Theorem consumeKeywords_consumes_a_run (ts : TokenString) (allowed kws : list string)
        (ts' : TokenString) :
  consumeKeywords ts allowed = Ok (kws, ts') ->
  NoDup kws /\ Forall (fun k => has allowed k = true) kws
  /\ ts_tokens ts' = ts_tokens ts
  /\ ts_offset ts' = (ts_offset ts + Z.of_nat (length kws))%Z
  /\ kws = map tk_text (take (length kws) (remaining ts))
  /\ Forall (fun t => tk_type t = KEYWORD) (take (length kws) (remaining ts))
  /\ peekKeyword allowed ts' = Ok None.
Proof.
  intros H. unfold consumeKeywords in H.
  apply consumeKeywords_loop_spec in H; [|constructor | constructor].
  destruct H as (n & H0 & H1 & H2 & H3 & H4 & H5 & H6 & H7). simpl in H5.
  assert (Hn : length (take n (remaining ts)) = n) by (now rewrite length_take_le).
  assert (Hlen : length kws = n) by (now rewrite H5, length_map).
  rewrite Hlen. repeat split; auto.
Qed.

Lemma consumeKeywords_consumes_a_run_witness :
  ["memory"; "indexed"]
  = map tk_text
      (take 2 (remaining (mkTokenString 0 [plain KEYWORD 0 "memory";
                                            plain KEYWORD 7 "indexed";
                                            plain ID 15 "x"])))
  /\ peekKeyword KwModifiers
       (mkTokenString 2 [plain KEYWORD 0 "memory"; plain KEYWORD 7 "indexed";
                         plain ID 15 "x"])
     = Ok None.
Proof.
  assert (H : consumeKeywords
                (mkTokenString 0 [plain KEYWORD 0 "memory"; plain KEYWORD 7 "indexed";
                                  plain ID 15 "x"]) KwModifiers
              = Ok (["memory"; "indexed"],
                    mkTokenString 2 [plain KEYWORD 0 "memory"; plain KEYWORD 7 "indexed";
                                     plain ID 15 "x"])) by (vm_compute; reflexivity).
  destruct (consumeKeywords_consumes_a_run _ _ _ _ H) as (_ & _ & _ & _ & H5 & _ & H7).
  split; [exact H5 | exact H7].
Defined.

(** ** The tokens spell the text *)

Section Spelling.

Lemma string_filter_app (p : ascii -> bool) (a b : string) :
  string_filter p (a +:+ b) = string_filter p a +:+ string_filter p b.
Proof.
  induction a as [|c a IH]; simpl; [reflexivity|].
  destruct (p c); simpl; now rewrite IH.
Qed.

Lemma string_filter_none (p : ascii -> bool) (s : string) :
  string_forallb (fun c => negb (p c)) s = true -> string_filter p s = "".
Proof.
  induction s as [|c s IH]; simpl; [reflexivity|].
  destruct (p c); simpl; [discriminate | exact IH].
Qed.

Lemma string_filter_all (p : ascii -> bool) (s : string) :
  string_forallb p s = true -> string_filter p s = s.
Proof.
  induction s as [|c s IH]; simpl; [reflexivity|].
  destruct (p c); simpl; [|discriminate]. intros H. now rewrite IH.
Qed.

Lemma string_forallb_impl (p p' : ascii -> bool) (s : string) :
  (forall c, p c = true -> p' c = true) ->
  string_forallb p s = true -> string_forallb p' s = true.
Proof.
  intros Hp. induction s as [|c s IH]; simpl; [reflexivity|].
  intros H. apply andb_true_iff in H as [Hc Hs].
  now rewrite (Hp _ Hc), IH.
Qed.

Lemma without_blanks_blank (ws : string) :
  string_forallb is_space ws = true -> without_blanks ws = "".
Proof.
  intros H. apply string_filter_none.
  eapply string_forallb_impl; [|exact H]. intros c Hc. now rewrite Hc.
Qed.

Lemma simple_not_space (c : ascii) (ty : TokenType) :
  SimpleTokens c = Some ty -> is_space c = false.
Proof. ascii_cases c. Qed.

Lemma digit_not_space (c : ascii) : is_digit c = true -> is_space c = false.
Proof. ascii_cases c. Qed.

Lemma id_char_not_space (c : ascii) : is_id_char c = true -> is_space c = false.
Proof. ascii_cases c. Qed.

Lemma texts_app (a b : list Token) : texts (a ++ b)%list = texts a +:+ texts b.
Proof.
  induction a as [|t a IH]; simpl; [reflexivity|].
  now rewrite IH, app_assoc_s.
Qed.

Lemma texts_push (tokens : list Token) (t : Token) :
  texts (tokens ++ [t])%list = texts tokens +:+ tk_text t.
Proof. rewrite texts_app. simpl. now rewrite app_empty_r. Qed.

Lemma texts_update (i : nat) (f : Token -> Token) (tokens tokens' : list Token) :
  update i f tokens = Ok tokens' ->
  (forall t, tk_text (f t) = tk_text t) -> texts tokens' = texts tokens.
Proof.
  intros U Hf. revert U. unfold update. destruct (tokens !! i) as [t|] eqn:E; [|discriminate].
  intros [= <-]. revert i E. induction tokens as [|x l IH]; intros [|i] E; simpl in *;
    try discriminate.
  - injection E as ->. now rewrite Hf.
  - now rewrite (IH i E).
Qed.

Lemma last_split (tokens : list Token) (t : Token) :
  tokens !! (length tokens - 1) = Some t -> tokens = (removelast tokens ++ [t])%list.
Proof.
  intros H. destruct tokens as [|x l] using rev_ind; [discriminate|].
  rewrite removelast_last. rewrite length_app in H. simpl in H.
  replace (length l + 1 - 1) with (length l) in H by lia.
  rewrite lookup_app_r in H by lia. rewrite Nat.sub_diag in H.
  simpl in H. now injection H as ->.
Qed.

Lemma update_last (f : Token -> Token) (tokens tokens' : list Token) (t : Token) :
  tokens !! (length tokens - 1) = Some t ->
  update (length tokens - 1) f tokens = Ok tokens' ->
  tokens' = (removelast tokens ++ [f t])%list.
Proof.
  intros Ht. unfold update. rewrite Ht. intros [= <-].
  rewrite (last_split _ _ Ht) at 2.
  pose proof (last_split _ _ Ht) as E.
  assert (Hl : length tokens - 1 = length (removelast tokens)).
  { rewrite E at 1. rewrite length_app. simpl. lia. }
  rewrite Hl. rewrite insert_app_r_alt by lia. rewrite Nat.sub_diag. reflexivity.
Qed.


Ltac same_text := intros ?; reflexivity.

(** Reading a token adds its characters, none of them blank, to the texts
    of the tokens. *)
Lemma lex_token_spells (cur : string) (offset : nat) (st st' : LexState) :
  lex_token cur offset st = Ok st' ->
  exists tok rest,
    cur = tok +:+ rest
    /\ lx_offset st' = offset + String.length tok
    /\ texts (lx_tokens st') = texts (lx_tokens st) +:+ tok
    /\ without_blanks tok = tok.
Proof.
  destruct cur as [|c after]; [discriminate|].
  unfold lex_token.
  destruct (SimpleTokens c) as [ty|] eqn:Hc.
  - assert (Hone : without_blanks (String c "") = String c "").
    { unfold without_blanks. simpl. now rewrite (simple_not_space _ _ Hc). }
    intros H. exists (String c ""), after. split; [reflexivity|].
    revert H.
    destruct (SimpleTokens_cases c ty Hc) as [-> | [-> | [-> | [-> | [-> | ->]]]]].
    + intros [= <-]. simpl lx_offset. simpl lx_tokens. rewrite texts_push. auto.
    + destruct (lx_brackets st) as [|m bs]; [discriminate|].
      destruct (lx_commas st) as [|lb cs]; [discriminate|].
      destruct (update m _ _) as [tokens1| |] eqn:U1; cbn [bind]; try discriminate.
      destruct (update lb _ tokens1) as [tokens2| |] eqn:U2; cbn [bind]; try discriminate.
      intros [= <-]. simpl lx_offset. simpl lx_tokens.
      rewrite (texts_update _ _ _ _ U2 ltac:(same_text)).
      rewrite (texts_update _ _ _ _ U1 ltac:(same_text)).
      rewrite texts_push. auto.
    + destruct (lx_commas st) as [|lb cs]; [discriminate|].
      destruct (update lb _ _) as [tokens1| |] eqn:U1; cbn [bind]; try discriminate.
      intros [= <-]. simpl lx_offset. simpl lx_tokens.
      rewrite (texts_update _ _ _ _ U1 ltac:(same_text)).
      rewrite texts_push. auto.
    + intros [= <-]. simpl lx_offset. simpl lx_tokens. rewrite texts_push. auto.
    + match goal with
      | |- bind ?m _ = _ -> _ => destruct m as [[tokens1 suffix1]| |] eqn:E1
      end; cbn [bind]; try discriminate.
      assert (H1 : texts tokens1 +:+ suffix1 = texts (lx_tokens st) +:+ String c "").
      { destruct (lx_tokens st !! _) as [t|] eqn:Ht; [|now injection E1 as <- <-].
        destruct (TokenType_eqb (tk_type t) NUMBER); [|now injection E1 as <- <-].
        destruct (getNumber (tk_text t)) as [n| |]; cbn [bind] in E1; try discriminate.
        destruct (update _ _ _) as [tokens'| |] eqn:U; cbn [bind] in E1; try discriminate.
        injection E1 as <- <-.
        rewrite (texts_update _ _ _ _ U ltac:(same_text)).
        rewrite (last_split _ _ Ht) at 2. rewrite texts_push.
        now rewrite app_assoc_s. }
      destruct (tokens1 !! _) as [t|] eqn:Ht; [|discriminate].
      destruct (TokenType_eqb (tk_type t) BRACKET) eqn:Hb; [|discriminate].
      destruct (update _ _ tokens1) as [tokens2| |] eqn:U; cbn [bind]; try discriminate.
      intros [= <-]. simpl lx_offset. simpl lx_tokens.
      split; [reflexivity|]. split; [|exact Hone].
      rewrite (update_last _ _ _ _ Ht U), texts_push. simpl tk_text.
      rewrite <- H1. rewrite (last_split _ _ Ht) at 2. rewrite texts_push.
      now rewrite app_assoc_s.
    + intros [= <-]. simpl lx_offset. simpl lx_tokens. rewrite texts_push. auto.
  - destruct (regexIdentifier (String c after)) as [text|] eqn:Hid.
    + intros [= <-]. simpl lx_offset. simpl lx_tokens.
      simpl in Hid. destruct (is_id_start c) eqn:Hs; [|discriminate].
      injection Hid as <-.
      exists (String c (fst (span is_id_char after))), (snd (span is_id_char after)).
      split; [simpl; now rewrite span_eq|].
      split; [reflexivity|]. split; [now rewrite texts_push|].
      apply string_filter_all. simpl.
      rewrite (id_char_not_space c) by (unfold is_id_char; now rewrite Hs). simpl.
      eapply string_forallb_impl; [|apply (span_fst_all is_id_char)].
      intros x Hx. now rewrite (id_char_not_space x Hx).
    + destruct (regexNumber (String c after)) as [text|] eqn:Hn; [|discriminate].
      intros [= <-]. simpl lx_offset. simpl lx_tokens.
      rewrite regexNumber_fst in Hn.
      exists text, (snd (span is_digit (String c after))).
      assert (Ht : text = fst (span is_digit (String c after))).
      { destruct (fst (span is_digit (String c after))); [discriminate | now injection Hn]. }
      split; [rewrite Ht; now rewrite span_eq|].
      split; [reflexivity|]. split; [now rewrite texts_push|].
      apply string_filter_all. rewrite Ht.
      eapply string_forallb_impl; [|apply (span_fst_all is_digit)].
      intros x Hx. now rewrite (digit_not_space x Hx).
Qed.

Lemma lex_loop_spells (text : string) (fuel : nat) (st : LexState) (tokens : list Token) :
  lx_offset st <= String.length text ->
  lex_loop fuel text st = Ok tokens ->
  texts tokens
  = texts (lx_tokens st) +:+ without_blanks (substring_from (lx_offset st) text).
Proof.
  revert st; induction fuel as [|fuel IH]; intros st Ho; simpl.
  - destruct (Nat.ltb_spec (lx_offset st) (String.length text)); [discriminate|].
    intros [= <-]. replace (lx_offset st) with (String.length text) by lia.
    rewrite substring_from_whole. simpl. now rewrite app_empty_r.
  - destruct (Nat.ltb_spec (lx_offset st) (String.length text)).
    2:{ intros [= <-]. replace (lx_offset st) with (String.length text) by lia.
        rewrite substring_from_whole. simpl. now rewrite app_empty_r. }
    destruct (lex_step text st) as [st'| |] eqn:Hs; simpl; try discriminate.
    pose proof (lex_step_offset _ _ _ Ho Hs) as Hoff.
    intros Hl. rewrite (IH st' ltac:(lia) Hl).
    unfold lex_step, regexWhitespace in Hs.
    set (cur := substring_from (lx_offset st) text) in *.
    pose proof (span_eq is_space cur) as Hcur.
    rewrite (substring_from_split _ _ _ _ (eq_sym Hcur)) in Hs.
    destruct (lex_token_spells _ _ _ _ Hs) as (tok & rest & E & Eo & Et & Eb).
    assert (A : without_blanks cur = tok +:+ without_blanks rest).
    { rewrite <- Hcur, E. unfold without_blanks. rewrite !string_filter_app.
      fold (without_blanks (fst (span is_space cur))). fold (without_blanks tok).
      now rewrite (without_blanks_blank _ (span_fst_all is_space cur)), Eb. }
    assert (B : substring_from (lx_offset st') text = rest).
    { rewrite Eo. apply substring_from_split.
      rewrite (substring_from_split _ _ _ _ (eq_sym Hcur)). exact E. }
    rewrite Et, B, A. now rewrite app_assoc_s.
Qed.

End Spelling.

(** X10.  The tokens spell the text: the texts of the tokens of [lex], one
    after the other, are the text without its whitespace.  (The text of an
    array suffix is the bracket, the digits and the closing bracket, which
    may stand apart in the text.) *)
Theorem lex_spells_the_text (text : string) (ts : TokenString) :
  lex text = Ok ts -> texts (ts_tokens ts) = without_blanks text.
Proof.
  unfold lex.
  destruct (lex_loop _ text _) as [tokens| |] eqn:H; simpl; try discriminate.
  intros [= <-]. simpl.
  apply (lex_loop_spells text _ (mkLex [] [] [] 0)) in H; [exact H | simpl; lia].
Qed.

Lemma lex_spells_the_text_witness :
  texts [plain KEYWORD 0 "function"; plain ID 9 "f";
         mkToken OPEN_PAREN 10 "(" 0 5 (-1) 5 (-1);
         mkToken TYPE 11 "uint8" 1 (-1) (-1) (-1) (-1);
         mkToken BRACKET 16 "[3]" 1 (-1) (-1) (-1) 3;
         mkToken CLOSE_PAREN 21 ")" 0 2 2 (-1) (-1)]
  = without_blanks "function f(uint8[ 3 ])".
Proof.
  apply (lex_spells_the_text "function f(uint8[ 3 ])"
           (mkTokenString 0 _)).
  vm_compute. reflexivity.
Defined.

(** ** The variant of a fragment *)

Section Variants.

Ltac binds :=
  repeat match goal with
         | |- Ok _ = Ok _ -> _ => intros [= <-]; reflexivity
         | |- Throw _ = Ok _ -> _ => discriminate
         | |- Diverge = Ok _ -> _ => discriminate
         | |- bind ?m _ = Ok _ -> _ => destruct m as [?| |]; cbn [bind]
         | |- (let '(_, _) := ?p in _) = Ok _ -> _ => destruct p
         | |- (if ?b then _ else _) = Ok _ -> _ => destruct b
         | |- match ?x with _ => _ end = Ok _ -> _ => destruct x
         end.

Lemma ErrorFragment_from_variant (obj : FragmentSource) (f : Fragment) :
  ErrorFragment_from obj = Ok f -> fragment_type f = "error".
Proof. unfold ErrorFragment_from, with_tokens. destruct obj as [ts|v]; [|destruct v]; binds. Qed.

Lemma EventFragment_from_variant (obj : FragmentSource) (f : Fragment) :
  EventFragment_from obj = Ok f -> fragment_type f = "event".
Proof. unfold EventFragment_from, with_tokens. destruct obj as [ts|v]; [|destruct v]; binds. Qed.

Lemma ConstructorFragment_from_variant (obj : FragmentSource) (f : Fragment) :
  ConstructorFragment_from obj = Ok f -> fragment_type f = "constructor".
Proof.
  unfold ConstructorFragment_from, with_tokens. destruct obj as [ts|v]; [|destruct v]; binds.
Qed.

Lemma FallbackFragment_from_variant (obj : FragmentSource) (f : Fragment) :
  FallbackFragment_from obj = Ok f -> fragment_type f = "fallback".
Proof.
  unfold FallbackFragment_from, with_tokens. destruct obj as [ts|v]; [|destruct v]; binds.
Qed.

Lemma FunctionFragment_from_variant (obj : FragmentSource) (f : Fragment) :
  FunctionFragment_from obj = Ok f -> fragment_type f = "function".
Proof.
  unfold FunctionFragment_from, with_tokens. destruct obj as [ts|v]; [|destruct v]; binds.
Qed.

Lemma StructFragment_from_variant (obj : FragmentSource) (f : Fragment) :
  StructFragment_from obj = Ok f -> fragment_type f = "struct".
Proof.
  unfold StructFragment_from, with_tokens. destruct obj as [ts|v]; [|destruct v]; binds.
Qed.


Lemma dispatch_variant (kind : string) (from : FragmentSource -> result Fragment)
      (obj : FragmentSource) (f : Fragment) :
  dispatch kind = Some from -> from obj = Ok f ->
  fragment_type f = if (kind =? "receive")%string then "fallback" else kind.
Proof.
  unfold dispatch.
  destruct (String.eqb_spec kind "constructor") as [->|_].
  { intros [= <-]. apply ConstructorFragment_from_variant. }
  destruct (String.eqb_spec kind "error") as [->|_].
  { intros [= <-]. apply ErrorFragment_from_variant. }
  destruct (String.eqb_spec kind "event") as [->|_].
  { intros [= <-]. apply EventFragment_from_variant. }
  destruct (String.eqb_spec kind "fallback") as [->|_].
  { intros [= <-]. apply FallbackFragment_from_variant. }
  destruct (String.eqb_spec kind "receive") as [->|_].
  { intros [= <-]. apply FallbackFragment_from_variant. }
  destruct (String.eqb_spec kind "function") as [->|_].
  { intros [= <-]. apply FunctionFragment_from_variant. }
  destruct (String.eqb_spec kind "struct") as [->|_]; [|discriminate].
  intros [= <-]. apply StructFragment_from_variant.
Qed.

Lemma Fragment_from_fuel_variant (fuel : nat) (obj : FragmentSource) (f : Fragment) :
  (forall s, obj <> FValue (JStr s)) ->
  Fragment_from_fuel (S fuel) obj = Ok f ->
  exists kind, announced obj = Ok (Some kind)
               /\ fragment_type f = if (kind =? "receive")%string then "fallback" else kind.
Proof.
  intros Hs. destruct obj as [ts|v]; cbn [Fragment_from_fuel announced].
  - destruct (peekKeyword KwTypes ts) as [[kind|]| |]; cbn [bind]; try discriminate.
    destruct (dispatch kind) as [from|] eqn:Hd; [|discriminate].
    intros H. exists kind. split; [reflexivity | exact (dispatch_variant _ _ _ _ Hd H)].
  - destruct v; try discriminate; try (now destruct (Hs s)).
    all: destruct (get _ "type") as [[| | | | |kind| | | |]| |]; cbn [bind]; try discriminate.
    all: destruct (dispatch kind) as [from|] eqn:Hd; [|discriminate].
    all: intros H; exists kind; split; [reflexivity | exact (dispatch_variant _ _ _ _ Hd H)].
Qed.

End Variants.

(** X11.  The variant of the fragment [Fragment.from] returns is the kind the
    source announces, by the keyword its text or its tokens start with or by
    the property [type] of the object; the kind [receive] gives a fallback
    fragment.  A source that announces no kind gives no fragment. *)
Theorem fragment_is_of_the_announced_kind (obj : FragmentSource) (f : Fragment) :
  Fragment_from obj = Ok f ->
  exists kind, announced obj = Ok (Some kind)
               /\ fragment_type f = if (kind =? "receive")%string then "fallback" else kind.
Proof.
  destruct obj as [ts|v].
  - apply Fragment_from_fuel_variant. discriminate.
  - destruct v as [| | | | |s| | | |];
      try (apply Fragment_from_fuel_variant; discriminate).
    rewrite Fragment_from_text_is_the_lexer_path. cbn [announced].
    destruct (lex s) as [tokens| |]; cbn [bind]; try discriminate.
    replace (String.length s + 1) with (S (String.length s)) by lia.
    apply (Fragment_from_fuel_variant _ (FTokens tokens)). discriminate.
Qed.

Lemma fragment_is_of_the_announced_kind_witness :
  exists kind,
    announced (FValue (JStr "receive() payable")) = Ok (Some kind)
    /\ fragment_type (FallbackFragment [] true)
       = if (kind =? "receive")%string then "fallback" else kind.
Proof.
  apply (fragment_is_of_the_announced_kind (FValue (JStr "receive() payable"))).
  vm_compute. reflexivity.
Defined.

(** X12.  The loops of the tokenizer and of the parsers end on every input:
    [lex], [ParamType.from] and [Fragment.from] return or throw, whatever
    the text or the object (the links [popParams] follows always point
    forward, and a text holds fewer nested JSON texts than characters). *)
Theorem the_parsers_end (text : string) (v : jsval) (allowIndexed : bool) :
  lex text <> Diverge
  /\ ParamType_from (PValue v) allowIndexed <> Diverge
  /\ Fragment_from (FValue v) <> Diverge.
Proof.
  split; [apply lex_total|].
  split; [apply ParamType_from_total | apply Fragment_from_total].
Qed.

(** ** Selectors *)

Lemma joinParams_sighash_without_names (params params' : list ParamType) :
  map without_names params = map without_names params' ->
  joinParams sighash params = joinParams sighash params'.
Proof.
  intros H. unfold joinParams.
  assert (E : forall l, mapR (ParamType_format sighash) l
                        = mapR (ParamType_format sighash) (map without_names l)).
  { intros l. rewrite mapR_map. apply mapR_ext_Forall, Forall_forall.
    intros p _. symmetry. apply format_sighash_without_names. }
  now rewrite (E params), (E params'), H.
Qed.

(** X13.  The selector of a function is that of its name and of the types of
    its inputs: the names of the parameters, their [indexed] marks, the
    outputs, the mutability and the gas do not enter it. *)
Theorem selector_of_name_and_input_types (id : string -> string) (name : string)
        (m m' : jsval) (inputs inputs' outputs outputs' : list ParamType) (gas gas' : jsval) :
  map without_names inputs = map without_names inputs' ->
  selector id (FunctionFragment name m inputs outputs gas)
  = selector id (FunctionFragment name m' inputs' outputs' gas').
Proof.
  intros H. unfold selector, Fragment_format. cbn [FormatType_eqb negb].
  now rewrite (joinParams_sighash_without_names _ _ H).
Qed.

Lemma selector_of_name_and_input_types_witness :
  selector (fun s => "0x" +:+ s)
           (FunctionFragment "transfer" (JStr "nonpayable")
              [mkParamType "to" "address" "address" JNull None None None;
               mkParamType "amount" "uint256" "uint256" JNull None None None]
              [mkParamType "" "bool" "bool" JNull None None None] JNull)
  = selector (fun s => "0x" +:+ s)
             (FunctionFragment "transfer" (JStr "view")
                [mkParamType "" "address" "address" JNull None None None;
                 mkParamType "" "uint256" "uint256" JNull None None None]
                [] (JBigInt 5)).
Proof. apply selector_of_name_and_input_types. reflexivity. Defined.

(** ** Fallback fragments *)

(** X14.  A fallback fragment that [FallbackFragment.from] returns has no
    input and is payable (this is [receive]), or has the one input of type
    [bytes]. *)
Theorem fallback_has_bytes_or_nothing (obj : FragmentSource) (f : Fragment) :
  FallbackFragment_from obj = Ok f ->
  exists inputs payable, f = FallbackFragment inputs payable /\ fallback_inputs inputs payable.
Proof.
  assert (Htext : forall ts,
             (let errorObj := remaining ts in
              let* topIsValid := peekKeyword (setify ["fallback"; "receive"]) ts in
              if negb (truthy_str topIsValid)
              then Throw (InvalidArgument "type must be fallback or receive" "obj"
                                          (ATokens errorObj))
              else
                let* '(type, obj1) := popKeyword (setify ["fallback"; "receive"]) ts in
                if (type =? "receive")%string then
                  let* '(inputs, obj2) := consumeParams obj1 false in
                  let* _ := assertArgument (length inputs =? 0) "receive cannot have arguments"
                              "obj.inputs" (AParams inputs) in
                  let* '(_, obj3) := consumeKeywords obj2 (setify ["payable"]) in
                  let* _ := consumeEoi obj3 in
                  Ok (FallbackFragment [] true)
                else
                  let* '(inputs0, obj2) := consumeParams obj1 false in
                  let* inputs :=
                    if negb (length inputs0 =? 0) then
                      let* shown := minimal_list inputs0 in
                      let* _ := assertArgument (is_single_bytes inputs0)
                                  "invalid fallback inputs" "obj.inputs" (AStr shown) in
                      Ok inputs0
                    else let* b := bytes_param in Ok [b] in
                  let* '(mutability, obj3) := consumeMutability obj2 in
                  let* _ := assertArgument ((mutability =? "nonpayable")%string
                                            || (mutability =? "payable")%string)
                              "fallback cannot be constants" "obj.stateMutability"
                              (AStr mutability) in
                  let* '(kws, obj4) := consumeKeywords obj3 (setify ["returns"]) in
                  let* obj5 :=
                    if has kws "returns" then
                      let* '(outputs, obj5) := consumeParams obj4 false in
                      let* shown := minimal_list outputs in
                      let* _ := assertArgument (is_single_bytes outputs)
                                  "invalid fallback outputs" "obj.outputs" (AStr shown) in
                      Ok obj5
                    else Ok obj4 in
                  let* _ := consumeEoi obj5 in
                  Ok (FallbackFragment inputs (mutability =? "payable")%string)) = Ok f ->
             exists inputs payable,
               f = FallbackFragment inputs payable /\ fallback_inputs inputs payable).
  { intros ts. cbv zeta.
    destruct (peekKeyword _ ts) as [top| |]; cbn [bind]; try discriminate.
    destruct (negb (truthy_str top)); [discriminate|].
    destruct (popKeyword _ ts) as [[type obj1]| |]; cbn [bind]; try discriminate.
    destruct (type =? "receive")%string.
    - destruct (consumeParams obj1 false) as [[inputs obj2]| |]; cbn [bind]; try discriminate.
      destruct (assertArgument _ _ _ _) as [[]| |]; cbn [bind]; try discriminate.
      destruct (consumeKeywords obj2 _) as [[kws obj3]| |]; cbn [bind]; try discriminate.
      destruct (consumeEoi obj3) as [[]| |]; cbn [bind]; try discriminate.
      intros [= <-]. exists [], true. split; [reflexivity | left; auto].
    - destruct (consumeParams obj1 false) as [[inputs0 obj2]| |]; cbn [bind]; try discriminate.
      match goal with
      | |- bind ?m _ = _ -> _ => destruct m as [inputs| |] eqn:Hi
      end; cbn [bind]; try discriminate.
      assert (Hin : exists p, inputs = [p] /\ pt_type p = "bytes").
      { destruct (negb (length inputs0 =? 0)).
        - destruct (minimal_list inputs0) as [shown| |]; cbn [bind] in Hi; try discriminate.
          unfold assertArgument in Hi.
          destruct (is_single_bytes inputs0) eqn:Hb; cbn [bind] in Hi; try discriminate.
          injection Hi as <-.
          destruct inputs0 as [|p [|p' l]]; try discriminate.
          exists p. split; [reflexivity|]. simpl in Hb. now apply String.eqb_eq.
        - rewrite bytes_param_value in Hi. cbn [bind] in Hi. injection Hi as <-.
          eexists. split; reflexivity. }
      destruct (consumeMutability obj2) as [[mutability obj3]| |]; cbn [bind]; try discriminate.
      destruct (assertArgument _ _ _ _) as [[]| |]; cbn [bind]; try discriminate.
      destruct (consumeKeywords obj3 _) as [[kws obj4]| |]; cbn [bind]; try discriminate.
      match goal with
      | |- bind ?m _ = _ -> _ => destruct m as [obj5| |]
      end; cbn [bind]; try discriminate.
      destruct (consumeEoi obj5) as [[]| |]; cbn [bind]; try discriminate.
      intros [= <-]. eexists _, _. split; [reflexivity | right; exact Hin]. }
  assert (Hobj : forall v,
             (let* type := get v "type" in
              if js_eq_str type "receive" then Ok (FallbackFragment [] true)
              else if js_eq_str type "fallback" then
                     let* b := bytes_param in
                     let* m := get v "stateMutability" in
                     Ok (FallbackFragment [b] (js_eq_str m "payable"))
                   else Throw (InvalidArgument "invalid fallback description" "obj" (AJs v)))
             = Ok f ->
             exists inputs payable,
               f = FallbackFragment inputs payable /\ fallback_inputs inputs payable).
  { intros v. destruct (get v "type") as [type| |]; cbn [bind]; try discriminate.
    destruct (js_eq_str type "receive").
    - intros [= <-]. exists [], true. split; [reflexivity | left; auto].
    - destruct (js_eq_str type "fallback"); [|discriminate].
      rewrite bytes_param_value. cbn [bind].
      destruct (get v "stateMutability") as [m| |]; cbn [bind]; try discriminate.
      intros [= <-]. eexists _, _. split; [reflexivity|]. right. eexists. split; reflexivity. }
  unfold FallbackFragment_from, with_tokens.
  destruct obj as [ts|v]; [apply Htext|].
  destruct v; try apply Hobj.
  destruct (lex s) as [ts| |]; cbn [bind]; try discriminate. apply Htext.
Qed.

Lemma fallback_has_bytes_or_nothing_witness :
  exists inputs payable,
    FallbackFragment [mkParamType "data" "bytes" "bytes" JNull None None None] false
    = FallbackFragment inputs payable
    /\ fallback_inputs inputs payable.
Proof.
  apply (fallback_has_bytes_or_nothing (FValue (JStr "fallback(bytes data) external"))).
  vm_compute. reflexivity.
Defined.

(** ** The inputs of an interchange object *)

Section Positions.

Lemma ParamType_from_not_indexed (c : jsval) (p : ParamType) :
  ParamType_from (PValue c) false = Ok p -> unindexed p.
Proof.
  intros H. apply top_only_unindexed.
  unfold ParamType_from in H. now apply (ParamType_from_fuel_indexed _ (PValue c)) in H.
Qed.

Lemma params_of_first (v : jsval) (params : list ParamType) :
  params_of v from_with_index = Ok params ->
  match params with
  | p :: _ => unindexed p
  | [] => True
  end.
Proof.
  unfold params_of. destruct (truthy v); [|now intros [= <-]].
  destruct (as_array v) as [items| |]; cbn [bind]; try discriminate.
  destruct items as [|c items]; simpl; [now intros [= <-]|].
  unfold from_with_index at 1. simpl.
  destruct (ParamType_from (PValue c) false) as [p| |] eqn:Hp; cbn [bind]; try discriminate.
  destruct (mapiR _ 1 items) as [ps| |]; cbn [bind]; try discriminate.
  intros [= <-]. exact (ParamType_from_not_indexed _ _ Hp).
Qed.

End Positions.

(** X15.  Read from an object whose inputs are plain data (objects or
    texts, no [ParamType] instance, which [ParamType.from] would return
    as it is), the inputs of an error, a constructor, a function and a
    struct go through [map(ParamType.from)], which hands the position of
    the input to [ParamType.from] as [allowIndexed]: the input at
    position 0 is never indexed, while the inputs after it may be. *)
Theorem first_input_of_an_object_is_not_indexed
        (from : FragmentSource -> result Fragment) (obj : jsval) (f : Fragment) :
  In from [ErrorFragment_from; ConstructorFragment_from; FunctionFragment_from;
           StructFragment_from] ->
  (forall s, obj <> JStr s) ->
  from (FValue obj) = Ok f ->
  match fragment_inputs f with
  | p :: _ => unindexed p
  | [] => True
  end.
Proof.
  intros Hin Hs.
  assert (Hv : forall (A : Type) (ft : TokenString -> result A) (fo : jsval -> result A),
             with_tokens ft fo (FValue obj) = fo obj).
  { intros A ft fo. unfold with_tokens. destruct obj; try reflexivity. now destruct (Hs s). }
  simpl in Hin. destruct Hin as [<- | [<- | [<- | [<- | []]]]].
  - unfold ErrorFragment_from. rewrite Hv.
    destruct (get obj "name") as [name| |]; cbn [bind]; try discriminate.
    destruct (get obj "inputs") as [i| |]; cbn [bind]; try discriminate.
    destruct (params_of i from_with_index) as [inputs| |] eqn:Hp; cbn [bind]; try discriminate.
    destruct (NamedFragment_name name) as [n| |]; cbn [bind]; try discriminate.
    intros [= <-]. exact (params_of_first _ _ Hp).
  - unfold ConstructorFragment_from. rewrite Hv.
    destruct (get obj "inputs") as [i| |]; cbn [bind]; try discriminate.
    destruct (params_of i from_with_index) as [inputs| |] eqn:Hp; cbn [bind]; try discriminate.
    destruct (get obj "payable") as [pa| |]; cbn [bind]; try discriminate.
    destruct (get obj "gas") as [g| |]; cbn [bind]; try discriminate.
    intros [= <-]. exact (params_of_first _ _ Hp).
  - unfold FunctionFragment_from. rewrite Hv.
    destruct (get obj "name") as [name| |]; cbn [bind]; try discriminate.
    destruct (get obj "stateMutability") as [m| |]; cbn [bind]; try discriminate.
    destruct (get obj "inputs") as [i| |]; cbn [bind]; try discriminate.
    destruct (params_of i from_with_index) as [inputs| |] eqn:Hp; cbn [bind]; try discriminate.
    destruct (get obj "outputs") as [o| |]; cbn [bind]; try discriminate.
    destruct (params_of o from_with_index) as [outputs| |]; cbn [bind]; try discriminate.
    destruct (get obj "gas") as [g| |]; cbn [bind]; try discriminate.
    destruct (NamedFragment_name name) as [n| |]; cbn [bind]; try discriminate.
    intros [= <-]. exact (params_of_first _ _ Hp).
  - unfold StructFragment_from. rewrite Hv.
    destruct (get obj "name") as [name| |]; cbn [bind]; try discriminate.
    destruct (get obj "inputs") as [i| |]; cbn [bind]; try discriminate.
    destruct (params_of i from_with_index) as [inputs| |] eqn:Hp; cbn [bind]; try discriminate.
    destruct (NamedFragment_name name) as [n| |]; cbn [bind]; try discriminate.
    intros [= <-]. exact (params_of_first _ _ Hp).
Qed.

Lemma first_input_of_an_object_is_not_indexed_witness :
  ErrorFragment_from
    (FValue (JObj [("name", JStr "Foo");
                   ("inputs", JArr [JObj [("type", JStr "uint8")];
                                    JObj [("type", JStr "uint8"); ("indexed", JBool true)]])]))
  = Ok (ErrorFragment "Foo"
          [mkParamType "" "uint8" "uint8" JUndefined None None None;
           mkParamType "" "uint8" "uint8" (JBool true) None None None])
  /\ unindexed (mkParamType "" "uint8" "uint8" JUndefined None None None).
Proof.
  assert (E : ErrorFragment_from
                (FValue (JObj [("name", JStr "Foo");
                               ("inputs", JArr [JObj [("type", JStr "uint8")];
                                                JObj [("type", JStr "uint8");
                                                      ("indexed", JBool true)]])]))
              = Ok (ErrorFragment "Foo"
                      [mkParamType "" "uint8" "uint8" JUndefined None None None;
                       mkParamType "" "uint8" "uint8" (JBool true) None None None]))
    by (vm_compute; reflexivity).
  split; [exact E|].
  refine (first_input_of_an_object_is_not_indexed ErrorFragment_from _ _ _ _ E).
  - simpl. auto.
  - discriminate.
Defined.

(** ** ENS names *)

Section Labels.

Lemma byte_eqb_true (a b : Byte.byte) : Byte.eqb a b = true <-> a = b.
Proof. split; [apply Byte.byte_dec_bl | apply Byte.byte_dec_lb]. Qed.

Lemma byte_eqb_false (a b : Byte.byte) : Byte.eqb a b = false <-> a <> b.
Proof.
  split.
  - intros H E. apply Byte.byte_dec_lb in E. congruence.
  - intros H. destruct (Byte.eqb a b) eqn:E; [|reflexivity].
    apply Byte.byte_dec_bl in E. contradiction.
Qed.

Lemma slice_middle {A} (before cur rest : list A) :
  slice (Z.of_nat (length before)) (Z.of_nat (length (before ++ cur)))
        (before ++ cur ++ rest) = cur.
Proof.
  unfold slice. rewrite !length_app.
  destruct (Z.ltb_spec (Z.of_nat (length before)) 0); [lia|].
  destruct (Z.ltb_spec (Z.of_nat (length before + length cur)) 0); [lia|].
  rewrite !Z.min_l by lia.
  rewrite Nat2Z.id.
  replace (Z.to_nat (Z.of_nat (length before + length cur) - Z.of_nat (length before)))
    with (length cur) by lia.
  rewrite drop_app_length. now rewrite take_app_length.
Qed.

Lemma mapR_checkComponent (comps pushed : list (list Byte.byte)) :
  mapR checkComponent comps = Ok pushed <-> pushed = comps /\ Forall (fun c => c <> []) comps.
Proof.
  revert pushed; induction comps as [|c comps IH]; intros pushed; simpl.
  - split; [intros [= <-]; auto | intros [-> _]; reflexivity].
  - unfold checkComponent at 1, assertArgument.
    destruct c as [|b c]; simpl.
    + split; [discriminate | intros [_ H]; inversion H; congruence].
    + destruct (mapR checkComponent comps) as [ps| |] eqn:E; simpl.
      * destruct (IH ps) as [IH1 _]. destruct (IH1 eq_refl) as [-> Hf].
        split.
        -- intros [= <-]. split; [reflexivity | constructor; [discriminate | exact Hf]].
        -- intros [-> _]. reflexivity.
      * split; [discriminate|]. intros [-> H]. inversion H as [|? ? _ Hf]; subst.
        destruct (IH comps) as [_ IH2]. discriminate (IH2 (conj eq_refl Hf)).
      * split; [discriminate|]. intros [-> H]. inversion H as [|? ? _ Hf]; subst.
        destruct (IH comps) as [_ IH2]. discriminate (IH2 (conj eq_refl Hf)).
Qed.

(** The loop pushes the runs before each dot, checked, and stops with
    [last] at the start of the run after the last dot. *)
Lemma last_cons_default {A} (l : list A) (a d d' : A) :
  List.last (a :: l) d = List.last (a :: l) d'.
Proof.
  revert a; induction l as [|b l IH]; intros a; [reflexivity|].
  change (List.last (b :: l) d = List.last (b :: l) d'). apply IH.
Qed.

Lemma ensNameSplit_loop_spec (bytes rest before cur : list Byte.byte) (i last : nat)
      (acc : list (list Byte.byte)) :
  bytes = (before ++ cur ++ rest)%list ->
  i = length (before ++ cur) -> last = length before ->
  ensNameSplit_loop bytes rest i last acc
  = let '(c, cs) := split_dots rest in
    let* pushed := mapR checkComponent (removelast ((cur ++ c) :: cs)%list) in
    Ok (length bytes - length (List.last cs (cur ++ c)%list), (acc ++ pushed)%list).
Proof.
  revert before cur i last acc; induction rest as [|d rest IH];
    intros before cur i last acc E Hi Hl.
  - simpl. subst bytes i last. rewrite !app_nil_r, !length_app.
    f_equal. f_equal. lia.
  - cbn [ensNameSplit_loop split_dots].
    destruct (split_dots rest) as [c cs] eqn:Hs.
    destruct (Byte.eqb d Byte.x2e) eqn:Hd.
    + rewrite E at 1. rewrite Hi, Hl, slice_middle.
      change (removelast ((cur ++ []) :: c :: cs)%list)
        with ((cur ++ [])%list :: removelast (c :: cs)).
      rewrite app_nil_r. cbn [mapR].
      destruct (checkComponent cur) as [comp| |] eqn:Hc; cbn [bind]; try reflexivity.
      assert (comp = cur) as ->.
      { unfold checkComponent, assertArgument in Hc.
        destruct (negb _); cbn [bind] in Hc; congruence. }
      rewrite (IH (before ++ cur ++ [d])%list [] _ _ (acc ++ [cur])%list).
      * simpl.
        destruct (mapR checkComponent _) as [pushed| |]; cbn [bind]; try reflexivity.
        rewrite <- app_assoc. simpl.
        destruct cs as [|c' cs]; [reflexivity|].
        now rewrite (last_cons_default cs c' cur c).
      * rewrite E, <- !app_assoc. reflexivity.
      * rewrite app_nil_r, !length_app. simpl. lia.
      * rewrite !length_app. simpl. lia.
    + rewrite (IH before (cur ++ [d])%list _ _ acc).
      * rewrite <- !app_assoc. reflexivity.
      * rewrite E, <- !app_assoc. reflexivity.
      * rewrite Hi, !length_app. simpl. lia.
      * exact Hl.
Qed.


Lemma join_dots_cons (c : list Byte.byte) (b : Byte.byte) (comps : list (list Byte.byte)) :
  join_dots ((b :: c) :: comps) = b :: join_dots (c :: comps).
Proof. destruct comps; reflexivity. Qed.

Lemma split_join (bytes : list Byte.byte) :
  join_dots (fst (split_dots bytes) :: snd (split_dots bytes)) = bytes.
Proof.
  induction bytes as [|d rest IH]; [reflexivity|].
  cbn [split_dots]. destruct (split_dots rest) as [c cs].
  destruct (Byte.eqb d Byte.x2e) eqn:Hd.
  - apply byte_eqb_true in Hd as ->. simpl in *. now rewrite IH.
  - cbn [fst snd] in *. now rewrite join_dots_cons, IH.
Qed.

Lemma split_without_dots (bytes : list Byte.byte) :
  Forall (fun c => ~ In Byte.x2e c) (fst (split_dots bytes) :: snd (split_dots bytes)).
Proof.
  induction bytes as [|d rest IH]; [repeat constructor; intros []|].
  cbn [split_dots]. destruct (split_dots rest) as [c cs].
  destruct (Byte.eqb d Byte.x2e) eqn:Hd; cbn [fst snd] in *.
  - constructor; [intros [] | exact IH].
  - apply byte_eqb_false in Hd. inversion IH as [|? ? Hc Hcs]; subst.
    constructor; [|exact Hcs]. intros [E | Hin]; [congruence | now apply Hc].
Qed.

Lemma join_split (c : list Byte.byte) (comps : list (list Byte.byte)) :
  Forall (fun c => ~ In Byte.x2e c) (c :: comps) ->
  split_dots (join_dots (c :: comps)) = (c, comps).
Proof.
  revert c; induction comps as [|c' comps IH]; intros c H.
  - inversion H as [|? ? Hc _]; subst. clear H.
    induction c as [|b c IHc]; [reflexivity|].
    simpl in *. rewrite IHc by tauto.
    destruct (Byte.eqb b Byte.x2e) eqn:Hb; [|reflexivity].
    apply byte_eqb_true in Hb. exfalso. apply Hc. now left.
  - inversion H as [|? ? Hc Hcs]; subst.
    induction c as [|b c IHc].
    + change (join_dots ([] :: c' :: comps)) with (Byte.x2e :: join_dots (c' :: comps)).
      cbn [split_dots]. rewrite (IH c' Hcs). reflexivity.
    + rewrite join_dots_cons. cbn [split_dots].
      rewrite IHc.
      * destruct (Byte.eqb b Byte.x2e) eqn:Hb; [|reflexivity].
        apply byte_eqb_true in Hb. exfalso. apply Hc. now left.
      * constructor; [|exact Hcs]. intros Hin. apply Hc. now right.
      * intros Hin. apply Hc. now right.
Qed.

Lemma join_dots_last (c : list Byte.byte) (cs : list (list Byte.byte)) :
  exists before, join_dots (c :: cs) = (before ++ List.last cs c)%list.
Proof.
  revert c; induction cs as [|c' cs IH]; intros c.
  - exists []. reflexivity.
  - destruct (IH c') as [before E].
    exists (c ++ Byte.x2e :: before)%list.
    change (join_dots (c :: c' :: cs)) with (c ++ Byte.x2e :: join_dots (c' :: cs))%list.
    rewrite E, <- app_assoc. simpl.
    destruct cs as [|c'' cs]; [reflexivity|].
    now rewrite (last_cons_default cs c'' c c').
Qed.

Lemma removelast_last_split {A} (l : list A) (a : A) :
  (removelast (a :: l) ++ [List.last l a])%list = a :: l.
Proof.
  revert a; induction l as [|b l IH]; intros a; [reflexivity|].
  assert (E : List.last (b :: l) a = List.last l b).
  { destruct l as [|b' l]; [reflexivity|]. apply (last_cons_default l b' a b). }
  rewrite E.
  change (removelast (a :: b :: l)) with (a :: removelast (b :: l)).
  cbn [app]. f_equal. apply IH.
Qed.

Lemma slice_suffix {A} (before l : list A) :
  slice (Z.of_nat (length (before ++ l) - length l)) (Z.of_nat (length (before ++ l)))
        (before ++ l) = l.
Proof.
  replace (length (before ++ l) - length l) with (length before)
    by (rewrite length_app; lia).
  pose proof (slice_middle before l []) as H. now rewrite app_nil_r in H.
Qed.

Lemma Forall_removelast {A} (P : A -> Prop) (l : list A) :
  Forall P l -> Forall P (removelast l).
Proof.
  induction 1 as [|a l Ha Hl IH]; simpl; [constructor|].
  destruct l; [constructor | constructor; [exact Ha | exact IH]].
Qed.

Lemma Forall_last {A} (P : A -> Prop) (l : list A) (a : A) :
  Forall P (a :: l) -> P (List.last l a).
Proof.
  revert a; induction l as [|b l IH]; intros a H.
  - now inversion H.
  - inversion H as [|? ? _ Hl]; subst.
    assert (E : List.last (b :: l) a = List.last l b).
    { destruct l as [|b' l]; [reflexivity|]. apply (last_cons_default l b' a b). }
    rewrite E. apply (IH b Hl).
Qed.

End Labels.

Section Split.

Variable ens_normalize : string -> result string.
Variable toUtf8Bytes : string -> result (list Byte.byte).

(** [ensNameSplit] on a name that is not empty, by the runs between the
    dots of its normal form. *)
Lemma ensNameSplit_runs (name normal : string) (bytes : list Byte.byte) :
  ens_normalize name = Ok normal -> toUtf8Bytes normal = Ok bytes -> name <> "" ->
  ensNameSplit ens_normalize toUtf8Bytes name
  = let c := fst (split_dots bytes) in
    let cs := snd (split_dots bytes) in
    let* pushed := mapR checkComponent (removelast (c :: cs)) in
    let* _ := assertArgument (negb (length (List.last cs c) =? 0))
                "invalid ENS name; empty component" "name" (AStr name) in
    Ok (c :: cs).
Proof.
  intros Hn Hb Hne. unfold ensNameSplit. rewrite Hn. cbn [bind]. rewrite Hb. cbn [bind].
  destruct name as [|a name]; [congruence|]. cbn [String.length Nat.eqb].
  rewrite (ensNameSplit_loop_spec bytes bytes [] [] 0 0 []) by reflexivity.
  pose proof (split_join bytes) as Hj.
  destruct (split_dots bytes) as [c cs]. cbn [fst snd] in *. cbv zeta.
  change ([] ++ c)%list with c.
  destruct (join_dots_last c cs) as [before Hlast].
  rewrite Hj in Hlast.
  destruct (mapR checkComponent (removelast (c :: cs))) as [pushed| e|] eqn:Hm;
    cbn [bind]; try reflexivity.
  apply mapR_checkComponent in Hm as [-> Hall].
  clear Hj. subst bytes. rewrite slice_suffix, length_app.
  change ([] ++ removelast (c :: cs))%list with (removelast (c :: cs)).
  unfold assertArgument, checkComponent, assertArgument.
  destruct (List.last cs c) as [|b l] eqn:El.
  - simpl length. rewrite Nat.add_0_r, Nat.sub_0_r, Nat.ltb_irrefl. reflexivity.
  - assert (Hlt : (length before + length (b :: l) - length (b :: l)
                   <? length before + length (b :: l)) = true).
    { apply Nat.ltb_lt. simpl. lia. }
    rewrite Hlt. simpl length. cbn [Nat.eqb negb bind].
    rewrite <- El. now rewrite removelast_last_split.
Qed.

Lemma ensNameSplit_accepts (name normal : string) (bytes : list Byte.byte)
      (comps : list (list Byte.byte)) :
  ens_normalize name = Ok normal -> toUtf8Bytes normal = Ok bytes -> name <> "" ->
  ensNameSplit ens_normalize toUtf8Bytes name = Ok comps
  <-> comps <> [] /\ Forall label comps /\ join_dots comps = bytes.
Proof.
  intros Hn Hb Hne. rewrite (ensNameSplit_runs _ _ _ Hn Hb Hne). cbv zeta.
  pose proof (split_join bytes) as Hj.
  pose proof (split_without_dots bytes) as Hd.
  split.
  - destruct (split_dots bytes) as [c cs]. cbn [fst snd] in *.
    destruct (mapR checkComponent (removelast (c :: cs))) as [pushed| |] eqn:Hm;
      cbn [bind]; try discriminate.
    apply mapR_checkComponent in Hm as [_ Hall].
    unfold assertArgument.
    destruct (List.last cs c) as [|b l] eqn:El; cbn [length Nat.eqb negb bind];
      try discriminate.
    intros [= <-]. split; [discriminate|]. split; [|exact Hj].
    rewrite <- (removelast_last_split cs c).
    rewrite <- (removelast_last_split cs c) in Hd.
    apply Forall_app in Hd as [Hd1 Hd2]. inversion Hd2 as [|? ? Hd3 _]; subst.
    apply Forall_app. split.
    + apply Forall_forall. intros x Hx. split.
      * rewrite Forall_forall in Hall. now apply Hall.
      * rewrite Forall_forall in Hd1. now apply Hd1.
    + constructor; [|constructor]. split; [rewrite El; discriminate | exact Hd3].
  - intros (Hc & Hl & Hjoin). destruct comps as [|c cs]; [congruence|].
    assert (Hs : split_dots bytes = (c, cs)).
    { rewrite <- Hjoin. apply join_split. eapply Forall_impl; [exact Hl|].
      intros x [_ Hx]. exact Hx. }
    rewrite Hs. cbn [fst snd].
    assert (Hne' : Forall (fun x : list Byte.byte => x <> []) (c :: cs)).
    { eapply Forall_impl; [exact Hl|]. intros x [Hx _]. exact Hx. }
    assert (Hm : mapR checkComponent (removelast (c :: cs)) = Ok (removelast (c :: cs))).
    { apply mapR_checkComponent. split; [reflexivity | now apply Forall_removelast]. }
    rewrite Hm. cbn [bind].
    pose proof (Forall_last _ _ _ Hne') as Hlast.
    destruct (List.last cs c); [congruence | reflexivity].
Qed.

End Split.

(** X16.  On a name that is not empty, [ensNameSplit] returns the labels of
    the normal form of the name: it accepts the name exactly when the bytes
    of the normal form are labels joined by dots, each label not empty, and
    then returns these labels.  A name that starts or ends with a dot, or
    has two dots in a row, is refused. *)
Theorem ensNameSplit_gives_the_labels
        (ens_normalize : string -> result string)
        (toUtf8Bytes : string -> result (list Byte.byte))
        (name normal : string) (bytes : list Byte.byte) (comps : list (list Byte.byte)) :
  ens_normalize name = Ok normal -> toUtf8Bytes normal = Ok bytes -> name <> "" ->
  ensNameSplit ens_normalize toUtf8Bytes name = Ok comps
  <-> comps <> [] /\ Forall label comps /\ join_dots comps = bytes.
Proof. apply ensNameSplit_accepts. Qed.

Lemma ensNameSplit_gives_the_labels_witness :
  ensNameSplit already_normal ascii_bytes "ab.eth"
  = Ok [[Byte.x61; Byte.x62]; [Byte.x65; Byte.x74; Byte.x68]]
  <-> [[Byte.x61; Byte.x62]; [Byte.x65; Byte.x74; Byte.x68]] <> []
      /\ Forall label [[Byte.x61; Byte.x62]; [Byte.x65; Byte.x74; Byte.x68]]
      /\ join_dots [[Byte.x61; Byte.x62]; [Byte.x65; Byte.x74; Byte.x68]]
         = [Byte.x61; Byte.x62; Byte.x2e; Byte.x65; Byte.x74; Byte.x68].
Proof.
  apply (ensNameSplit_gives_the_labels already_normal ascii_bytes "ab.eth" "ab.eth").
  - reflexivity.
  - reflexivity.
  - discriminate.
Defined.

Section Names_of_ENS.

Variable ens_normalize : string -> result string.
Variable toUtf8Bytes : string -> result (list Byte.byte).

(** A name has no component exactly when it is empty. *)
Lemma ensNameSplit_empty (name : string) (comps : list (list Byte.byte)) :
  ensNameSplit ens_normalize toUtf8Bytes name = Ok comps ->
  (comps = [] <-> name = "").
Proof.
  unfold ensNameSplit.
  destruct (ens_normalize name) as [normal| |]; cbn [bind]; try discriminate.
  destruct (toUtf8Bytes normal) as [bytes| |]; cbn [bind]; try discriminate.
  destruct name as [|a name]; cbn [String.length Nat.eqb].
  - intros [= <-]. tauto.
  - destruct (ensNameSplit_loop _ _ _ _ _) as [[last pushed]| |]; cbn [bind]; try discriminate.
    destruct (assertArgument _ _ _ _) as [[]| |]; cbn [bind]; try discriminate.
    destruct (checkComponent _) as [comp| |]; cbn [bind]; try discriminate.
    intros [= <-]. split; [|discriminate].
    intros H. now apply app_eq_nil in H as [_ H].
Qed.

End Names_of_ENS.

(** X17.  [isValidName] never throws: it answers [true] exactly for the names
    that are not empty and that [ensNameSplit] accepts, and [false] for the
    empty name and for every name [ensNameSplit] or the normalisation
    refuses. *)
Theorem isValidName_is_a_total_check
        (ens_normalize : string -> result string)
        (toUtf8Bytes : string -> result (list Byte.byte)) (name : string) :
  (forall e, isValidName ens_normalize toUtf8Bytes name <> Throw e)
  /\ (isValidName ens_normalize toUtf8Bytes name = Ok true
      <-> name <> "" /\ exists comps, ensNameSplit ens_normalize toUtf8Bytes name = Ok comps)
  /\ (forall e, ensNameSplit ens_normalize toUtf8Bytes name = Throw e ->
                isValidName ens_normalize toUtf8Bytes name = Ok false).
Proof.
  unfold isValidName.
  destruct (ensNameSplit ens_normalize toUtf8Bytes name) as [comps| e|] eqn:E.
  - split; [discriminate|]. split; [|discriminate].
    pose proof (ensNameSplit_empty _ _ _ _ E) as [H1 H2].
    split.
    + intros [= H]. split; [|eauto]. intros ->.
      rewrite (H2 eq_refl) in H. discriminate.
    + intros [Hne _]. destruct comps; [now destruct Hne; apply H1 | reflexivity].
  - split; [discriminate|]. split; [|reflexivity].
    split; [discriminate | intros [_ [comps H]]; discriminate].
  - split; [discriminate|]. split; [|discriminate].
    split; [discriminate | intros [_ [comps H]]; discriminate].
Qed.

(** ** The node of a name *)

(** X18.  The node [namehash] computes follows the hierarchy of the name:
    the node of a name with first label [first] and parent [parent] is the
    hash of the node of the parent followed by the hash of the label, and
    the node of the name without labels is 32 zero bytes. *)
Theorem namehash_follows_the_hierarchy
        (ens_normalize : string -> result string)
        (toUtf8Bytes : string -> result (list Byte.byte))
        (keccak256 : BytesLike -> string) (concat : list BytesLike -> string)
        (hexlify : BytesLike -> string)
        (name parent : string) (first : list Byte.byte) (rest : list (list Byte.byte)) :
  ensNameSplit ens_normalize toUtf8Bytes name = Ok (first :: rest) ->
  ensNameSplit ens_normalize toUtf8Bytes parent = Ok rest ->
  exists node,
    namehash ens_normalize toUtf8Bytes keccak256 concat hexlify parent = Ok (hexlify node)
    /\ namehash ens_normalize toUtf8Bytes keccak256 concat hexlify name
       = Ok (hexlify (Hex (keccak256 (Hex (concat [node; Hex (keccak256 (Bytes first))])))))
    /\ (rest = [] -> node = Bytes Zeros).
Proof.
  intros Hn Hp. exists (namehash_node keccak256 concat rest).
  unfold namehash. rewrite Hn, Hp. cbn [bind].
  split; [reflexivity|]. split; [|now intros ->].
  unfold namehash_node. cbn [rev]. rewrite fold_left_app. reflexivity.
Qed.

Lemma namehash_follows_the_hierarchy_witness :
  exists node,
    namehash already_normal ascii_bytes (fun _ => "k") (fun _ => "c")
             (fun b => match b with Hex s => s | Bytes _ => "0x00" end) "eth"
    = Ok (match node with Hex s => s | Bytes _ => "0x00" end)
    /\ namehash already_normal ascii_bytes (fun _ => "k") (fun _ => "c")
                (fun b => match b with Hex s => s | Bytes _ => "0x00" end) "ab.eth"
       = Ok "k"
    /\ ([[Byte.x65; Byte.x74; Byte.x68]] = [] -> node = Bytes Zeros).
Proof.
  apply (namehash_follows_the_hierarchy already_normal ascii_bytes
           (fun _ => "k") (fun _ => "c")
           (fun b => match b with Hex s => s | Bytes _ => "0x00" end)
           "ab.eth" "eth" [Byte.x61; Byte.x62]).
  - reflexivity.
  - reflexivity.
Defined.

(** ** The DNS encoding *)

Section DNS.

Lemma dns_label_ok (comp : list Byte.byte) :
  length comp <= 63 ->
  exists b, dns_label comp = Ok (Bytes (b :: comp))
            /\ Byte.to_N b = N.of_nat (length comp).
Proof.
  intros H. unfold dns_label.
  destruct (Nat.ltb_spec 63 (length comp)); [lia|].
  pose proof (Byte.to_of_N_option_map (N.of_nat (length comp))) as E.
  destruct (N.leb_spec (N.of_nat (length comp)) 255) as [_|Hgt]; [|lia].
  destruct (Byte.of_N (N.of_nat (length comp))) as [b|]; [|discriminate].
  injection E as E. exists b. split; [reflexivity | exact E].
Qed.

Lemma mapR_dns_label (comps : list (list Byte.byte)) :
  (Forall (fun c => length c <= 63) comps ->
   exists labels,
     mapR dns_label comps = Ok labels
     /\ Forall2 (fun c l => exists b, l = Bytes (b :: c)
                                      /\ Byte.to_N b = N.of_nat (length c)) comps labels)
  /\ (Exists (fun c => 63 < length c) comps ->
      mapR dns_label comps
      = Throw (Error "invalid DNS encoded entry; length exceeds 63 bytes")).
Proof.
  induction comps as [|c comps [IH1 IH2]]; split.
  - intros _. exists []. split; [reflexivity | constructor].
  - intros H. inversion H.
  - intros H. inversion H as [|? ? Hc Hcs]; subst.
    destruct (dns_label_ok c Hc) as (b & Hb & Hn).
    destruct (IH1 Hcs) as (labels & Hl & Hf).
    exists (Bytes (b :: c) :: labels). simpl. rewrite Hb, Hl. cbn [bind].
    split; [reflexivity|]. constructor; [eauto | exact Hf].
  - intros H. simpl.
    destruct (Nat.le_gt_cases (length c) 63) as [Hle | Hgt].
    + destruct (dns_label_ok c Hle) as (b & Hb & _). rewrite Hb. cbn [bind].
      inversion H as [? ? Hc | ? ? Hcs]; subst; [lia|].
      now rewrite (IH2 Hcs).
    + unfold dns_label. destruct (Nat.ltb_spec 63 (length c)); [reflexivity | lia].
Qed.

End DNS.

(** X19.  [dnsEncode] refuses a name exactly when it has a label of more than
    63 bytes (or [ensNameSplit] refuses it); otherwise every label goes
    into the encoding after one byte that holds its length, and the text
    ends with the zero byte. *)
Theorem dnsEncode_prefixes_the_lengths
        (ens_normalize : string -> result string)
        (toUtf8Bytes : string -> result (list Byte.byte))
        (concat : list BytesLike -> string) (hexlify : BytesLike -> string)
        (name : string) (comps : list (list Byte.byte)) :
  ensNameSplit ens_normalize toUtf8Bytes name = Ok comps ->
  (Forall (fun c => length c <= 63) comps ->
   exists labels,
     dnsEncode ens_normalize toUtf8Bytes concat hexlify name
     = Ok (hexlify (Hex (concat labels)) +:+ "00")
     /\ Forall2 (fun c l => exists b, l = Bytes (b :: c)
                                      /\ Byte.to_N b = N.of_nat (length c)) comps labels)
  /\ (Exists (fun c => 63 < length c) comps ->
      dnsEncode ens_normalize toUtf8Bytes concat hexlify name
      = Throw (Error "invalid DNS encoded entry; length exceeds 63 bytes")).
Proof.
  intros H. unfold dnsEncode. rewrite H. cbn [bind].
  destruct (mapR_dns_label comps) as [H1 H2]. split.
  - intros Hf. destruct (H1 Hf) as (labels & Hl & Hf2).
    exists labels. rewrite Hl. cbn [bind]. split; [reflexivity | exact Hf2].
  - intros He. now rewrite (H2 He).
Qed.

Lemma dnsEncode_prefixes_the_lengths_witness :
  (Forall (fun c => length c <= 63) [[Byte.x61; Byte.x62]; [Byte.x65; Byte.x74; Byte.x68]] ->
   exists labels,
     dnsEncode already_normal ascii_bytes (fun _ => "c") (fun _ => "0x") "ab.eth"
     = Ok ("0x" +:+ "00")
     /\ Forall2 (fun c l => exists b, l = Bytes (b :: c)
                                      /\ Byte.to_N b = N.of_nat (length c))
                [[Byte.x61; Byte.x62]; [Byte.x65; Byte.x74; Byte.x68]] labels)
  /\ (Exists (fun c => 63 < length c) [[Byte.x61; Byte.x62]; [Byte.x65; Byte.x74; Byte.x68]] ->
      dnsEncode already_normal ascii_bytes (fun _ => "c") (fun _ => "0x") "ab.eth"
      = Throw (Error "invalid DNS encoded entry; length exceeds 63 bytes")).
Proof.
  apply (dnsEncode_prefixes_the_lengths already_normal ascii_bytes
           (fun _ => "c") (fun _ => "0x") "ab.eth").
  reflexivity.
Defined.

(** ** Base58 *)

Section Base58Facts.

(** The letter of a digit is looked up as the digit. *)
Lemma getAlpha_letter (d : N) :
  (d < 58)%N ->
  exists c, String.get (N.to_nat d) Alphabet = Some c /\ getAlpha c = Ok d.
Proof.
  intros H.
  assert (Hall : forallb (fun d => match String.get (N.to_nat d) Alphabet with
                                   | Some c => match Lookup_get c Lookup with
                                               | Some i => (i =? d)%N
                                               | None => false
                                               end
                                   | None => false
                                   end) (map N.of_nat (seq 0 58)) = true)
    by (vm_compute; reflexivity).
  rewrite forallb_forall in Hall.
  specialize (Hall d). 
  assert (Hin : In d (map N.of_nat (seq 0 58))).
  { apply in_map_iff. exists (N.to_nat d). split; [lia|]. apply in_seq. lia. }
  specialize (Hall Hin).
  destruct (String.get (N.to_nat d) Alphabet) as [c|]; [|discriminate].
  exists c. split; [reflexivity|]. unfold getAlpha.
  destruct (Lookup_get c Lookup) as [i|]; [|discriminate].
  apply N.eqb_eq in Hall. now subst.
Qed.


Lemma Lookup_get_In (c : ascii) (lookup : list (ascii * N)) (i : N) :
  Lookup_get c lookup = Some i -> In (c, i) lookup.
Proof.
  induction lookup as [|[c' i'] l IH]; simpl; [discriminate|].
  destruct (Ascii.eqb_spec c c') as [->|_].
  - intros [= ->]. now left.
  - intros H. right. now apply IH.
Qed.

(** What is looked up is a digit, and the letter is that of the digit. *)
Lemma getAlpha_digit (c : ascii) (d : N) :
  getAlpha c = Ok d -> (d < 58)%N /\ String.get (N.to_nat d) Alphabet = Some c.
Proof.
  unfold getAlpha. destruct (Lookup_get c Lookup) as [i|] eqn:E; [|discriminate].
  intros [= ->]. apply Lookup_get_In in E.
  assert (Hall : forallb (fun e => (snd e <? 58)%N
                                   && match String.get (N.to_nat (snd e)) Alphabet with
                                      | Some c' => Ascii.eqb c' (fst e)
                                      | None => false
                                      end) Lookup = true)
    by (vm_compute; reflexivity).
  rewrite forallb_forall in Hall. specialize (Hall _ E). cbn [fst snd] in Hall.
  apply andb_true_iff in Hall as [H1 H2]. apply N.ltb_lt in H1.
  split; [exact H1|]. revert H2.
  destruct (String.get (N.to_nat d) Alphabet) as [c'|]; [|discriminate].
  intros H2. apply Ascii.eqb_eq in H2. now subst.
Qed.

Lemma prepend_letter_digit (d : N) (c : ascii) (r : string) :
  String.get (N.to_nat d) Alphabet = Some c -> prepend_letter d r = String c r.
Proof. intros H. unfold prepend_letter. now rewrite H. Qed.

Lemma half_of_58 (value : N) (fuel : nat) :
  (value < 2 ^ N.of_nat (S fuel))%N -> (value / 58 < 2 ^ N.of_nat fuel)%N.
Proof.
  intros H. apply N.Div0.div_lt_upper_bound.
  replace (N.of_nat (S fuel)) with (N.succ (N.of_nat fuel)) in H by lia.
  rewrite N.pow_succ_r' in H. nia.
Qed.

Lemma size_bound (value : N) : (value < 2 ^ N.of_nat (N.to_nat (N.size value)))%N.
Proof. rewrite N2Nat.id. apply N.size_gt. Qed.

(** The loop writes the letters of the value before what it was given. *)
Lemma encodeBase58_loop_digits (fuel : nat) (value : N) (r : string) :
  (value < 2 ^ N.of_nat fuel)%N ->
  encodeBase58_loop fuel value r = Ok (base58_digits fuel value +:+ r).
Proof.
  revert value r; induction fuel as [|fuel IH]; intros value r H.
  - simpl in H. assert (value = 0%N) as -> by lia. reflexivity.
  - cbn [encodeBase58_loop base58_digits].
    destruct (value =? 0)%N; [reflexivity|].
    rewrite IH by now apply half_of_58.
    f_equal. rewrite app_assoc_s. f_equal.
    unfold prepend_letter. destruct (String.get _ Alphabet); reflexivity.
Qed.

Lemma base58_digits_fuel (fuel fuel' : nat) (value : N) :
  (value < 2 ^ N.of_nat fuel)%N -> (value < 2 ^ N.of_nat fuel')%N ->
  base58_digits fuel value = base58_digits fuel' value.
Proof.
  revert fuel' value; induction fuel as [|fuel IH]; intros fuel' value H H'.
  - simpl in H. assert (value = 0%N) as -> by lia. now destruct fuel'.
  - destruct fuel' as [|fuel'].
    + simpl in H'. assert (value = 0%N) as -> by lia. reflexivity.
    + cbn [base58_digits]. destruct (value =? 0)%N; [reflexivity|].
      f_equal. apply IH; now apply half_of_58.
Qed.

(** The letters of [n], on fuel enough for [n]. *)
Lemma base58_digits_zero (fuel : nat) : base58_digits fuel 0 = "".
Proof. now destruct fuel. Qed.

Lemma base58_digits_step (fuel fuel' : nat) (n d : N) (c : ascii) :
  (n * 58 + d < 2 ^ N.of_nat fuel')%N -> (n < 2 ^ N.of_nat fuel)%N ->
  (d < 58)%N -> String.get (N.to_nat d) Alphabet = Some c ->
  (n * 58 + d <> 0)%N ->
  base58_digits fuel' (n * 58 + d) = base58_digits fuel n +:+ String c "".
Proof.
  intros H' H Hd Hc Hne. destruct fuel' as [|fuel'].
  - simpl in H'. lia.
  - cbn [base58_digits]. destruct (N.eqb_spec (n * 58 + d) 0) as [E|_]; [contradiction|].
    assert (Hq : ((n * 58 + d) / 58 = n)%N).
    { rewrite N.add_comm, N.div_add by lia. rewrite N.div_small by lia. lia. }
    assert (Hr : ((n * 58 + d) mod 58 = d)%N).
    { rewrite N.add_comm, N.Div0.mod_add. now apply N.mod_small. }
    rewrite Hq, Hr, (prepend_letter_digit _ _ _ Hc). f_equal.
    apply base58_digits_fuel; [|exact H].
    rewrite <- Hq. now apply half_of_58.
Qed.

Lemma get_one : String.get 0 Alphabet = Some "1"%char.
Proof. reflexivity. Qed.

Lemma getAlpha_one (c : ascii) (d : N) :
  getAlpha c = Ok d -> (d = 0%N <-> c = "1"%char).
Proof.
  intros H. destruct (getAlpha_digit _ _ H) as [_ Hg]. split.
  - intros ->. simpl in Hg. congruence.
  - intros ->. vm_compute in H. congruence.
Qed.

(** Reading the letters of a text from the left is writing them from the
    right. *)
Lemma decodeBase58_loop_digits (s : string) :
  base58_text s ->
  forall acc,
    exists v,
      decodeBase58_loop s acc = Ok v
      /\ base58_digits (N.to_nat (N.size v)) v
         = if (acc =? 0)%N then without_leading_ones s
           else base58_digits (N.to_nat (N.size acc)) acc +:+ s.
Proof.
  unfold base58_text. induction s as [|c s IH]; intros Hs acc.
  - exists acc. split; [reflexivity|].
    destruct (N.eqb_spec acc 0) as [->|_]; [reflexivity | now rewrite app_empty_r].
  - cbn [string_forallb] in Hs. apply andb_true_iff in Hs as [Hc Hs].
    apply bool_decide_eq_true in Hc. destruct Hc as [d Hd].
    assert (Hg : getAlpha c = Ok d) by (unfold getAlpha; now rewrite Hd).
    destruct (getAlpha_digit _ _ Hg) as [Hlt Hget].
    pose proof (getAlpha_one _ _ Hg) as Hone.
    cbn [decodeBase58_loop]. rewrite Hg. cbn [bind].
    destruct (IH Hs (acc * 58 + d)%N) as (v & Hv & Hdig).
    exists v. split; [exact Hv|]. rewrite Hdig. clear Hdig Hv.
    destruct (N.eqb_spec acc 0) as [->|Hacc].
    + replace (0 * 58 + d)%N with d by lia. cbn [without_leading_ones].
      destruct (N.eqb_spec d 0) as [->|Hd0].
      * destruct (Ascii.eqb_spec c "1"%char) as [_|Hc]; [reflexivity|].
        destruct Hone as [Hone _]. now destruct Hc; apply Hone.
      * destruct (Ascii.eqb_spec c "1"%char) as [Hc|_].
        { destruct Hone as [_ Hone]. now destruct Hd0; apply Hone. }
        replace d with (0 * 58 + d)%N at 1 2 by lia.
        rewrite (base58_digits_step 0 _ 0 d c); try (simpl; lia); try exact Hget.
        -- reflexivity.
        -- replace (0 * 58 + d)%N with d by lia. apply size_bound.
    + destruct (N.eqb_spec (acc * 58 + d) 0) as [E|_]; [lia|].
      rewrite (base58_digits_step (N.to_nat (N.size acc)) _ acc d c);
        try exact Hget; try lia; try apply size_bound.
      now rewrite app_assoc_s.
Qed.

Lemma without_leading_ones_app (s r : string) :
  s <> "" -> without_leading_ones s = s -> without_leading_ones (s +:+ r) = s +:+ r.
Proof.
  destruct s as [|c s]; [congruence|]. intros _. simpl.
  destruct (Ascii.eqb c "1"); [|reflexivity].
  intros H. exfalso.
  assert (Hlen : forall t, String.length (without_leading_ones t) <= String.length t).
  { induction t as [|x t IHt]; simpl; [lia|]. destruct (Ascii.eqb x "1"); simpl; lia. }
  specialize (Hlen s). rewrite H in Hlen. simpl in Hlen. lia.
Qed.

(** Reading back what the loop wrote. *)
Lemma decode_digits (fuel : nat) (value : N) :
  (value < 2 ^ N.of_nat fuel)%N ->
  base58_text (base58_digits fuel value)
  /\ without_leading_ones (base58_digits fuel value) = base58_digits fuel value
  /\ (base58_digits fuel value = "" -> value = 0%N)
  /\ forall rest acc,
       decodeBase58_loop (base58_digits fuel value +:+ rest) acc
       = decodeBase58_loop rest
           (acc * 58 ^ N.of_nat (String.length (base58_digits fuel value)) + value)%N.
Proof.
  revert value; induction fuel as [|fuel IH]; intros value H.
  - simpl in H. assert (value = 0%N) as -> by lia. simpl.
    repeat split. intros rest acc. f_equal. lia.
  - cbn [base58_digits]. destruct (N.eqb_spec value 0) as [->|Hne].
    { simpl. repeat split. intros rest acc. f_equal. lia. }
    destruct (IH (value / 58)%N (half_of_58 _ _ H)) as (T1 & T2 & T3 & T4).
    assert (Hlt : (value mod 58 < 58)%N) by (apply N.mod_lt; lia).
    destruct (getAlpha_letter _ Hlt) as (c & Hc & Hg).
    rewrite (prepend_letter_digit _ _ _ Hc).
    set (D := base58_digits fuel (value / 58)) in *.
    split; [|split; [|split]].
    + unfold base58_text in *. rewrite forallb_app, T1. cbn [string_forallb andb].
      unfold getAlpha in Hg. destruct (Lookup_get c Lookup) as [n|]; [|discriminate].
      rewrite andb_true_r. apply bool_decide_eq_true. now exists n.
    + destruct D as [|x D'] eqn:ED.
      * simpl. destruct (Ascii.eqb_spec c "1"%char) as [->|_]; [|reflexivity].
        exfalso. pose proof (getAlpha_one _ _ Hg) as [_ H0].
        specialize (H0 eq_refl). specialize (T3 eq_refl).
        pose proof (N.div_mod value 58 ltac:(lia)). lia.
      * apply without_leading_ones_app; [discriminate | exact T2].
    + intros E. destruct D; discriminate E.
    + intros rest acc. rewrite app_assoc_s, T4. simpl append.
      cbn [decodeBase58_loop]. rewrite Hg. cbn [bind]. f_equal.
      rewrite length_append. simpl String.length.
      replace (N.of_nat (String.length D + 1)) with (N.succ (N.of_nat (String.length D)))
        by lia.
      rewrite N.pow_succ_r'.
      pose proof (N.div_mod value 58 ltac:(lia)). nia.
Qed.

End Base58Facts.

(** X20.  Decoding undoes encoding: [encodeBase58] ends and writes letters of
    the alphabet only, with no leading [1], and [decodeBase58] reads from
    this text the number that was encoded. *)
Theorem decodeBase58_reads_what_encodeBase58_wrote
        (getBytes : BytesLike -> result (list Byte.byte))
        (toBigInt : list Byte.byte -> N) (toHex : N -> string)
        (value : BytesLike) (bytes : list Byte.byte) :
  getBytes value = Ok bytes ->
  exists text,
    encodeBase58 getBytes toBigInt value = Ok text
    /\ base58_text text
    /\ without_leading_ones text = text
    /\ decodeBase58_loop text 0 = Ok (toBigInt bytes)
    /\ decodeBase58 getBytes toHex text = getBytes (Hex (toHex (toBigInt bytes))).
Proof.
  intros Hb. unfold encodeBase58, decodeBase58. rewrite Hb. cbn [bind].
  set (n := toBigInt bytes).
  pose proof (size_bound n) as Hn.
  rewrite (encodeBase58_loop_digits _ _ _ Hn), app_empty_r.
  destruct (decode_digits _ _ Hn) as (T1 & T2 & _ & T4).
  eexists. split; [reflexivity|]. split; [exact T1|]. split; [exact T2|].
  specialize (T4 "" 0%N). rewrite app_empty_r in T4. simpl in T4.
  rewrite T4. split; reflexivity.
Qed.

Lemma decodeBase58_reads_what_encodeBase58_wrote_witness :
  exists text,
    encodeBase58 (fun _ => Ok [Byte.x01; Byte.x00]) (fun _ => 256%N) (Bytes [Byte.x01; Byte.x00])
    = Ok text
    /\ base58_text text
    /\ without_leading_ones text = text
    /\ decodeBase58_loop text 0 = Ok 256%N
    /\ decodeBase58 (fun _ => Ok [Byte.x01; Byte.x00]) (fun _ => "0x0100") text
       = Ok [Byte.x01; Byte.x00].
Proof.
  apply (decodeBase58_reads_what_encodeBase58_wrote
           (fun _ => Ok [Byte.x01; Byte.x00]) (fun _ => 256%N) (fun _ => "0x0100")
           (Bytes [Byte.x01; Byte.x00]) [Byte.x01; Byte.x00]).
  reflexivity.
Defined.

(** X21.  Encoding undoes decoding up to the leading zeros: a text of letters
    of the alphabet is decoded to a number whose encoding is the text
    without its leading letters [1]. *)
Theorem encodeBase58_drops_the_leading_ones
        (getBytes : BytesLike -> result (list Byte.byte))
        (toBigInt : list Byte.byte -> N) (toHex : N -> string) (text : string) :
  base58_text text ->
  exists n,
    decodeBase58_loop text 0 = Ok n
    /\ decodeBase58 getBytes toHex text = getBytes (Hex (toHex n))
    /\ forall value bytes,
         getBytes value = Ok bytes -> toBigInt bytes = n ->
         encodeBase58 getBytes toBigInt value = Ok (without_leading_ones text).
Proof.
  intros Ht. destruct (decodeBase58_loop_digits text Ht 0%N) as (n & Hn & Hd).
  exists n. unfold decodeBase58, encodeBase58. rewrite Hn. cbn [bind].
  split; [reflexivity|]. split; [reflexivity|].
  intros value bytes Hb <-. rewrite Hb. cbn [bind].
  rewrite (encodeBase58_loop_digits _ _ _ (size_bound _)), app_empty_r.
  f_equal. exact Hd.
Qed.

Lemma encodeBase58_drops_the_leading_ones_witness :
  encodeBase58 (fun _ => Ok [Byte.x02; Byte.x2c]) (fun _ => 556%N) (Bytes [Byte.x02; Byte.x2c])
  = Ok "Ab".
Proof.
  destruct (encodeBase58_drops_the_leading_ones
              (fun _ => Ok [Byte.x02; Byte.x2c]) (fun _ => 556%N) (fun _ => "0x022c")
              "11Ab" eq_refl) as (n & Hn & _ & H).
  apply (H (Bytes [Byte.x02; Byte.x2c]) [Byte.x02; Byte.x2c] eq_refl).
  vm_compute in Hn. now injection Hn.
Defined.

Section Refusal.

Lemma decodeBase58_loop_refuses (s : string) :
  ~ base58_text s ->
  forall acc,
    exists before letter after,
      s = before +:+ String letter after
      /\ base58_text before
      /\ Lookup_get letter Lookup = None
      /\ decodeBase58_loop s acc
         = Throw (InvalidArgument "invalid base58 value" "letter"
                                  (AStr (String letter EmptyString))).
Proof.
  unfold base58_text. induction s as [|c s IH]; intros H acc.
  - now destruct H.
  - cbn [string_forallb] in H. cbn [decodeBase58_loop]. unfold getAlpha at 1.
    destruct (Lookup_get c Lookup) as [d|] eqn:E.
    + cbn [bind].
      destruct (IH) with (acc := (acc * 58 + d)%N) as (before & letter & after & H0 & H1 & H2 & H3).
      * intros Hs. apply H. rewrite Hs.
        rewrite bool_decide_eq_true_2 by (now exists d). reflexivity.
      * exists (String c before), letter, after.
        split; [now rewrite H0|]. split; [|split; [exact H2 | exact H3]].
        cbn [string_forallb]. rewrite H1.
        rewrite bool_decide_eq_true_2 by (now exists d). reflexivity.
    + exists "", c, s. split; [reflexivity|]. split; [reflexivity|].
      split; [exact E | reflexivity].
Qed.

End Refusal.

(** X22.  [decodeBase58] refuses a text that has a letter outside the
    alphabet, with the invalid-argument error that names the first such
    letter: the text is letters of the alphabet, then the letter the error
    names, which is not of the alphabet, then whatever follows. *)
Theorem decodeBase58_refuses_other_letters
        (getBytes : BytesLike -> result (list Byte.byte)) (toHex : N -> string)
        (text : string) :
  ~ base58_text text ->
  exists before letter after,
    text = before +:+ String letter after
    /\ base58_text before
    /\ Lookup_get letter Lookup = None
    /\ decodeBase58 getBytes toHex text
       = Throw (InvalidArgument "invalid base58 value" "letter"
                                (AStr (String letter EmptyString))).
Proof.
  intros H.
  destruct (decodeBase58_loop_refuses text H 0%N) as (before & letter & after & H0 & H1 & H2 & H3).
  exists before, letter, after. unfold decodeBase58. rewrite H3. auto.
Qed.

Lemma decodeBase58_refuses_other_letters_witness :
  exists before letter after,
    "2l0" = before +:+ String letter after
    /\ base58_text before
    /\ Lookup_get letter Lookup = None
    /\ decodeBase58 (fun _ => Ok []) (fun _ => "0x") "2l0"
       = Throw (InvalidArgument "invalid base58 value" "letter"
                                (AStr (String letter EmptyString))).
Proof.
  apply (decodeBase58_refuses_other_letters (fun _ => Ok []) (fun _ => "0x") "2l0").
  vm_compute. discriminate.
Defined.

(** ** Numbers in writing *)

Section Digits.

Lemma digits_value_acc (u : Decimal.uint) (acc : positive) :
  digits_value (Z.pos acc) (NilEmpty.string_of_uint u) = Z.pos (Pos.of_uint_acc u acc).
Proof.
  revert acc; induction u as [|u IH|u IH|u IH|u IH|u IH|u IH|u IH|u IH|u IH|u IH];
    intros acc; [reflexivity | ..];
    cbn [NilEmpty.string_of_uint digits_value Pos.of_uint_acc]; rewrite <- IH; f_equal;
    match goal with |- context [Z.of_nat ?n] => let v := eval vm_compute in n in change n with v end;
    lia.
Qed.

Lemma digits_value_uint (u : Decimal.uint) :
  digits_value 0 (NilEmpty.string_of_uint u) = Z.of_N (Pos.of_uint u).
Proof.
  induction u as [|u IH|u IH|u IH|u IH|u IH|u IH|u IH|u IH|u IH|u IH];
    [reflexivity | exact IH | ..];
    cbn [NilEmpty.string_of_uint digits_value Pos.of_uint Z.of_N];
    rewrite <- digits_value_acc; reflexivity.
Qed.

Lemma uint_digits (u : Decimal.uint) :
  string_forallb is_digit (NilEmpty.string_of_uint u) = true.
Proof.
  induction u as [|u IH|u IH|u IH|u IH|u IH|u IH|u IH|u IH|u IH|u IH];
    [reflexivity | ..]; cbn [NilEmpty.string_of_uint string_forallb]; now rewrite IH.
Qed.

(** The decimal text of a number that is not negative: digits, at least
    one, that [parseInt] and [getNumber] read back. *)
Lemma Z_to_string_digits (n : Z) :
  (0 <= n)%Z ->
  string_forallb is_digit (Z_to_string n) = true
  /\ (Z_to_string n =? "")%string = false
  /\ digits_value 0 (Z_to_string n) = n.
Proof.
  intros Hn. destruct n as [|p|p]; [repeat split | | lia].
  unfold Z_to_string. cbn [Z.to_int NilZero.string_of_int].
  pose proof (DecimalPos.Unsigned.to_uint_nonnil p) as Hnil.
  assert (E : NilZero.string_of_uint (Pos.to_uint p) = NilEmpty.string_of_uint (Pos.to_uint p)).
  { unfold NilZero.string_of_uint. now destruct (Pos.to_uint p). }
  rewrite E. split; [apply uint_digits|]. split.
  - destruct (Pos.to_uint p); [congruence | reflexivity ..].
  - now rewrite digits_value_uint, DecimalPos.Unsigned.of_to.
Qed.

End Digits.

(** ** The tokens of an array suffix *)

Section Suffixes.

Lemma reaches_step (text : string) (st st' : LexState) :
  lx_offset st < String.length text -> lex_step text st = Ok st' ->
  reaches text 1 st st'.
Proof. intros Ho Hs fuel. now apply lex_loop_step. Qed.

Lemma reaches_trans (text : string) (n m : nat) (a b c : LexState) :
  reaches text n a b -> reaches text m b c -> reaches text (n + m) a c.
Proof. intros H1 H2 fuel. now rewrite <- Nat.add_assoc, H1, H2. Qed.

Lemma reaches_lex (text : string) (n : nat) (st : LexState) :
  reaches text n (mkLex [] [] [] 0) st ->
  lx_offset st = String.length text -> n <= String.length text ->
  lex text = Ok (mkTokenString 0 (lx_tokens st)).
Proof.
  intros H Ho Hn. unfold lex. specialize (H 0).
  rewrite Nat.add_0_r, (lex_loop_end 0 _ _ Ho) in H.
  now rewrite (lex_loop_mono _ _ _ _ _ H Hn).
Qed.

Lemma digit_not_simple (c : ascii) : is_digit c = true -> SimpleTokens c = None.
Proof. ascii_cases c. Qed.

Lemma digit_not_id_start (c : ascii) : is_digit c = true -> is_id_start c = false.
Proof. ascii_cases c. Qed.

(** The turn that reads an opening bracket. *)
Lemma lex_step_open (text pre rest : string) (st : LexState) :
  text = pre +:+ "[" +:+ rest -> lx_offset st = String.length pre ->
  lex_step text st
  = Ok (mkLex (lx_tokens st ++
                 [mkToken BRACKET (String.length pre) "["
                          (Z.of_nat (length (lx_brackets st))) (-1) (-1) (-1) (-1)])
              (lx_brackets st) (lx_commas st) (String.length pre + 1)).
Proof.
  intros -> Ho. unfold lex_step, regexWhitespace. rewrite Ho, substring_from_all.
  change (fst (span is_space ("[" +:+ rest))) with "". cbn [String.length].
  rewrite Nat.add_0_r, substring_from_all. reflexivity.
Qed.

(** The turn that reads the digits of a length. *)
Lemma lex_step_digits (text pre ds rest : string) (st : LexState) :
  text = pre +:+ ds +:+ rest -> lx_offset st = String.length pre ->
  string_forallb is_digit ds = true -> (ds =? "")%string = false ->
  stops is_digit rest ->
  lex_step text st
  = Ok (mkLex (lx_tokens st ++
                 [mkToken NUMBER (String.length pre) ds
                          (Z.of_nat (length (lx_brackets st))) (-1) (-1) (-1) (-1)])
              (lx_brackets st) (lx_commas st) (String.length pre + String.length ds)).
Proof.
  intros -> Ho Hds Hne Hrest. destruct ds as [|d ds]; [discriminate|].
  cbn [string_forallb] in Hds. apply andb_true_iff in Hds as [Hd Hds].
  unfold lex_step, regexWhitespace. rewrite Ho, substring_from_all.
  assert (Hspan : span is_space (String d ds +:+ rest) = ("", String d ds +:+ rest)).
  { simpl. now rewrite (digit_not_space d Hd). }
  rewrite Hspan. cbn [fst String.length]. rewrite Nat.add_0_r, substring_from_all.
  change (String d ds +:+ rest) with (String d (ds +:+ rest)).
  rewrite (lex_token_word _ _ _ _ (digit_not_simple d Hd)).
  cbn [regexIdentifier]. rewrite (digit_not_id_start d Hd). cbv zeta.
  change (String d (ds +:+ rest)) with (String d ds +:+ rest).
  rewrite (regexNumber_app _ _ Hrest), regexNumber_fst.
  assert (E : fst (span is_digit (String d ds)) = String d ds).
  { apply span_digits. cbn [string_forallb]. now rewrite Hd, Hds. }
  rewrite E. reflexivity.
Qed.

(** The turn that reads the closing bracket of a suffix with a length. *)
Lemma lex_step_close_number (text pre rest : string) (st : LexState)
      (tokens : list Token) (b n : Token) (v : Z) :
  text = pre +:+ "]" +:+ rest -> lx_offset st = String.length pre ->
  lx_tokens st = (tokens ++ [b; n])%list ->
  tk_type b = BRACKET -> tk_type n = NUMBER -> getNumber (tk_text n) = Ok v ->
  lex_step text st
  = Ok (mkLex (tokens ++ [set_text (tk_text b +:+ tk_text n +:+ "]") (set_value v b)])
              (lx_brackets st) (lx_commas st) (String.length pre + 1)).
Proof.
  intros -> Ho Ht Hb Hn Hv. unfold lex_step, regexWhitespace.
  rewrite Ho, substring_from_all.
  change (fst (span is_space ("]" +:+ rest))) with "". cbn [String.length].
  rewrite Nat.add_0_r, substring_from_all.
  change ("]" +:+ rest) with (String "]" rest).
  unfold lex_token. change (SimpleTokens "]") with (Some CLOSE_BRACKET). cbv zeta.
  rewrite Ht.
  assert (L1 : ((tokens ++ [b; n]) !! (length (tokens ++ [b; n]) - 1) = Some n)%list).
  { rewrite length_app. simpl. rewrite lookup_app_r by lia.
    now replace (length tokens + 2 - 1 - length tokens) with 1 by lia. }
  rewrite L1, Hn. cbn [TokenType_eqb]. rewrite Hv. cbn [bind].
  assert (R : removelast (tokens ++ [b; n]) = (tokens ++ [b])%list).
  { change [b; n] with ([b] ++ [n])%list. now rewrite app_assoc, removelast_last. }
  rewrite R.
  assert (L2 : ((tokens ++ [b]) !! (length (tokens ++ [b]) - 1) = Some b)%list).
  { rewrite length_app. simpl. rewrite lookup_app_r by lia.
    now replace (length tokens + 1 - 1 - length tokens) with 0 by lia. }
  destruct (update (length (tokens ++ [b]) - 1) (set_value v) (tokens ++ [b])) as [t1| |] eqn:U.
  2,3: (unfold update in U; rewrite L2 in U; discriminate).
  apply (update_last _ _ _ _ L2) in U. rewrite removelast_last in U. subst t1.
  cbn [bind].
  assert (L3 : ((tokens ++ [set_value v b]) !! (length (tokens ++ [set_value v b]) - 1)
                = Some (set_value v b))%list).
  { rewrite length_app. simpl. rewrite lookup_app_r by lia.
    now replace (length tokens + 1 - 1 - length tokens) with 0 by lia. }
  rewrite L3. replace (tk_type (set_value v b)) with BRACKET by (now rewrite <- Hb).
  cbn [TokenType_eqb].
  destruct (update (length (tokens ++ [set_value v b]) - 1)
                   (set_text (tk_text (set_value v b) +:+ tk_text n +:+ "]"))
                   (tokens ++ [set_value v b])) as [t2| |] eqn:U2.
  2,3: (unfold update in U2; rewrite L3 in U2; discriminate).
  apply (update_last _ _ _ _ L3) in U2. rewrite removelast_last in U2. subst t2.
  reflexivity.
Qed.

(** The turn that reads the closing bracket of a suffix without a length. *)
Lemma lex_step_close_empty (text pre rest : string) (st : LexState)
      (tokens : list Token) (b : Token) :
  text = pre +:+ "]" +:+ rest -> lx_offset st = String.length pre ->
  lx_tokens st = (tokens ++ [b])%list -> tk_type b = BRACKET ->
  lex_step text st
  = Ok (mkLex (tokens ++ [set_text (tk_text b +:+ "]") b])
              (lx_brackets st) (lx_commas st) (String.length pre + 1)).
Proof.
  intros -> Ho Ht Hb. unfold lex_step, regexWhitespace.
  rewrite Ho, substring_from_all.
  change (fst (span is_space ("]" +:+ rest))) with "". cbn [String.length].
  rewrite Nat.add_0_r, substring_from_all.
  change ("]" +:+ rest) with (String "]" rest).
  unfold lex_token. change (SimpleTokens "]") with (Some CLOSE_BRACKET). cbv zeta.
  rewrite Ht.
  assert (L1 : ((tokens ++ [b]) !! (length (tokens ++ [b]) - 1) = Some b)%list).
  { rewrite length_app. simpl. rewrite lookup_app_r by lia.
    now replace (length tokens + 1 - 1 - length tokens) with 0 by lia. }
  rewrite L1, Hb. cbn [TokenType_eqb bind]. rewrite L1, Hb. cbn [TokenType_eqb].
  destruct (update (length (tokens ++ [b]) - 1) (set_text (tk_text b +:+ "]")) (tokens ++ [b]))
    as [t2| |] eqn:U2.
  2,3: (unfold update in U2; rewrite L1 in U2; discriminate).
  apply (update_last _ _ _ _ L1) in U2. rewrite removelast_last in U2. subst t2.
  reflexivity.
Qed.

(** The turns that read one array suffix leave one token for it. *)
Lemma lex_suffix (text pre rest : string) (len : Z) (st : LexState) :
  text = pre +:+ suffix_text len +:+ rest -> lx_offset st = String.length pre ->
  array_length len ->
  exists n t,
    n <= String.length (suffix_text len) /\ suffix_token t len
    /\ reaches text n st
         (mkLex (lx_tokens st ++ [t]) (lx_brackets st) (lx_commas st)
                (String.length pre + String.length (suffix_text len))).
Proof.
  intros Ht Ho [Hlo Hhi]. unfold suffix_text in *.
  assert (Hlt : forall k, k < String.length (suffix_text len) ->
                String.length pre + k < String.length text).
  { intros k Hk. rewrite Ht, !length_append. unfold suffix_text in Hk.
    rewrite !length_append in Hk. lia. }
  unfold suffix_text in Hlt.
  destruct (len <? 0)%Z eqn:Hneg.
  - apply Z.ltb_lt in Hneg. assert (len = (-1)%Z) as -> by lia.
    cbn [String.append String.length] in *.
    eexists 2, _. split; [lia|]. split; [|].
    2:{ eapply (reaches_trans text 1 1).
        - apply reaches_step; [rewrite Ho; specialize (Hlt 0); lia|].
          apply (lex_step_open text pre (String "]" rest) st Ht Ho).
        - apply reaches_step; [cbn [lx_offset]; specialize (Hlt 1); lia|].
          match goal with |- lex_step _ ?s = _ => set (st1 := s) end.
          epose proof (lex_step_close_empty text (pre +:+ "[") rest st1 (lx_tokens st) _) as H.
          cbn [st1 lx_tokens lx_offset lx_brackets lx_commas tk_type tk_text] in H.
          rewrite H; clear H.
          + rewrite length_append. cbn [String.length].
            replace (String.length pre + 1 + 1) with (String.length pre + 2) by lia.
            reflexivity.
          + now rewrite Ht, app_assoc_s.
          + unfold st1. cbn [lx_offset]. rewrite length_append. reflexivity.
          + reflexivity.
          + reflexivity. }
    repeat split.
  - apply Z.ltb_ge in Hneg.
    destruct (Z_to_string_digits len Hneg) as (Hds & Hne & Hval).
    set (ds := Z_to_string len) in *.
    assert (Hlen : String.length ("[" +:+ ds +:+ "]") = String.length ds + 2).
    { cbn [String.append String.length]. rewrite length_append. simpl. lia. }
    rewrite Hlen in *.
    assert (Hpos : 1 <= String.length ds) by (destruct ds; [discriminate | simpl; lia]).
    assert (Hnum : getNumber ds = Ok len).
    { unfold getNumber. rewrite Hval.
      destruct (len <=? 9007199254740991)%Z eqn:E; [reflexivity|].
      apply Z.leb_gt in E. lia. }
    eexists 3, _. split; [lia|]. split; [|].
    2:{ eapply (reaches_trans text 1 2).
        { apply reaches_step; [rewrite Ho; specialize (Hlt 0); lia|].
          apply (lex_step_open text pre (ds +:+ "]" +:+ rest) st); [|exact Ho].
          rewrite Ht. cbn [String.append]. now rewrite !app_assoc_s. }
        eapply (reaches_trans text 1 1).
        { apply reaches_step; [cbn [lx_offset]; specialize (Hlt 1); lia|].
          apply (lex_step_digits text (pre +:+ "[") ds ("]" +:+ rest)).
          - rewrite Ht. cbn [String.append]. now rewrite !app_assoc_s.
          - cbn [lx_offset]. rewrite length_append. reflexivity.
          - exact Hds.
          - exact Hne.
          - reflexivity. }
        apply reaches_step.
        { cbn [lx_offset]. rewrite length_append. cbn [String.length].
          specialize (Hlt (1 + String.length ds)). lia. }
        cbn [lx_tokens lx_brackets lx_commas].
        rewrite <- app_assoc. cbn [app].
        match goal with |- lex_step _ ?s = _ => set (st2 := s) end.
        epose proof (lex_step_close_number text (pre +:+ "[" +:+ ds) rest st2
                      (lx_tokens st) _ _ len) as H.
        cbn [st2 lx_tokens lx_offset lx_brackets lx_commas tk_type tk_text] in H.
        rewrite H; clear H.
        - rewrite !length_append. cbn [String.length].
          replace (String.length pre + (1 + String.length ds) + 1)
            with (String.length pre + (String.length ds + 2)) by lia.
          reflexivity.
        - rewrite Ht. cbn [String.append]. now rewrite !app_assoc_s.
        - unfold st2. cbn [lx_offset]. rewrite !length_append. cbn [String.length]. lia.
        - reflexivity.
        - reflexivity.
        - reflexivity.
        - exact Hnum. }
    unfold suffix_token, set_text, set_value. cbn. 
    apply Z.ltb_ge in Hneg. rewrite Hneg. fold ds. repeat split.
Qed.

End Suffixes.

(** ** The tokens of a parameter in writing *)

Section Written.

Lemma reaches_same (text : string) (st st' : LexState) : st = st' -> reaches text 0 st st'.
Proof. intros -> fuel. reflexivity. Qed.

Lemma lex_suffixes (text : string) (lens : list Z) :
  forall (pre rest : string) (st : LexState),
    text = pre +:+ suffixes lens +:+ rest -> lx_offset st = String.length pre ->
    Forall array_length lens ->
    exists n brs,
      n <= String.length (suffixes lens) /\ Forall2 suffix_token brs lens
      /\ reaches text n st
           (mkLex (lx_tokens st ++ brs) (lx_brackets st) (lx_commas st)
                  (String.length pre + String.length (suffixes lens))).
Proof.
  induction lens as [|k lens IH]; intros pre rest st Ht Ho Hall.
  - exists 0, []. split; [simpl; lia|]. split; [constructor|].
    apply reaches_same. destruct st; simpl in *. now rewrite app_nil_r, Nat.add_0_r, Ho.
  - apply Forall_cons_iff in Hall as [Hk Hlens].
    cbn [suffixes fold_right] in *. fold (suffixes lens) in *.
    destruct (lex_suffix text pre (suffixes lens +:+ rest) k st) as (n1 & t & Hn1 & Htok & R1);
      [now rewrite Ht, !app_assoc_s | exact Ho | exact Hk |].
    destruct (IH (pre +:+ suffix_text k) rest
                 (mkLex (lx_tokens st ++ [t]) (lx_brackets st) (lx_commas st)
                        (String.length pre + String.length (suffix_text k))))
      as (n2 & brs & Hn2 & Hbrs & R2);
      [now rewrite Ht, !app_assoc_s | cbn [lx_offset]; now rewrite length_append | exact Hlens |].
    exists (n1 + n2), (t :: brs). split; [rewrite length_append; lia|].
    split; [now constructor|].
    eapply reaches_trans; [exact R1|].
    cbn [lx_tokens lx_brackets lx_commas] in R2.
    rewrite <- app_assoc in R2. cbn [app] in R2.
    rewrite !length_append in *. now rewrite Nat.add_assoc.
Qed.

Lemma spaced_stops (words : list string) (rest : string) :
  stops is_id_char rest -> stops is_id_char (spaced words +:+ rest).
Proof. intros H. destruct words; [exact H | reflexivity]. Qed.

Lemma lex_words (text : string) (words : list string) :
  forall (pre rest : string) (st : LexState),
    text = pre +:+ spaced words +:+ rest -> lx_offset st = String.length pre ->
    Forall word words -> stops is_id_char rest ->
    exists n wts,
      n <= String.length (spaced words) /\ Forall2 word_token wts words
      /\ reaches text n st
           (mkLex (lx_tokens st ++ wts) (lx_brackets st) (lx_commas st)
                  (String.length pre + String.length (spaced words))).
Proof.
  induction words as [|w words IH]; intros pre rest st Ht Ho Hall Hrest.
  - exists 0, []. split; [simpl; lia|]. split; [constructor|].
    apply reaches_same. destruct st; simpl in *. now rewrite app_nil_r, Nat.add_0_r, Ho.
  - apply Forall_cons_iff in Hall as [Hw Hws].
    cbn [spaced fold_right] in *. fold (spaced words) in *.
    pose proof (word_nonempty w Hw) as Lw.
    assert (Ht' : text = pre +:+ " " +:+ w +:+ spaced words +:+ rest).
    { now rewrite Ht, !app_assoc_s. }
    pose proof (lex_step_word text pre " " w (spaced words +:+ rest) st Ht' Ho eq_refl Hw
                  (spaced_stops words rest Hrest)) as S1.
    destruct (IH (pre +:+ " " +:+ w) rest
                 (mkLex (lx_tokens st ++
                           [mkToken (classify w) (String.length pre + String.length " ") w
                                    (Z.of_nat (length (lx_brackets st))) (-1) (-1) (-1) (-1)])
                        (lx_brackets st) (lx_commas st)
                        (String.length pre + String.length " " + String.length w)))
      as (n2 & wts & Hn2 & Hwts & R2);
      [ now rewrite Ht, !app_assoc_s
      | cbn [lx_offset]; rewrite !length_append; lia
      | exact Hws | exact Hrest |].
    exists (1 + n2),
      (mkToken (classify w) (String.length pre + String.length " ") w
               (Z.of_nat (length (lx_brackets st))) (-1) (-1) (-1) (-1) :: wts).
    split; [rewrite !length_append; simpl; lia|].
    split; [constructor; [split; reflexivity | exact Hwts]|].
    eapply reaches_trans.
    + apply reaches_step; [|exact S1]. rewrite Ho, Ht, !length_append. simpl. lia.
    + cbn [lx_tokens lx_brackets lx_commas] in R2.
      rewrite <- app_assoc in R2. cbn [app] in R2.
      rewrite !length_append in *. cbn [String.length] in *.
      replace (String.length pre + (1 + (String.length w + String.length (spaced words))))
        with (String.length pre + (1 + String.length w) + String.length (spaced words)) by lia.
      exact R2.
Qed.

Lemma suffixes_stops (lens : list Z) (rest : string) :
  stops is_id_char rest -> stops is_id_char (suffixes lens +:+ rest).
Proof. intros H. destruct lens; [exact H | reflexivity]. Qed.

(** The tokens of an elementary type, its array suffixes and the words
    after them. *)
Lemma lex_written (T : string) (lens : list Z) (words : list string) :
  elementary T -> Forall array_length lens -> Forall word words ->
  exists tT brs wts,
    lex (T +:+ suffixes lens +:+ spaced words)
    = Ok (mkTokenString 0 (tT :: brs ++ wts))
    /\ tk_type tT = TYPE /\ tk_text tT = T
    /\ Forall2 suffix_token brs lens /\ Forall2 word_token wts words.
Proof.
  intros HT Hlens Hwords. destruct (elementary_word T HT) as [Hw Hc].
  pose proof (word_nonempty T Hw) as LT.
  set (text := T +:+ suffixes lens +:+ spaced words).
  assert (Hst : stops is_id_char (spaced words +:+ "")) by (now apply spaced_stops).
  rewrite app_empty_r in Hst.
  pose proof (lex_step_word text "" "" T (suffixes lens +:+ spaced words)
                (mkLex [] [] [] 0) eq_refl eq_refl eq_refl Hw
                (suffixes_stops lens _ Hst)) as S1.
  cbn [lx_tokens lx_brackets lx_commas app String.length length Nat.add Z.of_nat] in S1.
  set (tT := mkToken (classify T) 0 T 0 (-1) (-1) (-1) (-1)) in *.
  destruct (lex_suffixes text lens T (spaced words)
                         (mkLex [tT] [] [] (String.length T)) eq_refl eq_refl Hlens)
    as (n2 & brs & Hn2 & Hbrs & R2).
  cbn [lx_tokens lx_brackets lx_commas app lx_offset] in R2.
  assert (Ht3 : text = (T +:+ suffixes lens) +:+ spaced words +:+ "").
  { unfold text. now rewrite app_empty_r, app_assoc_s. }
  destruct (lex_words text words (T +:+ suffixes lens) ""
                      (mkLex (tT :: brs) [] [] (String.length T + String.length (suffixes lens)))
                      Ht3 (eq_sym (length_append _ _)) Hwords I)
    as (n3 & wts & Hn3 & Hwts & R3).
  cbn [lx_tokens lx_brackets lx_commas app lx_offset] in R3.
  exists tT, brs, wts.
  split; [|split; [|split; [|split]]].
  - assert (H0 : lx_offset (mkLex [] [] [] 0) < String.length text).
    { unfold text. rewrite length_append. simpl. lia. }
    pose proof (reaches_trans _ _ _ _ _ _ (reaches_step text _ _ H0 S1)
                  (reaches_trans _ _ _ _ _ _ R2 R3)) as R.
    rewrite (reaches_lex text _ _ R).
    + reflexivity.
    + cbn [lx_offset]. unfold text. rewrite !length_append. lia.
    + unfold text. rewrite !length_append. lia.
  - exact Hc.
  - reflexivity.
  - exact Hbrs.
  - exact Hwts.
Qed.

End Written.

(** ** The text path on the tokens of a parameter in writing *)

Section Reading.

Lemma peek_at (read ahead : list Token) (t : Token) :
  peek (TokenString_at read (t :: ahead)) = Ok t.
Proof.
  unfold peek, TokenString_at, token_at. cbn [ts_tokens ts_offset].
  rewrite length_app. cbn [length].
  destruct (Z.leb_spec (Z.of_nat (length read + S (length ahead))) (Z.of_nat (length read)));
    [lia|].
  destruct (Z.ltb_spec (Z.of_nat (length read)) 0); [lia|].
  rewrite Nat2Z.id, lookup_app_r by lia. now rewrite Nat.sub_diag.
Qed.

Lemma ts_length_at (read ahead : list Token) :
  ts_length (TokenString_at read ahead) = Z.of_nat (length ahead).
Proof. unfold ts_length, TokenString_at. cbn. rewrite length_app. lia. Qed.

Lemma pop_at (read ahead : list Token) (t : Token) :
  pop (TokenString_at read (t :: ahead)) = Ok (t, TokenString_at (read ++ [t]) ahead).
Proof.
  unfold pop. rewrite peek_at. cbn [bind]. unfold set_offset, TokenString_at.
  cbn [ts_offset ts_tokens]. rewrite length_app, <- app_assoc. cbn [length app].
  do 2 f_equal. f_equal. lia.
Qed.

Lemma peekType_at (ty : TokenType) (read ahead : list Token) (t : Token) :
  peekType ty (TokenString_at read (t :: ahead))
  = Ok (if TokenType_eqb (tk_type t) ty then Some (tk_text t) else None).
Proof.
  unfold peekType. rewrite ts_length_at, peek_at. cbn [length].
  destruct (Z.eqb_spec (Z.of_nat (S (length ahead))) 0); [lia | reflexivity].
Qed.

Lemma peekType_end (ty : TokenType) (read : list Token) :
  peekType ty (TokenString_at read []) = Ok None.
Proof. unfold peekType. now rewrite ts_length_at. Qed.

(** [peekType] where the next token, if there is one, is of another type. *)
Lemma peekType_other (ty : TokenType) (read ahead : list Token) :
  match ahead with [] => True | t :: _ => TokenType_eqb (tk_type t) ty = false end ->
  peekType ty (TokenString_at read ahead) = Ok None.
Proof.
  destruct ahead as [|t ahead]; intros H; [apply peekType_end|].
  now rewrite peekType_at, H.
Qed.

Lemma suffix_text_not_empty (len : Z) : (suffix_text len =? "")%string = false.
Proof. reflexivity. Qed.

(** The loop over the array suffixes wraps the type read so far once for
    each suffix token. *)
Lemma array_loop_suffixes (brs : list Token) (lens : list Z) :
  Forall2 suffix_token brs lens ->
  forall (read ahead : list Token) (fuel : nat) (cur : ParamType),
    match ahead with [] => True | t :: _ => TokenType_eqb (tk_type t) BRACKET = false end ->
    length brs <= fuel ->
    pt_name cur = "" -> pt_indexed cur = JNull ->
    ParamType_new "" (pt_type cur) (pt_baseType cur) JNull (pt_components cur)
                  (pt_arrayLength cur) (pt_arrayChildren cur) = Ok cur ->
    array_loop fuel (TokenString_at read (brs ++ ahead)) (pt_type cur) (pt_baseType cur)
               (pt_components cur) (pt_arrayLength cur) (pt_arrayChildren cur)
    = Ok (shape_of (fold_left (array_of JNull) lens cur),
          TokenString_at (read ++ brs) ahead).
Proof.
  induction 1 as [|t k brs lens (Hty & Htx & Hv) Hrest IH];
    intros read ahead fuel cur Hah Hf Hn Hi Hnew.
  - cbn [app fold_left]. rewrite app_nil_r.
    destruct fuel; cbn [array_loop]; rewrite ts_length_at;
      (destruct (Z.eqb_spec (Z.of_nat (length ahead)) 0); [reflexivity|]);
      rewrite (peekType_other _ _ _ Hah); reflexivity.
  - destruct fuel as [|fuel]; [simpl in Hf; lia|].
    cbn [app fold_left array_loop]. rewrite ts_length_at. cbn [length].
    destruct (Z.eqb_spec (Z.of_nat (S (length (brs ++ ahead)))) 0); [lia|].
    rewrite peekType_at, Hty. cbn [TokenType_eqb bind truthy_str].
    rewrite Htx, suffix_text_not_empty. cbn [negb].
    rewrite pop_at. cbn [bind]. rewrite Hnew. cbn [bind]. rewrite Hv.
    specialize (IH (read ++ [t])%list ahead fuel (array_of JNull cur k) Hah).
    cbn [array_of pt_type pt_baseType pt_components pt_arrayLength pt_arrayChildren
         pt_name pt_indexed] in IH.
    rewrite Htx, IH; [now rewrite <- app_assoc | simpl in Hf; lia | reflexivity ..].
Qed.

Lemma consumeKeywords_at_other (allowed : list string) (read ahead : list Token) :
  match ahead with [] => True | t :: _ => TokenType_eqb (tk_type t) KEYWORD = false end ->
  consumeKeywords (TokenString_at read ahead) allowed = Ok ([], TokenString_at read ahead).
Proof.
  intros H. unfold consumeKeywords. cbn [consumeKeywords_loop].
  now rewrite (peekType_other _ _ _ H).
Qed.

Lemma consumeKeywords_at_one (allowed : list string) (read ahead : list Token) (k : Token) :
  tk_type k = KEYWORD -> has allowed (tk_text k) = true ->
  match ahead with [] => True | t :: _ => TokenType_eqb (tk_type t) KEYWORD = false end ->
  consumeKeywords (TokenString_at read (k :: ahead)) allowed
  = Ok ([tk_text k], TokenString_at (read ++ [k]) ahead).
Proof.
  intros Hk Ha H. unfold consumeKeywords, TokenString_at at 1. cbn [ts_tokens].
  rewrite length_app. cbn [length]. rewrite Nat.add_succ_r.
  fold (TokenString_at read (k :: ahead)).
  cbn [consumeKeywords_loop]. rewrite peekType_at, Hk. cbn [TokenType_eqb bind].
  rewrite Ha. cbn [negb]. rewrite pop_at. cbn [bind has existsb].
  now rewrite (peekType_other _ _ _ H).
Qed.

(** The constructor accepts what the loop over the suffixes has built. *)
Lemma arrays_of_new (nul : jsval) (T : string) (lens : list Z) (name : string) (indexed : jsval) :
  verifyBasicType T = Ok T ->
  let r := arrays_of nul T lens in
  ParamType_new name (pt_type r) (pt_baseType r) indexed (pt_components r)
                (pt_arrayLength r) (pt_arrayChildren r)
  = Ok (entitled name indexed r).
Proof.
  intros HT. destruct (verifyBasicType_not_compound _ _ HT) as [Ha Ht].
  unfold arrays_of. destruct lens as [|k lens _] using rev_ind.
  - cbn. now apply ParamType_new_elementary.
  - rewrite fold_left_app. reflexivity.
Qed.

(** The text path on the tokens of a type, its array suffixes, the keyword
    [indexed] and a name. *)
Lemma from_tokens_written (from : ParamSource -> bool -> result ParamType)
      (T : string) (lens : list Z) (name : string) (indexed : jsval) (allowIndexed : bool)
      (tT : Token) (brs wts : list Token) :
  verifyBasicType T = Ok T -> tk_type tT = TYPE -> tk_text tT = T ->
  Forall2 suffix_token brs lens ->
  Forall2 word_token wts (written_words indexed name) ->
  (name = "" \/ classify name = ID) ->
  (indexed = JNull \/ (indexed = JBool true /\ allowIndexed = true)) ->
  from_tokens from (mkTokenString 0 (tT :: brs ++ wts)) allowIndexed
  = Ok (entitled name indexed (arrays_of JNull T lens)).
Proof.
  intros HT Hty Htx Hbrs Hwts Hname Hind.
  destruct (verifyBasicType_not_compound _ _ HT) as [Ha Ht].
  assert (Hsplit : exists kws nms,
             wts = (kws ++ nms)%list
             /\ (match indexed with
                 | JBool true => exists k, kws = [k] /\ tk_type k = KEYWORD
                                           /\ tk_text k = "indexed"
                 | _ => kws = []
                 end)
             /\ (if (name =? "")%string then nms = []
                 else exists n, nms = [n] /\ tk_type n = ID /\ tk_text n = name)).
  { unfold written_words in Hwts. apply Forall2_app_inv_r in Hwts
      as (kws & nms & Hk & Hn & ->).
    exists kws, nms. split; [reflexivity|]. split.
    - destruct Hind as [-> | [-> _]].
      + now inversion Hk.
      + inversion Hk as [|k ? ? ? [H1 H2] H3]; subst. inversion H3; subst.
        exists k. now repeat split.
    - destruct (name =? "")%string eqn:E; [now inversion Hn|].
      inversion Hn as [|n ? ? ? [H1 H2] H3 E1 E2]. inversion H3.
      exists n. split; [reflexivity|]. split; [|exact H2].
      destruct Hname as [Hn0 | Hc]; [rewrite Hn0 in E; discriminate E | now rewrite H1]. }
  destruct Hsplit as (kws & nms & -> & Hkws & Hnms).
  assert (Hnk : match nms with [] => True
                | t :: _ => TokenType_eqb (tk_type t) KEYWORD = false end).
  { destruct (name =? "")%string; [now subst|].
    destruct Hnms as (n & -> & Hn & _). now rewrite Hn. }
  assert (Hnb : match (kws ++ nms)%list with [] => True
                | t :: _ => TokenType_eqb (tk_type t) BRACKET = false end).
  { destruct indexed as [| |[|]| | | | | | |]; try (subst kws; cbn [app]).
    3:{ destruct Hkws as (k & -> & Hk & _). cbn [app]. now rewrite Hk. }
    all: destruct (name =? "")%string; [now subst|];
      destruct Hnms as (tn & -> & Hn & _); now rewrite Hn. }
  unfold from_tokens.
  change (mkTokenString 0 (tT :: brs ++ kws ++ nms))
    with (TokenString_at [] (tT :: brs ++ kws ++ nms)).
  rewrite consumeKeywords_at_other by (now rewrite Hty).
  cbn [bind]. change (has [] "tuple") with false. cbv iota.
  rewrite peekType_at, Hty. cbn [TokenType_eqb bind truthy_str].
  unfold popType. rewrite peek_at. cbn [bind]. rewrite Hty. cbn [TokenType_eqb negb bind].
  rewrite pop_at. cbn [bind app]. rewrite Htx, HT. cbn [bind].
  pose proof (array_loop_suffixes brs lens Hbrs [tT] (kws ++ nms)
                (length (ts_tokens (TokenString_at [tT] (brs ++ kws ++ nms))))
                (mkParamType "" T T JNull None None None) Hnb) as HL.
  cbn [pt_type pt_baseType pt_components pt_arrayLength pt_arrayChildren pt_name pt_indexed]
    in HL.
  rewrite HL; clear HL;
    [ | unfold TokenString_at; cbn [ts_tokens]; rewrite !length_app; cbn [length]; lia
      | reflexivity | reflexivity | now apply ParamType_new_elementary ].
  fold (arrays_of JNull T lens). cbn [bind shape_of].
  pose proof (arrays_of_new JNull T lens name indexed HT) as Hnew. cbv zeta in Hnew.
  assert (Hid : forall read,
             (let* i := peekType ID (TokenString_at read nms) in
              let* '(name0, obj5) :=
                if truthy_str i
                then let* '(t, obj5) := pop (TokenString_at read nms) in Ok (tk_text t, obj5)
                else Ok ("", TokenString_at read nms) in
              if negb (ts_length obj5 =? 0)%Z then Throw (Error "leftover tokens")
              else ParamType_new name0 (pt_type (arrays_of JNull T lens))
                     (pt_baseType (arrays_of JNull T lens)) indexed
                     (pt_components (arrays_of JNull T lens))
                     (pt_arrayLength (arrays_of JNull T lens))
                     (pt_arrayChildren (arrays_of JNull T lens)))
             = Ok (entitled name indexed (arrays_of JNull T lens))).
  { intros read. destruct (name =? "")%string eqn:E.
    - apply String.eqb_eq in E. subst nms name.
      rewrite peekType_end. cbn [bind truthy_str]. rewrite ts_length_at. exact Hnew.
    - destruct Hnms as (n & -> & Hn & Hnt).
      rewrite peekType_at, Hn. cbn [TokenType_eqb bind truthy_str].
      rewrite Hnt, E. cbn [negb]. rewrite pop_at. cbn [bind].
      rewrite ts_length_at, Hnt. exact Hnew. }
  destruct Hind as [-> | [-> ->]].
  - subst kws. cbn [app].
    rewrite consumeKeywords_at_other by exact Hnk.
    cbn [bind has existsb]. apply Hid.
  - destruct Hkws as (k & -> & Hk & Hkt). cbn [app].
    rewrite consumeKeywords_at_one; [ | exact Hk | now rewrite Hkt | exact Hnk].
    cbn [bind]. rewrite Hkt. change (has ["indexed"] "indexed") with true.
    cbn [negb bind]. apply Hid.
Qed.

End Reading.

(** ** What [format] writes for a type under array suffixes *)

Section Writing.

Lemma suffixes_app (lens : list Z) (k : Z) :
  suffixes (lens ++ [k]) = suffixes lens +:+ suffix_text k.
Proof.
  induction lens as [|x lens IH]; cbn [app suffixes fold_right].
  - now rewrite app_empty_r.
  - fold (suffixes (lens ++ [k])). fold (suffixes lens). now rewrite IH, app_assoc_s.
Qed.

Lemma arrays_of_type (nul : jsval) (T : string) (lens : list Z) :
  pt_type (arrays_of nul T lens) = T +:+ suffixes lens.
Proof.
  unfold arrays_of. induction lens as [|k lens IH] using rev_ind.
  - cbn. now rewrite app_empty_r.
  - rewrite fold_left_app, suffixes_app. cbn. now rewrite IH, app_assoc_s.
Qed.

(** The name and [indexed] of a parameter are written after its type. *)
Lemma format_full_tail (name type baseType : string) (nul indexed : jsval)
      (comps : option (list ParamType)) (len : option Z) (child : option ParamType)
      (body : string) :
  nullish nul = true ->
  ParamType_format full (mkParamType "" type baseType nul comps len child) = Ok body ->
  ParamType_format full (mkParamType name type baseType indexed comps len child)
  = Ok (body +:+ spaced (written_words indexed name)).
Proof.
  intros Hnul. cbn [ParamType_format FormatType_eqb negb andb].
  match goal with
  | |- bind ?X _ = _ -> _ => destruct X as [r| |]; cbn [bind]; try discriminate
  end.
  assert (E : match nul with JBool true => r +:+ " indexed" | _ => r end = r).
  { destruct nul as [| |[|]| | | | | | |]; try reflexivity; discriminate. }
  rewrite E. intros [= <-]. f_equal. unfold written_words.
  destruct indexed as [| |[|]| | | | | | |]; destruct (name =? "")%string; cbn;
    rewrite ?app_empty_r, ?app_assoc_s; reflexivity.
Qed.

(** A type under array suffixes is written as its [type]. *)
Lemma format_full_arrays_of (nul : jsval) (T : string) (lens : list Z) :
  nullish nul = true ->
  (T =? "array")%string = false -> (T =? "tuple")%string = false ->
  ParamType_format full (arrays_of nul T lens) = Ok (T +:+ suffixes lens).
Proof.
  intros Hnul Ha Ht.
  assert (E : forall r : string, match nul with JBool true => r +:+ " indexed" | _ => r end = r).
  { intros r. destruct nul as [| |[|]| | | | | | |]; try reflexivity; discriminate. }
  induction lens as [|k lens IH] using rev_ind.
  - cbn [arrays_of fold_left ParamType_format FormatType_eqb negb andb suffixes fold_right].
    rewrite Ha, Ht. cbn [bind]. change ("" =? "")%string with true. cbn [negb].
    now rewrite E, app_empty_r.
  - unfold arrays_of. rewrite fold_left_app. cbn [fold_left]. fold (arrays_of nul T lens).
    unfold array_of at 1. cbn [ParamType_format FormatType_eqb negb andb].
    change ("array" =? "array")%string with true. cbv iota.
    fold ParamType_format. rewrite IH. cbn [bind].
    change ("" =? "")%string with true. cbn [negb].
    rewrite E, suffixes_app, app_assoc_s. reflexivity.
Qed.

Lemma format_full_entitled (nul : jsval) (T : string) (lens : list Z)
      (name : string) (indexed : jsval) :
  nullish nul = true ->
  (T =? "array")%string = false -> (T =? "tuple")%string = false ->
  ParamType_format full (entitled name indexed (arrays_of nul T lens))
  = Ok (T +:+ suffixes lens +:+ spaced (written_words indexed name)).
Proof.
  intros Hnul Ha Ht.
  pose proof (format_full_arrays_of nul T lens Hnul Ha Ht) as H.
  assert (Hn : pt_name (arrays_of nul T lens) = ""
               /\ pt_indexed (arrays_of nul T lens) = nul).
  { unfold arrays_of. destruct lens as [|k lens _] using rev_ind; [now split|].
    rewrite fold_left_app. now split. }
  destruct Hn as [Hn Hi]. unfold entitled.
  destruct (arrays_of nul T lens) as [n0 ty bt i0 c l ch]. cbn in Hn, Hi. subst n0 i0.
  cbn [pt_type pt_baseType pt_components pt_arrayLength pt_arrayChildren].
  rewrite (format_full_tail name ty bt nul indexed c l ch _ Hnul H).
  now rewrite app_assoc_s.
Qed.

Lemma written_words_read_back (indexed : jsval) (name : string) :
  written_words (read_back_indexed indexed) name = written_words indexed name.
Proof. now destruct indexed as [| |[|]| | | | | | |]. Qed.

End Writing.



(** A parameter with [indexed] false is written like one with [indexed]
    [null], and that is what is read back. *)
Lemma indexed_false_is_not_read_back :
  ParamType_format full (mkParamType "a" "uint8" "uint8" (JBool false) None None None)
  = Ok "uint8 a"
  /\ ParamType_from (PValue (JStr "uint8 a")) true
     = Ok (mkParamType "a" "uint8" "uint8" JNull None None None).
Proof. split; vm_compute; reflexivity. Qed.

(** ** The object path on an array type *)

Section Described.

Lemma string_rev_app (a b : string) : string_rev (a +:+ b) = string_rev b +:+ string_rev a.
Proof.
  induction a as [|c a IH]; cbn [String.append string_rev].
  - now rewrite app_empty_r.
  - now rewrite IH, app_assoc_s.
Qed.

Lemma string_rev_involutive (s : string) : string_rev (string_rev s) = s.
Proof.
  induction s as [|c s IH]; [reflexivity|].
  cbn [string_rev]. rewrite string_rev_app, IH. reflexivity.
Qed.

Lemma forallb_rev (p : ascii -> bool) (s : string) :
  string_forallb p (string_rev s) = string_forallb p s.
Proof.
  induction s as [|c s IH]; [reflexivity|].
  cbn [string_rev string_forallb]. rewrite forallb_app, IH. cbn [string_forallb].
  rewrite andb_true_r. apply andb_comm.
Qed.

(** [regexArrayType] on a type that ends in an array suffix. *)
Lemma regexArrayType_suffix (inner ds : string) :
  string_forallb is_digit ds = true ->
  string_forallb (fun x => negb (is_line_terminator x)) inner = true ->
  regexArrayType (inner +:+ "[" +:+ ds +:+ "]") = Some (inner, ds).
Proof.
  intros Hds Hin. unfold regexArrayType.
  rewrite !string_rev_app. cbn [string_rev String.append].
  rewrite !app_assoc_s. cbn [String.append].
  change (code "]" =? 93) with true. cbv iota.
  rewrite (span_all is_digit (string_rev ds) (String "[" (string_rev inner)));
    [ | now rewrite forallb_rev | reflexivity].
  change (code "[" =? 91) with true. rewrite forallb_rev, Hin. cbn [andb].
  now rewrite !string_rev_involutive.
Qed.

(** A word of names ends in no bracket. *)
Lemma regexArrayType_word (w : string) : word w -> regexArrayType w = None.
Proof.
  intros Hw. destruct (word_inv w Hw) as (c & w' & -> & Hc & Hw').
  assert (Hall : string_forallb is_id_char (string_rev (String c w')) = true).
  { rewrite forallb_rev. cbn [string_forallb]. unfold is_id_char at 1. rewrite Hc.
    cbn [orb andb]. rewrite <- Hw'. apply span_fst_all. }
  unfold regexArrayType. destruct (string_rev (String c w')) as [|d r]; [reflexivity|].
  cbn [string_forallb] in Hall. apply andb_true_iff in Hall as [Hd _].
  assert (E : (code d =? 93) = false) by (revert Hd; clear; ascii_cases d).
  now rewrite E.
Qed.

Lemma id_char_not_terminator (c : ascii) :
  is_id_char c = true -> negb (is_line_terminator c) = true.
Proof. ascii_cases c. Qed.

Lemma digit_not_terminator (c : ascii) :
  is_digit c = true -> negb (is_line_terminator c) = true.
Proof. ascii_cases c. Qed.

Lemma suffix_text_digits (len : Z) :
  array_length len ->
  exists ds, suffix_text len = "[" +:+ ds +:+ "]"
             /\ string_forallb is_digit ds = true
             /\ parseInt_signed (if (ds =? "")%string then "-1" else ds) = len.
Proof.
  intros [Hlo Hhi]. unfold suffix_text. destruct (len <? 0)%Z eqn:E.
  - apply Z.ltb_lt in E. assert (len = (-1)%Z) as -> by lia. exists "". now repeat split.
  - apply Z.ltb_ge in E. destruct (Z_to_string_digits len E) as (Hds & Hne & Hval).
    exists (Z_to_string len). split; [reflexivity|]. split; [exact Hds|].
    rewrite Hne. destruct (Z_to_string len) as [|d ds] eqn:Es; [discriminate|].
    cbn [string_forallb] in Hds. apply andb_true_iff in Hds as [Hd _].
    unfold parseInt_signed.
    assert (E45 : (code d =? 45) = false) by (revert Hd; clear; ascii_cases d).
    rewrite E45. exact Hval.
Qed.

Lemma suffixes_no_terminator (lens : list Z) :
  Forall array_length lens ->
  string_forallb (fun x => negb (is_line_terminator x)) (suffixes lens) = true.
Proof.
  induction 1 as [|k lens Hk _ IH]; [reflexivity|].
  cbn [suffixes fold_right]. fold (suffixes lens).
  destruct (suffix_text_digits k Hk) as (ds & -> & Hds & _).
  rewrite !forallb_app, IH. cbn [string_forallb String.append].
  rewrite ?forallb_app. rewrite (forallb_impl _ _ _ digit_not_terminator Hds). reflexivity.
Qed.

Lemma substring_to_length (n : nat) (s : string) : String.length (substring_to n s) <= n.
Proof.
  revert s; induction n as [|n IH]; intros s; [reflexivity|].
  destruct s as [|c s]; cbn; [lia|]. specialize (IH s). lia.
Qed.

(** Five characters are never the six of [tuple(]. *)
Lemma five_are_not_six (s : string) : (substring_to 5 s =? "tuple(")%string = false.
Proof.
  apply String.eqb_neq. intros E. pose proof (substring_to_length 5 s) as H.
  rewrite E in H. cbn in H. lia.
Qed.

Lemma entitled_same (nul : jsval) (T : string) (lens : list Z) :
  entitled "" nul (arrays_of nul T lens) = arrays_of nul T lens.
Proof.
  unfold arrays_of. destruct lens as [|k lens _] using rev_ind; [reflexivity|].
  now rewrite fold_left_app.
Qed.

(** The object path on an object whose [type] is an elementary type under
    array suffixes; [from] has read the element type already. *)
Lemma from_object_written (from : ParamSource -> bool -> result ParamType)
      (props : list (string * jsval)) (T : string) (lens : list Z)
      (name : string) (indexed : jsval) (allowIndexed : bool) :
  elementary T -> verifyBasicType T = Ok T -> Forall array_length lens ->
  (default JUndefined (assoc "name" props) = JUndefined /\ name = ""
   \/ default JUndefined (assoc "name" props) = JStr name /\ (name = "" \/ word name)) ->
  (default JUndefined (assoc "indexed" props) = indexed /\ nullish indexed = true
   \/ default JUndefined (assoc "indexed" props) = JBool true
      /\ indexed = JBool true /\ allowIndexed = true) ->
  default JUndefined (assoc "type" props) = JStr (T +:+ suffixes lens) ->
  (forall lens' k, lens = (lens' ++ [k])%list ->
     from (PValue (JObj [("type", JStr (T +:+ suffixes lens'));
                         ("components", default JUndefined (assoc "components" props))]))
          false
     = Ok (arrays_of JUndefined T lens')) ->
  from_object from (JObj props) allowIndexed
  = Ok (entitled name indexed (arrays_of JUndefined T lens)).
Proof.
  intros HT Hv Hlens Hname Hind Htype Hchild.
  destruct (elementary_word T HT) as [Hw _].
  destruct (verifyBasicType_not_compound _ _ Hv) as [Ha Ht].
  unfold from_object. cbn [get bind].
  set (nm := default JUndefined (assoc "name" props)) in *.
  assert (Hcheck : negb (truthy nm)
                   || match nm with
                      | JStr n => bool_decide (is_Some (regexIdentifier n))
                      | _ => false
                      end = true).
  { destruct Hname as [[-> _] | [-> [-> | Hn]]]; [reflexivity | reflexivity |].
    cbn [truthy]. rewrite (word_not_empty _ Hn). cbn [negb orb].
    apply bool_decide_eq_true. unfold word in Hn. rewrite Hn. eauto. }
  rewrite Hcheck. cbn [assertArgument bind].
  assert (Hnm : match nm with JStr n => n | _ => "" end = name).
  { destruct Hname as [[-> ->] | [-> _]]; reflexivity. }
  rewrite Hnm.
  set (ix := default JUndefined (assoc "indexed" props)) in *.
  assert (Hix : (if negb (nullish ix)
                 then let* _ := assertArgument allowIndexed "parameter cannot be indexed"
                                  "obj.indexed" (AJs ix) in
                      Ok (JBool (truthy ix))
                 else Ok ix) = Ok indexed).
  { destruct Hind as [[-> Hn] | (-> & -> & ->)]; [now rewrite Hn | reflexivity]. }
  rewrite Hix. cbn [bind]. rewrite Htype. cbn [as_string bind].
  destruct lens as [|k lens _] using rev_ind.
  - cbn [suffixes fold_right]. rewrite app_empty_r.
    rewrite (regexArrayType_word T Hw), Ht, five_are_not_six.
    destruct (word_inv T Hw) as (c & w' & ET & Hc & _).
    assert (E1 : (substring_to 1 T =? "(")%string = false).
    { rewrite ET. cbn [substring_to]. apply String.eqb_neq. intros [= ->]. discriminate. }
    rewrite E1. cbn [orb]. rewrite Hv. cbn [bind].
    now apply ParamType_new_elementary.
  - apply Forall_app in Hlens as [Hlens Hk]. apply Forall_cons_iff in Hk as [Hk _].
    destruct (suffix_text_digits k Hk) as (ds & Es & Hds & Hlen).
    rewrite suffixes_app, Es, <- app_assoc_s.
    rewrite regexArrayType_suffix; [ | exact Hds | ].
    2:{ rewrite forallb_app, (suffixes_no_terminator lens Hlens), andb_true_r.
        destruct (word_inv T Hw) as (c & w' & ET & Hc & Hw').
        apply (forallb_impl _ _ _ id_char_not_terminator).
        rewrite ET. cbn [string_forallb]. unfold is_id_char at 1. rewrite Hc.
        cbn [orb andb]. rewrite <- Hw'. apply span_fst_all. }
    rewrite Hlen. cbn [bind]. rewrite (Hchild lens k eq_refl). cbn [bind].
    unfold arrays_of. rewrite fold_left_app. cbn [fold_left]. fold (arrays_of JUndefined T lens).
    unfold array_of, entitled.
    cbn [pt_type pt_baseType pt_components pt_arrayLength pt_arrayChildren].
    rewrite arrays_of_type, Es. reflexivity.
Qed.

(** The element types of an array type, read from the objects the object
    path makes for them. *)
Lemma from_fuel_element (T : string) (lens : list Z) :
  elementary T -> verifyBasicType T = Ok T -> Forall array_length lens ->
  forall (fuel : nat) (c : jsval),
    length lens < fuel ->
    ParamType_from_fuel fuel
      (PValue (JObj [("type", JStr (T +:+ suffixes lens)); ("components", c)])) false
    = Ok (arrays_of JUndefined T lens).
Proof.
  intros HT Hv. induction lens as [|k lens IH] using rev_ind; intros Hl fuel c Hf.
  - destruct fuel as [|fuel]; [lia|]. cbn [ParamType_from_fuel].
    rewrite (from_object_written _ _ T [] "" JUndefined false HT Hv Hl).
    + now rewrite entitled_same.
    + left. split; reflexivity.
    + left. split; reflexivity.
    + reflexivity.
    + intros [|? ?] ? E; discriminate E.
  - destruct fuel as [|fuel]; [lia|]. cbn [ParamType_from_fuel].
    pose proof Hl as Hl'. apply Forall_app in Hl' as [Hlens _].
    rewrite (from_object_written _ _ T (lens ++ [k]) "" JUndefined false HT Hv Hl).
    + now rewrite entitled_same.
    + left. split; reflexivity.
    + left. split; reflexivity.
    + reflexivity.
    + intros lens' k' E. apply app_inj_tail in E as [<- <-].
      apply IH; [exact Hlens|]. rewrite length_app in Hf. simpl in Hf. lia.
Qed.

Lemma suffixes_length (lens : list Z) : length lens <= String.length (suffixes lens).
Proof.
  induction lens as [|k lens IH]; [reflexivity|].
  cbn [suffixes fold_right length]. fold (suffixes lens).
  rewrite length_append. unfold suffix_text. cbn [String.append String.length]. lia.
Qed.

End Described.

(** X24.  The object path reads an elementary type under array suffixes as
    the text path does, with the same nesting and lengths, but for the
    [indexed] of the element types: they are [undefined] where the text
    path has [null], also when the object itself has [indexed: null]. *)
Theorem object_path_reads_array_types
        (T : string) (lens : list Z) (name : string) (indexed : jsval)
        (allowIndexed : bool) :
  elementary T -> verifyBasicType T = Ok T -> Forall array_length lens ->
  (name = "" \/ word name) ->
  (indexed = JNull \/ (indexed = JBool true /\ allowIndexed = true)) ->
  ParamType_from
    (PValue (JObj [("type", JStr (T +:+ suffixes lens)); ("name", JStr name);
                   ("indexed", indexed)])) allowIndexed
  = Ok (entitled name indexed (arrays_of JUndefined T lens)).
Proof.
  intros HT Hv Hlens Hname Hind.
  unfold ParamType_from, ParamSource_fuel. cbn [ParamType_from_fuel].
  apply (from_object_written _ _ T lens name indexed allowIndexed HT Hv Hlens).
  - right. split; [reflexivity | exact Hname].
  - destruct Hind as [-> | (-> & ->)]; [left | right]; repeat split.
  - reflexivity.
  - intros lens' k E. apply from_fuel_element; try assumption.
    + subst lens. now apply Forall_app in Hlens as [H _].
    + cbn [jsval_size map list_sum snd]. rewrite length_append.
      pose proof (suffixes_length lens) as H. subst lens.
      rewrite length_app in *. simpl in *. lia.
Qed.

Lemma object_path_reads_array_types_witness :
  ParamType_from
    (PValue (JObj [("type", JStr "uint8[3][]"); ("name", JStr "a"); ("indexed", JNull)]))
    false
  = Ok (mkParamType "a" "uint8[3][]" "array" JNull None (Some (-1)%Z)
          (Some (mkParamType "" "uint8[3]" "array" JUndefined None (Some 3%Z)
                   (Some (mkParamType "" "uint8" "uint8" JUndefined None None None))))).
Proof.
  apply (object_path_reads_array_types "uint8" [3; -1]%Z "a" JNull false).
  - exists (mkTypeMatch "uint8" None (Some "8")). split; reflexivity.
  - reflexivity.
  - repeat constructor; unfold array_length; lia.
  - right. reflexivity.
  - left. reflexivity.
Defined.

(** ** The types of the word tokens *)

Section Sound.

Lemma sound_push (tokens : list Token) (t : Token) :
  Forall sound tokens -> sound t -> Forall sound (tokens ++ [t]).
Proof. intros H Ht. apply Forall_app. split; [exact H | now constructor]. Qed.

Lemma sound_update (i : nat) (f : Token -> Token) (tokens tokens' : list Token) :
  update i f tokens = Ok tokens' -> Forall sound tokens ->
  (forall t, tokens !! i = Some t -> sound t -> sound (f t)) ->
  Forall sound tokens'.
Proof.
  unfold update. destruct (tokens !! i) as [t|] eqn:E; [|discriminate].
  intros [= <-] H Hf. apply Forall_insert; [exact H|].
  apply Hf; [reflexivity|]. exact (proj1 (Forall_lookup _ _) H _ _ E).
Qed.

Lemma sound_kept (i : nat) (f : Token -> Token) (tokens tokens' : list Token) :
  update i f tokens = Ok tokens' -> Forall sound tokens ->
  (forall t, tk_type (f t) = tk_type t /\ tk_text (f t) = tk_text t) ->
  Forall sound tokens'.
Proof.
  intros U H Hf. apply (sound_update _ _ _ _ U H).
  intros t _ Ht. unfold sound in *. now destruct (Hf t) as [-> ->].
Qed.

Lemma sound_removelast (tokens : list Token) :
  Forall sound tokens -> Forall sound (removelast tokens).
Proof.
  induction 1 as [|t l Ht Hl IH]; simpl; [constructor|].
  destruct l; [constructor | constructor; [exact Ht | exact IH]].
Qed.

Ltac kept := intros ?; split; reflexivity.

(** Reading a token keeps the word tokens sound. *)
Lemma lex_token_sound (cur : string) (offset : nat) (st st' : LexState) :
  Forall sound (lx_tokens st) -> lex_token cur offset st = Ok st' ->
  Forall sound (lx_tokens st').
Proof.
  intros H. destruct cur as [|c after]; [discriminate|].
  unfold lex_token.
  destruct (SimpleTokens c) as [ty|] eqn:Hc.
  - destruct (SimpleTokens_cases c ty Hc) as [-> | [-> | [-> | [-> | [-> | ->]]]]].
    + intros [= <-]. simpl. apply sound_push; [exact H | exact I].
    + destruct (lx_brackets st) as [|m bs]; [discriminate|].
      destruct (lx_commas st) as [|lb cs]; [discriminate|].
      destruct (update m _ _) as [tokens1| |] eqn:U1; cbn [bind]; try discriminate.
      destruct (update lb _ tokens1) as [tokens2| |] eqn:U2; cbn [bind]; try discriminate.
      intros [= <-]. simpl.
      eapply sound_kept; [exact U2 | | kept].
      eapply sound_kept; [exact U1 | | kept].
      apply sound_push; [exact H | exact I].
    + destruct (lx_commas st) as [|lb cs]; [discriminate|].
      destruct (update lb _ _) as [tokens1| |] eqn:U1; cbn [bind]; try discriminate.
      intros [= <-]. simpl.
      eapply sound_kept; [exact U1 | | kept].
      apply sound_push; [exact H | exact I].
    + intros [= <-]. simpl. apply sound_push; [exact H | exact I].
    + match goal with
      | |- bind ?m _ = _ -> _ => destruct m as [[tokens1 suffix1]| |] eqn:E1
      end; cbn [bind]; try discriminate.
      assert (H1 : Forall sound tokens1).
      { destruct (lx_tokens st !! _) as [t|]; [|now injection E1 as <- _].
        destruct (TokenType_eqb (tk_type t) NUMBER); [|now injection E1 as <- _].
        destruct (getNumber (tk_text t)) as [n| |]; cbn [bind] in E1; try discriminate.
        destruct (update _ _ _) as [tokens'| |] eqn:U; cbn [bind] in E1; try discriminate.
        injection E1 as <- _.
        eapply sound_kept; [exact U | now apply sound_removelast | kept]. }
      destruct (tokens1 !! _) as [t|] eqn:Ht; [|discriminate].
      destruct (TokenType_eqb (tk_type t) BRACKET) eqn:Hb; [|discriminate].
      destruct (update _ _ tokens1) as [tokens2| |] eqn:U; cbn [bind]; try discriminate.
      intros [= <-]. simpl.
      eapply sound_update; [exact U | exact H1 |].
      intros t' Ht' _. rewrite Ht in Ht'. injection Ht' as <-.
      apply TokenType_eqb_true in Hb. unfold sound. simpl. now rewrite Hb.
    + intros [= <-]. simpl. apply sound_push; [exact H | exact I].
  - destruct (regexIdentifier (String c after)) as [text|] eqn:Hid.
    + intros [= <-]. simpl. apply sound_push; [exact H|].
      pose proof (regexIdentifier_word _ _ Hid) as Hw.
      unfold sound. cbn [tk_type tk_text]. now destruct (classify text).
    + destruct (regexNumber (String c after)) as [text|]; [|discriminate].
      intros [= <-]. simpl. apply sound_push; [exact H | exact I].
Qed.

Lemma lex_loop_sound (text : string) (fuel : nat) (st : LexState) (tokens : list Token) :
  Forall sound (lx_tokens st) -> lex_loop fuel text st = Ok tokens -> Forall sound tokens.
Proof.
  revert st; induction fuel as [|fuel IH]; intros st H; simpl.
  - destruct (_ <? _); [discriminate|]. now intros [= <-].
  - destruct (_ <? _); [|now intros [= <-]].
    destruct (lex_step text st) as [st'| |] eqn:Hs; simpl; try discriminate.
    apply IH. exact (lex_token_sound _ _ _ _ H Hs).
Qed.

(** Every KEYWORD, TYPE and ID token of [lex] carries a word of its type. *)
Lemma lex_sound (text : string) (ts : TokenString) :
  lex text = Ok ts -> Forall sound (ts_tokens ts).
Proof.
  unfold lex.
  destruct (lex_loop _ text _) as [tokens| |] eqn:H; simpl; try discriminate.
  intros [= <-]. simpl. eapply lex_loop_sound; [|exact H]. constructor.
Qed.

(** The keywords [consumeKeywords] returns are keywords of the tokenizer. *)
Lemma consumeKeywords_sound (ts : TokenString) (allowed kws : list string)
      (ts' : TokenString) (k : string) :
  Forall sound (ts_tokens ts) ->
  consumeKeywords ts allowed = Ok (kws, ts') -> has kws k = true ->
  classify k = KEYWORD.
Proof.
  intros Hs H Hk. unfold consumeKeywords in H.
  apply consumeKeywords_loop_spec in H; [ | constructor | constructor].
  destruct H as (n & _ & _ & _ & _ & _ & -> & Hty & _).
  apply has_In in Hk. cbn [app] in Hk. apply in_map_iff in Hk as (t & <- & Ht).
  assert (Hin : In t (ts_tokens ts)).
  { apply list_elem_of_In. apply list_elem_of_In in Ht.
    apply elem_of_take in Ht as (i & Ht & _). unfold remaining in Ht.
    rewrite lookup_drop in Ht. now apply list_elem_of_lookup_2 in Ht. }
  assert (Hk : tk_type t = KEYWORD).
  { exact (proj1 (List.Forall_forall _ _) Hty t Ht). }
  pose proof (proj1 (List.Forall_forall _ _) Hs t Hin) as S.
  unfold sound in S. rewrite Hk in S. now destruct S as [_ ->].
Qed.

(** The token path of [EventFragment.from] on tokens of [lex]. *)
Lemma EventFragment_from_tokens_plain (ts : TokenString) (f : Fragment) :
  forward (ts_tokens ts) -> Forall sound (ts_tokens ts) ->
  EventFragment_from (FTokens ts) = Ok f -> is_anonymous f = false.
Proof.
  intros Hfw Hs. unfold EventFragment_from, with_tokens.
  destruct (consumeName_steady "event" ts) as [_ S1].
  destruct (consumeName "event" ts) as [[name obj1]| |]; cbn [bind]; try discriminate.
  specialize (S1 name obj1 eq_refl).
  destruct (consumeParams_steady obj1 true) as [_ S2]; [now rewrite S1|].
  destruct (consumeParams obj1 true) as [[inputs obj2]| |]; cbn [bind]; try discriminate.
  specialize (S2 inputs obj2 eq_refl).
  destruct (consumeKeywords obj2 (setify ["anonymous"])) as [[kws obj3]| |] eqn:K;
    cbn [bind]; try discriminate.
  destruct (consumeEoi obj3); cbn [bind]; try discriminate.
  destruct (NamedFragment_name (JStr name)); cbn [bind]; try discriminate.
  intros [= <-]. cbn [is_anonymous].
  destruct (has kws "anonymous") eqn:Hk; [|reflexivity].
  assert (Hs2 : Forall sound (ts_tokens obj2)) by (now rewrite S2, S1).
  pose proof (consumeKeywords_sound _ _ _ _ _ Hs2 K Hk) as C.
  vm_compute in C. discriminate C.
Qed.

End Sound.

(** X25.  No text gives an anonymous event.  [anonymous] is not among the
    keywords of the tokenizer, so [EventFragment.from] never finds it as a
    keyword: whatever event a text is read as, by [EventFragment.from] or
    by [Fragment.from], has [anonymous] false, and the full format of an
    anonymous event, which ends in the word, is never read back as that
    event. *)
Theorem no_text_gives_an_anonymous_event (s : string) (f : Fragment) :
  EventFragment_from (FValue (JStr s)) = Ok f \/ Fragment_from (FValue (JStr s)) = Ok f ->
  is_anonymous f = false.
Proof.
  intros [H | H].
  - unfold EventFragment_from, with_tokens in H.
    destruct (lex s) as [ts| |] eqn:L; cbn [bind] in H; try discriminate.
    destruct (lex_tokens _ _ L) as (_ & Hfw & _).
    apply (EventFragment_from_tokens_plain ts f Hfw (lex_sound _ _ L)).
    exact H.
  - rewrite Fragment_from_text in H.
    destruct (try_and_discard _); cbn [bind] in H; try discriminate.
    destruct (lex s) as [ts| |] eqn:L; cbn [bind] in H; try discriminate.
    destruct (lex_tokens _ _ L) as (_ & Hfw & _).
    replace (String.length s + 1) with (S (String.length s)) in H by lia.
    cbn [Fragment_from_fuel] in H.
    destruct (peekKeyword KwTypes ts) as [[kind|]| |]; cbn [bind] in H; try discriminate.
    destruct (dispatch kind) as [from|] eqn:Hd; [|discriminate].
    pose proof (dispatch_variant _ _ _ _ Hd H) as V.
    unfold dispatch in Hd.
    destruct (String.eqb_spec kind "constructor") as [->|_]; [now destruct f|].
    destruct (String.eqb_spec kind "error") as [->|_]; [now destruct f|].
    destruct (String.eqb_spec kind "event") as [->|_].
    { injection Hd as <-.
      exact (EventFragment_from_tokens_plain ts f Hfw (lex_sound _ _ L) H). }
    destruct (String.eqb_spec kind "fallback") as [->|_]; [now destruct f|].
    destruct (String.eqb_spec kind "receive") as [->|_]; [now destruct f|].
    destruct (String.eqb_spec kind "function") as [->|_]; [now destruct f|].
    destruct (String.eqb_spec kind "struct") as [->|_]; [now destruct f | discriminate].
Qed.

Lemma no_text_gives_an_anonymous_event_witness :
  is_anonymous (EventFragment "E" [mkParamType "a" "uint8" "uint8" JNull None None None] false)
  = false.
Proof.
  apply (no_text_gives_an_anonymous_event "event E(uint8 a)").
  left. vm_compute. reflexivity.
Defined.
